(** * Algorithmic GlassBox Simulator: the trace engine, verified

    A shallow embedding of [src/core/structures/MinHeap.ts],
    [src/core/engine/buildTrace.ts], [src/core/grid.ts] and the heuristic
    provider, followed by the properties of the trace engine.

    Conventions of the embedding.
    - A JavaScript [number] is an integer [Z]: costs, coordinates, depths
      and priorities.  Rounding, [NaN] and infinities of IEEE arithmetic
      are outside this model, with three exceptions: the [?? Infinity]
      defaults of [compareWhyNot] are kept as an explicit extended value;
      the product [totalNodes * 0.35] is rounded as IEEE doubles are; and
      the module [Nan] repeats the engine over numbers that may be NaN,
      for the runs from a grid key that is no cell.  The theorems that
      depend on what a key or a heuristic value is are stated for keys of
      integer cells and for the Manhattan heuristic or weight 0, where
      the integers are what the program computes.
    - Node keys are [string]s; [Set<string>] is [gset string] and
      [Map<string, V>] is [gmap string V] (the engine never iterates over
      them, so insertion order is not observable).
    - An optional field [g?: number] is an [option Z].
    - Record fields carry a short prefix ([it_key] for [FrontierItem.key],
      [hn_priority] for [HeapNode.priority], ...) because single letters
      and [at] cannot be projections.
    - Unbounded [while] loops take a fuel argument; every use is followed
      by a lemma that the fuel handed over is enough. *)

From Stdlib Require Import ZArith Lia Permutation Ascii String.
From stdpp Require Import gmap strings list fin_maps functions pretty sorting.

Local Open Scope Z_scope.

(* ===================================================================== *)
(** * [core/types.ts] *)
(* ===================================================================== *)

Inductive AlgorithmId := bfs | dfs | dijkstra | astar.
Inductive HeuristicId := manhattan | euclidean.

Record Coord := mkCoord { cx : Z; cy : Z }.

Record Grid := mkGrid { width : Z; height : Z; walls : gset string }.

Record GraphNode := mkGraphNode { gn_id : string; gn_at : Coord }.
Record GraphEdge := mkGraphEdge { e_from : string; e_to : string; e_cost : Z }.
Record Graph := mkGraph
  { directed : bool; nodes : list GraphNode; edges : list GraphEdge }.

(** [Environment]: the source reads [env.grid!] when [env.kind === "grid"]
    and [env.graph!] otherwise (kinds "graph" and "map"); the embedding is
    the tagged union these assertions presuppose. *)
Inductive Environment :=
| GridEnv (grid : Grid)
| GraphEnv (graph : Graph).

Record RunOptions := mkOptions
  { algorithm : AlgorithmId; heuristic : HeuristicId; heuristicWeight : Z }.

Inductive FrontierKind := queue | stack | minheap.

Record FrontierItem := mkItem
  { it_key : string;
    it_at : Coord;
    it_g : option Z;
    it_h : option Z;
    it_f : option Z;
    it_depth : option Z;
    it_priority : option Z }.

Record RelaxationEvent := mkRelax
  { rx_from : string; rx_to : string; rx_oldG : option Z; rx_newG : Z;
    rx_improved : bool }.

Inductive Metric := MetricG | MetricF | MetricDepth.

Inductive SelectionReason :=
| ReasonFifo
| ReasonLifo
| ReasonMin (metric : Metric) (value : Z)
| ReasonGoal.

(** A metric value: a number, or the [Number.POSITIVE_INFINITY] that
    [compareWhyNot] substitutes for an absent [g] or [f]. *)
Inductive ExtNum := Fin (z : Z) | PosInf.

Record RejectionReason := mkRejection
  { rj_candidate : FrontierItem;
    rj_chosen : FrontierItem;
    rj_metric : Metric;
    rj_candidateValue : ExtNum;
    rj_chosenValue : ExtNum }.

Inductive Phase :=
| PInit | PSelect | PExpand | PRelax | PEnqueue | PFound | PExhausted.

(** The [partial] argument of [pushStep]: every field of a [StepSnapshot]
    that the call site supplies. *)
Record Partial := mkPartial
  { phase : Phase;
    currentKey : option string;
    current : option Coord;
    selected : option FrontierItem;
    selectionReason : option SelectionReason;
    whyNot : option (list RejectionReason);
    relaxation : option RelaxationEvent;
    path : option (list Coord);
    warnings : option (list string) }.

(** [StepSnapshot] = the five copied containers, [index], [frontierKind]
    and [...partial]. *)
Record StepSnapshot := mkStep
  { index : nat;
    frontierKind : FrontierKind;
    frontier : list FrontierItem;
    visited : gset string;
    closed : gset string;
    cameFrom : gmap string string;
    gScore : gmap string Z;
    partial : Partial }.

Record Metrics := mkMetrics
  { explored : nat; relaxations : nat; peakFrontier : nat; peakClosed : nat;
    runtimeSteps : nat }.

Record Trace := mkTrace
  { tr_options : RunOptions;
    steps : list StepSnapshot;
    found : bool;
    tr_path : list Coord;
    metrics : Metrics }.

Global Instance AlgorithmId_eq_dec : EqDecision AlgorithmId.
Proof. solve_decision. Defined.
Global Instance Phase_eq_dec : EqDecision Phase.
Proof. solve_decision. Defined.
Global Instance FrontierKind_eq_dec : EqDecision FrontierKind.
Proof. solve_decision. Defined.
Global Instance ExtNum_eq_dec : EqDecision ExtNum.
Proof. solve_decision. Defined.
Global Instance Coord_eq_dec : EqDecision Coord.
Proof. solve_decision. Defined.

(* ===================================================================== *)
(** * [core/structures/MinHeap.ts] *)
(* ===================================================================== *)

Record HeapNode (T : Type) := mkNode
  { hn_id : string; hn_value : T; hn_priority : Z }.
Arguments mkNode {T} _ _ _.
Arguments hn_id {T} _.
Arguments hn_value {T} _.
Arguments hn_priority {T} _.

Module MinHeap.
Section Heap.
Context {T : Type}.
Local Abbreviation node := (HeapNode T).

(** [this.arr[i]!.priority]; the private loops only read indices below
    [arr.length], where the default is never used. *)
Definition prioAt (arr : list node) (i : nat) : Z :=
  match arr !! i with Some a => hn_priority a | None => 0 end.

(** [[arr[i], arr[j]] = [arr[j]!, arr[i]!]] *)
Definition swap (arr : list node) (i j : nat) : list node :=
  match arr !! i, arr !! j with
  | Some a, Some b => <[j:=a]> (<[i:=b]> arr)
  | _, _ => arr
  end.

(** [bubbleUp(i)]: [while (i > 0) { p = floor((i-1)/2); if (arr[p] <=
    arr[i]) break; swap; i = p }].  The index strictly decreases, so
    [fuel = i] iterations are enough ([bubbleUp_fuel]). *)
Fixpoint bubbleUp (fuel : nat) (arr : list node) (i : nat) : list node :=
  match fuel with
  | O => arr
  | S fuel' =>
      if bool_decide (0 < i)%nat then
        let p := ((i - 1) / 2)%nat in
        if bool_decide (prioAt arr p <= prioAt arr i) then arr
        else bubbleUp fuel' (swap arr p i) p
      else arr
  end.

(** [bubbleDown(i)]: the index at least doubles at each turn, so
    [arr.length] iterations are enough ([bubbleDown_fuel]). *)
Fixpoint bubbleDown (fuel : nat) (arr : list node) (i : nat) : list node :=
  match fuel with
  | O => arr
  | S fuel' =>
      let n := length arr in
      let l := (i * 2 + 1)%nat in
      let r := (i * 2 + 2)%nat in
      let smallest := i in
      let smallest :=
        if bool_decide (l < n)%nat && bool_decide (prioAt arr l < prioAt arr smallest)
        then l else smallest in
      let smallest :=
        if bool_decide (r < n)%nat && bool_decide (prioAt arr r < prioAt arr smallest)
        then r else smallest in
      if bool_decide (smallest = i) then arr
      else bubbleDown fuel' (swap arr i smallest) smallest
  end.

Definition size (arr : list node) : nat := length arr.

Definition peek (arr : list node) : option node := arr !! 0%nat.

(** [push(node)]: [arr.push(node); bubbleUp(arr.length - 1)] *)
Definition push (nd : node) (arr : list node) : list node :=
  let arr := arr ++ [nd] in
  bubbleUp (length arr - 1) arr (length arr - 1).

(** [pop()]: the returned node and the array afterwards. *)
Definition pop (arr : list node) : option node * list node :=
  match arr with
  | [] => (None, arr)
  | top :: _ =>
      let last := List.last arr top in
      let arr := removelast arr in
      if bool_decide (0 < length arr)%nat then
        let arr := <[0%nat:=last]> arr in
        (Some top, bubbleDown (length arr) arr 0)
      else (Some top, arr)
  end.
End Heap.
End MinHeap.

(* ===================================================================== *)
(** * [core/grid.ts] and the heuristic provider *)
(* ===================================================================== *)

(** The template string [`${c.x},${c.y}`]. *)
Definition keyOf (c : Coord) : string :=
  pretty (cx c) +:+ "," +:+ pretty (cy c).

(** [s.split(",")] *)
Fixpoint split_comma (s : string) : list string :=
  match s with
  | EmptyString => [EmptyString]
  | String c s' =>
      if bool_decide (c = ","%char) then EmptyString :: split_comma s'
      else match split_comma s' with
           | [] => [String c EmptyString]
           | p :: ps => String c p :: ps
           end
  end.

Definition digitOf (c : Ascii.ascii) : option Z :=
  let n := Z.of_nat (Ascii.nat_of_ascii c) in
  if bool_decide (48 <= n <= 57) then Some (n - 48) else None.

Fixpoint parseDigits (acc : Z) (s : string) : option Z :=
  match s with
  | EmptyString => Some acc
  | String c s' =>
      match digitOf c with
      | Some d => parseDigits (10 * acc + d) s'
      | None => None
      end
  end.

(** [Number(s)] on the decimal integer literals that [keyOf] prints (an
    optional minus sign and digits) and on the empty string, which is 0.
    Every other text is [NaN], a fraction or another literal in
    JavaScript and lies outside the integer model; it reads as 0 here,
    and so does the [undefined] of a key without a comma.  What is
    proved about the neighbours, the reach or the order of selection on
    a grid is therefore stated for keys of integer cells; [Nan.Number_]
    is the reading with NaN. *)
Definition Number_ (s : option string) : Z :=
  match s with
  | None => 0
  | Some EmptyString => 0
  | Some (String c s' as whole) =>
      if bool_decide (c = "-"%char) then
        match s' with
        | EmptyString => 0
        | _ => default 0 (Z.opp <$> parseDigits 0 s')
        end
      else default 0 (parseDigits 0 whole)
  end.

(** [coordOf(key)]: [const [xs, ys] = key.split(","); return { x:
    Number(xs), y: Number(ys) }] *)
Definition coordOf (key : string) : Coord :=
  let parts := split_comma key in
  {| cx := Number_ (parts !! 0%nat); cy := Number_ (parts !! 1%nat) |}.

(** [heuristicFn(id)].  The Manhattan distance of integer coordinates
    is the integer the source computes.  [Math.sqrt] is cut to the
    integer square root, which is the value of the source on perfect
    squares only; what is proved about costs and the order of selection
    with a heuristic is therefore stated for the Manhattan heuristic or
    for weight 0. *)
Definition heuristicFn (id : HeuristicId) (a b : Coord) : Z :=
  match id with
  | euclidean =>
      let dx := cx a - cx b in
      let dy := cy a - cy b in
      Z.sqrt (dx * dx + dy * dy)
  | manhattan => Z.abs (cx a - cx b) + Z.abs (cy a - cy b)
  end.

(* ===================================================================== *)
(** * [core/engine/buildTrace.ts]: helpers *)
(* ===================================================================== *)

Record Neighbor := mkNeighbor { nb_key : string; nb_cost : Z }.

Global Instance Neighbor_eq_dec : EqDecision Neighbor.
Proof. solve_decision. Defined.

Inductive AdapterKind := KGrid | KGraph.
Inductive CostMode := unit_cost | weighted.

Record Adapter := mkAdapter
  { kind : AdapterKind;
    coordOfKey : string -> Coord;
    neighbors : string -> list Neighbor;
    edgeCostMode : CostMode }.

Definition frontierKindFor (a : AlgorithmId) : FrontierKind :=
  match a with
  | bfs => queue
  | dfs => stack
  | dijkstra | astar => minheap
  end.

Definition makeItem (at_ : Coord) (key : string) (a : AlgorithmId)
    (g h depth w : Z) : FrontierItem :=
  match a with
  | bfs | dfs =>
      {| it_key := key; it_at := at_; it_g := None; it_h := None;
         it_f := None; it_depth := Some depth; it_priority := None |}
  | dijkstra =>
      {| it_key := key; it_at := at_; it_g := Some g; it_h := None;
         it_f := None; it_depth := None; it_priority := Some g |}
  | astar =>
      let f := g + w * h in
      {| it_key := key; it_at := at_; it_g := Some g; it_h := Some h;
         it_f := Some f; it_depth := None; it_priority := Some f |}
  end.

(** [x ?? Number.POSITIVE_INFINITY] and [depth ?? 0] *)
Definition metricValue (m : Metric) (it : FrontierItem) : ExtNum :=
  match m with
  | MetricDepth => Fin (default 0 (it_depth it))
  | MetricG => from_option Fin PosInf (it_g it)
  | MetricF => from_option Fin PosInf (it_f it)
  end.

(** The sign of [a - b] is not positive: the comparator of the [sort]
    call keeps [a] before [b].  [Infinity - Infinity] is [NaN], which
    [sort] reads as 0. *)
Definition ext_le (a b : ExtNum) : bool :=
  match a, b with
  | Fin x, Fin y => bool_decide (x <= y)
  | Fin _, PosInf => true
  | PosInf, Fin _ => false
  | PosInf, PosInf => true
  end.

(** [Array.prototype.sort] is a stable sort; stable insertion. *)
Fixpoint insert_sorted {A} (le : A -> A -> bool) (a : A) (l : list A) : list A :=
  match l with
  | [] => [a]
  | b :: l' => if le a b then a :: b :: l' else b :: insert_sorted le a l'
  end.

Definition stable_sort {A} (le : A -> A -> bool) (l : list A) : list A :=
  foldr (insert_sorted le) [] l.

Definition compareWhyNot (frontier : list FrontierItem) (chosen : FrontierItem)
    (metric : Metric) : list RejectionReason :=
  let chosenValue := metricValue metric chosen in
  let candidates :=
    filter (fun c : FrontierItem * ExtNum => c.2 <> chosenValue)
      (take 4
        (stable_sort (fun a b => ext_le a.2 b.2)
          ((fun candidate => (candidate, metricValue metric candidate)) <$>
            filter (fun x => it_key x <> it_key chosen) frontier))) in
  (fun c : FrontierItem * ExtNum =>
     {| rj_candidate := c.1; rj_chosen := chosen; rj_metric := metric;
        rj_candidateValue := c.2; rj_chosenValue := chosenValue |})
  <$> candidates.

(** ** The environment adapter *)

Definition gridNeighbors (grid : Grid) (key : string) : list Neighbor :=
  let c := coordOf key in
  let candidates :=
    [ {| cx := cx c + 1; cy := cy c |};
      {| cx := cx c - 1; cy := cy c |};
      {| cx := cx c; cy := cy c + 1 |};
      {| cx := cx c; cy := cy c - 1 |} ] in
  foldl (fun out nb =>
           if bool_decide (cx nb < 0) || bool_decide (cy nb < 0)
              || bool_decide (cx nb >= width grid)
              || bool_decide (cy nb >= height grid)
           then out
           else
             let nbKey := keyOf nb in
             if bool_decide (nbKey ∈ walls grid) then out
             else out ++ [ {| nb_key := nbKey; nb_cost := 1 |} ])
        [] candidates.

(** [new Map(g.nodes.map((n) => [n.id, n.at]))]: a later node with the
    same id overwrites an earlier one. *)
Definition nodeAt (g : Graph) : gmap string Coord :=
  foldl (fun m n => <[gn_id n := gn_at n]> m) ∅ (nodes g).

(** The adjacency loop [for (const e of g.edges)]. *)
Definition adjStep (dir : bool) (adj : gmap string (list Neighbor))
    (e : GraphEdge) : gmap string (list Neighbor) :=
  let arr := default [] (adj !! e_from e) ++
             [ {| nb_key := e_to e; nb_cost := e_cost e |} ] in
  let adj := <[e_from e := arr]> adj in
  if dir then adj
  else
    let arr2 := default [] (adj !! e_to e) ++
                [ {| nb_key := e_from e; nb_cost := e_cost e |} ] in
    <[e_to e := arr2]> adj.

Definition adjacency (g : Graph) : gmap string (list Neighbor) :=
  foldl (adjStep (directed g)) ∅ (edges g).

Definition adapterOf (env : Environment) : Adapter :=
  match env with
  | GridEnv grid =>
      {| kind := KGrid; coordOfKey := coordOf;
         neighbors := gridNeighbors grid; edgeCostMode := unit_cost |}
  | GraphEnv g =>
      let nodeAt := nodeAt g in
      let adj := adjacency g in
      {| kind := KGraph;
         coordOfKey := fun k => default {| cx := 0; cy := 0 |} (nodeAt !! k);
         neighbors := fun k => default [] (adj !! k);
         edgeCostMode := weighted |}
  end.

(** [reconstructPathCoords]: the [while (cur !== startK)] walk over the
    parent links, newest key first in [out].  The source loop has no
    bound; [None] stands for a walk that is not over after [fuel] turns. *)
Fixpoint walkBack (cameFromMap : gmap string string) (startK : string)
    (fuel : nat) (cur : string) (out : list string) : option (list string) :=
  if bool_decide (cur = startK) then Some out
  else
    match fuel with
    | O => None
    | S fuel' =>
        match cameFromMap !! cur with
        | None => Some out
        | Some prev =>
            (* [if (!prev) break;]: the empty string is falsy too *)
            if bool_decide (prev = EmptyString) then Some out
            else walkBack cameFromMap startK fuel' prev (prev :: out)
        end
    end.

Definition reconstructPathCoords (adapter : Adapter)
    (cameFromMap : gmap string string) (startK goalK : string)
    : option (list Coord) :=
  if bool_decide (startK = goalK) then Some [coordOfKey adapter startK]
  else
    match cameFromMap !! goalK with
    | None => Some []
    | Some _ =>
        (* [out] holds the keys goal-first while walking; [out.reverse()]
           is therefore the accumulator itself *)
        match walkBack cameFromMap startK (S (size cameFromMap)) goalK [goalK] with
        | Some out => Some (coordOfKey adapter <$> out)
        | None => None
        end
    end.

(* ===================================================================== *)
(** * [buildTrace]: the driver *)
(* ===================================================================== *)

(** The working variables of one invocation.  [st_steps] holds the
    snapshots newest first; [Trace.steps] is its reversal. *)
Record State := mkState
  { st_visited : gset string;
    st_closed : gset string;
    st_cameFrom : gmap string string;
    st_gScore : gmap string Z;
    st_steps : list StepSnapshot;
    st_relaxations : nat;
    st_peakFrontier : nat;
    st_peakClosed : nat;
    st_queue : list FrontierItem;
    st_stack : list FrontierItem;
    st_heap : list (HeapNode FrontierItem) }.

Inductive Flow := Continue | Break.

Definition WARN_CAP : string :=
  "Stopped early to avoid an infinite/very long run (iteration cap hit).".
Definition WARN_WEIGHTED_FOUND : string :=
  "This A* run uses a weighted heuristic (>1), which can be faster but may produce a suboptimal path.".
Definition WARN_BFS_GRID : string :=
  "BFS frontier is growing large — BFS can become memory-intensive on wide open maps.".
Definition WARN_BFS_GRAPH : string :=
  "BFS frontier is growing large — BFS can become memory-intensive on wide/branchy graphs.".
Definition WARN_DFS : string :=
  "DFS is going very deep — DFS can get “stuck” exploring long branches before finding a good route.".
Definition WARN_WEIGHTED : string :=
  "Weighted A*: heuristic is amplified — may trade optimality for speed.".

(** [addWarning(stepWarnings, msg)] *)
Definition addWarning (stepWarnings : list string) (msg : string) : list string :=
  if bool_decide (msg ∈ stepWarnings) then stepWarnings else stepWarnings ++ [msg].

Definition sizeBasis (env : Environment) : Z :=
  match env with
  | GridEnv grid => width grid * height grid
  | GraphEnv g => Z.of_nat (length (nodes g))
  end.

Definition minIterations : Z := 100.

Definition maxIterations (env : Environment) : Z :=
  Z.max minIterations (Z.min (sizeBasis env * 20) 10000).

(** ** What the call sites hand to [pushStep] *)

Definition selectionReasonOf (options : RunOptions) (sel : FrontierItem)
    : SelectionReason :=
  match algorithm options with
  | bfs => ReasonFifo
  | dfs => ReasonLifo
  | dijkstra => ReasonMin MetricG (default 0 (it_g sel))
  | astar =>
      ReasonMin MetricF
        (match it_f sel with
         | Some f => f
         | None => default 0 (it_priority sel)
         end)
  end.

(** [options.algorithm === "bfs" || options.algorithm === "dfs"] *)
Definition is_unweighted (options : RunOptions) : bool :=
  bool_decide (algorithm options = bfs) || bool_decide (algorithm options = dfs).

(** A step that carries the selected item and nothing else optional. *)
Definition partialOf (ph : Phase) (sel : option FrontierItem)
    (reason : option SelectionReason) : Partial :=
  {| phase := ph;
     currentKey := it_key <$> sel;
     current := it_at <$> sel;
     selected := sel;
     selectionReason := reason;
     whyNot := None; relaxation := None; path := None; warnings := None |}.

Definition whyNotMetric (options : RunOptions) : Metric :=
  if bool_decide (algorithm options = dijkstra) then MetricG else MetricF.

(** The "select" step; [frontierNow] is [frontierToArray()] after the
    selection. *)
Definition selectPartial (options : RunOptions) (sel : FrontierItem)
    (frontierNow : list FrontierItem) : Partial :=
  {| phase := PSelect; currentKey := Some (it_key sel);
     current := Some (it_at sel); selected := Some sel;
     selectionReason := Some (selectionReasonOf options sel);
     whyNot :=
       match frontierKindFor (algorithm options) with
       | minheap =>
           Some (compareWhyNot (sel :: frontierNow) sel (whyNotMetric options))
       | _ => None
       end;
     relaxation := None; path := None; warnings := None |}.

Definition foundPartial (options : RunOptions) (sel : FrontierItem)
    (p : list Coord) : Partial :=
  {| phase := PFound; currentKey := Some (it_key sel);
     current := Some (it_at sel); selected := Some sel;
     selectionReason := Some ReasonGoal; whyNot := None;
     relaxation := None; path := Some p;
     warnings :=
       if bool_decide (algorithm options = astar)
          && bool_decide (heuristicWeight options > 1)
       then Some [WARN_WEIGHTED_FOUND] else None |}.

Definition warnPartial (options : RunOptions) (sel : FrontierItem)
    (ws : list string) : Partial :=
  {| phase := PExpand; currentKey := Some (it_key sel);
     current := Some (it_at sel); selected := Some sel;
     selectionReason := Some (selectionReasonOf options sel); whyNot := None;
     relaxation := None; path := None; warnings := Some ws |}.

(** The "enqueue" and "relax" steps that carry a [RelaxationEvent]. *)
Definition relaxPartial (options : RunOptions) (ph : Phase)
    (sel : FrontierItem) (nbKey : string) (oldG : option Z) (newG : Z)
    : Partial :=
  {| phase := ph; currentKey := Some (it_key sel);
     current := Some (it_at sel); selected := Some sel;
     selectionReason := Some (selectionReasonOf options sel); whyNot := None;
     relaxation :=
       Some {| rx_from := it_key sel; rx_to := nbKey; rx_oldG := oldG;
               rx_newG := newG; rx_improved := true |};
     path := None; warnings := None |}.

Definition exhaustedPartial : Partial :=
  {| phase := PExhausted; currentKey := None; current := None;
     selected := None; selectionReason := None; whyNot := None;
     relaxation := None; path := None; warnings := Some [WARN_CAP] |}.

(** [n * 0.35] in IEEE double arithmetic, for an integer [n] below 2^53
    in size.  The double nearest to 0.35 is [6305039478318694 * 2^-54];
    the exact product is rounded to 53 significant bits, ties to even.
    [round53 p], for [p >= 0], is the rounded significand and the number
    of bits dropped; [timesPoint35 n = (m, e)] stands for the double
    [m * 2^e * 2^-54]. *)
Definition round53 (p : Z) : Z * Z :=
  if bool_decide (Z.log2 p < 53) then (p, 0)
  else
    let e := Z.log2 p - 52 in
    let q := Z.shiftr p e in
    let r := p mod 2 ^ e in
    let half := 2 ^ (e - 1) in
    if bool_decide (r > half) || (bool_decide (r = half) && Z.odd q)
    then (q + 1, e) else (q, e).

Definition timesPoint35 (n : Z) : Z * Z :=
  let p := n * 6305039478318694 in
  let qe := round53 (Z.abs p) in
  (Z.sgn p * qe.1, qe.2).

(** [x > d] for an integer [x] and a double [d = (m, e)]. *)
Definition exceeds (x : Z) (d : Z * Z) : bool :=
  bool_decide (x * 2 ^ 54 > d.1 * 2 ^ d.2).

(** The warnings computed after the "expand" snapshot; [frontierSize] is
    [frontierToArray().length]. *)
Definition expandWarnings (env : Environment) (options : RunOptions)
    (sel : FrontierItem) (frontierSize : nat) : list string :=
  let frontierSize := Z.of_nat frontierSize in
  let totalNodes := sizeBasis env in
  let warnings := [] in
  let warnings :=
    if bool_decide (algorithm options = bfs)
       && exceeds frontierSize (timesPoint35 totalNodes)
    then addWarning warnings
           (match env with
            | GridEnv _ => WARN_BFS_GRID
            | GraphEnv _ => WARN_BFS_GRAPH
            end)
    else warnings in
  let warnings :=
    if bool_decide (algorithm options = dfs)
       && exceeds (default 0 (it_depth sel)) (timesPoint35 totalNodes)
    then addWarning warnings WARN_DFS
    else warnings in
  let warnings :=
    if bool_decide (algorithm options = astar)
       && bool_decide (heuristicWeight options > 1)
    then addWarning warnings WARN_WEIGHTED
    else warnings in
  warnings.

(** [stepCost] of the neighbour loop. *)
Definition stepCostOf (options : RunOptions) (adapter : Adapter)
    (nb : Neighbor) : Z :=
  if is_unweighted options then 1
  else match edgeCostMode adapter with
       | weighted => nb_cost nb
       | unit_cost => 1
       end.

(** The item pushed for a neighbour by the cost-aware strategies. *)
Definition relaxedItem (options : RunOptions) (adapter : Adapter)
    (goalKey : string) (nbKey : string) (tentativeG curDepth : Z)
    : FrontierItem :=
  let nbCoord := coordOfKey adapter nbKey in
  let h :=
    if bool_decide (algorithm options = astar)
    then heuristicFn (heuristic options) nbCoord (coordOfKey adapter goalKey)
    else 0 in
  makeItem nbCoord nbKey (algorithm options) tentativeG h (curDepth + 1)
           (heuristicWeight options).

(** The item pushed for a neighbour by BFS and DFS. *)
Definition discoveredItem (options : RunOptions) (adapter : Adapter)
    (nbKey : string) (newG curDepth : Z) : FrontierItem :=
  makeItem (coordOfKey adapter nbKey) nbKey (algorithm options) newG 0
           (curDepth + 1) (heuristicWeight options).

Definition startItemOf (options : RunOptions) (adapter : Adapter)
    (startKey goalKey : string) : FrontierItem :=
  let start := coordOfKey adapter startKey in
  let goal := coordOfKey adapter goalKey in
  makeItem start startKey (algorithm options) 0
           (heuristicFn (heuristic options) start goal) 0
           (heuristicWeight options).

Definition heapNodeOf (it : FrontierItem) (fallback : Z) : HeapNode FrontierItem :=
  {| hn_id := it_key it; hn_value := it;
     hn_priority := default fallback (it_priority it) |}.

Section BuildTrace.
Variable env : Environment.
Variables startKey goalKey : string.
Variable options : RunOptions.

Local Abbreviation adapter := (adapterOf env).
Local Abbreviation fk := (frontierKindFor (algorithm options)).

Definition frontierToArray (st : State) : list FrontierItem :=
  match fk with
  | queue => st_queue st
  | stack => st_stack st
  | minheap => hn_value <$> st_heap st
  end.

Definition pushStep (p : Partial) (st : State) : State :=
  let frontier := frontierToArray st in
  let peakFrontier := Nat.max (st_peakFrontier st) (length frontier) in
  let peakClosed := Nat.max (st_peakClosed st) (size (st_closed st)) in
  let step :=
    {| index := length (st_steps st);
       frontierKind := fk;
       frontier := frontier;
       visited := st_visited st;
       closed := st_closed st;
       cameFrom := st_cameFrom st;
       gScore := st_gScore st;
       partial := p |} in
  {| st_visited := st_visited st; st_closed := st_closed st;
     st_cameFrom := st_cameFrom st; st_gScore := st_gScore st;
     st_steps := step :: st_steps st;
     st_relaxations := st_relaxations st;
     st_peakFrontier := peakFrontier; st_peakClosed := peakClosed;
     st_queue := st_queue st; st_stack := st_stack st;
     st_heap := st_heap st |}.

(** The frontier containers after [queue.push], [stack.pop], ... *)
Definition set_frontier (q s : list FrontierItem)
    (h : list (HeapNode FrontierItem)) (st : State) : State :=
  {| st_visited := st_visited st; st_closed := st_closed st;
     st_cameFrom := st_cameFrom st; st_gScore := st_gScore st;
     st_steps := st_steps st; st_relaxations := st_relaxations st;
     st_peakFrontier := st_peakFrontier st; st_peakClosed := st_peakClosed st;
     st_queue := q; st_stack := s; st_heap := h |}.

(** [visited], [closed], [cameFrom], [gScore] and [relaxations] after
    [closed.add], [cameFrom.set], ... *)
Definition set_books (v c : gset string) (cf : gmap string string)
    (gs : gmap string Z) (rel : nat) (st : State) : State :=
  {| st_visited := v; st_closed := c; st_cameFrom := cf; st_gScore := gs;
     st_steps := st_steps st; st_relaxations := rel;
     st_peakFrontier := st_peakFrontier st; st_peakClosed := st_peakClosed st;
     st_queue := st_queue st; st_stack := st_stack st; st_heap := st_heap st |}.

(** The state after the seed and the "init" snapshot. *)
Definition initState : State :=
  let startItem := startItemOf options adapter startKey goalKey in
  let st :=
    {| st_visited := {[ startKey ]}; st_closed := ∅; st_cameFrom := ∅;
       st_gScore := {[ startKey := 0 ]}; st_steps := [];
       st_relaxations := 0; st_peakFrontier := 0; st_peakClosed := 0;
       st_queue := if bool_decide (fk = queue) then [startItem] else [];
       st_stack := if bool_decide (fk = stack) then [startItem] else [];
       st_heap :=
         if bool_decide (fk = minheap)
         then MinHeap.push (heapNodeOf startItem 0) []
         else [] |} in
  pushStep (partialOf PInit None None) st.

(** The heap selection loop [while (true) { popped = heap.pop() ... }].
    Every turn removes one node, so [heap.size() + 1] turns are enough
    ([popFresh_fuel]). *)
Fixpoint popFresh (fuel : nat) (closedSet : gset string)
    (gScoreMap : gmap string Z) (h : list (HeapNode FrontierItem))
    : option FrontierItem * list (HeapNode FrontierItem) :=
  match fuel with
  | O => (None, h)
  | S fuel' =>
      match MinHeap.pop h with
      | (None, h') => (None, h')
      | (Some nd, h') =>
          let popped := hn_value nd in
          if bool_decide (it_key popped ∈ closedSet) then
            popFresh fuel' closedSet gScoreMap h'
          else
            match gScoreMap !! it_key popped, it_g popped with
            | Some bestKnown, Some g =>
                if bool_decide (g > bestKnown) then
                  popFresh fuel' closedSet gScoreMap h'
                else (Some popped, h')
            | _, _ => (Some popped, h')
            end
      end
  end.

(** The selection of one iteration. *)
Definition select (st : State) : option FrontierItem * State :=
  match fk with
  | queue =>
      match st_queue st with
      | [] => (None, st)
      | it :: q => (Some it, set_frontier q (st_stack st) (st_heap st) st)
      end
  | stack =>
      match st_stack st with
      | [] => (None, st)
      | top :: _ =>
          (Some (List.last (st_stack st) top),
           set_frontier (st_queue st) (removelast (st_stack st)) (st_heap st) st)
      end
  | minheap =>
      let sh :=
        popFresh (S (length (st_heap st))) (st_closed st) (st_gScore st)
                 (st_heap st) in
      (sh.1, set_frontier (st_queue st) (st_stack st) sh.2 st)
  end.

(** One turn of [for (const nb of neighborList)]. *)
Definition relaxNeighbor (sel : FrontierItem) (curG curDepth : Z)
    (st : State) (nb : Neighbor) : State :=
  let nbKey := nb_key nb in
  if bool_decide (nbKey ∈ st_closed st) then st
  else
    let stepCost := stepCostOf options adapter nb in
    if is_unweighted options then
      if bool_decide (nbKey ∈ st_visited st) then st
      else
        let st := set_books ({[ nbKey ]} ∪ st_visited st) (st_closed st)
                    (<[nbKey := it_key sel]> (st_cameFrom st))
                    (st_gScore st) (st_relaxations st) st in
        let nbItem :=
          discoveredItem options adapter nbKey (curG + stepCost) curDepth in
        let st :=
          pushStep
            (relaxPartial options PEnqueue sel nbKey None (curG + stepCost)) st in
        let st :=
          if bool_decide (fk = queue)
          then set_frontier (st_queue st ++ [nbItem]) (st_stack st) (st_heap st) st
          else set_frontier (st_queue st) (st_stack st ++ [nbItem]) (st_heap st) st in
        pushStep
          (partialOf PEnqueue (Some sel) (Some (selectionReasonOf options sel))) st
    else
      let tentativeG := curG + stepCost in
      let oldG := st_gScore st !! nbKey in
      let improved :=
        match oldG with
        | None => true
        | Some o => bool_decide (tentativeG < o)
        end in
      if negb improved then st
      else
        let st := set_books ({[ nbKey ]} ∪ st_visited st) (st_closed st)
                    (<[nbKey := it_key sel]> (st_cameFrom st))
                    (<[nbKey := tentativeG]> (st_gScore st))
                    (S (st_relaxations st)) st in
        let nbItem :=
          relaxedItem options adapter goalKey nbKey tentativeG curDepth in
        let st :=
          pushStep (relaxPartial options PRelax sel nbKey oldG tentativeG) st in
        let st :=
          set_frontier (st_queue st) (st_stack st)
            (MinHeap.push (heapNodeOf nbItem tentativeG) (st_heap st)) st in
        pushStep
          (partialOf PEnqueue (Some sel) (Some (selectionReasonOf options sel))) st.

(** [closed.add(selected.key)], the "expand" snapshot and, when a warning
    fires, the second "expand" snapshot. *)
Definition expand (sel : FrontierItem) (st : State) : State :=
  let st := set_books (st_visited st) ({[ it_key sel ]} ∪ st_closed st)
              (st_cameFrom st) (st_gScore st) (st_relaxations st) st in
  let st :=
    pushStep
      (partialOf PExpand (Some sel) (Some (selectionReasonOf options sel))) st in
  let warnings_ :=
    expandWarnings env options sel (length (frontierToArray st)) in
  if bool_decide (0 < length warnings_)%nat
  then pushStep (warnPartial options sel warnings_) st
  else st.

(** The neighbour loop of an expanded item. *)
Definition relaxAll (sel : FrontierItem) (st : State) : State :=
  let curG := default 0 (st_gScore st !! it_key sel) in
  let curDepth := default 0 (it_depth sel) in
  foldl (relaxNeighbor sel curG curDepth) st (neighbors adapter (it_key sel)).

(** The body of the main loop after the iteration-cap test.  [None]: the
    path walk of a "found" step does not end. *)
Definition body (st : State) : option (Flow * State) :=
  let '(sel, st) := select st in
  match sel with
  | None => Some (Break, st)
  | Some sel =>
      if bool_decide (it_key sel ∈ st_closed st) then Some (Continue, st)
      else
        let st := pushStep (selectPartial options sel (frontierToArray st)) st in
        if bool_decide (it_key sel = goalKey) then
          match reconstructPathCoords adapter (st_cameFrom st) startKey goalKey with
          | None => None
          | Some p => Some (Break, pushStep (foundPartial options sel p) st)
          end
        else Some (Continue, relaxAll sel (expand sel st))
  end.

(** [while (frontierToArray().length > 0) { iterations++; ... }].  The
    result carries the final value of [iterations].  The loop leaves by
    itself once [iterations] exceeds [maxIterations]; [fuel] counts the
    turns still allowed, and [None] is also the answer when it runs out
    ([runLoop_returns]: it never does). *)
Fixpoint mainLoop (fuel : nat) (iterations : Z) (st : State)
    : option (Z * State) :=
  if bool_decide (0 < length (frontierToArray st))%nat then
    match fuel with
    | O => None
    | S fuel' =>
        let iterations := iterations + 1 in
        if bool_decide (iterations > maxIterations env) then
          Some (iterations, pushStep exhaustedPartial st)
        else
          match body st with
          | None => None
          | Some (Break, st') => Some (iterations, st')
          | Some (Continue, st') => mainLoop fuel' iterations st'
          end
    end
  else Some (iterations, st).

(** The last "found" snapshot that carries a path (an array is truthy
    even when empty). *)
Fixpoint lastFoundPath (rsteps : list StepSnapshot) : list Coord :=
  match rsteps with
  | [] => []
  | s :: rest =>
      match phase (partial s), path (partial s) with
      | PFound, Some p => p
      | _, _ => lastFoundPath rest
      end
  end.

Definition traceOf (st : State) : Trace :=
  let steps_ := reverse (st_steps st) in
  let found_ := existsb (fun s => bool_decide (phase (partial s) = PFound)) steps_ in
  {| tr_options := options;
     steps := steps_;
     found := found_;
     tr_path := if found_ then lastFoundPath (st_steps st) else [];
     metrics :=
       {| explored := size (st_closed st);
          relaxations := st_relaxations st;
          peakFrontier := st_peakFrontier st;
          peakClosed := st_peakClosed st;
          runtimeSteps := length steps_ |} |}.

Definition runLoop : option (Z * State) :=
  mainLoop (S (Z.to_nat (maxIterations env))) 0 initState.

Definition buildTrace : option Trace :=
  match runLoop with
  | Some (_, st) => Some (traceOf st)
  | None => None
  end.
End BuildTrace.

(* ===================================================================== *)
(** * The engine over numbers that may be NaN *)
(* ===================================================================== *)

(** On a grid, [coordOf] reads a key that is not the text of a cell as
    a coordinate with NaN, and then every heuristic value and every A*
    priority of the run is NaN.  The integer model above has no such
    number.  This module repeats the engine over numbers that are an
    integer or NaN, to evaluate runs from such keys.  Grids, graphs and
    options are those of the integer model. *)
Module Nan.

Inductive num := Int (z : Z) | NaN.

(** [a + b], [a - b], [a * b] and [Math.abs(a)]: NaN when an operand is. *)
Definition add (a b : num) : num :=
  match a, b with Int x, Int y => Int (x + y) | _, _ => NaN end.
Definition sub (a b : num) : num :=
  match a, b with Int x, Int y => Int (x - y) | _, _ => NaN end.
Definition mul (a b : num) : num :=
  match a, b with Int x, Int y => Int (x * y) | _, _ => NaN end.
Definition abs (a : num) : num :=
  match a with Int x => Int (Z.abs x) | NaN => NaN end.

(** [a < b], [a <= b], [a > b] and [a >= b]: false when an operand is
    NaN. *)
Definition lt (a b : num) : bool :=
  match a, b with Int x, Int y => bool_decide (x < y) | _, _ => false end.
Definition le (a b : num) : bool :=
  match a, b with Int x, Int y => bool_decide (x <= y) | _, _ => false end.
Definition gt (a b : num) : bool := lt b a.
Definition ge (a b : num) : bool := le b a.

(** [`${a}`] *)
Definition toString (a : num) : string :=
  match a with Int x => pretty x | NaN => "NaN" end.

(** ** [core/types.ts] *)

Definition IntCoord := Coord.
Definition int_x (c : IntCoord) : Z := cx c.
Definition int_y (c : IntCoord) : Z := cy c.

Record Coord := mkCoord { cx : num; cy : num }.

(** The coordinate of a graph node, an integer pair of the input. *)
Definition ofInt (c : IntCoord) : Coord :=
  {| cx := Int (int_x c); cy := Int (int_y c) |}.

Record FrontierItem := mkItem
  { it_key : string;
    it_at : Coord;
    it_g : option num;
    it_h : option num;
    it_f : option num;
    it_depth : option num;
    it_priority : option num }.

Record RelaxationEvent := mkRelax
  { rx_from : string; rx_to : string; rx_oldG : option num; rx_newG : num;
    rx_improved : bool }.

Inductive SelectionReason :=
| ReasonFifo
| ReasonLifo
| ReasonMin (metric : Metric) (value : num)
| ReasonGoal.

(** A metric value: a number, or the [Number.POSITIVE_INFINITY] that
    [compareWhyNot] substitutes for an absent [g] or [f]. *)
Inductive ExtNum := Fin (n : num) | PosInf.

Record RejectionReason := mkRejection
  { rj_candidate : FrontierItem;
    rj_chosen : FrontierItem;
    rj_metric : Metric;
    rj_candidateValue : ExtNum;
    rj_chosenValue : ExtNum }.

Record Partial := mkPartial
  { phase : Phase;
    currentKey : option string;
    current : option Coord;
    selected : option FrontierItem;
    selectionReason : option SelectionReason;
    whyNot : option (list RejectionReason);
    relaxation : option RelaxationEvent;
    path : option (list Coord);
    warnings : option (list string) }.

Record StepSnapshot := mkStep
  { index : nat;
    frontierKind : FrontierKind;
    frontier : list FrontierItem;
    visited : gset string;
    closed : gset string;
    cameFrom : gmap string string;
    gScore : gmap string num;
    partial : Partial }.

Record Trace := mkTrace
  { tr_options : RunOptions;
    steps : list StepSnapshot;
    found : bool;
    tr_path : list Coord;
    metrics : Metrics }.

(** ** [core/structures/MinHeap.ts] *)

Record HeapNode := mkNode
  { hn_id : string; hn_value : FrontierItem; hn_priority : num }.

Definition prioAt (arr : list HeapNode) (i : nat) : num :=
  match arr !! i with Some a => hn_priority a | None => Int 0 end.

Definition swap (arr : list HeapNode) (i j : nat) : list HeapNode :=
  match arr !! i, arr !! j with
  | Some a, Some b => <[j:=a]> (<[i:=b]> arr)
  | _, _ => arr
  end.

(** [bubbleUp(i)]; [arr[p].priority <= arr[i].priority] is false when a
    priority is NaN, and the node moves up. *)
Fixpoint bubbleUp (fuel : nat) (arr : list HeapNode) (i : nat)
    : list HeapNode :=
  match fuel with
  | O => arr
  | S fuel' =>
      if bool_decide (0 < i)%nat then
        let p := ((i - 1) / 2)%nat in
        if le (prioAt arr p) (prioAt arr i) then arr
        else bubbleUp fuel' (swap arr p i) p
      else arr
  end.

(** [bubbleDown(i)]; [<] is false when a priority is NaN, and the node
    stays. *)
Fixpoint bubbleDown (fuel : nat) (arr : list HeapNode) (i : nat)
    : list HeapNode :=
  match fuel with
  | O => arr
  | S fuel' =>
      let n := length arr in
      let l := (i * 2 + 1)%nat in
      let r := (i * 2 + 2)%nat in
      let smallest := i in
      let smallest :=
        if bool_decide (l < n)%nat && lt (prioAt arr l) (prioAt arr smallest)
        then l else smallest in
      let smallest :=
        if bool_decide (r < n)%nat && lt (prioAt arr r) (prioAt arr smallest)
        then r else smallest in
      if bool_decide (smallest = i) then arr
      else bubbleDown fuel' (swap arr i smallest) smallest
  end.

Definition push (nd : HeapNode) (arr : list HeapNode) : list HeapNode :=
  let arr := arr ++ [nd] in
  bubbleUp (length arr - 1) arr (length arr - 1).

Definition pop (arr : list HeapNode) : option HeapNode * list HeapNode :=
  match arr with
  | [] => (None, arr)
  | top :: _ =>
      let last := List.last arr top in
      let arr := removelast arr in
      if bool_decide (0 < length arr)%nat then
        let arr := <[0%nat:=last]> arr in
        (Some top, bubbleDown (length arr) arr 0)
      else (Some top, arr)
  end.

(** ** [core/grid.ts] and the heuristic provider *)

Definition keyOf (c : Coord) : string :=
  toString (cx c) +:+ "," +:+ toString (cy c).

(** [Number(s)]: the integer of a decimal integer literal with an
    optional sign, 0 for the empty string, and NaN for [undefined] and
    for a text that is no numeric literal.  The other numeric literals
    (a fraction, an exponent, a hexadecimal, octal or binary literal,
    [Infinity], white space around a number) are not numbers of this
    module; a key with such a part is outside it. *)
Definition Number_ (s : option string) : num :=
  match s with
  | None => NaN
  | Some EmptyString => Int 0
  | Some (String c s' as whole) =>
      if bool_decide (c = "-"%char) then
        match s' with
        | EmptyString => NaN
        | _ => from_option (λ z, Int (- z)) NaN (parseDigits 0 s')
        end
      else if bool_decide (c = "+"%char) then
        match s' with
        | EmptyString => NaN
        | _ => from_option Int NaN (parseDigits 0 s')
        end
      else from_option Int NaN (parseDigits 0 whole)
  end.

Definition coordOf (key : string) : Coord :=
  let parts := split_comma key in
  {| cx := Number_ (parts !! 0%nat); cy := Number_ (parts !! 1%nat) |}.

(** [heuristicFn("manhattan")].  The Euclidean function takes a square
    root, which is no number of this module; the engine below takes the
    function [hFn = heuristicFn(options.heuristic)] as it is given. *)
Definition manhattanFn (a b : Coord) : num :=
  add (abs (sub (cx a) (cx b))) (abs (sub (cy a) (cy b))).

(** ** [core/engine/buildTrace.ts]: helpers *)

Record Adapter := mkAdapter
  { kind : AdapterKind;
    coordOfKey : string -> Coord;
    neighbors : string -> list Neighbor;
    edgeCostMode : CostMode }.

Definition makeItem (at_ : Coord) (key : string) (a : AlgorithmId)
    (g h depth : num) (w : Z) : FrontierItem :=
  match a with
  | bfs | dfs =>
      {| it_key := key; it_at := at_; it_g := None; it_h := None;
         it_f := None; it_depth := Some depth; it_priority := None |}
  | dijkstra =>
      {| it_key := key; it_at := at_; it_g := Some g; it_h := None;
         it_f := None; it_depth := None; it_priority := Some g |}
  | astar =>
      let f := add g (mul (Int w) h) in
      {| it_key := key; it_at := at_; it_g := Some g; it_h := Some h;
         it_f := Some f; it_depth := None; it_priority := Some f |}
  end.

Definition metricValue (m : Metric) (it : FrontierItem) : ExtNum :=
  match m with
  | MetricDepth => Fin (default (Int 0) (it_depth it))
  | MetricG => from_option Fin PosInf (it_g it)
  | MetricF => from_option Fin PosInf (it_f it)
  end.

(** The comparator [a.candidateValue - b.candidateValue] of the [sort]
    call keeps [a] before [b] when the difference is not positive; a
    difference that is NaN reads as 0.  A difference is NaN when an
    operand is, and for two infinities. *)
Definition ext_le (a b : ExtNum) : bool :=
  match a, b with
  | Fin (Int x), Fin (Int y) => bool_decide (x <= y)
  | Fin NaN, _ | _, Fin NaN => true
  | Fin (Int _), PosInf => true
  | PosInf, Fin (Int _) => false
  | PosInf, PosInf => true
  end.

(** [a !== b]: NaN differs from every number, also from NaN. *)
Definition ext_ne (a b : ExtNum) : bool :=
  match a, b with
  | Fin (Int x), Fin (Int y) => bool_decide (x ≠ y)
  | PosInf, PosInf => false
  | _, _ => true
  end.

Definition compareWhyNot (frontier : list FrontierItem) (chosen : FrontierItem)
    (metric : Metric) : list RejectionReason :=
  let chosenValue := metricValue metric chosen in
  let candidates :=
    filter (fun c : FrontierItem * ExtNum => ext_ne c.2 chosenValue)
      (take 4
        (stable_sort (fun a b => ext_le a.2 b.2)
          ((fun candidate => (candidate, metricValue metric candidate)) <$>
            filter (fun x => it_key x <> it_key chosen) frontier))) in
  (fun c : FrontierItem * ExtNum =>
     {| rj_candidate := c.1; rj_chosen := chosen; rj_metric := metric;
        rj_candidateValue := c.2; rj_chosenValue := chosenValue |})
  <$> candidates.

(** ** The environment adapter *)

Definition gridNeighbors (grid : Grid) (key : string) : list Neighbor :=
  let c := coordOf key in
  let candidates :=
    [ {| cx := add (cx c) (Int 1); cy := cy c |};
      {| cx := sub (cx c) (Int 1); cy := cy c |};
      {| cx := cx c; cy := add (cy c) (Int 1) |};
      {| cx := cx c; cy := sub (cy c) (Int 1) |} ] in
  foldl (fun out nb =>
           if lt (cx nb) (Int 0) || lt (cy nb) (Int 0)
              || ge (cx nb) (Int (width grid))
              || ge (cy nb) (Int (height grid))
           then out
           else
             let nbKey := keyOf nb in
             if bool_decide (nbKey ∈ walls grid) then out
             else out ++ [ {| nb_key := nbKey; nb_cost := 1 |} ])
        [] candidates.

Definition adapterOf (env : Environment) : Adapter :=
  match env with
  | GridEnv grid =>
      {| kind := KGrid; coordOfKey := coordOf;
         neighbors := gridNeighbors grid; edgeCostMode := unit_cost |}
  | GraphEnv g =>
      let nodeAt := nodeAt g in
      let adj := adjacency g in
      {| kind := KGraph;
         coordOfKey :=
           fun k => default {| cx := Int 0; cy := Int 0 |}
                            (ofInt <$> nodeAt !! k);
         neighbors := fun k => default [] (adj !! k);
         edgeCostMode := weighted |}
  end.

Definition reconstructPathCoords (adapter : Adapter)
    (cameFromMap : gmap string string) (startK goalK : string)
    : option (list Coord) :=
  if bool_decide (startK = goalK) then Some [coordOfKey adapter startK]
  else
    match cameFromMap !! goalK with
    | None => Some []
    | Some _ =>
        match walkBack cameFromMap startK (S (size cameFromMap)) goalK [goalK] with
        | Some out => Some (coordOfKey adapter <$> out)
        | None => None
        end
    end.

(** ** [buildTrace]: the driver *)

Record State := mkState
  { st_visited : gset string;
    st_closed : gset string;
    st_cameFrom : gmap string string;
    st_gScore : gmap string num;
    st_steps : list StepSnapshot;
    st_relaxations : nat;
    st_peakFrontier : nat;
    st_peakClosed : nat;
    st_queue : list FrontierItem;
    st_stack : list FrontierItem;
    st_heap : list HeapNode }.

Definition selectionReasonOf (options : RunOptions) (sel : FrontierItem)
    : SelectionReason :=
  match algorithm options with
  | bfs => ReasonFifo
  | dfs => ReasonLifo
  | dijkstra => ReasonMin MetricG (default (Int 0) (it_g sel))
  | astar =>
      ReasonMin MetricF
        (match it_f sel with
         | Some f => f
         | None => default (Int 0) (it_priority sel)
         end)
  end.

Definition partialOf (ph : Phase) (sel : option FrontierItem)
    (reason : option SelectionReason) : Partial :=
  {| phase := ph;
     currentKey := it_key <$> sel;
     current := it_at <$> sel;
     selected := sel;
     selectionReason := reason;
     whyNot := None; relaxation := None; path := None; warnings := None |}.

Definition selectPartial (options : RunOptions) (sel : FrontierItem)
    (frontierNow : list FrontierItem) : Partial :=
  {| phase := PSelect; currentKey := Some (it_key sel);
     current := Some (it_at sel); selected := Some sel;
     selectionReason := Some (selectionReasonOf options sel);
     whyNot :=
       match frontierKindFor (algorithm options) with
       | minheap =>
           Some (compareWhyNot (sel :: frontierNow) sel (whyNotMetric options))
       | _ => None
       end;
     relaxation := None; path := None; warnings := None |}.

Definition foundPartial (options : RunOptions) (sel : FrontierItem)
    (p : list Coord) : Partial :=
  {| phase := PFound; currentKey := Some (it_key sel);
     current := Some (it_at sel); selected := Some sel;
     selectionReason := Some ReasonGoal; whyNot := None;
     relaxation := None; path := Some p;
     warnings :=
       if bool_decide (algorithm options = astar)
          && bool_decide (heuristicWeight options > 1)
       then Some [WARN_WEIGHTED_FOUND] else None |}.

Definition warnPartial (options : RunOptions) (sel : FrontierItem)
    (ws : list string) : Partial :=
  {| phase := PExpand; currentKey := Some (it_key sel);
     current := Some (it_at sel); selected := Some sel;
     selectionReason := Some (selectionReasonOf options sel); whyNot := None;
     relaxation := None; path := None; warnings := Some ws |}.

Definition relaxPartial (options : RunOptions) (ph : Phase)
    (sel : FrontierItem) (nbKey : string) (oldG : option num) (newG : num)
    : Partial :=
  {| phase := ph; currentKey := Some (it_key sel);
     current := Some (it_at sel); selected := Some sel;
     selectionReason := Some (selectionReasonOf options sel); whyNot := None;
     relaxation :=
       Some {| rx_from := it_key sel; rx_to := nbKey; rx_oldG := oldG;
               rx_newG := newG; rx_improved := true |};
     path := None; warnings := None |}.

Definition exhaustedPartial : Partial :=
  {| phase := PExhausted; currentKey := None; current := None;
     selected := None; selectionReason := None; whyNot := None;
     relaxation := None; path := None; warnings := Some [WARN_CAP] |}.

(** [x > totalNodes * 0.35] for a number [x] *)
Definition exceedsN (x : num) (d : Z * Z) : bool :=
  match x with Int z => exceeds z d | NaN => false end.

Definition expandWarnings (env : Environment) (options : RunOptions)
    (sel : FrontierItem) (frontierSize : nat) : list string :=
  let frontierSize := Z.of_nat frontierSize in
  let totalNodes := sizeBasis env in
  let warnings := [] in
  let warnings :=
    if bool_decide (algorithm options = bfs)
       && exceeds frontierSize (timesPoint35 totalNodes)
    then addWarning warnings
           (match env with
            | GridEnv _ => WARN_BFS_GRID
            | GraphEnv _ => WARN_BFS_GRAPH
            end)
    else warnings in
  let warnings :=
    if bool_decide (algorithm options = dfs)
       && exceedsN (default (Int 0) (it_depth sel)) (timesPoint35 totalNodes)
    then addWarning warnings WARN_DFS
    else warnings in
  let warnings :=
    if bool_decide (algorithm options = astar)
       && bool_decide (heuristicWeight options > 1)
    then addWarning warnings WARN_WEIGHTED
    else warnings in
  warnings.

Definition stepCostOf (options : RunOptions) (adapter : Adapter)
    (nb : Neighbor) : num :=
  if is_unweighted options then Int 1
  else match edgeCostMode adapter with
       | weighted => Int (nb_cost nb)
       | unit_cost => Int 1
       end.

Definition heapNodeOf (it : FrontierItem) (fallback : num) : HeapNode :=
  {| hn_id := it_key it; hn_value := it;
     hn_priority := default fallback (it_priority it) |}.

Section BuildTrace.
(** [hFn = heuristicFn(options.heuristic)] *)
Variable hFn : Coord → Coord → num.
Variable env : Environment.
Variables startKey goalKey : string.
Variable options : RunOptions.

Local Abbreviation adapter := (adapterOf env).
Local Abbreviation fk := (frontierKindFor (algorithm options)).

Definition relaxedItem (nbKey : string) (tentativeG curDepth : num)
    : FrontierItem :=
  let nbCoord := coordOfKey adapter nbKey in
  let h :=
    if bool_decide (algorithm options = astar)
    then hFn nbCoord (coordOfKey adapter goalKey)
    else Int 0 in
  makeItem nbCoord nbKey (algorithm options) tentativeG h
           (add curDepth (Int 1)) (heuristicWeight options).

Definition discoveredItem (nbKey : string) (newG curDepth : num)
    : FrontierItem :=
  makeItem (coordOfKey adapter nbKey) nbKey (algorithm options) newG (Int 0)
           (add curDepth (Int 1)) (heuristicWeight options).

Definition startItemOf : FrontierItem :=
  let start := coordOfKey adapter startKey in
  let goal := coordOfKey adapter goalKey in
  makeItem start startKey (algorithm options) (Int 0) (hFn start goal)
           (Int 0) (heuristicWeight options).

Definition frontierToArray (st : State) : list FrontierItem :=
  match fk with
  | queue => st_queue st
  | stack => st_stack st
  | minheap => hn_value <$> st_heap st
  end.

Definition pushStep (p : Partial) (st : State) : State :=
  let frontier := frontierToArray st in
  let peakFrontier := Nat.max (st_peakFrontier st) (length frontier) in
  let peakClosed := Nat.max (st_peakClosed st) (size (st_closed st)) in
  let step :=
    {| index := length (st_steps st);
       frontierKind := fk;
       frontier := frontier;
       visited := st_visited st;
       closed := st_closed st;
       cameFrom := st_cameFrom st;
       gScore := st_gScore st;
       partial := p |} in
  {| st_visited := st_visited st; st_closed := st_closed st;
     st_cameFrom := st_cameFrom st; st_gScore := st_gScore st;
     st_steps := step :: st_steps st;
     st_relaxations := st_relaxations st;
     st_peakFrontier := peakFrontier; st_peakClosed := peakClosed;
     st_queue := st_queue st; st_stack := st_stack st;
     st_heap := st_heap st |}.

Definition set_frontier (q s : list FrontierItem) (h : list HeapNode)
    (st : State) : State :=
  {| st_visited := st_visited st; st_closed := st_closed st;
     st_cameFrom := st_cameFrom st; st_gScore := st_gScore st;
     st_steps := st_steps st; st_relaxations := st_relaxations st;
     st_peakFrontier := st_peakFrontier st; st_peakClosed := st_peakClosed st;
     st_queue := q; st_stack := s; st_heap := h |}.

Definition set_books (v c : gset string) (cf : gmap string string)
    (gs : gmap string num) (rel : nat) (st : State) : State :=
  {| st_visited := v; st_closed := c; st_cameFrom := cf; st_gScore := gs;
     st_steps := st_steps st; st_relaxations := rel;
     st_peakFrontier := st_peakFrontier st; st_peakClosed := st_peakClosed st;
     st_queue := st_queue st; st_stack := st_stack st; st_heap := st_heap st |}.

Definition initState : State :=
  let startItem := startItemOf in
  let st :=
    {| st_visited := {[ startKey ]}; st_closed := ∅; st_cameFrom := ∅;
       st_gScore := {[ startKey := Int 0 ]}; st_steps := [];
       st_relaxations := 0; st_peakFrontier := 0; st_peakClosed := 0;
       st_queue := if bool_decide (fk = queue) then [startItem] else [];
       st_stack := if bool_decide (fk = stack) then [startItem] else [];
       st_heap :=
         if bool_decide (fk = minheap)
         then push (heapNodeOf startItem (Int 0)) []
         else [] |} in
  pushStep (partialOf PInit None None) st.

Fixpoint popFresh (fuel : nat) (closedSet : gset string)
    (gScoreMap : gmap string num) (h : list HeapNode)
    : option FrontierItem * list HeapNode :=
  match fuel with
  | O => (None, h)
  | S fuel' =>
      match pop h with
      | (None, h') => (None, h')
      | (Some nd, h') =>
          let popped := hn_value nd in
          if bool_decide (it_key popped ∈ closedSet) then
            popFresh fuel' closedSet gScoreMap h'
          else
            match gScoreMap !! it_key popped, it_g popped with
            | Some bestKnown, Some g =>
                if gt g bestKnown then
                  popFresh fuel' closedSet gScoreMap h'
                else (Some popped, h')
            | _, _ => (Some popped, h')
            end
      end
  end.

Definition select (st : State) : option FrontierItem * State :=
  match fk with
  | queue =>
      match st_queue st with
      | [] => (None, st)
      | it :: q => (Some it, set_frontier q (st_stack st) (st_heap st) st)
      end
  | stack =>
      match st_stack st with
      | [] => (None, st)
      | top :: _ =>
          (Some (List.last (st_stack st) top),
           set_frontier (st_queue st) (removelast (st_stack st)) (st_heap st) st)
      end
  | minheap =>
      let sh :=
        popFresh (S (length (st_heap st))) (st_closed st) (st_gScore st)
                 (st_heap st) in
      (sh.1, set_frontier (st_queue st) (st_stack st) sh.2 st)
  end.

Definition relaxNeighbor (sel : FrontierItem) (curG curDepth : num)
    (st : State) (nb : Neighbor) : State :=
  let nbKey := nb_key nb in
  if bool_decide (nbKey ∈ st_closed st) then st
  else
    let stepCost := stepCostOf options adapter nb in
    if is_unweighted options then
      if bool_decide (nbKey ∈ st_visited st) then st
      else
        let st := set_books ({[ nbKey ]} ∪ st_visited st) (st_closed st)
                    (<[nbKey := it_key sel]> (st_cameFrom st))
                    (st_gScore st) (st_relaxations st) st in
        let nbItem := discoveredItem nbKey (add curG stepCost) curDepth in
        let st :=
          pushStep
            (relaxPartial options PEnqueue sel nbKey None (add curG stepCost))
            st in
        let st :=
          if bool_decide (fk = queue)
          then set_frontier (st_queue st ++ [nbItem]) (st_stack st) (st_heap st) st
          else set_frontier (st_queue st) (st_stack st ++ [nbItem]) (st_heap st) st in
        pushStep
          (partialOf PEnqueue (Some sel) (Some (selectionReasonOf options sel))) st
    else
      let tentativeG := add curG stepCost in
      let oldG := st_gScore st !! nbKey in
      let improved :=
        match oldG with
        | None => true
        | Some o => lt tentativeG o
        end in
      if negb improved then st
      else
        let st := set_books ({[ nbKey ]} ∪ st_visited st) (st_closed st)
                    (<[nbKey := it_key sel]> (st_cameFrom st))
                    (<[nbKey := tentativeG]> (st_gScore st))
                    (S (st_relaxations st)) st in
        let nbItem := relaxedItem nbKey tentativeG curDepth in
        let st :=
          pushStep (relaxPartial options PRelax sel nbKey oldG tentativeG) st in
        let st :=
          set_frontier (st_queue st) (st_stack st)
            (push (heapNodeOf nbItem tentativeG) (st_heap st)) st in
        pushStep
          (partialOf PEnqueue (Some sel) (Some (selectionReasonOf options sel))) st.

Definition expand (sel : FrontierItem) (st : State) : State :=
  let st := set_books (st_visited st) ({[ it_key sel ]} ∪ st_closed st)
              (st_cameFrom st) (st_gScore st) (st_relaxations st) st in
  let st :=
    pushStep
      (partialOf PExpand (Some sel) (Some (selectionReasonOf options sel))) st in
  let warnings_ :=
    expandWarnings env options sel (length (frontierToArray st)) in
  if bool_decide (0 < length warnings_)%nat
  then pushStep (warnPartial options sel warnings_) st
  else st.

Definition relaxAll (sel : FrontierItem) (st : State) : State :=
  let curG := default (Int 0) (st_gScore st !! it_key sel) in
  let curDepth := default (Int 0) (it_depth sel) in
  foldl (relaxNeighbor sel curG curDepth) st (neighbors adapter (it_key sel)).

Definition body (st : State) : option (Flow * State) :=
  let '(sel, st) := select st in
  match sel with
  | None => Some (Break, st)
  | Some sel =>
      if bool_decide (it_key sel ∈ st_closed st) then Some (Continue, st)
      else
        let st := pushStep (selectPartial options sel (frontierToArray st)) st in
        if bool_decide (it_key sel = goalKey) then
          match reconstructPathCoords adapter (st_cameFrom st) startKey goalKey with
          | None => None
          | Some p => Some (Break, pushStep (foundPartial options sel p) st)
          end
        else Some (Continue, relaxAll sel (expand sel st))
  end.

(** [fuel] bounds the turns as in the integer model: the loop leaves by
    itself once [iterations] exceeds [maxIterations]. *)
Fixpoint mainLoop (fuel : nat) (iterations : Z) (st : State)
    : option (Z * State) :=
  if bool_decide (0 < length (frontierToArray st))%nat then
    match fuel with
    | O => None
    | S fuel' =>
        let iterations := iterations + 1 in
        if bool_decide (iterations > maxIterations env) then
          Some (iterations, pushStep exhaustedPartial st)
        else
          match body st with
          | None => None
          | Some (Break, st') => Some (iterations, st')
          | Some (Continue, st') => mainLoop fuel' iterations st'
          end
    end
  else Some (iterations, st).

Fixpoint lastFoundPath (rsteps : list StepSnapshot) : list Coord :=
  match rsteps with
  | [] => []
  | s :: rest =>
      match phase (partial s), path (partial s) with
      | PFound, Some p => p
      | _, _ => lastFoundPath rest
      end
  end.

Definition traceOf (st : State) : Trace :=
  let steps_ := reverse (st_steps st) in
  let found_ := existsb (fun s => bool_decide (phase (partial s) = PFound)) steps_ in
  {| tr_options := options;
     steps := steps_;
     found := found_;
     tr_path := if found_ then lastFoundPath (st_steps st) else [];
     metrics :=
       {| explored := size (st_closed st);
          relaxations := st_relaxations st;
          peakFrontier := st_peakFrontier st;
          peakClosed := st_peakClosed st;
          runtimeSteps := length steps_ |} |}.

Definition buildTrace : option Trace :=
  match mainLoop (S (Z.to_nat (maxIterations env))) 0 initState with
  | Some (_, st) => Some (traceOf st)
  | None => None
  end.
End BuildTrace.

(** The keys of the "select" snapshots, in order. *)
Definition selectedKeys (t : Trace) : list (option string) :=
  (currentKey ∘ partial) <$>
    filter (fun s => phase (partial s) = PSelect) (steps t).

End Nan.


(* ===================================================================== *)
(** * The same code over a store of mutable objects *)
(* ===================================================================== *)

(** The sets, maps and arrays of the source are mutable objects, and a
    snapshot holds references to five of them.  Here every such object
    lives at a location of a store; [new Set(x)], [new Map(x)], [[...x]]
    and [x.map(f)] allocate a fresh location, [x.add], [x.set], [x.push],
    [x.pop], [x.shift] and [x[i] = v] overwrite the object at the location
    of [x]. *)

Abbreviation loc := nat (only parsing).

Inductive Obj (T : Type) :=
| OSet (s : gset string)
| OMapS (m : gmap string string)
| OMapZ (m : gmap string Z)
| OItems (a : list FrontierItem)
| ONodes (a : list (HeapNode T)).
Arguments OSet {T} _.
Arguments OMapS {T} _.
Arguments OMapZ {T} _.
Arguments OItems {T} _.
Arguments ONodes {T} _.

(** A location is an index; allocation appends. *)
Abbreviation Store T := (list (Obj T)).

Section StoreOps.
Context {T : Type}.

Definition alloc (o : Obj T) (σ : Store T) : loc * Store T :=
  (length σ, σ ++ [o]).

Definition getSet (σ : Store T) (l : loc) : gset string :=
  match σ !! l with Some (OSet s) => s | _ => ∅ end.
Definition getMapS (σ : Store T) (l : loc) : gmap string string :=
  match σ !! l with Some (OMapS m) => m | _ => ∅ end.
Definition getMapZ (σ : Store T) (l : loc) : gmap string Z :=
  match σ !! l with Some (OMapZ m) => m | _ => ∅ end.
Definition getItems (σ : Store T) (l : loc) : list FrontierItem :=
  match σ !! l with Some (OItems a) => a | _ => [] end.
Definition getNodes (σ : Store T) (l : loc) : list (HeapNode T) :=
  match σ !! l with Some (ONodes a) => a | _ => [] end.
End StoreOps.

(** ** [class MinHeap<T>] as an object: an instance is the location of its
    private array [arr], which is assigned once, in the constructor. *)
Module MinHeapObj.
Section Obj.
Context {T : Type}.

Definition new (σ : Store T) : loc * Store T := alloc (ONodes []) σ.

Definition size (h : loc) (σ : Store T) : nat := length (getNodes σ h).

(** [toArray() { return [...this.arr]; }] *)
Definition toArray (h : loc) (σ : Store T) : loc * Store T :=
  alloc (ONodes (getNodes σ h)) σ.

Definition peek (h : loc) (σ : Store T) : option (HeapNode T) :=
  getNodes σ h !! 0%nat.

Definition push (h : loc) (nd : HeapNode T) (σ : Store T) : Store T :=
  <[h := ONodes (MinHeap.push nd (getNodes σ h))]> σ.

Definition pop (h : loc) (σ : Store T) : option (HeapNode T) * Store T :=
  let '(r, a) := MinHeap.pop (getNodes σ h) in
  (r, <[h := ONodes a]> σ).

(** A client of one heap instance: any sequence of calls. *)
Inductive Call := CallPush (nd : HeapNode T) | CallPop | CallToArray.

Definition call (h : loc) (c : Call) (σ : Store T) : Store T :=
  match c with
  | CallPush nd => push h nd σ
  | CallPop => (pop h σ).2
  | CallToArray => (toArray h σ).2
  end.

Definition calls (h : loc) (cs : list Call) (σ : Store T) : Store T :=
  foldl (fun σ c => call h c σ) σ cs.
End Obj.
End MinHeapObj.

(** ** The driver *)

(** The working objects of one invocation, in the order of their
    declarations in [buildTrace]: [visited], [closed], [cameFrom],
    [gScore], [queue], [stack] and the array of [heap]. *)
Definition visitedRef : loc := 0%nat.
Definition closedRef : loc := 1%nat.
Definition cameFromRef : loc := 2%nat.
Definition gScoreRef : loc := 3%nat.
Definition queueRef : loc := 4%nat.
Definition stackRef : loc := 5%nat.
Definition heapRef : loc := 6%nat.

Definition initStore : Store FrontierItem :=
  [OSet ∅; OSet ∅; OMapS ∅; OMapZ ∅; OItems []; OItems []; ONodes []].

(** A snapshot as the source builds it: five references and [...partial]. *)
Record HStep := mkHStep
  { h_index : nat;
    h_frontierKind : FrontierKind;
    h_frontier : loc;
    h_visited : loc;
    h_closed : loc;
    h_cameFrom : loc;
    h_gScore : loc;
    h_partial : Partial }.

(** The store, the [steps] array (newest first) and the three counters. *)
Record HState := mkHState
  { hs_store : Store FrontierItem;
    hs_steps : list HStep;
    hs_relaxations : nat;
    hs_peakFrontier : nat;
    hs_peakClosed : nat }.

Definition with_store (f : Store FrontierItem -> Store FrontierItem)
    (hs : HState) : HState :=
  {| hs_store := f (hs_store hs); hs_steps := hs_steps hs;
     hs_relaxations := hs_relaxations hs;
     hs_peakFrontier := hs_peakFrontier hs;
     hs_peakClosed := hs_peakClosed hs |}.

Section BuildTraceH.
Variable env : Environment.
Variables startKey goalKey : string.
Variable options : RunOptions.

Local Abbreviation adapter := (adapterOf env).
Local Abbreviation fk := (frontierKindFor (algorithm options)).

(** [frontierToArray()]: a fresh array at each call; for the heap,
    [heap.toArray()] is one fresh array and [.map((n) => n.value)] a
    second one. *)
Definition frontierToArrayH (σ : Store FrontierItem)
    : loc * Store FrontierItem :=
  match fk with
  | queue => alloc (OItems (getItems σ queueRef)) σ
  | stack => alloc (OItems (getItems σ stackRef)) σ
  | minheap =>
      let tσ := MinHeapObj.toArray heapRef σ in
      alloc (OItems (hn_value <$> getNodes tσ.2 tσ.1)) tσ.2
  end.

Definition pushStepH (p : Partial) (hs : HState) : HState :=
  let fσ := frontierToArrayH (hs_store hs) in
  let frontier := fσ.1 in
  let σ := fσ.2 in
  let peakFrontier :=
    Nat.max (hs_peakFrontier hs) (length (getItems σ frontier)) in
  let peakClosed :=
    Nat.max (hs_peakClosed hs) (size (getSet σ closedRef)) in
  let vσ := alloc (OSet (getSet σ visitedRef)) σ in
  let cσ := alloc (OSet (getSet vσ.2 closedRef)) vσ.2 in
  let mσ := alloc (OMapS (getMapS cσ.2 cameFromRef)) cσ.2 in
  let gσ := alloc (OMapZ (getMapZ mσ.2 gScoreRef)) mσ.2 in
  let step :=
    {| h_index := length (hs_steps hs);
       h_frontierKind := fk;
       h_frontier := frontier;
       h_visited := vσ.1; h_closed := cσ.1; h_cameFrom := mσ.1;
       h_gScore := gσ.1;
       h_partial := p |} in
  {| hs_store := gσ.2; hs_steps := step :: hs_steps hs;
     hs_relaxations := hs_relaxations hs;
     hs_peakFrontier := peakFrontier; hs_peakClosed := peakClosed |}.

(** ** Updates in place *)

Definition setAdd (l : loc) (k : string) (σ : Store FrontierItem)
    : Store FrontierItem :=
  <[l := OSet ({[ k ]} ∪ getSet σ l)]> σ.
Definition mapSetS (l : loc) (k v : string) (σ : Store FrontierItem)
    : Store FrontierItem :=
  <[l := OMapS (<[k := v]> (getMapS σ l))]> σ.
Definition mapSetZ (l : loc) (k : string) (v : Z) (σ : Store FrontierItem)
    : Store FrontierItem :=
  <[l := OMapZ (<[k := v]> (getMapZ σ l))]> σ.
Definition arrayPush (l : loc) (it : FrontierItem) (σ : Store FrontierItem)
    : Store FrontierItem :=
  <[l := OItems (getItems σ l ++ [it])]> σ.

Definition initStateH : HState :=
  let startItem := startItemOf options adapter startKey goalKey in
  let σ := initStore in
  let σ := setAdd visitedRef startKey σ in
  let σ := mapSetZ gScoreRef startKey 0 σ in
  let σ := if bool_decide (fk = queue) then arrayPush queueRef startItem σ else σ in
  let σ := if bool_decide (fk = stack) then arrayPush stackRef startItem σ else σ in
  let σ :=
    if bool_decide (fk = minheap)
    then MinHeapObj.push heapRef (heapNodeOf startItem 0) σ
    else σ in
  pushStepH (partialOf PInit None None)
    {| hs_store := σ; hs_steps := []; hs_relaxations := 0;
       hs_peakFrontier := 0; hs_peakClosed := 0 |}.

Fixpoint popFreshH (fuel : nat) (σ : Store FrontierItem)
    : option FrontierItem * Store FrontierItem :=
  match fuel with
  | O => (None, σ)
  | S fuel' =>
      match MinHeapObj.pop heapRef σ with
      | (None, σ) => (None, σ)
      | (Some nd, σ) =>
          let popped := hn_value nd in
          if bool_decide (it_key popped ∈ getSet σ closedRef) then
            popFreshH fuel' σ
          else
            match getMapZ σ gScoreRef !! it_key popped, it_g popped with
            | Some bestKnown, Some g =>
                if bool_decide (g > bestKnown) then popFreshH fuel' σ
                else (Some popped, σ)
            | _, _ => (Some popped, σ)
            end
      end
  end.

Definition selectH (σ : Store FrontierItem)
    : option FrontierItem * Store FrontierItem :=
  match fk with
  | queue =>
      match getItems σ queueRef with
      | [] => (None, σ)
      | it :: q => (Some it, <[queueRef := OItems q]> σ)
      end
  | stack =>
      match getItems σ stackRef with
      | [] => (None, σ)
      | top :: _ =>
          (Some (List.last (getItems σ stackRef) top),
           <[stackRef := OItems (removelast (getItems σ stackRef))]> σ)
      end
  | minheap => popFreshH (S (MinHeapObj.size heapRef σ)) σ
  end.

Definition relaxNeighborH (sel : FrontierItem) (curG curDepth : Z)
    (hs : HState) (nb : Neighbor) : HState :=
  let nbKey := nb_key nb in
  if bool_decide (nbKey ∈ getSet (hs_store hs) closedRef) then hs
  else
    let stepCost := stepCostOf options adapter nb in
    if is_unweighted options then
      if bool_decide (nbKey ∈ getSet (hs_store hs) visitedRef) then hs
      else
        let hs := with_store (setAdd visitedRef nbKey) hs in
        let hs := with_store (mapSetS cameFromRef nbKey (it_key sel)) hs in
        let nbItem :=
          discoveredItem options adapter nbKey (curG + stepCost) curDepth in
        let hs :=
          pushStepH
            (relaxPartial options PEnqueue sel nbKey None (curG + stepCost)) hs in
        let hs :=
          with_store
            (arrayPush (if bool_decide (fk = queue) then queueRef else stackRef)
                       nbItem) hs in
        pushStepH
          (partialOf PEnqueue (Some sel) (Some (selectionReasonOf options sel))) hs
    else
      let tentativeG := curG + stepCost in
      let oldG := getMapZ (hs_store hs) gScoreRef !! nbKey in
      let improved :=
        match oldG with
        | None => true
        | Some o => bool_decide (tentativeG < o)
        end in
      if negb improved then hs
      else
        let hs := with_store (mapSetS cameFromRef nbKey (it_key sel)) hs in
        let hs := with_store (mapSetZ gScoreRef nbKey tentativeG) hs in
        let hs := with_store (setAdd visitedRef nbKey) hs in
        let hs :=
          {| hs_store := hs_store hs; hs_steps := hs_steps hs;
             hs_relaxations := S (hs_relaxations hs);
             hs_peakFrontier := hs_peakFrontier hs;
             hs_peakClosed := hs_peakClosed hs |} in
        let nbItem :=
          relaxedItem options adapter goalKey nbKey tentativeG curDepth in
        let hs :=
          pushStepH (relaxPartial options PRelax sel nbKey oldG tentativeG) hs in
        let hs :=
          with_store (MinHeapObj.push heapRef (heapNodeOf nbItem tentativeG)) hs in
        pushStepH
          (partialOf PEnqueue (Some sel) (Some (selectionReasonOf options sel))) hs.

(** [frontierToArray().length] and the store with the fresh array. *)
Definition frontierLengthH (hs : HState) : nat * HState :=
  let fσ := frontierToArrayH (hs_store hs) in
  (length (getItems fσ.2 fσ.1), with_store (fun _ => fσ.2) hs).

Definition expandH (sel : FrontierItem) (hs : HState) : HState :=
  let hs := with_store (setAdd closedRef (it_key sel)) hs in
  let hs :=
    pushStepH
      (partialOf PExpand (Some sel) (Some (selectionReasonOf options sel))) hs in
  let nhs := frontierLengthH hs in
  let warnings_ := expandWarnings env options sel nhs.1 in
  if bool_decide (0 < length warnings_)%nat
  then pushStepH (warnPartial options sel warnings_) nhs.2
  else nhs.2.

Definition relaxAllH (sel : FrontierItem) (hs : HState) : HState :=
  let curG := default 0 (getMapZ (hs_store hs) gScoreRef !! it_key sel) in
  let curDepth := default 0 (it_depth sel) in
  foldl (relaxNeighborH sel curG curDepth) hs (neighbors adapter (it_key sel)).

Definition bodyH (hs : HState) : option (Flow * HState) :=
  let sσ := selectH (hs_store hs) in
  let hs := with_store (fun _ => sσ.2) hs in
  match sσ.1 with
  | None => Some (Break, hs)
  | Some sel =>
      if bool_decide (it_key sel ∈ getSet (hs_store hs) closedRef)
      then Some (Continue, hs)
      else
        let fσ := frontierToArrayH (hs_store hs) in
        let frontierNow := getItems fσ.2 fσ.1 in
        let hs := with_store (fun _ => fσ.2) hs in
        let hs := pushStepH (selectPartial options sel frontierNow) hs in
        if bool_decide (it_key sel = goalKey) then
          match reconstructPathCoords adapter
                  (getMapS (hs_store hs) cameFromRef) startKey goalKey with
          | None => None
          | Some p => Some (Break, pushStepH (foundPartial options sel p) hs)
          end
        else Some (Continue, relaxAllH sel (expandH sel hs))
  end.

Fixpoint mainLoopH (fuel : nat) (iterations : Z) (hs : HState)
    : option (Z * HState) :=
  let nhs := frontierLengthH hs in
  if bool_decide (0 < nhs.1)%nat then
    match fuel with
    | O => None
    | S fuel' =>
        let iterations := iterations + 1 in
        if bool_decide (iterations > maxIterations env) then
          Some (iterations, pushStepH exhaustedPartial nhs.2)
        else
          match bodyH nhs.2 with
          | None => None
          | Some (Break, hs') => Some (iterations, hs')
          | Some (Continue, hs') => mainLoopH fuel' iterations hs'
          end
    end
  else Some (iterations, nhs.2).

Definition runLoopH : option (Z * HState) :=
  mainLoopH (S (Z.to_nat (maxIterations env))) 0 initStateH.
End BuildTraceH.

(** What a snapshot shows when its five references are followed in a
    store. *)
Definition readStep (σ : Store FrontierItem) (h : HStep) : StepSnapshot :=
  {| index := h_index h;
     frontierKind := h_frontierKind h;
     frontier := getItems σ (h_frontier h);
     visited := getSet σ (h_visited h);
     closed := getSet σ (h_closed h);
     cameFrom := getMapS σ (h_cameFrom h);
     gScore := getMapZ σ (h_gScore h);
     partial := h_partial h |}.

(* ===================================================================== *)
(** * The binary heap: order invariant and contents *)
(* ===================================================================== *)

Module HeapFacts.
Import MinHeap.
Section Facts.
Context {T : Type}.
Local Abbreviation node := (HeapNode T).
Implicit Types arr : list node.
Implicit Types i j k : nat.

Local Open Scope nat_scope.

Definition parent (i : nat) : nat := (i - 1) / 2.

(** Every node is at least as large as its parent. *)
Definition heapOrdered arr : Prop :=
  ∀ j, 0 < j < length arr → (prioAt arr (parent j) <= prioAt arr j)%Z.

(** Ordered everywhere except between [i] and its parent; the children
    of [i] already dominate the parent of [i]. *)
Definition upOK arr i : Prop :=
  (∀ j, 0 < j < length arr → j ≠ i →
        (prioAt arr (parent j) <= prioAt arr j)%Z) ∧
  (∀ j, 0 < j < length arr → parent j = i → 0 < i →
        (prioAt arr (parent i) <= prioAt arr j)%Z).

(** Ordered everywhere except between [i] and its children; the children
    of [i] already dominate the parent of [i]. *)
Definition downOK arr i : Prop :=
  (∀ j, 0 < j < length arr → parent j ≠ i →
        (prioAt arr (parent j) <= prioAt arr j)%Z) ∧
  (∀ j, 0 < j < length arr → parent j = i → 0 < i →
        (prioAt arr (parent i) <= prioAt arr j)%Z).

Lemma parent_lt i : 0 < i → parent i < i.
Proof.
  intros Hi. unfold parent.
  pose proof (Nat.div_mod_eq (i - 1) 2) as E.
  pose proof (Nat.mod_upper_bound (i - 1) 2). lia.
Qed.

Lemma parent_left i : parent (i * 2 + 1) = i.
Proof.
  unfold parent. replace (i * 2 + 1 - 1) with (i * 2) by lia.
  apply Nat.div_mul. lia.
Qed.

Lemma parent_right i : parent (i * 2 + 2) = i.
Proof.
  unfold parent. replace (i * 2 + 2 - 1) with (1 + i * 2) by lia.
  rewrite Nat.div_add by lia. reflexivity.
Qed.

Lemma parent_children i j :
  0 < j → parent j = i → j = i * 2 + 1 ∨ j = i * 2 + 2.
Proof.
  unfold parent. intros Hj <-.
  pose proof (Nat.div_mod_eq (j - 1) 2) as E.
  pose proof (Nat.mod_upper_bound (j - 1) 2). lia.
Qed.

Lemma swap_length arr i j : length (swap arr i j) = length arr.
Proof.
  unfold swap. destruct (arr !! i), (arr !! j); try reflexivity.
  by rewrite !length_insert.
Qed.

Lemma swap_Permutation arr i j : swap arr i j ≡ₚ arr.
Proof.
  unfold swap. destruct (arr !! i) eqn:Ei, (arr !! j) eqn:Ej; try reflexivity.
  by apply Permutation_insert_swap.
Qed.

Lemma prioAt_swap arr i j k :
  i < length arr → j < length arr →
  prioAt (swap arr i j) k =
    if decide (k = j) then prioAt arr i
    else if decide (k = i) then prioAt arr j
    else prioAt arr k.
Proof.
  intros Hi Hj. unfold swap, prioAt.
  destruct (lookup_lt_is_Some_2 arr i Hi) as [a Ha].
  destruct (lookup_lt_is_Some_2 arr j Hj) as [b Hb].
  rewrite Ha, Hb.
  destruct (decide (k = j)) as [->|Hkj].
  - rewrite list_lookup_insert_eq by (by rewrite length_insert). done.
  - rewrite list_lookup_insert_ne by done.
    destruct (decide (k = i)) as [->|Hki].
    + rewrite list_lookup_insert_eq by done. done.
    + rewrite list_lookup_insert_ne by done. done.
Qed.

Lemma bubbleUp_length fuel arr i : length (bubbleUp fuel arr i) = length arr.
Proof.
  revert arr i. induction fuel as [|fuel IH]; intros arr i; simpl; [done|].
  repeat case_bool_decide; try done.
  by rewrite IH, swap_length.
Qed.

Lemma bubbleUp_Permutation fuel arr i : bubbleUp fuel arr i ≡ₚ arr.
Proof.
  revert arr i. induction fuel as [|fuel IH]; intros arr i; simpl; [done|].
  repeat case_bool_decide; try done.
  by rewrite IH, swap_Permutation.
Qed.

(** The fuel [i] handed over by [push] is never the reason to stop:
    any larger amount gives the same array. *)
Lemma bubbleUp_fuel f1 f2 arr i :
  i <= f1 → i <= f2 → bubbleUp f1 arr i = bubbleUp f2 arr i.
Proof.
  revert f2 arr i. induction f1 as [|f1 IH]; intros f2 arr i H1 H2.
  - replace i with 0 by lia. by destruct f2.
  - destruct f2 as [|f2].
    + replace i with 0 by lia. done.
    + cbn [bubbleUp]. repeat case_bool_decide; try done.
      pose proof (parent_lt i ltac:(lia)) as Hp. unfold parent in Hp.
      apply IH; lia.
Qed.

Lemma upOK_heapOrdered_root arr : upOK arr 0 → heapOrdered arr.
Proof. intros [H1 _] j Hj. apply H1; lia. Qed.

Lemma bubbleUp_heapOrdered fuel arr i :
  i <= fuel → i < length arr → upOK arr i →
  heapOrdered (bubbleUp fuel arr i).
Proof.
  revert arr i. induction fuel as [|fuel IH]; intros arr i Hf Hi Hok.
  { simpl. replace i with 0 in Hok by lia. by apply upOK_heapOrdered_root. }
  cbn [bubbleUp]. case_bool_decide as Hpos; last first.
  { replace i with 0 in Hok by lia. by apply upOK_heapOrdered_root. }
  fold (parent i). destruct Hok as [H1 H2].
  pose proof (parent_lt i Hpos) as Hp.
  case_bool_decide as Hle.
  - intros j Hj. destruct (decide (j = i)) as [->|]; [done|]. by apply H1.
  - apply IH; [lia | rewrite swap_length; lia |].
    split.
    + intros j Hj Hjp. rewrite swap_length in Hj.
      rewrite !prioAt_swap by lia.
      pose proof (parent_lt j ltac:(lia)) as Hpj.
      destruct (decide (j = i)) as [->|Hji].
      * rewrite decide_False by lia. rewrite decide_True by done. lia.
      * rewrite (decide_False (P := j = parent i)) by done.
        destruct (decide (parent j = i)) as [Hpi|Hpi].
        -- specialize (H2 j ltac:(lia) Hpi Hpos). lia.
        -- destruct (decide (parent j = parent i)) as [Hpp|Hpp].
           ++ specialize (H1 j ltac:(lia) Hji). rewrite Hpp in H1. lia.
           ++ by apply H1.
    + intros j Hj Hjp Hppos. rewrite swap_length in Hj.
      rewrite !prioAt_swap by lia.
      pose proof (parent_lt (parent i) Hppos) as Hpp.
      rewrite (decide_False (P := parent (parent i) = i)) by lia.
      rewrite (decide_False (P := parent (parent i) = parent i)) by lia.
      pose proof (H1 (parent i) ltac:(lia) ltac:(lia)) as Hgp.
      destruct (decide (j = i)) as [->|Hji]; [lia|].
      rewrite (decide_False (P := j = parent i)).
      * specialize (H1 j ltac:(lia) Hji). rewrite Hjp in H1. lia.
      * intros ->. pose proof (parent_lt (parent i) Hppos). lia.
Qed.

Lemma prioAt_app_l arr nd k :
  k < length arr → prioAt (arr ++ [nd]) k = prioAt arr k.
Proof. intros. unfold prioAt. by rewrite lookup_app_l. Qed.

Lemma push_heapOrdered arr nd :
  heapOrdered arr → heapOrdered (push nd arr).
Proof.
  intros Hh. unfold push. rewrite length_app. simpl.
  replace (length arr + 1 - 1) with (length arr) by lia.
  apply bubbleUp_heapOrdered; [lia | rewrite length_app; simpl; lia |].
  split.
  - intros j Hj Hne. rewrite length_app in Hj. simpl in Hj.
    pose proof (parent_lt j ltac:(lia)).
    rewrite !prioAt_app_l by lia. apply Hh. lia.
  - intros j Hj Hp _. rewrite length_app in Hj. simpl in Hj.
    pose proof (parent_lt j ltac:(lia)). lia.
Qed.

Lemma push_Permutation arr nd : push nd arr ≡ₚ nd :: arr.
Proof.
  unfold push. rewrite bubbleUp_Permutation.
  by rewrite Permutation_app_comm.
Qed.

Lemma push_length arr nd : length (push nd arr) = S (length arr).
Proof. unfold push. rewrite bubbleUp_length, length_app. simpl. lia. Qed.

(** The index [smallest] computed by one turn of [bubbleDown]. *)
Definition smallestOf arr i : nat :=
  let n := length arr in
  let l := i * 2 + 1 in
  let r := i * 2 + 2 in
  let smallest := i in
  let smallest :=
    if bool_decide (l < n) && bool_decide (prioAt arr l < prioAt arr smallest)%Z
    then l else smallest in
  if bool_decide (r < n) && bool_decide (prioAt arr r < prioAt arr smallest)%Z
  then r else smallest.

Lemma bubbleDown_S fuel arr i :
  bubbleDown (S fuel) arr i =
    if bool_decide (smallestOf arr i = i) then arr
    else bubbleDown fuel (swap arr i (smallestOf arr i)) (smallestOf arr i).
Proof. reflexivity. Qed.

Lemma smallestOf_spec arr i :
  i < length arr →
  let s := smallestOf arr i in
  (s = i ∨ s = i * 2 + 1 ∨ s = i * 2 + 2) ∧ s < length arr ∧
  (prioAt arr s <= prioAt arr i)%Z ∧
  (s ≠ i → (prioAt arr s < prioAt arr i)%Z) ∧
  (i * 2 + 1 < length arr → (prioAt arr s <= prioAt arr (i * 2 + 1))%Z) ∧
  (i * 2 + 2 < length arr → (prioAt arr s <= prioAt arr (i * 2 + 2))%Z).
Proof.
  intros Hi. unfold smallestOf. cbv zeta.
  destruct (bool_decide_reflect (i * 2 + 1 < length arr));
    destruct (bool_decide_reflect (prioAt arr (i * 2 + 1) < prioAt arr i)%Z);
    simpl;
    repeat (match goal with
            | |- context [bool_decide ?P] => destruct (bool_decide_reflect P)
            end; simpl);
    repeat split; intros; lia.
Qed.

Lemma bubbleDown_length fuel arr i : length (bubbleDown fuel arr i) = length arr.
Proof.
  revert arr i. induction fuel as [|fuel IH]; intros arr i; [done|].
  rewrite bubbleDown_S. case_bool_decide; [done|].
  by rewrite IH, swap_length.
Qed.

Lemma bubbleDown_Permutation fuel arr i : bubbleDown fuel arr i ≡ₚ arr.
Proof.
  revert arr i. induction fuel as [|fuel IH]; intros arr i; [done|].
  rewrite bubbleDown_S. case_bool_decide; [done|].
  by rewrite IH, swap_Permutation.
Qed.

(** Without children in range nothing is left to repair. *)
Lemma downOK_leaf arr i :
  length arr <= i * 2 + 1 → downOK arr i → heapOrdered arr.
Proof.
  intros Hl [H1 _] j Hj. apply H1; [done|].
  intros Hp. destruct (parent_children i j) as [->| ->]; lia.
Qed.

(** The fuel [arr.length] handed over by [pop] is never the reason to
    stop: any amount of at least [length arr - i] gives the same array. *)
Lemma bubbleDown_fuel f1 f2 arr i :
  length arr - i <= f1 → length arr - i <= f2 → i < length arr →
  bubbleDown f1 arr i = bubbleDown f2 arr i.
Proof.
  revert f2 arr i. induction f1 as [|f1 IH]; intros f2 arr i H1 H2 Hi; [lia|].
  destruct f2 as [|f2]; [lia|].
  rewrite !bubbleDown_S.
  destruct (smallestOf_spec arr i Hi) as (Hs & Hlt & _).
  case_bool_decide; [done|].
  apply IH; rewrite ?swap_length; lia.
Qed.

Lemma bubbleDown_heapOrdered fuel arr i :
  length arr - i <= fuel → i < length arr → downOK arr i →
  heapOrdered (bubbleDown fuel arr i).
Proof.
  revert arr i. induction fuel as [|fuel IH]; intros arr i Hf Hi Hok; [lia|].
  rewrite bubbleDown_S.
  destruct (smallestOf_spec arr i Hi) as (Hs & Hlt & Hsi & Hne & Hl & Hr).
  destruct Hok as [H1 H2].
  case_bool_decide as Heq.
  - rewrite Heq in Hl, Hr.
    intros j Hj. destruct (decide (parent j = i)) as [Hp|Hp]; [|by apply H1].
    destruct (parent_children i j) as [->| ->]; [lia|done|..].
    + rewrite parent_left. apply Hl. lia.
    + rewrite parent_right. apply Hr. lia.
  - set (c := smallestOf arr i) in *.
    assert (parent c = i) as Hpc.
    { destruct Hs as [?|[->| ->]]; [done|apply parent_left|apply parent_right]. }
    assert (i < c) as Hic by lia.
    specialize (Hne Heq).
    apply IH; [rewrite swap_length; lia | rewrite swap_length; lia |].
    split.
    + intros j Hj Hjp. rewrite swap_length in Hj.
      rewrite !prioAt_swap by lia.
      pose proof (parent_lt j ltac:(lia)) as Hpj.
      destruct (decide (j = c)) as [->|Hjc].
      * rewrite Hpc. rewrite (decide_False (P := i = c)) by lia.
        rewrite decide_True by done. lia.
      * rewrite (decide_False (P := parent j = c)) by done.
        destruct (decide (parent j = i)) as [Hpi|Hpi].
        -- destruct (decide (j = i)) as [->|Hji]; [lia|].
           destruct (parent_children i j) as [->| ->]; [lia|done|..].
           ++ apply Hl. lia.
           ++ apply Hr. lia.
        -- destruct (decide (j = i)) as [->|Hji].
           ++ destruct (decide (0 < i)) as [Hi0|Hi0]; [|lia].
              apply H2; [lia|done|done].
           ++ by apply H1.
    + intros j Hj Hjp Hc. rewrite swap_length in Hj.
      rewrite !prioAt_swap by lia.
      pose proof (parent_lt j ltac:(lia)) as Hpj.
      rewrite Hpc. rewrite (decide_False (P := i = c)) by lia.
      rewrite decide_True by done.
      rewrite (decide_False (P := j = c)) by lia.
      rewrite (decide_False (P := j = i)) by lia.
      specialize (H1 j ltac:(lia) ltac:(lia)). rewrite Hjp in H1. done.
Qed.

(** The root of an ordered heap is a minimum. *)
Lemma heapOrdered_root_min arr i :
  heapOrdered arr → i < length arr → (prioAt arr 0 <= prioAt arr i)%Z.
Proof.
  intros Hh. induction i as [i IH] using lt_wf_ind. intros Hi.
  destruct (decide (i = 0)) as [->|Hne]; [lia|].
  pose proof (parent_lt i ltac:(lia)) as Hp.
  specialize (IH (parent i) Hp ltac:(lia)).
  specialize (Hh i ltac:(lia)). lia.
Qed.

Lemma heapOrdered_nil : heapOrdered ([] : list node).
Proof. intros j Hj. simpl in Hj. lia. Qed.

Local Arguments bubbleDown : simpl never.

(** What [pop] returns, in one statement: nothing on the empty heap;
    otherwise the root, and an ordered array that holds the other nodes. *)
Lemma pop_spec arr :
  heapOrdered arr →
  match pop arr with
  | (None, arr') => arr = [] ∧ arr' = []
  | (Some top, arr') =>
      arr !! 0 = Some top ∧ arr ≡ₚ top :: arr' ∧ heapOrdered arr' ∧
      ∀ nd, nd ∈ arr → (hn_priority top <= hn_priority nd)%Z
  end.
Proof.
  intros Hh. destruct arr as [|top rest]; [done|].
  assert (∀ nd, nd ∈ top :: rest → (hn_priority top <= hn_priority nd)%Z) as Hmin.
  { intros nd [k Hk]%list_elem_of_lookup.
    pose proof (heapOrdered_root_min _ k Hh (lookup_lt_Some _ _ _ Hk)) as Hm.
    unfold prioAt in Hm. rewrite Hk in Hm. done. }
  unfold pop.
  destruct (exists_last (l := top :: rest) ltac:(done)) as (front & lst & E).
  rewrite E in Hh, Hmin |- *. rewrite last_last, removelast_last.
  destruct front as [|top' front']; injection E as -> E.
  { rewrite bool_decide_eq_false_2 by (simpl; lia).
    split_and!; [done|done|apply heapOrdered_nil|done]. }
  rewrite bool_decide_eq_true_2 by (simpl; lia).
  change (<[0:=lst]> (top' :: front')) with (lst :: front').
  split_and!; [done| | |done].
  - rewrite bubbleDown_Permutation. cbn [app]. f_equiv.
    by rewrite Permutation_app_comm.
  - apply bubbleDown_heapOrdered; [simpl; lia | simpl; lia |].
    split; [|intros; lia].
    intros j Hj Hp. cbn [length] in Hj.
    pose proof (parent_lt j ltac:(lia)) as Hpj.
    specialize (Hh j). cbn [length] in Hh. rewrite length_app in Hh.
    cbn [length] in Hh. specialize (Hh ltac:(lia)).
    unfold prioAt in *.
    destruct j as [|j]; [lia|].
    destruct (parent (S j)) as [|pj] eqn:Epj; [done|].
    cbn [lookup list_lookup] in *.
    change ((top' :: front') ++ [lst]) with (top' :: (front' ++ [lst])) in Hh.
    rewrite !lookup_cons_ne_0 in Hh by done. cbn [pred] in Hh.
    rewrite !lookup_app_l in Hh by lia. done.
Qed.

(** The contents, whatever the order of the array. *)
Lemma pop_Permutation arr :
  match pop arr with
  | (None, arr') => arr = [] ∧ arr' = []
  | (Some top, arr') => arr ≡ₚ top :: arr'
  end.
Proof.
  destruct arr as [|top rest]; [done|]. unfold pop.
  destruct (exists_last (l := top :: rest) ltac:(done)) as (front & lst & E).
  rewrite E. rewrite last_last, removelast_last.
  destruct front as [|top' front']; injection E as -> E.
  { by rewrite bool_decide_eq_false_2 by (simpl; lia). }
  rewrite bool_decide_eq_true_2 by (simpl; lia).
  change (<[0:=lst]> (top' :: front')) with (lst :: front').
  rewrite bubbleDown_Permutation. cbn [app]. f_equiv.
  by rewrite Permutation_app_comm.
Qed.

Lemma pop_length arr :
  length (pop arr).2 = pred (length arr).
Proof.
  destruct arr as [|top rest]; [done|]. unfold pop.
  destruct (exists_last (l := top :: rest) ltac:(done)) as (front & lst & E).
  rewrite E. rewrite last_last, removelast_last.
  rewrite length_app. simpl.
  case_bool_decide; simpl.
  - rewrite bubbleDown_length, length_insert. lia.
  - lia.
Qed.
End Facts.
End HeapFacts.

(* ===================================================================== *)
(** * The heap as an object of the store *)
(* ===================================================================== *)

Section HeapObject.
Context {T : Type}.
Implicit Types σ : Store T.
Implicit Types h a : loc.
Import MinHeapObj HeapFacts.

Local Open Scope nat_scope.

(** The instance at [h] holds an ordered array. *)
Definition heapAt (h : loc) (σ : Store T) : Prop :=
  ∃ arr, σ !! h = Some (ONodes arr) ∧ heapOrdered arr.

Lemma getNodes_insert_eq σ h arr :
  h < length σ → getNodes (<[h := ONodes arr]> σ) h = arr.
Proof. intros. unfold getNodes. by rewrite list_lookup_insert_eq. Qed.

Lemma heapAt_getNodes h σ : heapAt h σ → heapOrdered (getNodes σ h).
Proof. intros (arr & E & Hh). unfold getNodes. by rewrite E. Qed.

Lemma heapAt_lt h σ : heapAt h σ → h < length σ.
Proof. intros (arr & E & _). by eapply lookup_lt_Some. Qed.

Lemma call_heapAt h c σ : heapAt h σ → heapAt h (call h c σ).
Proof.
  intros Hh. pose proof (heapAt_lt _ _ Hh) as Hlt.
  pose proof (heapAt_getNodes _ _ Hh) as Ho.
  destruct c as [nd| |]; simpl.
  - unfold push. eexists. split; [by apply list_lookup_insert_eq|].
    by apply push_heapOrdered.
  - unfold pop. pose proof (pop_spec _ Ho) as Hp.
    destruct (MinHeap.pop (getNodes σ h)) as [[top|] arr']; simpl.
    + eexists. split; [by apply list_lookup_insert_eq|]. tauto.
    + destruct Hp as [_ ->]. eexists.
      split; [by apply list_lookup_insert_eq|]. apply heapOrdered_nil.
  - destruct Hh as (arr & E & Hh). exists arr.
    split; [|done]. by rewrite lookup_app_l.
Qed.

Lemma calls_heapAt h cs σ : heapAt h σ → heapAt h (calls h cs σ).
Proof.
  revert σ. induction cs as [|c cs IH]; intros σ Hh; [done|].
  simpl. apply IH. by apply call_heapAt.
Qed.

(** A call on the instance at [h] leaves every other object alone. *)
Lemma call_frame h c σ a :
  a ≠ h → a < length σ →
  call h c σ !! a = σ !! a ∧ a < length (call h c σ).
Proof.
  intros Hne Hlt. destruct c as [nd| |]; simpl.
  - unfold push. rewrite list_lookup_insert_ne by done. by rewrite length_insert.
  - unfold pop. destruct (MinHeap.pop (getNodes σ h)) as [r arr']; simpl.
    rewrite list_lookup_insert_ne by done. by rewrite length_insert.
  - rewrite lookup_app_l by done. rewrite length_app. simpl. split; [done|lia].
Qed.

Lemma calls_frame h cs σ a :
  a ≠ h → a < length σ → calls h cs σ !! a = σ !! a.
Proof.
  revert σ. induction cs as [|c cs IH]; intros σ Hne Hlt; [done|].
  simpl. destruct (call_frame h c σ a Hne Hlt) as [E Hl].
  rewrite IH by done. done.
Qed.

End HeapObject.

(* ===================================================================== *)
(** * The rejection analyzer *)
(* ===================================================================== *)

Section StableSort.
Context {A : Type} (le : A -> A -> bool).
Hypothesis le_total : ∀ a b, le a b = true ∨ le b a = true.
Hypothesis le_trans : ∀ a b c, le a b = true → le b c = true → le a c = true.

Local Abbreviation R := (fun a b : A => le a b = true).

Lemma insert_sorted_Permutation a l : insert_sorted le a l ≡ₚ a :: l.
Proof.
  induction l as [|b l IH]; simpl; [done|].
  destruct (le a b); [done|]. rewrite IH. apply Permutation_swap.
Qed.

Lemma stable_sort_Permutation l : stable_sort le l ≡ₚ l.
Proof.
  induction l as [|a l IH]; simpl; [done|].
  unfold stable_sort in *. simpl. by rewrite insert_sorted_Permutation, IH.
Qed.

Lemma insert_sorted_StronglySorted a l :
  StronglySorted R l → StronglySorted R (insert_sorted le a l).
Proof.
  induction 1 as [|b l Hs IH Hb]; simpl.
  - repeat constructor.
  - destruct (le a b) eqn:Eab.
    + constructor; [by constructor|].
      constructor; [done|].
      eapply Forall_impl; [exact Hb|]. intros c Hc. simpl in *. eauto.
    + constructor; [done|].
      assert (le b a = true) as Hba by (destruct (le_total a b); congruence).
      rewrite insert_sorted_Permutation. by constructor.
Qed.

Lemma stable_sort_StronglySorted l : StronglySorted R (stable_sort le l).
Proof.
  induction l as [|a l IH]; [constructor|].
  unfold stable_sort in *. simpl. by apply insert_sorted_StronglySorted.
Qed.
End StableSort.

Lemma ext_le_total a b : ext_le a b = true ∨ ext_le b a = true.
Proof.
  destruct a as [x|], b as [y|]; simpl; auto.
  destruct (decide (x <= y)).
  - left. by apply bool_decide_eq_true.
  - right. apply bool_decide_eq_true. lia.
Qed.

Lemma ext_le_trans a b c :
  ext_le a b = true → ext_le b c = true → ext_le a c = true.
Proof.
  destruct a as [x|], b as [y|], c as [z|]; simpl; try done.
  rewrite !bool_decide_eq_true. lia.
Qed.

(* ===================================================================== *)
(** * The driver: the loop rule and the history of snapshots *)
(* ===================================================================== *)

Section Engine.
Variable env : Environment.
Variables startKey goalKey : string.
Variable options : RunOptions.

Local Abbreviation adapter := (adapterOf env).
Local Abbreviation fk := (frontierKindFor (algorithm options)).
Local Abbreviation frontierOf := (frontierToArray options).
Local Abbreviation push_step := (pushStep options).
Local Abbreviation body_ := (body env startKey goalKey options).
Local Abbreviation expand_ := (expand env options).
Local Abbreviation relaxAll_ := (relaxAll env goalKey options).
Local Abbreviation relaxNeighbor_ := (relaxNeighbor env goalKey options).
Local Abbreviation select_ := (select options).
Local Abbreviation mainLoop_ := (mainLoop env startKey goalKey options).
Local Abbreviation initState_ := (initState env startKey goalKey options).
Local Abbreviation maxIt := (maxIterations env).

(** The snapshot that [pushStep p] appends in state [st]. *)
Definition stepOf (p : Partial) (st : State) : StepSnapshot :=
  {| index := length (st_steps st);
     frontierKind := fk;
     frontier := frontierOf st;
     visited := st_visited st;
     closed := st_closed st;
     cameFrom := st_cameFrom st;
     gScore := st_gScore st;
     partial := p |}.

Lemma st_steps_pushStep p st :
  st_steps (push_step p st) = stepOf p st :: st_steps st.
Proof. reflexivity. Qed.

Lemma frontierOf_pushStep p st : frontierOf (push_step p st) = frontierOf st.
Proof. unfold frontierToArray. by destruct fk. Qed.

Lemma maxIt_ge_100 : 100 <= maxIt.
Proof. unfold maxIterations, minIterations. lia. Qed.

(** ** The rule of the main loop *)

(** [P] holds at the head of every turn, [Q] when the loop is left: by an
    empty frontier, by the iteration cap, or by a [break] of the body. *)
Lemma mainLoop_rule (P Q : Z → State → Prop) :
  (∀ it st, P it st → frontierOf st = [] → Q it st) →
  (∀ it st, P it st → frontierOf st ≠ [] → it + 1 > maxIt →
            Q (it + 1) (push_step exhaustedPartial st)) →
  (∀ it st st', P it st → frontierOf st ≠ [] → it + 1 <= maxIt →
                body_ st = Some (Break, st') → Q (it + 1) st') →
  (∀ it st st', P it st → frontierOf st ≠ [] → it + 1 <= maxIt →
                body_ st = Some (Continue, st') → P (it + 1) st') →
  ∀ fuel it st r, P it st → mainLoop_ fuel it st = Some r → Q r.1 r.2.
Proof.
  intros Hempty Hcap Hbreak Hcont.
  induction fuel as [|fuel IH]; intros it st r HP Hrun; simpl in Hrun.
  - case_bool_decide as Hlen; [done|]. simplify_eq/=.
    apply Hempty; [done|]. destruct (frontierOf st); [done|simpl in Hlen; lia].
  - case_bool_decide as Hlen; last first.
    { simplify_eq/=. apply Hempty; [done|].
      destruct (frontierOf st); [done|simpl in Hlen; lia]. }
    assert (frontierOf st ≠ []) as Hne.
    { intros E. rewrite E in Hlen. simpl in Hlen. lia. }
    case_bool_decide as Hmax.
    + simplify_eq/=. by apply Hcap.
    + destruct (body_ st) as [[[] st']|] eqn:Hb; [| |done].
      * eapply IH; [|exact Hrun]. eapply Hcont; eauto; lia.
      * simplify_eq/=. eapply Hbreak; eauto; lia.
Qed.

(** The loop returns: the fuel of [runLoop] is never the reason to stop,
    provided the body returns on the states that the loop reaches. *)
Lemma mainLoop_returns (P : Z → State → Prop) :
  (∀ it st, P it st → frontierOf st ≠ [] → it + 1 <= maxIt →
            ∃ r, body_ st = Some r) →
  (∀ it st st', P it st → frontierOf st ≠ [] → it + 1 <= maxIt →
                body_ st = Some (Continue, st') → P (it + 1) st') →
  ∀ fuel it st, P it st → it <= maxIt → maxIt - it < Z.of_nat fuel →
                ∃ r, mainLoop_ fuel it st = Some r.
Proof.
  intros Hbody Hcont.
  induction fuel as [|fuel IH]; intros it st HP H0 Hfuel; simpl; [lia|].
  case_bool_decide as Hlen; [|eauto].
  assert (frontierOf st ≠ []) as Hne.
  { intros E. rewrite E in Hlen. simpl in Hlen. lia. }
  case_bool_decide as Hmax; [eauto|].
  destruct (Hbody it st HP Hne ltac:(lia)) as [[[] st'] Hb]; rewrite Hb; [|eauto].
  apply IH; [|lia|lia]. eapply Hcont; eauto; lia.
Qed.

(** ** The four ways through the body *)

Inductive BodyCase (st : State) : option (Flow * State) → Prop :=
| body_none :
    (select_ st).1 = None →
    BodyCase st (Some (Break, (select_ st).2))
| body_skip sel :
    (select_ st).1 = Some sel →
    it_key sel ∈ st_closed (select_ st).2 →
    BodyCase st (Some (Continue, (select_ st).2))
| body_found sel p :
    (select_ st).1 = Some sel →
    it_key sel ∉ st_closed (select_ st).2 →
    it_key sel = goalKey →
    reconstructPathCoords adapter (st_cameFrom (select_ st).2) startKey goalKey
      = Some p →
    BodyCase st
      (Some (Break,
             push_step (foundPartial options sel p)
               (push_step (selectPartial options sel (frontierOf (select_ st).2))
                          (select_ st).2)))
| body_walk_open sel :
    (select_ st).1 = Some sel →
    it_key sel ∉ st_closed (select_ st).2 →
    it_key sel = goalKey →
    reconstructPathCoords adapter (st_cameFrom (select_ st).2) startKey goalKey
      = None →
    BodyCase st None
| body_expand sel :
    (select_ st).1 = Some sel →
    it_key sel ∉ st_closed (select_ st).2 →
    it_key sel ≠ goalKey →
    BodyCase st
      (Some (Continue,
             relaxAll_ sel
               (expand_ sel
                  (push_step (selectPartial options sel (frontierOf (select_ st).2))
                             (select_ st).2)))).

Lemma body_case st : BodyCase st (body_ st).
Proof.
  unfold body. destruct (select_ st) as [[sel|] st1] eqn:Hsel.
  - assert ((select_ st).1 = Some sel) as H1 by (by rewrite Hsel).
    replace st1 with (select_ st).2 by (by rewrite Hsel). clear Hsel.
    case_bool_decide as Hcl; [by eapply body_skip|].
    case_bool_decide as Hgoal.
    + change (st_cameFrom (push_step ?p ?s)) with (st_cameFrom s).
      destruct (reconstructPathCoords _ _ _ _) as [p|] eqn:Hp.
      * by eapply body_found.
      * by eapply body_walk_open.
    + by eapply body_expand.
  - assert ((select_ st).1 = None) as H1 by (by rewrite Hsel).
    replace st1 with (select_ st).2 by (by rewrite Hsel).
    by apply body_none.
Qed.

(** [select] only touches the frontier containers. *)
Lemma select_frame st :
  ∃ q s h, (select_ st).2 = set_frontier q s h st.
Proof.
  unfold select. destruct fk.
  - destruct (st_queue st) as [|it q] eqn:E; simpl; [|by eauto].
    exists [], (st_stack st), (st_heap st). destruct st; simpl in *. by subst.
  - destruct (st_stack st) as [|it q] eqn:E; simpl; [|by eauto].
    exists (st_queue st), [], (st_heap st). destruct st; simpl in *. by subst.
  - simpl. by eauto.
Qed.

(** ** The history of snapshots *)

Definition countSelect (l : list StepSnapshot) : nat :=
  length (filter (fun s => phase (partial s) = PSelect) l).

(** Newest first: every snapshot's closed set contains those of all the
    snapshots emitted before it. *)
Fixpoint closedMono (l : list StepSnapshot) : Prop :=
  match l with
  | [] => True
  | s :: l' => Forall (fun s' => closed s' ⊆ closed s) l' ∧ closedMono l'
  end.

(** A "select" snapshot is the one of [selectPartial] for an item whose
    key is not in the closed set it records. *)
Definition selectedFresh (s : StepSnapshot) : Prop :=
  phase (partial s) = PSelect →
  ∃ sel, partial s = selectPartial options sel (frontier s) ∧
         it_key sel ∉ closed s.

Record Hist (n : Z) (st : State) : Prop := mkHist
  { hist_below : Forall (fun s => closed s ⊆ st_closed st) (st_steps st);
    hist_mono : closedMono (st_steps st);
    hist_fresh : Forall selectedFresh (st_steps st);
    hist_noexh : Forall (fun s => phase (partial s) ≠ PExhausted) (st_steps st);
    hist_count : Z.of_nat (countSelect (st_steps st)) <= n }.

Lemma countSelect_cons s l :
  countSelect (s :: l) =
    if decide (phase (partial s) = PSelect) then S (countSelect l)
    else countSelect l.
Proof. unfold countSelect. rewrite filter_cons. by case_decide. Qed.

Lemma Hist_weaken n m st : Hist n st → n <= m → Hist m st.
Proof. intros [] ?. split; try done. lia. Qed.

Lemma Hist_pushStep n st p :
  Hist n st → phase p ≠ PExhausted → phase p ≠ PSelect →
  Hist n (push_step p st).
Proof.
  intros [Hb Hm Hf He Hc] Hp1 Hp2. split; rewrite ?st_steps_pushStep.
  - constructor; [done|]. exact Hb.
  - split; [exact Hb|done].
  - constructor; [|done]. intros Hs. done.
  - by constructor.
  - rewrite countSelect_cons. simpl. by rewrite decide_False.
Qed.

Lemma Hist_pushStep_select n st sel :
  Hist n st → it_key sel ∉ st_closed st →
  Hist (n + 1) (push_step (selectPartial options sel (frontierOf st)) st).
Proof.
  intros [Hb Hm Hf He Hc] Hsel. split; rewrite ?st_steps_pushStep.
  - constructor; [done|]. exact Hb.
  - split; [exact Hb|done].
  - constructor; [|done]. intros _. by exists sel.
  - by constructor.
  - rewrite countSelect_cons. simpl. lia.
Qed.

Lemma Hist_set_frontier n st q s h :
  Hist n st → Hist n (set_frontier q s h st).
Proof. by intros []. Qed.

Lemma Hist_set_books n st v c cf gs r :
  Hist n st → st_closed st ⊆ c → Hist n (set_books v c cf gs r st).
Proof.
  intros [Hb Hm Hf He Hc] Hsub. split; try done. simpl.
  eapply Forall_impl; [exact Hb|]. simpl. set_solver.
Qed.

Lemma Hist_select n st : Hist n st → Hist n (select_ st).2.
Proof.
  intros H. destruct (select_frame st) as (q & s & h & ->).
  by apply Hist_set_frontier.
Qed.

Ltac hist_step :=
  first
    [ done
    | apply Hist_pushStep; [|done|done]
    | apply Hist_set_frontier
    | apply Hist_set_books; [|set_solver]
    | match goal with
      | |- Hist _ (if ?b then _ else _) => destruct b eqn:?
      end ].

Lemma Hist_relaxNeighbor n sel curG curDepth st nb :
  Hist n st → Hist n (relaxNeighbor_ sel curG curDepth st nb).
Proof. intros H. unfold relaxNeighbor. repeat hist_step. Qed.

Lemma Hist_relaxAll n sel st : Hist n st → Hist n (relaxAll_ sel st).
Proof.
  unfold relaxAll.
  generalize (default 0 (st_gScore st !! it_key sel)).
  generalize (default 0 (it_depth sel)).
  intros d g. revert st.
  induction (neighbors adapter (it_key sel)) as [|nb l IH]; intros st H; [done|].
  simpl. apply IH. by apply Hist_relaxNeighbor.
Qed.

Lemma Hist_expand n sel st : Hist n st → Hist n (expand_ sel st).
Proof. intros H. unfold expand. repeat hist_step. Qed.

Lemma Hist_body n st fl st' :
  Hist n st → body_ st = Some (fl, st') → Hist (n + 1) st'.
Proof.
  intros H Hb. pose proof (Hist_select _ _ H) as Hs.
  destruct (body_case st) as [Hsel|sel Hsel Hcl|sel p Hsel Hcl Hg Hp| |sel Hsel Hcl Hg];
    simplify_eq.
  - eapply Hist_weaken; [done|lia].
  - eapply Hist_weaken; [done|lia].
  - apply Hist_pushStep; [|done|done]. by apply Hist_pushStep_select.
  - apply Hist_relaxAll, Hist_expand. by apply Hist_pushStep_select.
Qed.

Lemma Hist_init : Hist 0 initState_.
Proof.
  unfold initState. split; rewrite st_steps_pushStep; simpl.
  - by repeat constructor.
  - by repeat constructor.
  - repeat constructor. intros ?. done.
  - by repeat constructor.
  - rewrite countSelect_cons. simpl. done.
Qed.

(** What the history looks like when the loop is left.  [it] is the final
    value of [iterations]. *)
Definition HistEnd (it : Z) (st : State) : Prop :=
  (it <= maxIt ∧ Hist it st) ∨
  (it = maxIt + 1 ∧
   ∃ st0, Hist maxIt st0 ∧ st = push_step exhaustedPartial st0).

Lemma runLoop_HistEnd it st :
  runLoop env startKey goalKey options = Some (it, st) → HistEnd it st.
Proof.
  unfold runLoop. intros Hrun.
  pose proof maxIt_ge_100 as Hmax.
  apply (mainLoop_rule (fun it st => 0 <= it <= maxIt ∧ Hist it st) HistEnd)
    in Hrun; [done|..].
  - intros it' st' [Hit H] _. left. split; [lia|done].
  - intros it' st' [Hit H] _ Hcap. right. split; [lia|].
    exists st'. split; [|done]. eapply Hist_weaken; [done|lia].
  - intros it' st1 st2 [Hit H] _ Hle Hb. left. split; [lia|].
    by eapply Hist_body.
  - intros it' st1 st2 [Hit H] _ Hle Hb. split; [lia|].
    by eapply Hist_body.
  - split; [lia|]. apply Hist_init.
Qed.

Lemma buildTrace_runLoop t :
  buildTrace env startKey goalKey options = Some t →
  ∃ it st, runLoop env startKey goalKey options = Some (it, st) ∧
           t = traceOf options st.
Proof.
  unfold buildTrace.
  destruct (runLoop _ _ _ _) as [[it st]|]; [|done].
  intros [= <-]. eauto.
Qed.

(** What holds of the history however the loop was left. *)
Lemma HistEnd_steps it st :
  HistEnd it st →
  closedMono (st_steps st) ∧ Forall selectedFresh (st_steps st).
Proof.
  intros [[_ H]|[_ (st0 & H & ->)]].
  - split; apply H.
  - rewrite st_steps_pushStep. split.
    + split; [apply H|apply H].
    + constructor; [|apply H]. intros Hs. done.
Qed.

Lemma closedMono_lookup l a b sa sb :
  closedMono l → l !! a = Some sa → l !! b = Some sb → (a <= b)%nat →
  closed sb ⊆ closed sa.
Proof.
  revert a b. induction l as [|s l IH]; intros a b Hm Ha Hb Hab; [done|].
  destruct Hm as [Hs Hm].
  destruct a as [|a].
  - simplify_eq/=. destruct b as [|b]; simplify_eq/=; [done|].
    rewrite Forall_forall in Hs. apply Hs. by eapply list_elem_of_lookup_2.
  - destruct b as [|b]; [lia|]. simpl in *. eapply IH; eauto. lia.
Qed.

(** C8.  In every trace, the item selected by a "select" snapshot has a
    key that is in the closed set of neither that snapshot nor any
    earlier one, whatever the algorithm. *)
Theorem select_never_closed t i j si sj :
  buildTrace env startKey goalKey options = Some t →
  steps t !! i = Some si → steps t !! j = Some sj → (j <= i)%nat →
  phase (partial si) = PSelect →
  ∃ sel, selected (partial si) = Some sel ∧
         currentKey (partial si) = Some (it_key sel) ∧
         it_key sel ∉ closed sj.
Proof.
  intros (it & st & Hrun & ->)%buildTrace_runLoop Hi Hj Hji Hsel.
  destruct (HistEnd_steps _ _ (runLoop_HistEnd _ _ Hrun)) as [Hm Hf].
  simpl in Hi, Hj.
  apply reverse_lookup_Some in Hi as [Hi Hil], Hj as [Hj Hjl].
  rewrite Forall_forall in Hf.
  destruct (Hf si (list_elem_of_lookup_2 _ _ _ Hi) Hsel) as (sel & Hp & Hfresh).
  exists sel. rewrite Hp. split_and!; [done|done|].
  intros Hin. apply Hfresh.
  eapply closedMono_lookup; [exact Hm|exact Hi|exact Hj|lia|done].
Qed.

Lemma countSelect_reverse l : countSelect (reverse l) = countSelect l.
Proof. unfold countSelect. by rewrite filter_reverse, length_reverse. Qed.

(** What a finished loop says about the cap; [iteration_cap] adds that
    the loop does finish. *)
Definition capSpec (it : Z) (t : Trace) : Prop :=
  maxIterations env = Z.max 100 (Z.min (sizeBasis env * 20) 10000) ∧
  sizeBasis env =
    match env with
    | GridEnv grid => width grid * height grid
    | GraphEnv graph => Z.of_nat (length (nodes graph))
    end ∧
  0 <= it <= maxIterations env + 1 ∧
  Z.of_nat (countSelect (steps t)) <= Z.min it (maxIterations env) ∧
  (it <= maxIterations env →
   ∀ s, s ∈ steps t → phase (partial s) ≠ PExhausted) ∧
  (it = maxIterations env + 1 →
   ∃ before last, steps t = before ++ [last] ∧
     phase (partial last) = PExhausted ∧
     warnings (partial last) = Some [WARN_CAP] ∧
     ∀ s, s ∈ before → phase (partial s) ≠ PExhausted).

Lemma runLoop_capSpec it st :
  runLoop env startKey goalKey options = Some (it, st) →
  capSpec it (traceOf options st).
Proof.
  unfold capSpec. revert it st.
  enough (∀ it st, runLoop env startKey goalKey options = Some (it, st) →
  let t := traceOf options st in
  maxIterations env = Z.max 100 (Z.min (sizeBasis env * 20) 10000) ∧
  sizeBasis env =
    match env with
    | GridEnv grid => width grid * height grid
    | GraphEnv graph => Z.of_nat (length (nodes graph))
    end ∧
  0 <= it <= maxIterations env + 1 ∧
  Z.of_nat (countSelect (steps t)) <= Z.min it (maxIterations env) ∧
  (it <= maxIterations env →
   ∀ s, s ∈ steps t → phase (partial s) ≠ PExhausted) ∧
  (it = maxIterations env + 1 →
   ∃ before last, steps t = before ++ [last] ∧
     phase (partial last) = PExhausted ∧
     warnings (partial last) = Some [WARN_CAP] ∧
     ∀ s, s ∈ before → phase (partial s) ≠ PExhausted)) by done.
  intros it st Hrun t. pose proof maxIt_ge_100 as Hmax.
  split; [done|]. split; [by destruct env|].
  destruct (runLoop_HistEnd _ _ Hrun) as [[Hit H]|[-> (st0 & H & ->)]].
  - destruct H as [_ _ _ He Hc]. subst t. cbn [steps traceOf].
    rewrite countSelect_reverse. split_and!; try lia.
    intros _ s Hs. rewrite elem_of_reverse in Hs.
    rewrite Forall_forall in He. by apply He.
  - destruct H as [_ _ _ He Hc]. subst t. cbn [steps traceOf].
    rewrite countSelect_reverse, st_steps_pushStep, countSelect_cons.
    simpl. split_and!; try lia.
    intros _. eexists _, _. rewrite reverse_cons. split; [done|].
    split_and!; try done.
    intros s Hs. rewrite elem_of_reverse in Hs.
    rewrite Forall_forall in He. by apply He.
Qed.

(** ** Well-formed working state: the parent links never form a cycle *)

(** [ord] lists the closed keys, the latest first; a parent link always
    points to a closed key, and the parent of a closed key was closed
    before it. *)
Definition chainOK (ord : list string) (cf : gmap string string) : Prop :=
  (∀ k p, cf !! k = Some p → p ∈ ord) ∧
  (∀ pre k post p, ord = pre ++ k :: post → cf !! k = Some p → p ∈ post).

Definition frontierItems (st : State) : list FrontierItem :=
  st_queue st ++ st_stack st ++ (hn_value <$> st_heap st).

(** Closed keys are visited, frontier items are visited, every visited
    key but the start has a parent, and the parent links follow the order
    of closing. *)
Record WFc (v c : gset string) (cf : gmap string string)
    (fr : list FrontierItem) : Prop := mkWFc
  { wf_closed : c ⊆ v;
    wf_frontier : ∀ it, it ∈ fr → it_key it ∈ v;
    wf_parent : ∀ k, k ∈ v → k = startKey ∨ is_Some (cf !! k);
    wf_order :
      ∃ ord, NoDup ord ∧ (∀ k, k ∈ ord ↔ k ∈ c) ∧ chainOK ord cf }.

Definition WF (st : State) : Prop :=
  WFc (st_visited st) (st_closed st) (st_cameFrom st) (frontierItems st).

Ltac proj :=
  cbn [st_visited st_closed st_cameFrom st_gScore st_steps st_relaxations
       st_queue st_stack st_heap st_peakFrontier st_peakClosed
       pushStep set_frontier set_books fst snd] in *.

Lemma WF_pushStep p st : WF st → WF (push_step p st).
Proof. done. Qed.

Lemma popFresh_fuel f1 f2 c g h :
  (length h < f1)%nat → (length h < f2)%nat →
  popFresh f1 c g h = popFresh f2 c g h.
Proof.
  revert f2 h. induction f1 as [|f1 IH]; intros f2 h H1 H2; [lia|].
  destruct f2 as [|f2]; [lia|]. cbn [popFresh].
  destruct h as [|x h0]; [done|].
  pose proof (HeapFacts.pop_length (x :: h0)) as Hl.
  destruct (MinHeap.pop (x :: h0)) as [[nd|] h']; [|done].
  cbn [snd length pred] in Hl, H1, H2.
  repeat first [case_bool_decide | case_match]; try done; apply IH; lia.
Qed.

Lemma popFresh_sub fuel c g h :
  let r := popFresh fuel c g h in
  (∀ nd, nd ∈ r.2 → nd ∈ h) ∧
  (∀ sel, r.1 = Some sel → sel ∈ hn_value <$> h).
Proof.
  revert h. induction fuel as [|fuel IH]; intros h; cbn [popFresh]; [done|].
  pose proof (HeapFacts.pop_Permutation h) as Hp.
  destruct (MinHeap.pop h) as [[nd|] h']; last first.
  { destruct Hp as [-> ->]. done. }
  assert (∀ x, x ∈ h' → x ∈ h) as Hsub.
  { intros x Hx. rewrite Hp. by right. }
  assert (hn_value nd ∈ hn_value <$> h) as Hnd.
  { apply list_elem_of_fmap. exists nd. split; [done|]. rewrite Hp. by left. }
  assert (let r := popFresh fuel c g h' in
          (∀ nd, nd ∈ r.2 → nd ∈ h) ∧
          (∀ sel, r.1 = Some sel → sel ∈ hn_value <$> h)) as Hrec.
  { destruct (IH h') as [IH1 IH2]. split.
    - intros x Hx. by apply Hsub, IH1.
    - intros sel Hs. apply IH2 in Hs.
      apply list_elem_of_fmap in Hs as (x & -> & Hx).
      apply list_elem_of_fmap. exists x. split; [done|]. by apply Hsub. }
  assert (let r := (Some (hn_value nd), h') in
          (∀ nd, nd ∈ r.2 → nd ∈ h) ∧
          (∀ sel, r.1 = Some sel → sel ∈ hn_value <$> h)) as Hnow.
  { split; [done|]. by intros sel [= <-]. }
  repeat first [case_bool_decide | case_match]; done.
Qed.

(** The item that [select] returns is taken from the frontier, and the
    frontier only loses items. *)
Lemma select_sub st :
  (∀ it, it ∈ frontierItems (select_ st).2 → it ∈ frontierItems st) ∧
  (∀ sel, (select_ st).1 = Some sel → sel ∈ frontierItems st).
Proof.
  unfold select, frontierItems. destruct fk.
  - destruct (st_queue st) as [|it q] eqn:E;
      cbn [fst snd st_queue st_stack st_heap set_frontier];
      rewrite ?E; [done|].
    split; [|intros ? [= <-]]; set_solver.
  - destruct (st_stack st) as [|it q] eqn:E;
      cbn [fst snd st_queue st_stack st_heap set_frontier];
      rewrite ?E; [done|].
    destruct (exists_last (l := it :: q) ltac:(done)) as (front & lst & E').
    rewrite E'. rewrite last_last, removelast_last.
    split; [|intros ? [= <-]]; set_solver.
  - cbn [fst snd st_queue st_stack st_heap set_frontier].
    destruct (popFresh_sub (S (length (st_heap st))) (st_closed st)
                (st_gScore st) (st_heap st)) as [H1 H2].
    split.
    + intros it. rewrite !elem_of_app.
      intros [?|[?|(nd & -> & Hnd)%list_elem_of_fmap]]; [tauto|tauto|].
      right; right. apply list_elem_of_fmap. exists nd. split; [done|].
      by apply H1.
    + intros sel Hs. rewrite !elem_of_app. right; right. by apply H2.
Qed.

Lemma WF_select st : WF st → WF (select_ st).2.
Proof.
  intros [Hc Hf Hp Ho]. destruct (select_sub st) as [Hsub _].
  destruct (select_frame st) as (q & s & h & E). rewrite E in Hsub |- *.
  split; try done. intros it Hit. apply Hf. by apply Hsub.
Qed.

Lemma WF_selected st sel :
  WF st → (select_ st).1 = Some sel → it_key sel ∈ st_visited st.
Proof.
  intros [Hc Hf Hp Ho] Hs. apply Hf. by apply (select_sub st).
Qed.

Lemma select_visited st : st_visited (select_ st).2 = st_visited st.
Proof. by destruct (select_frame st) as (q & s & h & ->). Qed.
Lemma select_closed st : st_closed (select_ st).2 = st_closed st.
Proof. by destruct (select_frame st) as (q & s & h & ->). Qed.
Lemma select_cameFrom st : st_cameFrom (select_ st).2 = st_cameFrom st.
Proof. by destruct (select_frame st) as (q & s & h & ->). Qed.
Lemma select_gScore st : st_gScore (select_ st).2 = st_gScore st.
Proof. by destruct (select_frame st) as (q & s & h & ->). Qed.
Lemma select_steps st : st_steps (select_ st).2 = st_steps st.
Proof. by destruct (select_frame st) as (q & s & h & ->). Qed.

Lemma makeItem_key at_ key a g h d w : it_key (makeItem at_ key a g h d w) = key.
Proof. by destruct a. Qed.

Lemma chainOK_close ord cf k :
  chainOK ord cf → chainOK (k :: ord) cf.
Proof.
  intros [H1 H2]. split.
  - intros k' p Hk. right. by eapply H1.
  - intros pre k' post p E Hk. destruct pre as [|k0 pre]; simplify_eq/=.
    + by eapply H1.
    + by eapply H2.
Qed.

Lemma chainOK_link ord cf k p :
  chainOK ord cf → p ∈ ord → k ∉ ord → chainOK ord (<[k := p]> cf).
Proof.
  intros [H1 H2] Hp Hk. split.
  - intros k' p'. destruct (decide (k' = k)) as [->|Hne].
    + rewrite lookup_insert_eq. by intros [= <-].
    + rewrite lookup_insert_ne by done. apply H1.
  - intros pre k' post p' E. destruct (decide (k' = k)) as [->|Hne].
    + exfalso. apply Hk. rewrite E. set_solver.
    + rewrite lookup_insert_ne by done. by eapply H2.
Qed.

Lemma WFc_close v c cf fr k :
  WFc v c cf fr → k ∈ v → k ∉ c → WFc v ({[ k ]} ∪ c) cf fr.
Proof.
  intros [Hc Hf Hp (ord & Hnd & Hord & Hch)] Hv Hncl.
  split; try done.
  - set_solver.
  - exists (k :: ord). split_and!.
    + constructor; [|done]. by rewrite Hord.
    + intros k'. rewrite elem_of_cons, Hord. set_solver.
    + by apply chainOK_close.
Qed.

(** A freshly linked neighbour: [k] gets the closed key [p] as parent and
    an item in the frontier. *)
Lemma WFc_link v c cf fr fr' k p :
  WFc v c cf fr → p ∈ c → k ∉ c →
  (∀ it, it ∈ fr' → it ∈ fr ∨ it_key it = k) →
  WFc ({[ k ]} ∪ v) c (<[k := p]> cf) fr'.
Proof.
  intros [Hc Hf Hp (ord & Hnd & Hord & Hch)] Hpc Hk Hfr.
  split.
  - set_solver.
  - intros it Hit. destruct (Hfr it Hit) as [Hin| ->]; [|set_solver].
    apply Hf in Hin. set_solver.
  - intros k' [->%elem_of_singleton|Hv]%elem_of_union.
    + right. rewrite lookup_insert_eq. eauto.
    + destruct (Hp k' Hv) as [->|[x Hx]]; [by left|].
      right. destruct (decide (k' = k)) as [->|Hne].
      * rewrite lookup_insert_eq. eauto.
      * rewrite lookup_insert_ne by done. eauto.
  - exists ord. split_and!; [done|done|].
    apply chainOK_link; [done|by rewrite Hord|by rewrite Hord].
Qed.

Lemma WF_expand st sel :
  WF st → it_key sel ∈ st_visited st → it_key sel ∉ st_closed st →
  WF (expand_ sel st) ∧ it_key sel ∈ st_closed (expand_ sel st).
Proof.
  intros H Hv Hncl. unfold expand, WF.
  case_bool_decide; proj; (split; [|set_solver]); by apply WFc_close.
Qed.

Lemma WF_relaxNeighbor sel curG curDepth st nb :
  WF st → it_key sel ∈ st_closed st →
  WF (relaxNeighbor_ sel curG curDepth st nb) ∧
  st_closed (relaxNeighbor_ sel curG curDepth st nb) = st_closed st.
Proof.
  intros H Hsel. unfold relaxNeighbor.
  case_bool_decide as Hcl; [done|].
  destruct (is_unweighted options).
  - case_bool_decide as Hv; [done|]. split; [|by case_bool_decide].
    unfold WF, frontierItems, discoveredItem.
    case_bool_decide; proj.
    + eapply WFc_link; [exact H|done|done|].
      intros it. unfold frontierItems. rewrite !elem_of_app, list_elem_of_singleton.
      intros [[?| ->]|?]; rewrite ?makeItem_key; tauto.
    + eapply WFc_link; [exact H|done|done|].
      intros it. unfold frontierItems. rewrite !elem_of_app, list_elem_of_singleton.
      intros [?|[[?| ->]|?]]; rewrite ?makeItem_key; tauto.
  - destruct (negb _); [done|]. split; [|done].
    unfold WF, frontierItems, relaxedItem, heapNodeOf. proj.
    eapply WFc_link; [exact H|done|done|].
    intros it. unfold frontierItems. rewrite !elem_of_app.
    intros [?|[?|(nd & -> & Hnd)%list_elem_of_fmap]]; [tauto|tauto|].
    rewrite HeapFacts.push_Permutation in Hnd.
    apply elem_of_cons in Hnd as [->|Hnd].
    + right. simpl. by rewrite makeItem_key.
    + left. right; right. apply list_elem_of_fmap. eauto.
Qed.

Lemma WF_relaxAll sel st :
  WF st → it_key sel ∈ st_closed st → WF (relaxAll_ sel st).
Proof.
  unfold relaxAll.
  generalize (default 0 (st_gScore st !! it_key sel)).
  generalize (default 0 (it_depth sel)).
  intros d g. revert st.
  induction (neighbors adapter (it_key sel)) as [|nb l IH]; intros st H Hs; [done|].
  simpl. destruct (WF_relaxNeighbor sel g d st nb H Hs) as [H' E].
  apply IH; [done|]. by rewrite E.
Qed.

Lemma WF_init : WF initState_.
Proof.
  unfold initState, WF, frontierItems, startItemOf, heapNodeOf. proj. split.
  - set_solver.
  - intros it. rewrite !elem_of_app.
    assert (∀ x : FrontierItem, x ∈ [makeItem (coordOfKey adapter startKey)
              startKey (algorithm options) 0
              (heuristicFn (heuristic options) (coordOfKey adapter startKey)
                 (coordOfKey adapter goalKey)) 0 (heuristicWeight options)] →
            it_key x ∈ ({[startKey]} : gset string)) as Hone.
    { intros x ->%list_elem_of_singleton. rewrite makeItem_key. set_solver. }
    intros [Hq|[Hs|Hh]].
    + case_bool_decide; [by apply Hone|by apply elem_of_nil in Hq].
    + case_bool_decide; [by apply Hone|by apply elem_of_nil in Hs].
    + case_bool_decide; [|by apply elem_of_nil in Hh].
      apply list_elem_of_fmap in Hh as (nd & -> & Hnd).
      rewrite HeapFacts.push_Permutation in Hnd.
      apply list_elem_of_singleton in Hnd as ->. simpl.
      rewrite makeItem_key. set_solver.
  - intros k ->%elem_of_singleton. by left.
  - exists []. split_and!; [constructor|set_solver|].
    split; [intros k p; by rewrite lookup_empty|].
    intros pre k post p E. by destruct pre.
Qed.

(** The walk over the parent links ends: from a closed key it takes at
    most as many turns as keys were closed before it. *)
Lemma walkBack_closed cf ord fuel pre cur post out :
  chainOK ord cf → ord = pre ++ cur :: post → (length post < fuel)%nat →
  is_Some (walkBack cf startKey fuel cur out).
Proof.
  intros Hch. revert pre cur post out.
  induction fuel as [|fuel IH]; intros pre cur post out E Hlen; [lia|].
  simpl. case_bool_decide; [eauto|].
  destruct (cf !! cur) as [prev|] eqn:Hprev; [|eauto].
  case_bool_decide; [eauto|].
  destruct Hch as [H1 H2].
  pose proof (H2 _ _ _ _ E Hprev) as Hin.
  apply list_elem_of_split in Hin as (post1 & post2 & ->).
  eapply (IH (pre ++ cur :: post1) prev post2).
  - subst ord. by rewrite <-app_assoc.
  - rewrite length_app in Hlen. simpl in Hlen. lia.
Qed.

Lemma WFc_size_closed v c cf fr k :
  WFc v c cf fr → k ∉ c → is_Some (cf !! k) → (size c <= size cf)%nat.
Proof.
  intros [Hc Hf Hp _] Hk Hsome.
  assert ({[k]} ⊆ dom cf) as Hkd.
  { apply elem_of_dom in Hsome. set_solver. }
  assert (size (dom cf) ≠ 0%nat) as Hnz.
  { intros E%size_empty_inv. set_solver. }
  pose proof (size_difference (dom cf) {[k]} Hkd) as Hd.
  rewrite size_singleton, size_dom in Hd. rewrite size_dom in Hnz.
  destruct (decide (startKey ∈ c)) as [Hs|Hs].
  - assert (c ∖ {[startKey]} ⊆ dom cf ∖ {[k]}) as Hsub.
    { intros x [Hx Hne]%elem_of_difference.
      apply elem_of_difference. split; [|set_solver].
      apply elem_of_dom. destruct (Hp x); [set_solver|set_solver|done]. }
    apply subseteq_size in Hsub.
    rewrite (size_difference c) in Hsub by set_solver.
    rewrite size_singleton in Hsub.
    assert (size c ≠ 0%nat).
    { intros E%size_empty_inv. set_solver. }
    lia.
  - assert (c ⊆ dom cf ∖ {[k]}) as Hsub.
    { intros x Hx. apply elem_of_difference. split; [|set_solver].
      apply elem_of_dom. destruct (Hp x); [set_solver|set_solver|done]. }
    apply subseteq_size in Hsub. lia.
Qed.

Lemma WF_reconstruct st :
  WF st → goalKey ∉ st_closed st →
  is_Some (reconstructPathCoords adapter (st_cameFrom st) startKey goalKey).
Proof.
  intros H Hg. unfold reconstructPathCoords.
  case_bool_decide; [eauto|].
  destruct (st_cameFrom st !! goalKey) as [p0|] eqn:Hp0; [|eauto].
  pose proof (WFc_size_closed _ _ _ _ goalKey H Hg ltac:(eauto)) as Hsize.
  destruct H as [_ _ _ (ord & Hnd & Hord & Hch)].
  assert (length ord = size (st_closed st)) as Hlen.
  { rewrite <-(size_list_to_set (C := gset string) ord) by done.
    f_equal. apply set_eq. intros k. rewrite elem_of_list_to_set. apply Hord. }
  cbn [walkBack]. rewrite bool_decide_eq_false_2 by done.
  rewrite Hp0. case_bool_decide; [eauto|].
  pose proof (proj1 Hch _ _ Hp0) as Hin.
  apply list_elem_of_split in Hin as (pre & post & E).
  destruct (walkBack_closed (st_cameFrom st) ord (size (st_cameFrom st))
              pre p0 post [p0; goalKey] Hch E) as [out ->]; [|eauto].
  rewrite E, length_app in Hlen. simpl in Hlen. lia.
Qed.

Lemma WF_body st fl st' :
  WF st → body_ st = Some (fl, st') → WF st'.
Proof.
  intros H Hb. pose proof (WF_select st H) as Hs.
  destruct (body_case st) as [Hsel|sel Hsel Hcl|sel p Hsel Hcl Hg Hp| |sel Hsel Hcl Hg];
    simplify_eq; try done.
  pose proof (WF_selected st sel H Hsel) as Hv.
  rewrite <-select_visited in Hv.
  destruct (WF_expand (push_step (selectPartial options sel (frontierOf (select_ st).2))
                         (select_ st).2) sel) as [H1 H2]; [done..|].
  by apply WF_relaxAll.
Qed.

Lemma WF_body_returns st : WF st → is_Some (body_ st).
Proof.
  intros H. pose proof (WF_select st H) as Hs.
  destruct (body_case st) as [Hsel|sel Hsel Hcl|sel p Hsel Hcl Hg Hp|sel Hsel Hcl Hg Hp|sel Hsel Hcl Hg];
    try by eauto.
  destruct (WF_reconstruct (select_ st).2 Hs) as [p Ep]; [by rewrite <-Hg|].
  congruence.
Qed.

(** The loop of [buildTrace] returns for every environment, start, goal
    and options: neither the fuel nor the path walk stops it. *)
Lemma runLoop_returns :
  ∃ it st, runLoop env startKey goalKey options = Some (it, st) ∧ WF st.
Proof.
  unfold runLoop. pose proof maxIt_ge_100 as Hmax.
  destruct (mainLoop_returns (fun _ st => WF st)) with
    (fuel := S (Z.to_nat maxIt)) (it := 0) (st := initState_) as [[it st] Hrun].
  - intros it st H _ _. destruct (WF_body_returns st H) as [r Hr]. eauto.
  - intros it st st' H _ _ Hb. by eapply WF_body.
  - apply WF_init.
  - lia.
  - lia.
  - exists it, st. split; [done|].
    apply (mainLoop_rule (fun _ st => WF st) (fun _ st => WF st)) in Hrun;
      [done|..]; try done.
    + intros it' st1 st2 H _ _ Hb. by eapply WF_body.
    + intros it' st1 st2 H _ _ Hb. by eapply WF_body.
    + apply WF_init.
Qed.

Lemma buildTrace_returns :
  is_Some (buildTrace env startKey goalKey options).
Proof.
  unfold buildTrace. destruct runLoop_returns as (it & st & -> & _). eauto.
Qed.

(** C6.  Every run ends, with a counter [iterations] between 0 and
    [maxIterations + 1], where [maxIterations] is max(100, min(sizeBasis
    * 20, 10000)) and [sizeBasis] the cell count of a grid or the node
    count of a graph.  At most [maxIterations] turns make a selection.  A
    run whose counter stays within the cap has no "exhausted" snapshot; a
    run whose counter exceeds it ends with one "exhausted" snapshot, which
    carries the warning and is the only one. *)
Theorem iteration_cap :
  ∃ it st,
    runLoop env startKey goalKey options = Some (it, st) ∧
    buildTrace env startKey goalKey options = Some (traceOf options st) ∧
    capSpec it (traceOf options st).
Proof.
  destruct runLoop_returns as (it & st & Hrun & _).
  exists it, st. split_and!; [done| |by apply runLoop_capSpec].
  unfold buildTrace. by rewrite Hrun.
Qed.

(** ** The first turn *)

Lemma heap_push_nil (nd : HeapNode FrontierItem) : MinHeap.push nd [] = [nd].
Proof. reflexivity. Qed.

Lemma heap_pop_one (nd : HeapNode FrontierItem) : MinHeap.pop [nd] = (Some nd, []).
Proof. reflexivity. Qed.

Lemma frontierOf_init :
  frontierOf initState_ = [startItemOf options adapter startKey goalKey].
Proof.
  unfold frontierToArray, initState. proj.
  destruct (algorithm options); simpl; by rewrite ?heap_push_nil.
Qed.

(** The first selection takes the start item and empties the frontier. *)
Lemma select_init :
  select_ initState_ =
    (Some (startItemOf options adapter startKey goalKey),
     set_frontier [] [] [] initState_).
Proof.
  unfold select, initState, startItemOf, heapNodeOf. proj.
  destruct (algorithm options) eqn:E; simpl; try done;
    rewrite ?(bool_decide_eq_false_2 (startKey ∈ _)) by set_solver;
    rewrite lookup_singleton_eq; simpl;
    rewrite ?bool_decide_eq_false_2 by lia; done.
Qed.
End Engine.

(* ===================================================================== *)
(** * Start and goal coincide *)
(* ===================================================================== *)

(** C9.  When the start key is the goal key, the trace is "init",
    "select" of the start, "found": the path is the single start
    coordinate, [found] is true, and no key was explored or relaxed. *)
Theorem start_is_goal env startKey options :
  ∃ t s0 s1 s2,
    buildTrace env startKey startKey options = Some t ∧
    steps t = [s0; s1; s2] ∧
    phase (partial s0) = PInit ∧
    phase (partial s1) = PSelect ∧
    currentKey (partial s1) = Some startKey ∧
    it_key <$> selected (partial s1) = Some startKey ∧
    phase (partial s2) = PFound ∧
    path (partial s2) = Some [coordOfKey (adapterOf env) startKey] ∧
    found t = true ∧
    tr_path t = [coordOfKey (adapterOf env) startKey] ∧
    explored (metrics t) = 0%nat ∧
    relaxations (metrics t) = 0%nat.
Proof.
  pose proof (maxIt_ge_100 env) as Hmax.
  set (sel := startItemOf options (adapterOf env) startKey startKey).
  assert (it_key sel = startKey) as Hkey by apply makeItem_key.
  assert (body env startKey startKey options (initState env startKey startKey options)
          = Some (Break,
                  pushStep options
                    (foundPartial options sel [coordOfKey (adapterOf env) startKey])
                    (pushStep options (selectPartial options sel [])
                       (set_frontier [] [] []
                          (initState env startKey startKey options))))) as Hbody.
  { unfold body. rewrite select_init. fold sel.
    rewrite bool_decide_eq_false_2 by (simpl; set_solver).
    rewrite (bool_decide_eq_true_2 (it_key sel = startKey)) by done.
    unfold reconstructPathCoords. rewrite bool_decide_eq_true_2 by done.
    do 4 f_equal. unfold frontierToArray.
    by destruct (frontierKindFor (algorithm options)). }
  eexists _, _, _, _. split.
  { unfold buildTrace, runLoop. cbn [mainLoop].
    rewrite frontierOf_init.
    rewrite bool_decide_eq_true_2 by (simpl; lia).
    rewrite bool_decide_eq_false_2 by lia.
    rewrite Hbody. reflexivity. }
  cbn [steps traceOf st_steps pushStep set_frontier initState found tr_path
       metrics explored relaxations st_closed st_relaxations].
  split_and!; try reflexivity.
  - simpl. by rewrite Hkey.
  - simpl. by rewrite Hkey.
Qed.

(* ===================================================================== *)
(** * The graph adapter *)
(* ===================================================================== *)

(** The neighbours that one edge contributes to the key [k]. *)
Definition edgeNeighbors (dir : bool) (k : string) (e : GraphEdge)
    : list Neighbor :=
  (if bool_decide (e_from e = k)
   then [ {| nb_key := e_to e; nb_cost := e_cost e |} ] else []) ++
  (if negb dir && bool_decide (e_to e = k)
   then [ {| nb_key := e_from e; nb_cost := e_cost e |} ] else []).

Lemma adjStep_lookup dir adj e k :
  default [] (adjStep dir adj e !! k) =
    default [] (adj !! k) ++ edgeNeighbors dir k e.
Proof.
  unfold adjStep, edgeNeighbors. destruct dir; simpl.
  - case_bool_decide as Hf.
    + subst k. rewrite lookup_insert_eq. simpl. by rewrite ?app_nil_r.
    + rewrite lookup_insert_ne by done. by rewrite ?app_nil_r.
  - case_bool_decide as Hf; case_bool_decide as Ht; simpl.
    + subst k. rewrite Ht. rewrite !lookup_insert_eq. simpl.
      by rewrite <-?app_assoc.
    + subst k. rewrite lookup_insert_ne by done. rewrite lookup_insert_eq.
      simpl. by rewrite ?app_nil_r.
    + subst k. rewrite lookup_insert_eq. rewrite lookup_insert_ne by done.
      simpl. done.
    + rewrite !lookup_insert_ne by done. by rewrite ?app_nil_r.
Qed.

Lemma adjacency_lookup g k :
  default [] (adjacency g !! k) =
    concat (edgeNeighbors (directed g) k <$> edges g).
Proof.
  unfold adjacency.
  enough (∀ l adj, default [] (foldl (adjStep (directed g)) adj l !! k) =
                   default [] (adj !! k) ++
                   concat (edgeNeighbors (directed g) k <$> l)) as H.
  { rewrite H. by rewrite lookup_empty. }
  induction l as [|e l IH]; intros adj; simpl; [by rewrite app_nil_r|].
  rewrite IH, adjStep_lookup. by rewrite <-app_assoc.
Qed.

Lemma nodeAt_lookup_None g k :
  k ∉ gn_id <$> nodes g → nodeAt g !! k = None.
Proof.
  unfold nodeAt.
  enough (∀ (l : list GraphNode) (m : gmap string Coord),
            k ∉ gn_id <$> l → m !! k = None →
            foldl (λ m n, <[gn_id n := gn_at n]> m) m l !! k = None) as H.
  { intros. by apply H. }
  induction l as [|n l IH]; intros m Hk Hm; simpl; [done|].
  rewrite fmap_cons, not_elem_of_cons in Hk. destruct Hk as [Hne Hk].
  apply IH; [done|]. by rewrite lookup_insert_ne.
Qed.

(** A directed graph with the single node A and an edge from A to a key B
    that no node declares. *)
Definition danglingGraph : Graph :=
  {| directed := true;
     nodes := [ {| gn_id := "A"; gn_at := {| cx := 3; cy := 4 |} |} ];
     edges := [ {| e_from := "A"; e_to := "B"; e_cost := 1 |} ] |}.

(** C2, as stated, fails: the adapter keeps the edge to the undeclared
    key, and the neighbours of A contain it. *)
Lemma dangling_edge_is_kept :
  (∃ e, e ∈ edges danglingGraph ∧ e_to e ∉ gn_id <$> nodes danglingGraph) ∧
  ¬ (∀ k nb, nb ∈ neighbors (adapterOf (GraphEnv danglingGraph)) k →
             nb_key nb ∈ gn_id <$> nodes danglingGraph).
Proof.
  split.
  - eexists. split; [by left|]. simpl. set_solver.
  - intros H.
    specialize (H "A" {| nb_key := "B"; nb_cost := 1 |}).
    assert ("B" ∈ gn_id <$> nodes danglingGraph) as Hin.
    { apply H. vm_compute. by left. }
    simpl in Hin. set_solver.
Qed.

(** C2, amended.  For every graph, the neighbours of a key are, in the
    order of the edge list, the target of every edge that leaves it and,
    when the graph is undirected, the source of every edge that reaches
    it, whether or not these ids are declared as nodes; a key that no node
    declares has the coordinate (0, 0); and the run returns a trace
    whatever the start, the goal and the options. *)
Theorem graph_adapter_keeps_every_edge (g : Graph) :
  (∀ k, neighbors (adapterOf (GraphEnv g)) k =
        concat (edgeNeighbors (directed g) k <$> edges g)) ∧
  (∀ k, k ∉ gn_id <$> nodes g →
        coordOfKey (adapterOf (GraphEnv g)) k = {| cx := 0; cy := 0 |}) ∧
  (∀ startKey goalKey options,
     is_Some (buildTrace (GraphEnv g) startKey goalKey options)).
Proof.
  split_and!.
  - intros k. simpl. apply adjacency_lookup.
  - intros k Hk. simpl. by rewrite nodeAt_lookup_None.
  - intros. apply buildTrace_returns.
Qed.

(* ===================================================================== *)
(** * A* with weight 0 against Dijkstra *)
(* ===================================================================== *)

Section HeapMap.
Context {T U : Type} (f : HeapNode T → HeapNode U).
Hypothesis f_priority : ∀ nd, hn_priority (f nd) = hn_priority nd.
Import MinHeap.

(** The heap only looks at priorities: its operations commute with any
    map of the nodes that keeps them. *)
Lemma prioAt_fmap arr i : prioAt (f <$> arr) i = prioAt arr i.
Proof.
  unfold prioAt. rewrite list_lookup_fmap.
  destruct (arr !! i); simpl; [apply f_priority|done].
Qed.

Lemma swap_fmap arr i j : swap (f <$> arr) i j = f <$> swap arr i j.
Proof.
  unfold swap. rewrite !list_lookup_fmap.
  destruct (arr !! i), (arr !! j); simpl; try done.
  by rewrite !list_fmap_insert.
Qed.

Lemma bubbleUp_fmap fuel arr i :
  bubbleUp fuel (f <$> arr) i = f <$> bubbleUp fuel arr i.
Proof.
  revert arr i. induction fuel as [|fuel IH]; intros arr i; simpl; [done|].
  rewrite !prioAt_fmap. repeat case_bool_decide; try done.
  by rewrite swap_fmap, IH.
Qed.

Lemma bubbleDown_fmap fuel arr i :
  bubbleDown fuel (f <$> arr) i = f <$> bubbleDown fuel arr i.
Proof.
  revert arr i. induction fuel as [|fuel IH]; intros arr i; [done|].
  rewrite !HeapFacts.bubbleDown_S.
  assert (HeapFacts.smallestOf (f <$> arr) i = HeapFacts.smallestOf arr i) as ->.
  { unfold HeapFacts.smallestOf. rewrite length_fmap, !prioAt_fmap.
    destruct (bool_decide (i * 2 + 1 < length arr)%nat
              && bool_decide (prioAt arr (i * 2 + 1) < prioAt arr i));
      by rewrite ?prioAt_fmap. }
  case_bool_decide; [done|]. by rewrite swap_fmap, IH.
Qed.

Lemma push_fmap nd arr : push (f nd) (f <$> arr) = f <$> push nd arr.
Proof.
  unfold push. change [f nd] with (f <$> [nd]).
  rewrite <-fmap_app, bubbleUp_fmap. by rewrite length_fmap.
Qed.

Lemma last_fmap {A B} (g : A → B) (l : list A) d :
  List.last (g <$> l) (g d) = g (List.last l d).
Proof.
  induction l as [|x l IH]; [done|].
  destruct l as [|y l]; [done|]. exact IH.
Qed.

Lemma removelast_fmap {A B} (g : A → B) (l : list A) :
  removelast (g <$> l) = g <$> removelast l.
Proof.
  induction l as [|x l IH]; [done|].
  destruct l as [|y l]; [done|].
  rewrite !fmap_cons. rewrite !fmap_cons in IH.
  cbn [removelast] in *. rewrite IH. done.
Qed.

Lemma pop_fmap arr :
  pop (f <$> arr) = (f <$> (pop arr).1, f <$> (pop arr).2).
Proof.
  destruct arr as [|top rest]; [done|]. unfold pop. rewrite fmap_cons.
  change (f top :: (f <$> rest)) with (f <$> (top :: rest)).
  rewrite last_fmap, removelast_fmap, length_fmap.
  case_bool_decide; simpl; [|done].
  by rewrite <-list_fmap_insert, bubbleDown_fmap, !length_fmap.
Qed.
End HeapMap.

(** What Dijkstra keeps of an A* item: the key, the coordinate, g and the
    priority. *)
Definition toDijkstra (it : FrontierItem) : FrontierItem :=
  {| it_key := it_key it; it_at := it_at it; it_g := it_g it; it_h := None;
     it_f := None; it_depth := it_depth it; it_priority := it_priority it |}.

Definition nodeToDijkstra (nd : HeapNode FrontierItem) : HeapNode FrontierItem :=
  {| hn_id := hn_id nd; hn_value := toDijkstra (hn_value nd);
     hn_priority := hn_priority nd |}.

Definition astar0 (hid : HeuristicId) : RunOptions :=
  {| algorithm := astar; heuristic := hid; heuristicWeight := 0 |}.
Definition dijkstra0 (hid : HeuristicId) : RunOptions :=
  {| algorithm := dijkstra; heuristic := hid; heuristicWeight := 0 |}.

(** The keys of the "select" snapshots, in order. *)
Definition selectedKeys (t : Trace) : list (option string) :=
  (currentKey ∘ partial) <$>
    filter (fun s => phase (partial s) = PSelect) (steps t).

Section AstarZero.
Variable env : Environment.
Variables startKey goalKey : string.
Variable hid : HeuristicId.

Local Abbreviation oA := (astar0 hid).
Local Abbreviation oD := (dijkstra0 hid).
Local Abbreviation adapter := (adapterOf env).

Record partialRel (a d : Partial) : Prop := mkPartialRel
  { pr_phase : phase d = phase a;
    pr_currentKey : currentKey d = currentKey a;
    pr_current : current d = current a;
    pr_selected : selected d = toDijkstra <$> selected a;
    pr_relaxation : relaxation d = relaxation a;
    pr_path : path d = path a;
    pr_warnings : warnings d = warnings a }.

Record stepRel (a d : StepSnapshot) : Prop := mkStepRel
  { sr_index : index d = index a;
    sr_frontier : frontier d = toDijkstra <$> frontier a;
    sr_visited : visited d = visited a;
    sr_closed : closed d = closed a;
    sr_cameFrom : cameFrom d = cameFrom a;
    sr_gScore : gScore d = gScore a;
    sr_partial : partialRel (partial a) (partial d) }.

Record stRel (a d : State) : Prop := mkStRel
  { r_visited : st_visited d = st_visited a;
    r_closed : st_closed d = st_closed a;
    r_cameFrom : st_cameFrom d = st_cameFrom a;
    r_gScore : st_gScore d = st_gScore a;
    r_steps : Forall2 stepRel (st_steps a) (st_steps d);
    r_relaxations : st_relaxations d = st_relaxations a;
    r_peakFrontier : st_peakFrontier d = st_peakFrontier a;
    r_peakClosed : st_peakClosed d = st_peakClosed a;
    r_queue : st_queue d = toDijkstra <$> st_queue a;
    r_stack : st_stack d = toDijkstra <$> st_stack a;
    r_heap : st_heap d = nodeToDijkstra <$> st_heap a }.

Lemma frontier_rel a d :
  stRel a d → frontierToArray oD d = toDijkstra <$> frontierToArray oA a.
Proof.
  intros H. unfold frontierToArray. simpl.
  rewrite (r_heap _ _ H), <-!list_fmap_compose. done.
Qed.

Lemma pushStep_rel a d pa pd :
  stRel a d → partialRel pa pd → stRel (pushStep oA pa a) (pushStep oD pd d).
Proof.
  intros H Hp. pose proof (frontier_rel a d H) as Hf.
  destruct H. split; simpl; try done.
  - constructor; [|done]. split; simpl; try done.
    by rewrite (Forall2_length _ _ _ r_steps0).
  - rewrite Hf, length_fmap. congruence.
  - congruence.
Qed.

Lemma popFresh_rel fuel c g h :
  popFresh fuel c g (nodeToDijkstra <$> h) =
    (toDijkstra <$> (popFresh fuel c g h).1,
     nodeToDijkstra <$> (popFresh fuel c g h).2).
Proof.
  revert h. induction fuel as [|fuel IH]; intros h; simpl; [done|].
  rewrite (pop_fmap nodeToDijkstra) by done.
  destruct (MinHeap.pop h) as [[nd|] h']; simpl; [|done].
  repeat first [case_bool_decide | case_match]; try done; apply IH.
Qed.

Lemma select_rel a d :
  stRel a d →
  (select oD d).1 = toDijkstra <$> (select oA a).1 ∧
  stRel (select oA a).2 (select oD d).2.
Proof.
  intros H. unfold select. cbn [frontierKindFor algorithm astar0 dijkstra0].
  destruct H. rewrite r_heap0, r_closed0, r_gScore0, length_fmap, popFresh_rel.
  cbn [fst snd]. split; [done|]. split; done.
Qed.

Lemma toDijkstra_relaxedItem nbKey g d :
  toDijkstra (relaxedItem oA adapter goalKey nbKey g d) =
    relaxedItem oD adapter goalKey nbKey g d.
Proof.
  unfold relaxedItem, toDijkstra, makeItem. simpl. do 2 f_equal. lia.
Qed.

Lemma set_frontier_rel a d q s h :
  stRel a d →
  stRel (set_frontier q s h a)
        (set_frontier (toDijkstra <$> q) (toDijkstra <$> s)
                      (nodeToDijkstra <$> h) d).
Proof. intros []. by split. Qed.

Lemma set_books_rel a d v c cf gs r :
  stRel a d → stRel (set_books v c cf gs r a) (set_books v c cf gs r d).
Proof. intros []. by split. Qed.

Lemma heapNodeOf_relaxedItem nbKey g d :
  heapNodeOf (relaxedItem oD adapter goalKey nbKey g d) g =
    nodeToDijkstra (heapNodeOf (relaxedItem oA adapter goalKey nbKey g d) g).
Proof.
  unfold heapNodeOf, nodeToDijkstra. rewrite <-toDijkstra_relaxedItem. done.
Qed.

Lemma relaxNeighbor_rel sel curG curDepth a d nb :
  stRel a d →
  stRel (relaxNeighbor env goalKey oA sel curG curDepth a nb)
        (relaxNeighbor env goalKey oD (toDijkstra sel) curG curDepth d nb).
Proof.
  intros H. unfold relaxNeighbor.
  rewrite (r_closed _ _ H), (r_gScore _ _ H), (r_visited _ _ H),
    (r_cameFrom _ _ H), (r_relaxations _ _ H).
  case_bool_decide; [done|].
  change (is_unweighted oA) with false. change (is_unweighted oD) with false.
  cbn match.
  change (stepCostOf oD adapter nb) with (stepCostOf oA adapter nb).
  change (it_key (toDijkstra sel)) with (it_key sel).
  destruct (negb _); [done|].
  apply pushStep_rel; [|by split].
  match goal with
  | |- stRel (set_frontier _ _ _ ?xa) (set_frontier _ _ _ ?xd) =>
      assert (stRel xa xd) as HX
  end.
  { apply pushStep_rel; [|by split]. by apply set_books_rel. }
  rewrite (r_queue _ _ HX), (r_stack _ _ HX), (r_heap _ _ HX).
  rewrite heapNodeOf_relaxedItem, (push_fmap nodeToDijkstra) by done.
  by apply set_frontier_rel.
Qed.

Lemma relaxAll_rel sel a d :
  stRel a d →
  stRel (relaxAll env goalKey oA sel a)
        (relaxAll env goalKey oD (toDijkstra sel) d).
Proof.
  intros H. unfold relaxAll. rewrite (r_gScore _ _ H). simpl.
  generalize (default 0 (st_gScore a !! it_key sel)).
  generalize (default 0 (it_depth sel)).
  intros dp g. revert a d H.
  induction (neighbors adapter (it_key sel)) as [|nb l IH]; intros a d H; [done|].
  simpl. apply IH. by apply relaxNeighbor_rel.
Qed.

Lemma expand_rel sel a d :
  stRel a d → stRel (expand env oA sel a) (expand env oD (toDijkstra sel) d).
Proof.
  intros H. unfold expand.
  assert (∀ n, expandWarnings env oA sel n = []) as EA by done.
  assert (∀ n, expandWarnings env oD (toDijkstra sel) n = []) as ED by done.
  rewrite EA, ED. simpl.
  apply pushStep_rel; [|by split].
  destruct H. split; simpl; congruence.
Qed.

Lemma body_rel a d :
  stRel a d →
  match body env startKey goalKey oA a, body env startKey goalKey oD d with
  | Some (fa, a'), Some (fd, d') => fa = fd ∧ stRel a' d'
  | None, None => True
  | _, _ => False
  end.
Proof.
  intros H. unfold body.
  destruct (select_rel a d H) as [Hs Hr].
  destruct (select oA a) as [sa a1], (select oD d) as [sd d1].
  simpl in Hs, Hr. subst sd.
  destruct sa as [sel|]; simpl; [|done].
  rewrite (r_closed _ _ Hr).
  case_bool_decide; [done|].
  assert (stRel (pushStep oA (selectPartial oA sel (frontierToArray oA a1)) a1)
                (pushStep oD (selectPartial oD (toDijkstra sel)
                                (frontierToArray oD d1)) d1)) as Hsel.
  { apply pushStep_rel; [done|]. by split. }
  case_bool_decide.
  - cbn [st_cameFrom pushStep]. rewrite (r_cameFrom _ _ Hr).
    destruct (reconstructPathCoords _ _ _ _); [|done].
    split; [done|]. apply pushStep_rel; [done|]. by split.
  - split; [done|]. by apply relaxAll_rel, expand_rel.
Qed.

Lemma mainLoop_rel fuel it a d :
  stRel a d →
  match mainLoop env startKey goalKey oA fuel it a,
        mainLoop env startKey goalKey oD fuel it d with
  | Some (ia, a'), Some (id, d') => ia = id ∧ stRel a' d'
  | None, None => True
  | _, _ => False
  end.
Proof.
  revert it a d. induction fuel as [|fuel IH]; intros it a d H; simpl.
  - rewrite (frontier_rel a d H), length_fmap. by case_bool_decide.
  - rewrite (frontier_rel a d H), length_fmap.
    case_bool_decide; [|done].
    case_bool_decide.
    + split; [done|]. apply pushStep_rel; [done|]. by split.
    + pose proof (body_rel a d H) as Hb.
      destruct (body env startKey goalKey oA a) as [[[] a']|],
               (body env startKey goalKey oD d) as [[[] d']|];
        try done; destruct Hb as [? ?]; try done.
      by apply IH.
Qed.

Lemma init_rel :
  stRel (initState env startKey goalKey oA) (initState env startKey goalKey oD).
Proof.
  unfold initState. apply pushStep_rel; [|by split].
  split; simpl; done.
Qed.

Lemma lastFoundPath_rel a d :
  Forall2 stepRel a d → lastFoundPath d = lastFoundPath a.
Proof.
  induction 1 as [|sa sd a d Hs _ IH]; [done|]. simpl.
  destruct Hs as [_ _ _ _ _ _ [Hph _ _ _ _ Hpath _]].
  rewrite Hph, Hpath, IH. done.
Qed.

Lemma selected_rel a d :
  Forall2 stepRel a d →
  (currentKey ∘ partial) <$> filter (λ s, phase (partial s) = PSelect) d =
  (currentKey ∘ partial) <$> filter (λ s, phase (partial s) = PSelect) a.
Proof.
  induction 1 as [|sa sd a d Hs _ IH]; [done|].
  rewrite !filter_cons.
  destruct Hs as [_ _ _ _ _ _ [Hph Hk _ _ _ _ _]]. rewrite Hph.
  case_decide; [|done]. rewrite !fmap_cons, IH. simpl. by rewrite Hk.
Qed.

Lemma found_rel a d :
  Forall2 stepRel a d →
  existsb (λ s, bool_decide (phase (partial s) = PFound)) d =
  existsb (λ s, bool_decide (phase (partial s) = PFound)) a.
Proof.
  induction 1 as [|sa sd a d Hs _ IH]; [done|]. simpl.
  destruct Hs as [_ _ _ _ _ _ [Hph _ _ _ _ _ _]]. by rewrite Hph, IH.
Qed.

(** Both runs return, and their final states correspond. *)
Lemma astar0_runs :
  ∃ a d,
    buildTrace env startKey goalKey oA = Some (traceOf oA a) ∧
    buildTrace env startKey goalKey oD = Some (traceOf oD d) ∧
    stRel a d.
Proof.
  destruct (runLoop_returns env startKey goalKey oA) as (ia & a & Ha & _).
  destruct (runLoop_returns env startKey goalKey oD) as (id & d & Hd & _).
  pose proof (mainLoop_rel (S (Z.to_nat (maxIterations env))) 0 _ _ init_rel) as H.
  unfold runLoop in Ha, Hd. rewrite Ha, Hd in H. destruct H as [_ H].
  exists a, d. unfold buildTrace, runLoop. by rewrite Ha, Hd.
Qed.


End AstarZero.

(** A grid of three by three cells without walls. *)
Definition grid33 : Environment :=
  GridEnv {| width := 3; height := 3; walls := ∅ |}.




(* ===================================================================== *)
(** * Snapshots in the store *)
(* ===================================================================== *)

Section StoreSim.
Variable env : Environment.
Variables startKey goalKey : string.
Variable options : RunOptions.

Local Abbreviation adapter := (adapterOf env).
Local Abbreviation fk := (frontierKindFor (algorithm options)).
Local Abbreviation store := (list (Obj FrontierItem)).
Implicit Types σ : list (Obj FrontierItem).

Local Open Scope nat_scope.

(** The seven working objects hold the working state [st]. *)
Record SimS (σ : store) (st : State) : Prop := mkSimS
  { ss_visited : σ !! visitedRef = Some (OSet (st_visited st));
    ss_closed : σ !! closedRef = Some (OSet (st_closed st));
    ss_cameFrom : σ !! cameFromRef = Some (OMapS (st_cameFrom st));
    ss_gScore : σ !! gScoreRef = Some (OMapZ (st_gScore st));
    ss_queue : σ !! queueRef = Some (OItems (st_queue st));
    ss_stack : σ !! stackRef = Some (OItems (st_stack st));
    ss_heap : σ !! heapRef = Some (ONodes (st_heap st)) }.

(** The snapshot [h] holds five references to objects that are not the
    working ones, and these objects are the containers of [s]. *)
Record stepSim (σ : store) (h : HStep) (s : StepSnapshot) : Prop := mkStepSim
  { ts_index : h_index h = index s;
    ts_kind : h_frontierKind h = frontierKind s;
    ts_partial : h_partial h = partial s;
    ts_frontier : 7 <= h_frontier h ∧ σ !! h_frontier h = Some (OItems (frontier s));
    ts_visited : 7 <= h_visited h ∧ σ !! h_visited h = Some (OSet (visited s));
    ts_closed : 7 <= h_closed h ∧ σ !! h_closed h = Some (OSet (closed s));
    ts_cameFrom : 7 <= h_cameFrom h ∧ σ !! h_cameFrom h = Some (OMapS (cameFrom s));
    ts_gScore : 7 <= h_gScore h ∧ σ !! h_gScore h = Some (OMapZ (gScore s)) }.

Record Sim (hs : HState) (st : State) : Prop := mkSim
  { sim_store : SimS (hs_store hs) st;
    sim_steps : Forall2 (stepSim (hs_store hs)) (hs_steps hs) (st_steps st);
    sim_relaxations : hs_relaxations hs = st_relaxations st;
    sim_peakFrontier : hs_peakFrontier hs = st_peakFrontier st;
    sim_peakClosed : hs_peakClosed hs = st_peakClosed st }.

(** Every object that is not a working one stays as it is. *)
Definition frame (σ σ' : store) : Prop :=
  length σ <= length σ' ∧
  ∀ l, 7 <= l → l < length σ → σ' !! l = σ !! l.

Lemma frame_refl σ : frame σ σ.
Proof. by split. Qed.

Lemma frame_trans σ1 σ2 σ3 : frame σ1 σ2 → frame σ2 σ3 → frame σ1 σ3.
Proof.
  intros [L1 H1] [L2 H2]. split; [lia|].
  intros l ? ?. rewrite H2, H1 by lia. done.
Qed.

Lemma frame_app σ extra : frame σ (σ ++ extra).
Proof.
  split; [rewrite length_app; lia|]. intros l ? ?. by rewrite lookup_app_l.
Qed.

Lemma frame_insert σ r o : r < 7 → frame σ (<[r := o]> σ).
Proof.
  intros Hr. split; [by rewrite length_insert|].
  intros l ? ?. rewrite list_lookup_insert_ne by lia. done.
Qed.

Lemma stepSim_frame σ σ' h s :
  stepSim σ h s → frame σ σ' → stepSim σ' h s.
Proof.
  intros [Hi Hk Hp [? Hf] [? Hv] [? Hc] [? Hm] [? Hg]] [_ Hfr].
  split; try done; (split; [done|]); rewrite Hfr;
    try done; by eapply lookup_lt_Some.
Qed.

Lemma stepsSim_frame σ σ' hsteps steps :
  Forall2 (stepSim σ) hsteps steps → frame σ σ' →
  Forall2 (stepSim σ') hsteps steps.
Proof.
  intros H Hf. eapply Forall2_impl; [exact H|].
  intros h s Hs. by eapply stepSim_frame.
Qed.

Lemma stepSim_read σ h s : stepSim σ h s → readStep σ h = s.
Proof.
  intros [Hi Hk Hp [? Hf] [? Hv] [? Hc] [? Hm] [? Hg]].
  unfold readStep, getItems, getSet, getMapS, getMapZ.
  rewrite Hf, Hv, Hc, Hm, Hg. destruct s; simpl in *. congruence.
Qed.

Lemma SimS_length σ st : SimS σ st → 7 <= length σ.
Proof.
  intros [_ _ _ _ _ _ H]. apply lookup_lt_Some in H. unfold heapRef in H. lia.
Qed.

Lemma SimS_app σ st extra : SimS σ st → SimS (σ ++ extra) st.
Proof.
  intros H. pose proof (SimS_length _ _ H).
  destruct H. split; rewrite lookup_app_l; try done;
    unfold visitedRef, closedRef, cameFromRef, gScoreRef, queueRef, stackRef,
      heapRef; lia.
Qed.

Lemma SimS_get σ st :
  SimS σ st →
  getSet σ visitedRef = st_visited st ∧ getSet σ closedRef = st_closed st ∧
  getMapS σ cameFromRef = st_cameFrom st ∧ getMapZ σ gScoreRef = st_gScore st ∧
  getItems σ queueRef = st_queue st ∧ getItems σ stackRef = st_stack st ∧
  getNodes σ heapRef = st_heap st.
Proof.
  intros []. unfold getSet, getMapS, getMapZ, getItems, getNodes.
  rewrite ss_visited0, ss_closed0, ss_cameFrom0, ss_gScore0, ss_queue0,
    ss_stack0, ss_heap0. done.
Qed.

(** Rewriting a store lookup through updates and allocations. *)
Ltac store_lookup :=
  repeat first
    [ rewrite list_lookup_insert_eq by (rewrite ?length_insert, ?length_app; simpl;
        unfold visitedRef, closedRef, cameFromRef, gScoreRef, queueRef,
        stackRef, heapRef; lia)
    | rewrite list_lookup_insert_ne by (unfold visitedRef, closedRef, cameFromRef,
        gScoreRef, queueRef, stackRef, heapRef; lia)
    | rewrite lookup_app_l by (rewrite ?length_insert, ?length_app; simpl;
        unfold visitedRef, closedRef, cameFromRef, gScoreRef, queueRef,
        stackRef, heapRef; lia) ].

(** [frontierToArray()] in the store: only allocations, and the fresh
    array holds the frontier. *)
Lemma frontierToArrayH_spec σ st :
  SimS σ st →
  ∃ extra,
    (frontierToArrayH options σ).2 = σ ++ extra ∧
    length σ <= (frontierToArrayH options σ).1 ∧
    (frontierToArrayH options σ).2 !! (frontierToArrayH options σ).1 =
      Some (OItems (frontierToArray options st)).
Proof.
  intros H. destruct (SimS_get _ _ H) as (_ & _ & _ & _ & Hq & Hs & Hh).
  unfold frontierToArrayH, frontierToArray, MinHeapObj.toArray, alloc.
  destruct fk; cbn [fst snd].
  - eexists. split; [done|]. split; [done|].
    rewrite Hq. by rewrite lookup_app_r, Nat.sub_diag.
  - eexists. split; [done|]. split; [done|].
    rewrite Hs. by rewrite lookup_app_r, Nat.sub_diag.
  - eexists. split; [by rewrite <-app_assoc|].
    split; [rewrite length_app; lia|].
    rewrite lookup_app_r, Nat.sub_diag by done. simpl.
    unfold getNodes at 1. rewrite lookup_app_r, Nat.sub_diag by done. simpl.
    by rewrite Hh.
Qed.

Lemma getItems_lookup σ l a : σ !! l = Some (OItems a) → getItems σ l = a.
Proof. intros E. unfold getItems. by rewrite E. Qed.

Lemma pushStepH_Sim hs st p :
  Sim hs st → Sim (pushStepH options p hs) (pushStep options p st).
Proof.
  intros [HS Hsteps Hr Hpf Hpc].
  destruct (frontierToArrayH_spec _ _ HS) as (extra & E & Hl & Hf).
  pose proof (SimS_length _ _ HS) as Hlen.
  pose proof (SimS_app _ _ extra HS) as HS1. rewrite <-E in HS1.
  destruct (SimS_get _ _ HS1) as (Hv & Hc & Hm & Hg & _).
  unfold pushStepH, alloc. cbn [fst snd].
  set (σ1 := (frontierToArrayH options (hs_store hs)).2) in *.
  set (fl := (frontierToArrayH options (hs_store hs)).1) in *.
  assert (length (hs_store hs) <= length σ1) as Hl1.
  { rewrite E, length_app. lia. }
  assert (fl < length σ1) as Hfl by (by eapply lookup_lt_Some).
  set (σ5 := (((σ1 ++ [OSet (getSet σ1 visitedRef)]) ++ _) ++ _) ++ _).
  assert (∃ extra', σ5 = hs_store hs ++ extra') as [extra' E5].
  { eexists. unfold σ5. rewrite E, <-!app_assoc. done. }
  split; cbn [hs_store hs_steps hs_relaxations hs_peakFrontier hs_peakClosed
              st_steps st_relaxations st_peakFrontier st_peakClosed pushStep
              st_visited st_closed st_cameFrom st_gScore st_queue st_stack st_heap].
  - rewrite E5. apply SimS_app. by destruct HS.
  - constructor.
    + assert (∀ x y z, getSet ((σ1 ++ x) ++ y) closedRef = st_closed st ∧
                       getSet (σ1 ++ x) closedRef = st_closed st ∧
                       getMapS ((σ1 ++ x) ++ y) cameFromRef = st_cameFrom st ∧
                       getMapZ (((σ1 ++ x) ++ y) ++ z) gScoreRef = st_gScore st)
        as Hgets.
      { intros x y z. unfold getSet, getMapS, getMapZ.
        destruct HS1. store_lookup.
        by rewrite ss_closed0, ss_cameFrom0, ss_gScore0. }
      split; cbn [h_index h_frontierKind h_partial h_frontier h_visited
                  h_closed h_cameFrom h_gScore index frontierKind partial
                  frontier visited closed cameFrom gScore].
      * by rewrite (Forall2_length _ _ _ Hsteps).
      * done.
      * done.
      * split; [lia|]. unfold σ5. store_lookup. done.
      * split; [lia|]. unfold σ5. store_lookup.
        rewrite lookup_app_r, Nat.sub_diag by done. simpl. by rewrite Hv.
      * split; [rewrite length_app; simpl; lia|]. unfold σ5. store_lookup.
        rewrite lookup_app_r, Nat.sub_diag by done. simpl.
        by rewrite (proj1 (proj2 (Hgets _ [] []))).
      * split; [rewrite !length_app; simpl; lia|]. unfold σ5. store_lookup.
        rewrite lookup_app_r, Nat.sub_diag by done. simpl.
        by rewrite (proj1 (proj2 (proj2 (Hgets _ _ [])))).
      * split; [rewrite !length_app; simpl; lia|]. unfold σ5.
        rewrite lookup_app_r, Nat.sub_diag by done. simpl.
        by rewrite (proj2 (proj2 (proj2 (Hgets _ _ _)))).
    + eapply stepsSim_frame; [exact Hsteps|]. rewrite E5. apply frame_app.
  - done.
  - rewrite (getItems_lookup _ _ _ Hf). congruence.
  - rewrite Hc. congruence.
Qed.

(** A transition that allocates or updates working objects only. *)
Lemma Sim_intro hs' st' hs st :
  Sim hs st →
  frame (hs_store hs) (hs_store hs') →
  SimS (hs_store hs') st' →
  hs_steps hs' = hs_steps hs →
  st_steps st' = st_steps st →
  hs_relaxations hs' = st_relaxations st' →
  hs_peakFrontier hs' = st_peakFrontier st' →
  hs_peakClosed hs' = st_peakClosed st' →
  Sim hs' st'.
Proof.
  intros [HS Hsteps Hr Hpf Hpc] Hfr HS' E1 E2 ? ? ?. split; try done.
  rewrite E1, E2. by eapply stepsSim_frame.
Qed.

Ltac sims HS :=
  let L := fresh "L" in
  pose proof (SimS_length _ _ HS) as L;
  let Hv := fresh "Hv" in let Hc := fresh "Hc" in let Hcf := fresh "Hcf" in
  let Hg := fresh "Hg" in let Hq := fresh "Hq" in let Hs := fresh "Hs" in
  let Hh := fresh "Hh" in
  destruct HS as [Hv Hc Hcf Hg Hq Hs Hh];
  split;
  cbn [st_visited st_closed st_cameFrom st_gScore st_queue st_stack st_heap
       set_books set_frontier pushStep];
  unfold setAdd, mapSetS, mapSetZ, arrayPush, MinHeapObj.push,
    getSet, getMapS, getMapZ, getItems, getNodes;
  store_lookup;
  rewrite ?Hv, ?Hc, ?Hcf, ?Hg, ?Hq, ?Hs, ?Hh; try done.

Ltac frames :=
  unfold setAdd, mapSetS, mapSetZ, arrayPush, MinHeapObj.push;
  repeat first
    [ apply frame_refl
    | apply frame_app
    | apply frame_insert;
      unfold visitedRef, closedRef, cameFromRef, gScoreRef, queueRef,
        stackRef, heapRef; lia
    | eapply frame_trans;
      [|apply frame_insert;
        unfold visitedRef, closedRef, cameFromRef, gScoreRef, queueRef,
          stackRef, heapRef; lia] ].

Lemma popFreshH_spec fuel : ∀ σ st,
  SimS σ st →
  (popFreshH fuel σ).1 =
    (popFresh fuel (st_closed st) (st_gScore st) (st_heap st)).1 ∧
  SimS (popFreshH fuel σ).2
    (set_frontier (st_queue st) (st_stack st)
       (popFresh fuel (st_closed st) (st_gScore st) (st_heap st)).2 st) ∧
  frame σ (popFreshH fuel σ).2.
Proof.
  induction fuel as [|fuel IH]; intros σ st HS.
  - simpl. split; [done|]. split; [by destruct HS|apply frame_refl].
  - destruct (SimS_get _ _ HS) as (_ & Hc & _ & Hg & _ & _ & Hh).
    cbn [popFreshH popFresh]. unfold MinHeapObj.pop. rewrite Hh.
    destruct (MinHeap.pop (st_heap st)) as [r a] eqn:Ep.
    set (σ1 := <[heapRef := ONodes a]> σ).
    assert (SimS σ1 (set_frontier (st_queue st) (st_stack st) a st)) as HS1.
    { unfold σ1. sims HS. }
    assert (frame σ σ1) as Hf1 by (unfold σ1; frames).
    destruct (SimS_get _ _ HS1) as (_ & Hc1 & _ & Hg1 & _).
    cbn [st_closed st_gScore set_frontier] in Hc1, Hg1.
    destruct r as [nd|]; [|done].
    rewrite Hc1, Hg1.
    specialize (IH σ1 _ HS1).
    cbn [st_closed st_gScore st_heap st_queue st_stack set_frontier] in IH.
    destruct IH as (I1 & I2 & I3).
    assert (frame σ (popFreshH fuel σ1).2) as Hf2 by (by eapply frame_trans).
    case_bool_decide; [done|].
    destruct (st_gScore st !! it_key (hn_value nd)) as [best|];
      [|done].
    destruct (it_g (hn_value nd)) as [g|]; [|done].
    case_bool_decide; done.
Qed.

Lemma selectH_spec σ st :
  SimS σ st →
  (selectH options σ).1 = (select options st).1 ∧
  SimS (selectH options σ).2 (select options st).2 ∧
  frame σ (selectH options σ).2.
Proof.
  intros HS.
  destruct (SimS_get _ _ HS) as (_ & _ & _ & _ & Hq & Hs & Hh).
  unfold selectH, select. destruct fk.
  - rewrite Hq. destruct (st_queue st) as [|it q] eqn:E; cbn [fst snd].
    + split; [done|]. split; [done|apply frame_refl].
    + split; [done|]. split; [sims HS|frames].
  - rewrite Hs. destruct (st_stack st) as [|top q] eqn:E; cbn [fst snd].
    + split; [done|]. split; [done|apply frame_refl].
    + split; [done|]. split; [sims HS|frames].
  - unfold MinHeapObj.size. rewrite Hh. cbn [fst snd].
    by apply popFreshH_spec.
Qed.

Lemma frontierLengthH_spec hs st :
  Sim hs st →
  (frontierLengthH options hs).1 = length (frontierToArray options st) ∧
  getItems (frontierToArrayH options (hs_store hs)).2
           (frontierToArrayH options (hs_store hs)).1 =
    frontierToArray options st ∧
  Sim (frontierLengthH options hs).2 st.
Proof.
  intros H. pose proof (sim_store _ _ H) as HS.
  destruct (frontierToArrayH_spec _ _ HS) as (extra & E & Hl & Hf).
  unfold frontierLengthH. cbn [fst snd].
  rewrite (getItems_lookup _ _ _ Hf). split; [done|]. split; [done|].
  apply (Sim_intro _ _ hs st H); cbn [with_store hs_store hs_steps
    hs_relaxations hs_peakFrontier hs_peakClosed]; try (by destruct H).
  - rewrite E. apply frame_app.
  - rewrite E. by apply SimS_app.
Qed.

Ltac sim_update H :=
  eapply Sim_intro;
  [ exact H
  | cbn [with_store hs_store]; frames
  | cbn [with_store hs_store];
    let HS := fresh "HS" in pose proof (sim_store _ _ H) as HS; sims HS
  | done
  | done
  | cbn [with_store hs_relaxations st_relaxations set_books set_frontier];
    try (by destruct H); by rewrite (sim_relaxations _ _ H)
  | cbn [with_store hs_peakFrontier st_peakFrontier set_books set_frontier];
    by destruct H
  | cbn [with_store hs_peakClosed st_peakClosed set_books set_frontier];
    by destruct H ].

Lemma arrayPush_Sim hs st it :
  Sim hs st →
  Sim (with_store
         (arrayPush (if bool_decide (fk = queue) then queueRef else stackRef) it)
         hs)
      (if bool_decide (fk = queue)
       then set_frontier (st_queue st ++ [it]) (st_stack st) (st_heap st) st
       else set_frontier (st_queue st) (st_stack st ++ [it]) (st_heap st) st).
Proof. intros H. case_bool_decide; sim_update H. Qed.

Lemma heapPush_Sim hs st nd :
  Sim hs st →
  Sim (with_store (MinHeapObj.push heapRef nd) hs)
      (set_frontier (st_queue st) (st_stack st)
         (MinHeap.push nd (st_heap st)) st).
Proof. intros H. sim_update H. Qed.

Lemma discover_Sim hs st k v :
  Sim hs st →
  Sim (with_store (mapSetS cameFromRef k v)
         (with_store (setAdd visitedRef k) hs))
      (set_books ({[ k ]} ∪ st_visited st) (st_closed st)
         (<[k := v]> (st_cameFrom st)) (st_gScore st) (st_relaxations st) st).
Proof. intros H. sim_update H. Qed.

Lemma improve_Sim hs st k v g :
  Sim hs st →
  Sim (let hs := with_store (mapSetS cameFromRef k v) hs in
       let hs := with_store (mapSetZ gScoreRef k g) hs in
       let hs := with_store (setAdd visitedRef k) hs in
       {| hs_store := hs_store hs; hs_steps := hs_steps hs;
          hs_relaxations := S (hs_relaxations hs);
          hs_peakFrontier := hs_peakFrontier hs;
          hs_peakClosed := hs_peakClosed hs |})
      (set_books ({[ k ]} ∪ st_visited st) (st_closed st)
         (<[k := v]> (st_cameFrom st)) (<[k := g]> (st_gScore st))
         (S (st_relaxations st)) st).
Proof. intros H. sim_update H. Qed.

Lemma close_Sim hs st k :
  Sim hs st →
  Sim (with_store (setAdd closedRef k) hs)
      (set_books (st_visited st) ({[ k ]} ∪ st_closed st)
         (st_cameFrom st) (st_gScore st) (st_relaxations st) st).
Proof. intros H. sim_update H. Qed.

Lemma relaxNeighborH_Sim sel curG curDepth hs st nb :
  Sim hs st →
  Sim (relaxNeighborH env goalKey options sel curG curDepth hs nb)
      (relaxNeighbor env goalKey options sel curG curDepth st nb).
Proof.
  intros H. pose proof (sim_store _ _ H) as HS.
  destruct (SimS_get _ _ HS) as (Hv & Hc & _ & Hg & _).
  unfold relaxNeighborH, relaxNeighbor. rewrite Hc, Hv, Hg.
  case_bool_decide; [done|].
  destruct (is_unweighted options).
  - case_bool_decide; [done|].
    apply pushStepH_Sim.
    apply (arrayPush_Sim _ (pushStep options _ _)).
    apply pushStepH_Sim. by apply discover_Sim.
  - destruct (negb _); [done|].
    apply pushStepH_Sim.
    apply (heapPush_Sim _ (pushStep options _ _)).
    apply pushStepH_Sim. by apply improve_Sim.
Qed.

Lemma relaxAllH_Sim sel hs st :
  Sim hs st →
  Sim (relaxAllH env goalKey options sel hs) (relaxAll env goalKey options sel st).
Proof.
  intros H. pose proof (sim_store _ _ H) as HS.
  destruct (SimS_get _ _ HS) as (_ & _ & _ & Hg & _).
  unfold relaxAllH, relaxAll. rewrite Hg.
  generalize (default 0%Z (st_gScore st !! it_key sel)).
  intros curG. clear HS Hg.
  revert hs st H.
  induction (neighbors adapter (it_key sel)) as [|nb l IH]; intros hs st H;
    [done|].
  simpl. apply IH. by apply relaxNeighborH_Sim.
Qed.

Lemma expandH_Sim sel hs st :
  Sim hs st →
  Sim (expandH env options sel hs) (expand env options sel st).
Proof.
  intros H. unfold expandH, expand. cbv zeta.
  pose proof (pushStepH_Sim _ _
    (partialOf PExpand (Some sel) (Some (selectionReasonOf options sel)))
    (close_Sim _ _ (it_key sel) H)) as H1.
  destruct (frontierLengthH_spec _ _ H1) as (E & _ & H2).
  rewrite E. case_bool_decide; [by apply pushStepH_Sim|done].
Qed.

(** The two bodies take the same way and end related. *)
Definition flowSim {A B} (R : A → B → Prop)
    (x : option (Flow * A)) (y : option (Flow * B)) : Prop :=
  match x, y with
  | Some (f, a), Some (f', b) => f = f' ∧ R a b
  | None, None => True
  | _, _ => False
  end.

Lemma bodyH_Sim hs st :
  Sim hs st →
  flowSim Sim (bodyH env startKey goalKey options hs)
              (body env startKey goalKey options st).
Proof.
  intros H. pose proof (sim_store _ _ H) as HS.
  destruct (selectH_spec _ _ HS) as (E1 & HS1 & Hf1).
  unfold bodyH, body.
  destruct (select options st) as [osel st1] eqn:Esel.
  cbn [fst snd] in E1, HS1. rewrite E1.
  assert (st_steps st1 = st_steps st ∧
          st_relaxations st1 = st_relaxations st ∧
          st_peakFrontier st1 = st_peakFrontier st ∧
          st_peakClosed st1 = st_peakClosed st) as (F1 & F2 & F3 & F4).
  { replace st1 with (select options st).2 by (by rewrite Esel).
    unfold select. destruct fk; [destruct (st_queue st)|destruct (st_stack st)|];
      done. }
  assert (Sim (with_store (λ _, (selectH options (hs_store hs)).2) hs) st1) as H1.
  { apply (Sim_intro _ _ hs st H); cbn [with_store hs_store hs_steps
      hs_relaxations hs_peakFrontier hs_peakClosed]; try done.
    - rewrite F2. by destruct H.
    - rewrite F3. by destruct H.
    - rewrite F4. by destruct H. }
  set (hs1 := with_store _ hs) in *.
  destruct osel as [sel|]; [|by split].
  destruct (SimS_get _ _ (sim_store _ _ H1)) as (_ & Hc & _).
  rewrite Hc. case_bool_decide; [by split|].
  destruct (frontierLengthH_spec _ _ H1) as (_ & E2 & H2).
  rewrite E2. unfold frontierLengthH in H2. cbn [snd] in H2.
  match goal with
  | |- context [pushStepH options ?p ?hs2] =>
      pose proof (pushStepH_Sim _ _ p H2) as H3;
      set (hs3 := pushStepH options p hs2) in *
  end.
  match type of H3 with Sim _ ?st3 => set (st3_ := st3) in * end.
  destruct (SimS_get _ _ (sim_store _ _ H3)) as (_ & _ & Hcf & _).
  rewrite Hcf. case_bool_decide.
  - change (st_cameFrom st3_) with (st_cameFrom st1).
    destruct (reconstructPathCoords _ _ _ _); [|done].
    split; [done|]. by apply pushStepH_Sim.
  - split; [done|]. apply relaxAllH_Sim. by apply expandH_Sim.
Qed.

Definition loopSim (x : option (Z * HState)) (y : option (Z * State)) : Prop :=
  match x, y with
  | Some (i, hs), Some (i', st) => i = i' ∧ Sim hs st
  | None, None => True
  | _, _ => False
  end.

Lemma mainLoopH_Sim fuel : ∀ it hs st,
  Sim hs st →
  loopSim (mainLoopH env startKey goalKey options fuel it hs)
          (mainLoop env startKey goalKey options fuel it st).
Proof.
  induction fuel as [|fuel IH]; intros it hs st H;
    destruct (frontierLengthH_spec _ _ H) as (E & _ & H1);
    cbn [mainLoopH mainLoop]; rewrite E; case_bool_decide; try done.
  case_bool_decide.
  - split; [done|]. by apply pushStepH_Sim.
  - pose proof (bodyH_Sim _ _ H1) as Hb. unfold flowSim in Hb.
    destruct (bodyH _ _ _ _ _) as [[[] hs']|],
      (body _ _ _ _ _) as [[[] st']|]; try done;
      destruct Hb as [? Hb]; try done.
    by apply IH.
Qed.

Lemma initStateH_Sim :
  Sim (initStateH env startKey goalKey options)
      (initState env startKey goalKey options).
Proof.
  unfold initStateH, initState. apply pushStepH_Sim.
  split; cbn [hs_store hs_steps hs_relaxations hs_peakFrontier hs_peakClosed
              st_steps st_relaxations st_peakFrontier st_peakClosed];
    try done.
  split; cbn [st_visited st_closed st_cameFrom st_gScore st_queue st_stack
              st_heap];
    destruct fk; simpl; try done.
  all: unfold setAdd, mapSetZ, getSet, getMapZ; simpl;
    rewrite ?(right_id_L ∅ (∪)); done.
Qed.

(** ** What later steps do to the store *)

Definition snapshotLocs (h : HStep) : list loc :=
  [h_frontier h; h_visited h; h_closed h; h_cameFrom h; h_gScore h].

(** [hs'] comes after [hs]: the snapshots of [hs] are still in [steps],
    and no object other than the seven working ones has changed. *)
Definition later (hs hs' : HState) : Prop :=
  hs_steps hs `suffix_of` hs_steps hs' ∧ frame (hs_store hs) (hs_store hs').

(** Every snapshot of [hs] is in [hs'] and shows the same contents. *)
Definition keeps (hs hs' : HState) : Prop :=
  ∀ h, h ∈ hs_steps hs →
    h ∈ hs_steps hs' ∧ readStep (hs_store hs') h = readStep (hs_store hs) h.

Lemma later_refl hs : later hs hs.
Proof. split; [done|apply frame_refl]. Qed.

Lemma later_trans hs1 hs2 hs3 : later hs1 hs2 → later hs2 hs3 → later hs1 hs3.
Proof.
  intros [S1 F1] [S2 F2]. split; [by etrans|by eapply frame_trans].
Qed.

Lemma later_with_store f hs :
  frame (hs_store hs) (f (hs_store hs)) → later hs (with_store f hs).
Proof. by split. Qed.

Lemma frontierToArrayH_app σ :
  ∃ extra, (frontierToArrayH options σ).2 = σ ++ extra.
Proof.
  unfold frontierToArrayH, MinHeapObj.toArray, alloc.
  destruct fk; cbn [fst snd]; eexists; [done|done|by rewrite <-app_assoc].
Qed.

Lemma later_pushStepH p hs : later hs (pushStepH options p hs).
Proof.
  destruct (frontierToArrayH_app (hs_store hs)) as [extra E].
  unfold pushStepH, alloc. cbn [fst snd].
  split; cbn [hs_steps hs_store]; [by apply suffix_cons_r|].
  rewrite E, <-!app_assoc. apply frame_app.
Qed.

Lemma later_frontierLengthH hs : later hs (frontierLengthH options hs).2.
Proof.
  destruct (frontierToArrayH_app (hs_store hs)) as [extra E].
  unfold frontierLengthH. cbn [snd]. apply later_with_store.
  rewrite E. apply frame_app.
Qed.

Lemma popFreshH_frame fuel : ∀ σ, frame σ (popFreshH fuel σ).2.
Proof.
  induction fuel as [|fuel IH]; intros σ; [apply frame_refl|].
  cbn [popFreshH]. unfold MinHeapObj.pop.
  destruct (MinHeap.pop (getNodes σ heapRef)) as [r a].
  assert (frame σ (<[heapRef := ONodes a]> σ)) as Hf by frames.
  assert (frame σ (popFreshH fuel (<[heapRef := ONodes a]> σ)).2) as Hf2.
  { eapply frame_trans; [exact Hf|apply IH]. }
  destruct r as [nd|]; [|done].
  case_bool_decide; [done|].
  destruct (_ !! _); [|done]. destruct (it_g _); [|done].
  by case_bool_decide.
Qed.

Lemma selectH_frame σ : frame σ (selectH options σ).2.
Proof.
  unfold selectH. destruct fk.
  - destruct (getItems σ queueRef); cbn [snd]; frames.
  - destruct (getItems σ stackRef); cbn [snd]; frames.
  - apply popFreshH_frame.
Qed.

Lemma later_relaxNeighborH sel curG curDepth hs nb :
  later hs (relaxNeighborH env goalKey options sel curG curDepth hs nb).
Proof.
  unfold relaxNeighborH.
  case_bool_decide; [apply later_refl|].
  destruct (is_unweighted options).
  - case_bool_decide; [apply later_refl|]. cbv zeta.
    eapply later_trans; [|apply later_pushStepH].
    eapply later_trans; [|apply later_with_store; case_bool_decide; frames].
    eapply later_trans; [|apply later_pushStepH].
    eapply later_trans; [|apply later_with_store; frames].
    apply later_with_store; frames.
  - destruct (negb _); [apply later_refl|]. cbv zeta.
    eapply later_trans; [|apply later_pushStepH].
    eapply later_trans; [|apply later_with_store; frames].
    eapply later_trans; [|apply later_pushStepH].
    split; cbn [hs_steps hs_store with_store]; [done|].
    eapply frame_trans; [|frames]. eapply frame_trans; frames.
Qed.

Lemma later_relaxAllH sel hs :
  later hs (relaxAllH env goalKey options sel hs).
Proof.
  unfold relaxAllH.
  generalize (default 0%Z (getMapZ (hs_store hs) gScoreRef !! it_key sel)).
  intros curG.
  induction (neighbors adapter (it_key sel)) as [|nb l IH] using rev_ind;
    [apply later_refl|].
  rewrite foldl_app. simpl.
  eapply later_trans; [exact IH|apply later_relaxNeighborH].
Qed.

Lemma later_expandH sel hs : later hs (expandH env options sel hs).
Proof.
  unfold expandH. cbv zeta.
  assert (later hs (frontierLengthH options
            (pushStepH options
               (partialOf PExpand (Some sel) (Some (selectionReasonOf options sel)))
               (with_store (setAdd closedRef (it_key sel)) hs))).2) as H.
  { eapply later_trans; [|apply later_frontierLengthH].
    eapply later_trans; [|apply later_pushStepH].
    apply later_with_store; frames. }
  case_bool_decide; [|done].
  eapply later_trans; [exact H|apply later_pushStepH].
Qed.

Lemma later_bodyH hs fl hs' :
  bodyH env startKey goalKey options hs = Some (fl, hs') → later hs hs'.
Proof.
  unfold bodyH. cbv zeta.
  set (hs1 := with_store (λ _, (selectH options (hs_store hs)).2) hs).
  assert (later hs hs1) as H1.
  { apply later_with_store. apply selectH_frame. }
  destruct (selectH options (hs_store hs)).1 as [sel|]; [|by intros [= <- <-]].
  case_bool_decide; [by intros [= <- <-]|].
  match goal with
  | |- context [pushStepH options ?p ?hs2] =>
      assert (later hs (pushStepH options p hs2)) as H3;
      [|set (hs3 := pushStepH options p hs2) in *]
  end.
  { eapply later_trans; [|apply later_pushStepH].
    eapply later_trans; [exact H1|].
    apply (later_frontierLengthH hs1). }
  case_bool_decide.
  - destruct (reconstructPathCoords _ _ _ _); [|done].
    intros [= <- <-]. eapply later_trans; [exact H3|apply later_pushStepH].
  - intros [= <- <-]. eapply later_trans; [exact H3|].
    eapply later_trans; [apply later_expandH|apply later_relaxAllH].
Qed.

Lemma later_mainLoopH fuel : ∀ it hs it' hs',
  mainLoopH env startKey goalKey options fuel it hs = Some (it', hs') →
  later hs hs'.
Proof.
  induction fuel as [|fuel IH]; intros it hs it' hs';
    cbn [mainLoopH]; pose proof (later_frontierLengthH hs) as H1;
    case_bool_decide; try done; try (by intros [= <- <-]).
  case_bool_decide.
  - intros [= <- <-]. eapply later_trans; [exact H1|apply later_pushStepH].
  - destruct (bodyH _ _ _ _ _) as [[[] hs2]|] eqn:Eb; [| |done].
    + intros Hm. eapply later_trans; [exact H1|].
      eapply later_trans; [by eapply later_bodyH|by eapply IH].
    + intros [= <- <-]. eapply later_trans; [exact H1|by eapply later_bodyH].
Qed.

(** The snapshots of a state of the run are not working objects, so
    whatever comes later keeps them. *)
Lemma later_keeps hs st hs' : Sim hs st → later hs hs' → keeps hs hs'.
Proof.
  intros H [Hsuf Hfr] h Hh. split.
  - destruct Hsuf as [k ->]. set_solver.
  - apply list_elem_of_lookup in Hh as [i Hi].
    destruct (Forall2_lookup_l _ _ _ _ _ (sim_steps _ _ H) Hi) as (s & _ & Hs).
    rewrite (stepSim_read _ _ _ Hs).
    apply stepSim_read. eapply stepSim_frame; [exact Hs|].
    done.
Qed.

Lemma pushStepH_fresh hs st p :
  Sim hs st →
  ∃ h, hs_steps (pushStepH options p hs) = h :: hs_steps hs ∧
       Forall (λ l, length (hs_store hs) <= l) (snapshotLocs h) ∧
       readStep (hs_store (pushStepH options p hs)) h =
         {| index := length (st_steps st);
            frontierKind := fk;
            frontier := frontierToArray options st;
            visited := st_visited st;
            closed := st_closed st;
            cameFrom := st_cameFrom st;
            gScore := st_gScore st;
            partial := p |}.
Proof.
  intros H. pose proof (pushStepH_Sim _ _ p H) as H'.
  pose proof (sim_steps _ _ H') as Hs.
  destruct (frontierToArrayH_spec _ _ (sim_store _ _ H)) as (extra & E & Hl & _).
  revert Hs. unfold pushStepH at 2, pushStep. cbn [hs_steps st_steps].
  intros Hs. apply Forall2_cons_1 in Hs as [Hs _].
  eexists. split; [done|]. split; [|by apply stepSim_read].
  unfold snapshotLocs, alloc.
  cbn [h_frontier h_visited h_closed h_cameFrom h_gScore fst snd].
  assert (length (hs_store hs) <=
          length (frontierToArrayH options (hs_store hs)).2) as Hl2.
  { rewrite E, length_app. lia. }
  repeat (apply Forall_cons; split); [..|apply Forall_nil];
    rewrite ?length_app; simpl; lia.
Qed.
End StoreSim.

(** C7. Every snapshot is an independent copy.  In the store model a
    snapshot holds five locations.  (1) When a snapshot is emitted, its
    five locations are fresh (no object that existed before) and hold the
    contents of the working frontier, [visited], [closed], [cameFrom] and
    [gScore] at that moment.  (2) Every later step of the engine (another
    snapshot, closing and expanding a node, relaxing a neighbour, a whole
    loop body, the rest of the main loop) leaves every snapshot emitted so
    far in [steps] with the contents it had.  (3) The run ends, and in its
    final store every snapshot reads as the state recorded at its
    emission, that is as the snapshot of the run over immutable values. *)
Theorem snapshots_are_independent_copies
    (env : Environment) (startKey goalKey : string) (options : RunOptions) :
  (∀ hs st p, Sim hs st →
     ∃ h, hs_steps (pushStepH options p hs) = h :: hs_steps hs ∧
          Forall (λ l, (length (hs_store hs) <= l)%nat) (snapshotLocs h) ∧
          readStep (hs_store (pushStepH options p hs)) h =
            {| index := length (st_steps st);
               frontierKind := frontierKindFor (algorithm options);
               frontier := frontierToArray options st;
               visited := st_visited st;
               closed := st_closed st;
               cameFrom := st_cameFrom st;
               gScore := st_gScore st;
               partial := p |}) ∧
  (∀ hs st, Sim hs st →
     (∀ p, keeps hs (pushStepH options p hs)) ∧
     (∀ sel, keeps hs (expandH env options sel hs)) ∧
     (∀ sel curG curDepth nb,
        keeps hs (relaxNeighborH env goalKey options sel curG curDepth hs nb)) ∧
     (∀ fl hs', bodyH env startKey goalKey options hs = Some (fl, hs') →
        keeps hs hs') ∧
     (∀ fuel it it' hs',
        mainLoopH env startKey goalKey options fuel it hs = Some (it', hs') →
        keeps hs hs')) ∧
  ∃ it hs st,
    runLoopH env startKey goalKey options = Some (it, hs) ∧
    runLoop env startKey goalKey options = Some (it, st) ∧
    Sim hs st ∧
    readStep (hs_store hs) <$> hs_steps hs = st_steps st ∧
    steps (traceOf options st) =
      reverse (readStep (hs_store hs) <$> hs_steps hs).
Proof.
  split; [|split].
  - intros hs st p H. by apply pushStepH_fresh.
  - intros hs st H. split_and!.
    + intros p. eapply later_keeps; [exact H|apply later_pushStepH].
    + intros sel. eapply later_keeps; [exact H|apply later_expandH].
    + intros sel curG curDepth nb.
      eapply later_keeps; [exact H|apply later_relaxNeighborH].
    + intros fl hs' Hb. eapply later_keeps; [exact H|by eapply later_bodyH].
    + intros fuel it it' hs' Hm.
      eapply later_keeps; [exact H|by eapply later_mainLoopH].
  - destruct (runLoop_returns env startKey goalKey options) as (it & st & Hrun & _).
    pose proof (mainLoopH_Sim env startKey goalKey options
      (S (Z.to_nat (maxIterations env))) 0 _ _
      (initStateH_Sim env startKey goalKey options)) as Hsim.
    unfold runLoopH. unfold runLoop in Hrun. rewrite Hrun in Hsim.
    unfold loopSim in Hsim.
    destruct (mainLoopH _ _ _ _ _ _ _) as [[it' hs]|]; [|done].
    destruct Hsim as [-> Hsim].
    assert (readStep (hs_store hs) <$> hs_steps hs = st_steps st) as Hread.
    { pose proof (sim_steps _ _ Hsim) as Hs.
      revert Hs. generalize (hs_steps hs), (st_steps st).
      intros hl sl Hs. induction Hs as [|h s hl sl Hh _ IH]; [done|].
      rewrite fmap_cons, IH, (stepSim_read _ _ _ Hh). done. }
    exists it, hs, st. split_and!; try done.
    by rewrite Hread.
Qed.

(* ===================================================================== *)
(** * Breadth-first search: hop counts *)
(* ===================================================================== *)

(** One hop: [b] is the key of a neighbour that the adapter lists for
    [a]. *)
Definition edge (env : Environment) (a b : string) : Prop :=
  ∃ nb, nb ∈ neighbors (adapterOf env) a ∧ nb_key nb = b.

(** [hops env a n b]: [n] hops lead from [a] to [b]. *)
Inductive hops (env : Environment) (a : string) : nat → string → Prop :=
| hops_O : hops env a 0 a
| hops_S n b c : hops env a n b → edge env b c → hops env a (S n) c.

Lemma StronglySorted_ext {A} (R R' : A → A → Prop) (l : list A) :
  (∀ a b, a ∈ l → b ∈ l → R a b → R' a b) →
  StronglySorted R l → StronglySorted R' l.
Proof.
  intros H Hs. induction Hs as [|x l Hs IH Hx]; constructor.
  - apply IH. intros a b Ha Hb. apply H; by right.
  - rewrite Forall_forall in *. intros y Hy.
    apply H; [left|by right|by apply Hx].
Qed.

Section BFS.
Variable env : Environment.
Variables startKey goalKey : string.
Variable options : RunOptions.
Hypothesis Hbfs : algorithm options = bfs.

(** A finite set that holds every key the run can meet. *)
Variable U : gset string.
Hypothesis U_start : startKey ∈ U.
Hypothesis U_neighbors :
  ∀ k nb, nb ∈ neighbors (adapterOf env) k → nb_key nb ∈ U.
Hypothesis U_nonempty : EmptyString ∉ U.

Local Abbreviation adapter := (adapterOf env).
Local Abbreviation frontierOf := (frontierToArray options).
Local Abbreviation push_step := (pushStep options).
Local Abbreviation body_ := (body env startKey goalKey options).
Local Abbreviation expand_ := (expand env options).
Local Abbreviation relaxAll_ := (relaxAll env goalKey options).
Local Abbreviation relaxNeighbor_ := (relaxNeighbor env goalKey options).
Local Abbreviation select_ := (select options).
Local Abbreviation mainLoop_ := (mainLoop env startKey goalKey options).
Local Abbreviation initState_ := (initState env startKey goalKey options).
Local Abbreviation maxIt := (maxIterations env).

Local Open Scope nat_scope.

Ltac proj :=
  cbn [st_visited st_closed st_cameFrom st_gScore st_steps st_relaxations
       st_queue st_stack st_heap st_peakFrontier st_peakClosed
       pushStep set_frontier set_books fst snd] in *.

(** The invariant of the queue strategy.  [lab] is the level at which a
    key was discovered, [D] the level of the node being expanded (or of
    the last one), [k0] the node whose neighbour loop is running and
    [done_] the neighbours that loop has handled. *)
Record BFSc (lab : string → nat) (D : nat) (k0 : option string)
    (done_ : list Neighbor) (v c : gset string) (cf : gmap string string)
    (q : list FrontierItem) : Prop := mkBFSc
  { b_start : startKey ∈ v ∧ lab startKey = 0;
    b_sub : c ⊆ v;
    b_univ : v ⊆ U;
    b_cover : ∀ k, k ∈ v → k ∈ c ∨ k ∈ it_key <$> q;
    b_qkeys : ∀ it, it ∈ q → it_key it ∈ v ∧ it_key it ∉ c;
    b_nodup : NoDup (it_key <$> q);
    b_range : ∀ it, it ∈ q → D <= lab (it_key it) <= S D;
    b_depth : ∀ it, it ∈ q → it_depth it = Some (Z.of_nat (lab (it_key it)));
    b_sorted : StronglySorted (λ a b, lab (it_key a) <= lab (it_key b)) q;
    b_closed_le : ∀ k, k ∈ c → lab k <= D ∧ lab k < size c;
    b_bound : ∀ k, k ∈ v → lab k <= size c;
    b_hops : ∀ k, k ∈ v → hops env startKey (lab k) k;
    b_nbs : ∀ k nb, k ∈ c → nb ∈ neighbors adapter k →
            (k0 = Some k → nb ∈ done_) →
            nb_key nb ∈ v ∧ lab (nb_key nb) <= S (lab k);
    b_parent : ∀ k, k ∈ v → k ≠ startKey →
               ∃ p, cf !! k = Some p ∧ p ∈ c ∧ lab k = S (lab p);
    b_dom : ∀ k, is_Some (cf !! k) → k ∈ v;
    b_size : ∀ k, k ∈ v → lab k <= size cf;
    b_goal : goalKey ∉ c }.

Definition BFS (lab : string → nat) (D : nat) (k0 : option string)
    (done_ : list Neighbor) (st : State) : Prop :=
  BFSc lab D k0 done_ (st_visited st) (st_closed st) (st_cameFrom st)
       (st_queue st).

Lemma BFS_frontier st : frontierOf st = st_queue st.
Proof. unfold frontierToArray. by rewrite Hbfs. Qed.

(** The front of the queue leaves it and is closed. *)
Lemma BFSc_close lab D v c cf f q :
  BFSc lab D None [] v c cf (f :: q) →
  it_key f ≠ goalKey →
  BFSc lab (lab (it_key f)) (Some (it_key f)) [] v ({[ it_key f ]} ∪ c) cf q.
Proof.
  intros H Hg. destruct H.
  assert (it_key f ∈ v ∧ it_key f ∉ c) as [Hfv Hfc].
  { apply b_qkeys0. left. }
  assert (size ({[ it_key f ]} ∪ c) = S (size c)) as Hsz.
  { rewrite size_union by set_solver. by rewrite size_singleton. }
  apply StronglySorted_inv in b_sorted0 as [Hsorted Hfront].
  rewrite fmap_cons in b_nodup0. apply NoDup_cons in b_nodup0 as [Hnf Hnd].
  assert (D <= lab (it_key f) <= S D) as Hf by (apply b_range0; left).
  split; try done.
  - set_solver.
  - intros k Hk. destruct (b_cover0 k Hk) as [?|Hq]; [set_solver|].
    rewrite fmap_cons in Hq. apply elem_of_cons in Hq as [->|?]; set_solver.
  - intros it Hit. destruct (b_qkeys0 it) as [? ?]; [by right|].
    split; [done|]. intros [E%elem_of_singleton|?]%elem_of_union; [|done].
    apply Hnf. rewrite <-E. apply list_elem_of_fmap. eauto.
  - intros it Hit. rewrite Forall_forall in Hfront.
    specialize (Hfront it Hit). specialize (b_range0 it (list_elem_of_further _ _ _ Hit)).
    lia.
  - intros it Hit. apply b_depth0. by right.
  - intros k [->%elem_of_singleton|Hk]%elem_of_union.
    + rewrite Hsz. specialize (b_bound0 _ Hfv). lia.
    + rewrite Hsz. destruct (b_closed_le0 k Hk). lia.
  - intros k Hk. rewrite Hsz. specialize (b_bound0 k Hk). lia.
  - intros k nb [->%elem_of_singleton|Hk]%elem_of_union Hnb Hdone.
    + specialize (Hdone eq_refl). by apply elem_of_nil in Hdone.
    + by apply b_nbs0.
  - intros k Hk Hks. destruct (b_parent0 k Hk Hks) as (p & ? & ? & ?).
    exists p. set_solver.
  - set_solver.
Qed.

(** A neighbour that is closed or visited already. *)
Lemma BFSc_skip lab D k0 done_ v c cf q nb :
  BFSc lab D (Some k0) done_ v c cf q →
  k0 ∈ c → lab k0 = D →
  nb_key nb ∈ v →
  BFSc lab D (Some k0) (done_ ++ [nb]) v c cf q.
Proof.
  intros H Hk0 Hl Hv. destruct H. split; try done.
  intros k nb' Hk Hnb' Hdone.
  destruct (decide (k = k0 ∧ nb' = nb)) as [[-> ->]|Hne].
  - split; [done|]. destruct (b_cover0 _ Hv) as [Hc|Hq].
    + destruct (b_closed_le0 _ Hc). lia.
    + apply list_elem_of_fmap in Hq as (it & -> & Hit).
      specialize (b_range0 it Hit). lia.
  - apply b_nbs0; [done|done|]. intros [= <-].
    specialize (Hdone eq_refl). apply elem_of_app in Hdone as [?|Hd]; [done|].
    apply list_elem_of_singleton in Hd. tauto.
Qed.

(** A neighbour seen for the first time. *)
Lemma BFSc_discover lab D k0 done_ v c cf q nb item :
  BFSc lab D (Some k0) done_ v c cf q →
  k0 ∈ c → lab k0 = D →
  nb ∈ neighbors adapter k0 →
  nb_key nb ∉ v →
  it_key item = nb_key nb →
  it_depth item = Some (Z.of_nat (S D)) →
  BFSc (<[nb_key nb := S D]> lab) D (Some k0) (done_ ++ [nb])
       ({[ nb_key nb ]} ∪ v) c (<[nb_key nb := k0]> cf) (q ++ [item]).
Proof.
  intros H Hk0 Hl Hnb Hx Hkey Hdepth. destruct H.
  set (x := nb_key nb) in *.
  assert (∀ k, k ∈ v → <[x := S D]> lab k = lab k) as Hold.
  { intros k Hk. apply fn_lookup_insert_ne. intros ->. done. }
  assert (<[x := S D]> lab x = S D) as Hnew by apply fn_lookup_insert.
  assert (∀ it, it ∈ q → <[x := S D]> lab (it_key it) = lab (it_key it)) as Holdq.
  { intros it Hit. apply Hold. by apply b_qkeys0. }
  assert (cf !! x = None) as Hcfx.
  { destruct (cf !! x) eqn:E; [|done]. destruct Hx. apply b_dom0. eauto. }
  split.
  - destruct b_start0. split; [set_solver|]. by rewrite Hold.
  - set_solver.
  - pose proof (U_neighbors _ _ Hnb). set_solver.
  - intros k [->%elem_of_singleton|Hk]%elem_of_union.
    + right. rewrite fmap_app, elem_of_app. right. simpl. rewrite Hkey. left.
    + destruct (b_cover0 k Hk) as [?|?]; [by left|right].
      rewrite fmap_app, elem_of_app. by left.
  - intros it [Hit| ->%list_elem_of_singleton]%elem_of_app.
    + destruct (b_qkeys0 it Hit). split; [set_solver|done].
    + rewrite Hkey. split; [set_solver|]. intros Hc. apply Hx. by apply b_sub0.
  - rewrite fmap_app. apply NoDup_app. split; [done|]. split.
    + intros k Hk. simpl. rewrite list_elem_of_singleton, Hkey. intros ->.
      apply list_elem_of_fmap in Hk as (it & E & Hit).
      destruct (b_qkeys0 it Hit) as [Hv _]. rewrite <-E in Hv. done.
    + apply NoDup_singleton.
  - intros it [Hit| ->%list_elem_of_singleton]%elem_of_app.
    + rewrite Holdq by done. by apply b_range0.
    + rewrite Hkey, Hnew. lia.
  - intros it [Hit| ->%list_elem_of_singleton]%elem_of_app.
    + rewrite Holdq by done. by apply b_depth0.
    + by rewrite Hkey, Hnew.
  - apply StronglySorted_app_2.
    + intros a b Ha ->%list_elem_of_singleton.
      rewrite Hkey, Hnew, Holdq by done. by apply b_range0.
    + eapply StronglySorted_ext; [|exact b_sorted0].
      intros a b Ha Hb Hab. by rewrite !Holdq.
    + repeat constructor.
  - intros k Hk. rewrite Hold by (by apply b_sub0). by apply b_closed_le0.
  - intros k [->%elem_of_singleton|Hk]%elem_of_union.
    + rewrite Hnew. destruct (b_closed_le0 _ Hk0). lia.
    + rewrite Hold by done. by apply b_bound0.
  - intros k [->%elem_of_singleton|Hk]%elem_of_union.
    + rewrite Hnew. eapply hops_S; [|by exists nb].
      rewrite <-Hl. apply b_hops0. by apply b_sub0.
    + rewrite Hold by done. by apply b_hops0.
  - intros k nb' Hk Hnb' Hdone.
    rewrite (Hold k) by (by apply b_sub0).
    destruct (decide (k = k0 ∧ nb' = nb)) as [[-> ->]|Hne].
    + split; [set_solver|]. fold x. rewrite Hnew. lia.
    + destruct (b_nbs0 k nb' Hk Hnb') as [Hv Hle].
      { intros [= <-]. specialize (Hdone eq_refl).
        apply elem_of_app in Hdone as [?|Hd]; [done|].
        apply list_elem_of_singleton in Hd. tauto. }
      split; [set_solver|]. by rewrite Hold.
  - intros k [->%elem_of_singleton|Hk]%elem_of_union Hks.
    + exists k0. rewrite lookup_insert_eq. split; [done|]. split; [done|].
      rewrite Hnew, Hold by (by apply b_sub0). by rewrite Hl.
    + destruct (b_parent0 k Hk Hks) as (p & E & Hp & Hlab).
      exists p. rewrite lookup_insert_ne by (intros ->; done).
      split; [done|]. split; [done|].
      rewrite !Hold by (done || by apply b_sub0). done.
  - intros k [p Hp]. destruct (decide (k = x)) as [->|Hne]; [set_solver|].
    rewrite lookup_insert_ne in Hp by done.
    apply elem_of_union_r. apply b_dom0. eauto.
  - intros k Hk. rewrite map_size_insert_None by done.
    apply elem_of_union in Hk as [->%elem_of_singleton|Hk].
    + rewrite Hnew. specialize (b_size0 k0 (b_sub0 _ Hk0)). lia.
    + rewrite Hold by done. specialize (b_size0 k Hk). lia.
  - done.
Qed.

(** The neighbour loop of [k0] is over. *)
Lemma BFSc_finish lab D k0 v c cf q :
  BFSc lab D (Some k0) (neighbors adapter k0) v c cf q →
  BFSc lab D None [] v c cf q.
Proof.
  intros H. destruct H. split; try done.
  intros k nb Hk Hnb _. apply b_nbs0; [done|done|]. by intros [= <-].
Qed.

Lemma BFS_init : BFS (λ _, 0) 0 None [] initState_.
Proof.
  unfold BFS, initState, startItemOf. rewrite Hbfs. proj.
  rewrite bool_decide_eq_true_2 by done.
  assert (∀ it : FrontierItem,
            it ∈ [makeItem (coordOfKey adapter startKey) startKey bfs 0
                    (heuristicFn (heuristic options) (coordOfKey adapter startKey)
                       (coordOfKey adapter goalKey)) 0 (heuristicWeight options)] →
            it_key it = startKey ∧ it_depth it = Some 0%Z) as Hit.
  { intros it ->%list_elem_of_singleton. done. }
  split; try done.
  - set_solver.
  - set_solver.
  - intros k ->%elem_of_singleton. right. simpl. left.
  - intros it [-> _]%Hit. set_solver.
  - simpl. apply NoDup_singleton.
  - intros it _. lia.
  - intros it [_ ->]%Hit. done.
  - repeat constructor.
  - intros k ->%elem_of_singleton. constructor.
  - intros k ->%elem_of_singleton. done.
  - intros k [p Hp]. by rewrite lookup_empty in Hp.
Qed.

(** No "found" step so far. *)
Definition noFound (st : State) : Prop :=
  Forall (λ s, phase (partial s) ≠ PFound) (st_steps st).

Lemma noFound_pushStep p st :
  phase p ≠ PFound → noFound st → noFound (push_step p st).
Proof. intros Hp H. unfold noFound. proj. by constructor. Qed.

Lemma BFS_relaxNeighbor sel curG lab D done_ st nb :
  BFS lab D (Some (it_key sel)) done_ st →
  it_key sel ∈ st_closed st → lab (it_key sel) = D →
  nb ∈ neighbors adapter (it_key sel) →
  noFound st →
  ∃ lab',
    BFS lab' D (Some (it_key sel)) (done_ ++ [nb])
        (relaxNeighbor_ sel curG (Z.of_nat D) st nb) ∧
    lab' (it_key sel) = D ∧
    st_closed (relaxNeighbor_ sel curG (Z.of_nat D) st nb) = st_closed st ∧
    noFound (relaxNeighbor_ sel curG (Z.of_nat D) st nb).
Proof.
  intros H Hsel Hl Hnb Hnf. unfold relaxNeighbor.
  case_bool_decide as Hcl.
  { exists lab. split; [|done]. apply BFSc_skip; try done.
    by apply (b_sub _ _ _ _ _ _ _ _ H). }
  unfold is_unweighted. rewrite Hbfs. cbn [orb bool_decide decide_rel].
  rewrite bool_decide_eq_true_2 by done. cbn [orb].
  case_bool_decide as Hv.
  { exists lab. split; [|done]. by apply BFSc_skip. }
  rewrite bool_decide_eq_true_2 by done.
  exists (<[nb_key nb := S D]> lab). split_and!.
  - unfold BFS. proj. apply BFSc_discover; try done.
    + unfold discoveredItem. apply makeItem_key.
    + unfold discoveredItem. rewrite Hbfs. simpl. f_equal. lia.
  - rewrite fn_lookup_insert_ne; [done|]. intros E. apply Hv. rewrite E.
    by apply (b_sub _ _ _ _ _ _ _ _ H).
  - done.
  - apply noFound_pushStep; [done|]. unfold noFound. proj.
    constructor; [done|]. exact Hnf.
Qed.

Lemma BFS_relaxLoop sel curG D : ∀ l done_ lab st,
  (∀ nb, nb ∈ l → nb ∈ neighbors adapter (it_key sel)) →
  BFS lab D (Some (it_key sel)) done_ st →
  it_key sel ∈ st_closed st → lab (it_key sel) = D →
  noFound st →
  ∃ lab',
    BFS lab' D (Some (it_key sel)) (done_ ++ l)
        (foldl (relaxNeighbor_ sel curG (Z.of_nat D)) st l) ∧
    st_closed (foldl (relaxNeighbor_ sel curG (Z.of_nat D)) st l) = st_closed st ∧
    noFound (foldl (relaxNeighbor_ sel curG (Z.of_nat D)) st l).
Proof.
  induction l as [|nb l IH]; intros done_ lab st Hl H Hsel Hlab Hnf.
  - exists lab. by rewrite app_nil_r.
  - simpl.
    destruct (BFS_relaxNeighbor sel curG lab D done_ st nb H Hsel Hlab)
      as (lab1 & H1 & Hl1 & Hc1 & Hnf1); [apply Hl; left|done|].
    destruct (IH (done_ ++ [nb]) lab1
                (relaxNeighbor_ sel curG (Z.of_nat D) st nb))
      as (lab2 & H2 & Hc2 & Hnf2); try done.
    + intros nb' ?. apply Hl. by right.
    + by rewrite Hc1.
    + exists lab2. rewrite <-app_assoc in H2. split; [done|].
      split; [congruence|done].
Qed.

Lemma expand_books sel st :
  st_visited (expand_ sel st) = st_visited st ∧
  st_closed (expand_ sel st) = {[ it_key sel ]} ∪ st_closed st ∧
  st_cameFrom (expand_ sel st) = st_cameFrom st ∧
  st_queue (expand_ sel st) = st_queue st ∧
  (noFound st → noFound (expand_ sel st)).
Proof.
  unfold expand. cbv zeta. case_bool_decide; proj; split_and!; try done.
  - intros Hn. repeat (apply noFound_pushStep; [done|]). done.
  - intros Hn. repeat (apply noFound_pushStep; [done|]). done.
Qed.

(** Whatever is some hops away is visited at its level at the latest, or
    the way there passes a node that still waits in the queue. *)
Lemma BFS_reach lab D v c cf q :
  BFSc lab D None [] v c cf q →
  ∀ m k, hops env startKey m k →
    (k ∈ v ∧ lab k <= m) ∨ (∃ it, it ∈ q ∧ lab (it_key it) < m).
Proof.
  intros H m k Hh. induction Hh as [|m b k Hh IH [nb [Hnb <-]]].
  - left. destruct (b_start _ _ _ _ _ _ _ _ H) as [? ->]. done.
  - destruct IH as [[Hb Hle]|(it & Hit & Hlt)]; [|right; exists it; split; [done|lia]].
    destruct (b_cover _ _ _ _ _ _ _ _ H b Hb) as [Hc|Hq].
    + left. destruct (b_nbs _ _ _ _ _ _ _ _ H b nb Hc Hnb) as [? ?]; [done|].
      split; [done|lia].
    + right. apply list_elem_of_fmap in Hq as (it & -> & Hit).
      exists it. split; [done|lia].
Qed.

(** The level of the front of the queue is its hop count. *)
Lemma BFS_front_min lab D v c cf f q :
  BFSc lab D None [] v c cf (f :: q) →
  ∀ m, hops env startKey m (it_key f) → lab (it_key f) <= m.
Proof.
  intros H m Hh.
  destruct (BFS_reach _ _ _ _ _ _ H m _ Hh) as [[_ ?]|(it & Hit & Hlt)]; [done|].
  pose proof (b_sorted _ _ _ _ _ _ _ _ H) as Hs.
  apply StronglySorted_inv in Hs as [_ Hall]. rewrite Forall_forall in Hall.
  apply elem_of_cons in Hit as [->|Hit]; [lia|].
  specialize (Hall it Hit). lia.
Qed.

Lemma BFS_walkBack lab D k0 done_ v c cf q : 
  BFSc lab D k0 done_ v c cf q →
  ∀ fuel cur out, cur ∈ v → lab cur <= fuel →
    ∃ out', walkBack cf startKey fuel cur out = Some out' ∧
            length out' = lab cur + length out.
Proof.
  intros H. induction fuel as [|fuel IH]; intros cur out Hv Hle.
  - simpl. case_bool_decide as E.
    + exists out. split; [done|]. subst.
      destruct (b_start _ _ _ _ _ _ _ _ H) as [_ ->]. done.
    + destruct (b_parent _ _ _ _ _ _ _ _ H cur Hv E) as (p & _ & _ & ?). lia.
  - simpl. case_bool_decide as E.
    + exists out. split; [done|]. subst.
      destruct (b_start _ _ _ _ _ _ _ _ H) as [_ ->]. done.
    + destruct (b_parent _ _ _ _ _ _ _ _ H cur Hv E) as (p & -> & Hp & Hlab).
      assert (p ∈ v) as Hpv by (by apply (b_sub _ _ _ _ _ _ _ _ H)).
      rewrite bool_decide_eq_false_2.
      2:{ intros ->. apply U_nonempty. by apply (b_univ _ _ _ _ _ _ _ _ H). }
      destruct (IH p (p :: out) Hpv) as (out' & -> & Hlen); [lia|].
      exists out'. split; [done|]. rewrite Hlen, Hlab. simpl. lia.
Qed.

Lemma BFS_path lab D k0 done_ v c cf q p :
  BFSc lab D k0 done_ v c cf q →
  goalKey ∈ v →
  reconstructPathCoords adapter cf startKey goalKey = Some p →
  length p = S (lab goalKey).
Proof.
  intros H Hg. unfold reconstructPathCoords.
  case_bool_decide as E.
  - intros [= <-]. rewrite <-E.
    destruct (b_start _ _ _ _ _ _ _ _ H) as [_ ->]. done.
  - destruct (b_parent _ _ _ _ _ _ _ _ H goalKey Hg) as (p0 & -> & _);
      [by intros E'|].
    destruct (BFS_walkBack _ _ _ _ _ _ _ _ H (S (size cf)) goalKey [goalKey] Hg)
      as (out & -> & Hlen).
    { pose proof (b_size _ _ _ _ _ _ _ _ H goalKey Hg). lia. }
    intros [= <-]. rewrite length_fmap, Hlen. simpl. lia.
Qed.

(** ** The main loop *)

(** The run ended with a "found" step whose path has [d] edges, [d] being
    the least number of hops from the start to the goal. *)
Definition FoundCase (st : State) : Prop :=
  ∃ s rest p d,
    st_steps st = s :: rest ∧
    phase (partial s) = PFound ∧ path (partial s) = Some p ∧
    length p = S d ∧
    hops env startKey d goalKey ∧
    (∀ m, hops env startKey m goalKey → d <= m) ∧
    (Z.of_nat d + 1 <= maxIt)%Z.

Definition BFSpost (st : State) : Prop :=
  FoundCase st ∨
  (noFound st ∧
   ((∀ n, ¬ hops env startKey n goalKey) ∨ (maxIt < Z.of_nat (size U))%Z)).

Definition BFSinv (it : Z) (st : State) : Prop :=
  ∃ lab D, BFS lab D None [] st ∧ noFound st ∧
           it = Z.of_nat (size (st_closed st)).

Lemma BFS_select st f q :
  st_queue st = f :: q →
  select_ st = (Some f, set_frontier q (st_stack st) (st_heap st) st).
Proof. intros E. unfold select. by rewrite Hbfs, E. Qed.

Lemma BFS_queue_nonempty st :
  frontierOf st ≠ [] → ∃ f q, st_queue st = f :: q.
Proof.
  rewrite BFS_frontier. destruct (st_queue st) as [|f q]; [done|eauto].
Qed.

Lemma BFS_exit_empty it st :
  BFSinv it st → frontierOf st = [] → BFSpost st.
Proof.
  intros (lab & D & H & Hnf & _) Hq. rewrite BFS_frontier in Hq.
  right. split; [done|]. left. intros n Hn.
  unfold BFS in H. rewrite Hq in H.
  destruct (BFS_reach _ _ _ _ _ _ H n goalKey Hn) as [[Hv _]|(x & Hx & _)].
  - destruct (b_cover _ _ _ _ _ _ _ _ H goalKey Hv) as [Hc|Hc].
    + by apply (b_goal _ _ _ _ _ _ _ _ H).
    + simpl in Hc. by apply elem_of_nil in Hc.
  - by apply elem_of_nil in Hx.
Qed.

Lemma BFS_closed_lt st lab D :
  BFS lab D None [] st → frontierOf st ≠ [] →
  size (st_closed st) < size U.
Proof.
  intros H Hq. destruct (BFS_queue_nonempty st Hq) as (f & q & E).
  unfold BFS in H. rewrite E in H.
  destruct (b_qkeys _ _ _ _ _ _ _ _ H f) as [Hv Hc]; [left|].
  eapply Nat.lt_le_trans; [|apply subseteq_size, (b_univ _ _ _ _ _ _ _ _ H)].
  apply subset_size. split; [apply (b_sub _ _ _ _ _ _ _ _ H)|].
  intros Hsub. apply Hc. by apply Hsub.
Qed.

Lemma BFS_exit_cap it st :
  BFSinv it st → frontierOf st ≠ [] → (it + 1 > maxIt)%Z →
  BFSpost (push_step exhaustedPartial st).
Proof.
  intros (lab & D & H & Hnf & ->) Hq Hcap.
  right. split; [by apply noFound_pushStep|]. right.
  pose proof (BFS_closed_lt st lab D H Hq). lia.
Qed.

Lemma BFS_exit_break it st st' :
  BFSinv it st → frontierOf st ≠ [] → (it + 1 <= maxIt)%Z →
  body_ st = Some (Break, st') → BFSpost st'.
Proof.
  intros (lab & D & H & Hnf & ->) Hq Hcap Hb.
  destruct (BFS_queue_nonempty st Hq) as (f & q & E).
  pose proof (BFS_select st f q E) as Hsel.
  pose proof (body_case env startKey goalKey options st) as Hc.
  rewrite Hb in Hc.
  unfold BFS in H. rewrite E in H.
  inversion Hc as [Hn|?|sel p Hs Hcl Hgoal Hp Est| |];
    rewrite Hsel in *; proj; [done|].
  injection Hs as <-. left.
  assert (goalKey ∈ st_visited st) as Hgv.
  { rewrite <-Hgoal. apply (b_qkeys _ _ _ _ _ _ _ _ H f). left. }
  exists (stepOf options (foundPartial options f p)
            (push_step (selectPartial options f
               (frontierOf (set_frontier q (st_stack st) (st_heap st) st)))
               (set_frontier q (st_stack st) (st_heap st) st))),
    (st_steps (push_step (selectPartial options f
               (frontierOf (set_frontier q (st_stack st) (st_heap st) st)))
               (set_frontier q (st_stack st) (st_heap st) st))), p,
    (lab goalKey).
  split_and!; try done.
  - by eapply BFS_path.
  - by apply (b_hops _ _ _ _ _ _ _ _ H).
  - intros m Hm. rewrite <-Hgoal in *. by eapply BFS_front_min.
  - pose proof (b_bound _ _ _ _ _ _ _ _ H goalKey Hgv). lia.
Qed.

Lemma BFS_step it st st' :
  BFSinv it st → frontierOf st ≠ [] → (it + 1 <= maxIt)%Z →
  body_ st = Some (Continue, st') → BFSinv (it + 1) st'.
Proof.
  intros (lab & D & H & Hnf & ->) Hq Hcap Hb.
  destruct (BFS_queue_nonempty st Hq) as (f & q & E).
  pose proof (BFS_select st f q E) as Hsel.
  pose proof (body_case env startKey goalKey options st) as Hc.
  rewrite Hb in Hc.
  unfold BFS in H. rewrite E in H.
  destruct (b_qkeys _ _ _ _ _ _ _ _ H f) as [Hfv Hfc]; [left|].
  inversion Hc as [|sel Hs Hcl Est| | |sel Hs Hcl Hgoal Est];
    rewrite Hsel in *; proj.
  { injection Hs as <-. done. }
  injection Hs as <-.
  pose proof (BFSc_close _ _ _ _ _ _ _ H Hgoal) as H1.
  set (st1 := push_step _ (set_frontier q (st_stack st) (st_heap st) st)) in *.
  destruct (expand_books f st1) as (Ev & Ec & Ecf & Eq & Enf).
  assert (BFS lab (lab (it_key f)) (Some (it_key f)) [] (expand_ f st1)) as H2.
  { unfold BFS. rewrite Ev, Ec, Ecf, Eq. exact H1. }
  assert (noFound (expand_ f st1)) as Hnf2.
  { apply Enf. by apply noFound_pushStep. }
  unfold relaxAll.
  assert (default 0%Z (it_depth f) = Z.of_nat (lab (it_key f))) as ->.
  { rewrite (b_depth _ _ _ _ _ _ _ _ H f); [done|left]. }
  destruct (BFS_relaxLoop f
              (default 0%Z (st_gScore (expand_ f st1) !! it_key f))
              (lab (it_key f)) (neighbors adapter (it_key f)) [] lab
              (expand_ f st1))
    as (lab' & H3 & Hc3 & Hnf3); try done.
  { rewrite Ec. set_solver. }
  exists lab', (lab (it_key f)).
  split; [apply (BFSc_finish _ _ (it_key f)); exact H3|].
  split; [done|].
  rewrite Hc3, Ec. change (st_closed st1) with (st_closed st).
  rewrite size_union, size_singleton by set_solver. lia.
Qed.

Lemma BFS_mainLoop fuel it st r :
  BFSinv it st → mainLoop_ fuel it st = Some r → BFSpost r.2.
Proof.
  apply (mainLoop_rule env startKey goalKey options BFSinv (λ _ st, BFSpost st)).
  - apply BFS_exit_empty.
  - apply BFS_exit_cap.
  - apply BFS_exit_break.
  - apply BFS_step.
Qed.

Lemma BFS_runLoop :
  ∃ it st, runLoop env startKey goalKey options = Some (it, st) ∧ BFSpost st.
Proof.
  destruct (runLoop_returns env startKey goalKey options) as (it & st & Hrun & _).
  exists it, st. split; [done|].
  eapply (BFS_mainLoop _ _ _ (it, st)); [|exact Hrun].
  exists (λ _, 0), 0. split; [apply BFS_init|]. split; [|done].
  unfold noFound, initState. proj. by repeat constructor.
Qed.
End BFS.

(** ** What the trace reports *)

Lemma FoundCase_trace env startKey goalKey options st :
  FoundCase env startKey goalKey st →
  found (traceOf options st) = true ∧
  ∃ d, length (tr_path (traceOf options st)) = S d ∧
       hops env startKey d goalKey ∧
       (∀ m, hops env startKey m goalKey → (d <= m)%nat) ∧
       Z.of_nat d + 1 <= maxIterations env.
Proof.
  intros (s & rest & p & d & Est & Hph & Hpath & Hlen & Hh & Hmin & Hcap).
  assert (found (traceOf options st) = true) as Hf.
  { unfold traceOf. cbn [found]. apply existsb_exists. exists s. split.
    - apply list_elem_of_In, elem_of_reverse. rewrite Est. left.
    - by apply bool_decide_eq_true_2. }
  split; [done|]. exists d. split; [|done].
  unfold traceOf in *. cbn [found tr_path] in *. rewrite Hf, Est.
  simpl. by rewrite Hph, Hpath.
Qed.

Lemma noFound_trace options st :
  noFound st → found (traceOf options st) = false.
Proof.
  intros H. unfold traceOf. cbn [found].
  destruct (existsb _ _) eqn:E; [|done].
  apply existsb_exists in E as (s & Hin & Hs).
  apply list_elem_of_In in Hin. rewrite elem_of_reverse in Hin.
  unfold noFound in H. rewrite Forall_forall in H.
  apply bool_decide_eq_true_1 in Hs. by destruct (H s Hin).
Qed.

(** ** Keys of cells: [coordOf] reads back what [keyOf] prints *)

Lemma parseDigits_snoc w : ∀ acc c,
  parseDigits acc (w +:+ String c EmptyString) =
    match parseDigits acc w with
    | Some a => (λ d, 10 * a + d) <$> digitOf c
    | None => None
    end.
Proof.
  induction w as [|c' w IH]; intros acc c.
  - change (parseDigits acc (String c EmptyString) =
            (λ d, 10 * acc + d) <$> digitOf c).
    simpl. by destruct (digitOf c).
  - change (String c' w +:+ String c EmptyString)
      with (String c' (w +:+ String c EmptyString)).
    simpl. destruct (digitOf c'); [apply IH|done].
Qed.

Lemma pretty_N_go_app x : ∀ s,
  pretty_N_go x s = pretty_N_go x EmptyString +:+ s.
Proof.
  induction (N.lt_wf_0 x) as [x _ IH]; intros s.
  destruct (decide (x = 0)%N) as [->|Hx]; [done|].
  assert (x `div` 10 < x)%N as Hlt by (apply N.div_lt; lia).
  rewrite !(pretty_N_go_step x) by lia.
  rewrite (IH _ Hlt (String _ s)), (IH _ Hlt (String _ EmptyString)).
  generalize (pretty_N_go (x `div` 10) EmptyString). intros w.
  induction w as [|c w IHw]; [done|].
  change (String c (w +:+ String (pretty_N_char (x `mod` 10)) s) =
          String c ((w +:+ String (pretty_N_char (x `mod` 10)) EmptyString) +:+ s)).
  by rewrite IHw.
Qed.

Lemma digitOf_pretty_N_char r :
  (r < 10)%N → digitOf (pretty_N_char r) = Some (Z.of_N r).
Proof.
  intros Hr.
  assert (r = 0 ∨ r = 1 ∨ r = 2 ∨ r = 3 ∨ r = 4 ∨ r = 5 ∨ r = 6 ∨ r = 7
          ∨ r = 8 ∨ r = 9)%N as Hc by lia.
  repeat (destruct Hc as [->|Hc]; [reflexivity|]). by subst.
Qed.

Lemma parseDigits_pretty_N_go x :
  parseDigits 0 (pretty_N_go x EmptyString) = Some (Z.of_N x).
Proof.
  induction (N.lt_wf_0 x) as [x _ IH].
  destruct (decide (x = 0)%N) as [->|Hx]; [done|].
  rewrite pretty_N_go_step, pretty_N_go_app, parseDigits_snoc by lia.
  rewrite IH by (apply N.div_lt; lia).
  rewrite digitOf_pretty_N_char by (apply N.mod_lt; lia).
  simpl. f_equal. rewrite N2Z.inj_div, N2Z.inj_mod.
  pose proof (Z.div_mod (Z.of_N x) 10). lia.
Qed.

Fixpoint noComma (s : string) : Prop :=
  match s with
  | EmptyString => True
  | String c s' => c ≠ ","%char ∧ noComma s'
  end.

Lemma parseDigits_noComma s : ∀ acc, is_Some (parseDigits acc s) → noComma s.
Proof.
  induction s as [|c s IH]; intros acc H; [done|].
  simpl in H. destruct (digitOf c) eqn:E; [|by destruct H].
  split; [|by eapply IH]. intros ->. done.
Qed.

Lemma split_comma_noComma s : noComma s → split_comma s = [s].
Proof.
  induction s as [|c s IH]; [done|]. intros [Hc Hs].
  simpl. rewrite bool_decide_eq_false_2 by done. by rewrite IH.
Qed.

Lemma split_comma_app s rest :
  noComma s →
  split_comma (s +:+ String ","%char rest) = s :: split_comma rest.
Proof.
  induction s as [|c s IH]; [done|]. intros [Hc Hs].
  change (String c s +:+ String ","%char rest)
    with (String c (s +:+ String ","%char rest)).
  simpl. rewrite bool_decide_eq_false_2 by done. by rewrite IH.
Qed.

Lemma pretty_Z_read (z : Z) :
  noComma (pretty z) ∧ Number_ (Some (pretty z)) = z.
Proof.
  destruct z as [|p|p].
  - done.
  - change (pretty (Z.pos p)) with (pretty_N_go (N.pos p) EmptyString).
    pose proof (parseDigits_pretty_N_go (N.pos p)) as Hp.
    split; [eapply parseDigits_noComma; eauto|].
    destruct (pretty_N_go (N.pos p) EmptyString) as [|c w]; [done|].
    unfold Number_. case_bool_decide as Hc; [by subst|].
    by rewrite Hp.
  - change (pretty (Z.neg p))
      with (String "-"%char (pretty_N_go (N.pos p) EmptyString)).
    pose proof (parseDigits_pretty_N_go (N.pos p)) as Hp.
    split; [split; [done|eapply parseDigits_noComma; eauto]|].
    unfold Number_. rewrite bool_decide_eq_true_2 by done.
    destruct (pretty_N_go (N.pos p) EmptyString) as [|c w]; [done|].
    by rewrite Hp.
Qed.

Lemma coordOf_keyOf (c : Coord) : coordOf (keyOf c) = c.
Proof.
  destruct c as [x y]. unfold coordOf, keyOf. cbn [cx cy].
  destruct (pretty_Z_read x) as [Hx Hnx], (pretty_Z_read y) as [Hy Hny].
  change ("," +:+ pretty y) with (String ","%char (pretty y)).
  rewrite split_comma_app, split_comma_noComma by done.
  cbn [lookup list_lookup]. by rewrite Hnx, Hny.
Qed.

Lemma keyOf_inj (a b : Coord) : keyOf a = keyOf b → a = b.
Proof. intros E. by rewrite <-(coordOf_keyOf a), E, coordOf_keyOf. Qed.

Lemma keyOf_nonempty (c : Coord) : keyOf c ≠ EmptyString.
Proof.
  unfold keyOf. change ("," +:+ pretty (cy c)) with (String ","%char (pretty (cy c))).
  by destruct (pretty (cx c)).
Qed.

(** ** Hops on a grid, in the words of the specification *)

(** One move to the right, to the left, down or up. *)
Definition adjacent (a b : Coord) : Prop :=
  b = {| cx := cx a + 1; cy := cy a |} ∨
  b = {| cx := cx a - 1; cy := cy a |} ∨
  b = {| cx := cx a; cy := cy a + 1 |} ∨
  b = {| cx := cx a; cy := cy a - 1 |}.

(** A cell inside the grid that is not a wall. *)
Definition passable (g : Grid) (c : Coord) : Prop :=
  (0 <= cx c < width g ∧ 0 <= cy c < height g) ∧ keyOf c ∉ walls g.

(** [cellHops g a n b]: [n] moves lead from [a] to [b], each one to an
    adjacent passable cell. *)
Inductive cellHops (g : Grid) (a : Coord) : nat → Coord → Prop :=
| cellHops_O : cellHops g a 0 a
| cellHops_S n b c :
    cellHops g a n b → adjacent b c → passable g c → cellHops g a (S n) c.

Lemma gridNeighbors_fold g (l : list Coord) : ∀ out,
  foldl (fun out nb =>
           if bool_decide (cx nb < 0) || bool_decide (cy nb < 0)
              || bool_decide (cx nb >= width g)
              || bool_decide (cy nb >= height g)
           then out
           else
             let nbKey := keyOf nb in
             if bool_decide (nbKey ∈ walls g) then out
             else out ++ [ {| nb_key := nbKey; nb_cost := 1 |} ])
        out l =
  out ++ ((λ c, {| nb_key := keyOf c; nb_cost := 1 |}) <$>
          filter (passable g) l).
Proof.
  induction l as [|c l IH]; intros out; [by rewrite app_nil_r|].
  cbn [foldl]. rewrite IH.
  destruct (decide (passable g c)) as [Hp|Hp].
  - rewrite filter_cons_True by done.
    destruct Hp as [[[? ?] [? ?]] ?].
    rewrite !bool_decide_eq_false_2 by (done || lia). cbn [orb].
    by rewrite <-app_assoc.
  - rewrite filter_cons_False by done.
    case_bool_decide; [done|]. case_bool_decide; [done|].
    case_bool_decide; [done|]. case_bool_decide; [done|]. cbn [orb].
    case_bool_decide; [done|]. destruct Hp. unfold passable. split; [lia|done].
Qed.

Lemma gridNeighbors_elem g k nb :
  nb ∈ gridNeighbors g k ↔
  ∃ c, nb = {| nb_key := keyOf c; nb_cost := 1 |} ∧
       adjacent (coordOf k) c ∧ passable g c.
Proof.
  unfold gridNeighbors. cbv zeta. rewrite gridNeighbors_fold, app_nil_l.
  rewrite list_elem_of_fmap. split.
  - intros (c & -> & [Hp Hc]%list_elem_of_filter). exists c.
    split; [done|]. split; [|done]. unfold adjacent.
    rewrite !elem_of_cons in Hc. set_solver.
  - intros (c & -> & Ha & Hp). exists c. split; [done|].
    apply list_elem_of_filter. split; [done|].
    unfold adjacent in Ha. rewrite !elem_of_cons. tauto.
Qed.

Lemma cellHops_hops g a n b :
  cellHops g a n b → hops (GridEnv g) (keyOf a) n (keyOf b).
Proof.
  induction 1 as [|n b c _ IH Hadj Hp]; [constructor|].
  eapply hops_S; [exact IH|].
  exists {| nb_key := keyOf c; nb_cost := 1 |}. split; [|done].
  apply gridNeighbors_elem. exists c. by rewrite coordOf_keyOf.
Qed.

Lemma hops_cellHops g a n k :
  hops (GridEnv g) (keyOf a) n k → ∃ b, k = keyOf b ∧ cellHops g a n b.
Proof.
  induction 1 as [|n k k' _ (b & -> & IH) (nb & Hnb & <-)].
  - exists a. split; [done|constructor].
  - apply gridNeighbors_elem in Hnb as (c & -> & Hadj & Hp).
    rewrite coordOf_keyOf in Hadj. exists c. split; [done|].
    by eapply cellHops_S.
Qed.

(** Every key a run on the grid can meet: the start and the cells. *)
Definition gridKeys (g : Grid) (startKey : string) : gset string :=
  {[ startKey ]} ∪
  list_to_set ((λ p, keyOf {| cx := p.1; cy := p.2 |}) <$>
               list_prod (seqZ 0 (width g)) (seqZ 0 (height g))).

Lemma gridKeys_neighbors g startKey k nb :
  nb ∈ neighbors (adapterOf (GridEnv g)) k → nb_key nb ∈ gridKeys g startKey.
Proof.
  intros (c & -> & _ & [[Hx Hy] _])%gridNeighbors_elem.
  unfold gridKeys. apply elem_of_union_r, elem_of_list_to_set, list_elem_of_fmap.
  exists (cx c, cy c). split; [by destruct c|].
  apply list_elem_of_In, in_prod; apply list_elem_of_In, elem_of_seqZ; lia.
Qed.

Lemma size_list_to_set_le (l : list string) :
  (size (list_to_set (C := gset string) l) <= length l)%nat.
Proof.
  induction l as [|x l IH]; [done|].
  cbn [list_to_set foldr length]. rewrite size_union_alt, size_singleton.
  assert (list_to_set l ∖ {[x]} ⊆ list_to_set (C := gset string) l) as Hsub
    by set_solver.
  apply subseteq_size in Hsub. lia.
Qed.

Lemma gridKeys_size g startKey :
  width g * height g < 10000 →
  Z.of_nat (size (gridKeys g startKey)) <= maxIterations (GridEnv g).
Proof.
  intros Hs.
  assert (size (gridKeys g startKey) <=
          1 + Z.to_nat (width g) * Z.to_nat (height g))%nat as Hle.
  { unfold gridKeys. rewrite size_union_alt, size_singleton.
    apply Nat.add_le_mono_l.
    etrans; [apply subseteq_size|etrans; [apply size_list_to_set_le|]].
    - apply subseteq_difference_l. reflexivity.
    - by rewrite length_fmap, length_prod, !length_seqZ. }
  unfold maxIterations, minIterations, sizeBasis.
  destruct (decide (0 < width g ∧ 0 < height g)) as [[Hw Hh]|Hn].
  - assert (Z.of_nat (Z.to_nat (width g) * Z.to_nat (height g)) =
            width g * height g) as E.
    { rewrite Nat2Z.inj_mul, !Z2Nat.id by lia. done. }
    assert (1 <= width g * height g) by nia.
    lia.
  - assert (Z.to_nat (width g) * Z.to_nat (height g) = 0)%nat as E.
    { destruct (decide (0 < width g)).
      - assert (Z.to_nat (height g) = 0%nat) as -> by lia. lia.
      - assert (Z.to_nat (width g) = 0%nat) as -> by lia. lia. }
    lia.
Qed.

Lemma gridKeys_nonempty g (s : Coord) : EmptyString ∉ gridKeys g (keyOf s).
Proof.
  unfold gridKeys. rewrite elem_of_union, elem_of_singleton, elem_of_list_to_set.
  intros [E|(p & E & _)%list_elem_of_fmap]; symmetry in E;
    by apply keyOf_nonempty in E.
Qed.

(** The run of the queue strategy on a grid, from the key of a cell. *)
Lemma bfs_grid_run g (s : Coord) goalKey options :
  algorithm options = bfs →
  ∃ tr, buildTrace (GridEnv g) (keyOf s) goalKey options = Some tr ∧
    ((found tr = true ∧
      ∃ d, length (tr_path tr) = S d ∧
           hops (GridEnv g) (keyOf s) d goalKey ∧
           (∀ m, hops (GridEnv g) (keyOf s) m goalKey → (d <= m)%nat) ∧
           Z.of_nat d + 1 <= maxIterations (GridEnv g)) ∨
     (found tr = false ∧
      ((∀ n, ¬ hops (GridEnv g) (keyOf s) n goalKey) ∨
       maxIterations (GridEnv g) < Z.of_nat (size (gridKeys g (keyOf s)))))).
Proof.
  intros Hbfs.
  destruct (BFS_runLoop (GridEnv g) (keyOf s) goalKey options Hbfs
              (gridKeys g (keyOf s)))
    as (it & st & Hrun & Hpost).
  - unfold gridKeys. set_solver.
  - intros k nb. apply gridKeys_neighbors.
  - apply gridKeys_nonempty.
  - exists (traceOf options st). split; [unfold buildTrace; by rewrite Hrun|].
    destruct Hpost as [Hf|[Hnf Hwhy]].
    + left. by apply FoundCase_trace.
    + right. split; [by apply noFound_trace|done].
Qed.

(** C3, amended.  On a grid with fewer than 10000 cells
    ([width * height < 10000]), started from the key of a cell, with the
    goal [d] hops away and not less ([d] is the true minimum number of
    moves between adjacent passable cells): [buildTrace] with algorithm
    [bfs] returns a trace with [found = true] whose path has [d] edges
    ([d + 1] coordinates). *)
Theorem bfs_grid_shortest_path (g : Grid) (s t : Coord)
    (options : RunOptions) (d : nat) :
  algorithm options = bfs →
  width g * height g < 10000 →
  cellHops g s d t →
  (∀ m, cellHops g s m t → (d <= m)%nat) →
  ∃ tr, buildTrace (GridEnv g) (keyOf s) (keyOf t) options = Some tr ∧
        found tr = true ∧
        length (tr_path tr) = S d.
Proof.
  intros Hbfs Hsize Hd Hmin.
  destruct (bfs_grid_run g s (keyOf t) options Hbfs) as (tr & Htr & Hcase).
  exists tr. split; [done|].
  destruct Hcase as [(Hf & d' & Hlen & Hh & Hmin' & _)|(_ & [Hno|Hcap])].
  - split; [done|]. rewrite Hlen. f_equal.
    apply hops_cellHops in Hh as (t' & ->%keyOf_inj & Hh).
    apply Nat.le_antisymm.
    + apply Hmin'. by apply cellHops_hops.
    + by apply Hmin.
  - destruct (Hno d). by apply cellHops_hops.
  - pose proof (gridKeys_size g (keyOf s) Hsize). lia.
Qed.

(* ===================================================================== *)
(** * Concrete runs *)
(* ===================================================================== *)

(** Two cells side by side; Dijkstra from the left one to the right one
    emits "init", "select", "expand", "relax", "enqueue", "select" and
    "found". *)
Definition twoCells : Environment :=
  GridEnv {| width := 2; height := 1; walls := ∅ |}.

Definition dijkstraOptions : RunOptions :=
  {| algorithm := dijkstra; heuristic := manhattan; heuristicWeight := 1 |}.

Lemma select_never_closed_witness :
  ∃ t si sj,
    buildTrace twoCells "0,0" "1,0" dijkstraOptions = Some t ∧
    steps t !! 5%nat = Some si ∧ steps t !! 2%nat = Some sj ∧
    phase (partial si) = PSelect ∧ closed sj = {[ "0,0" ]} ∧
    ∃ sel, selected (partial si) = Some sel ∧
           currentKey (partial si) = Some (it_key sel) ∧
           it_key sel ∉ closed sj.
Proof.
  eexists _, _, _.
  split; [vm_compute; reflexivity|].
  split; [reflexivity|]. split; [reflexivity|].
  split; [reflexivity|]. split; [reflexivity|].
  eapply (select_never_closed twoCells "0,0" "1,0" dijkstraOptions _ 5 2);
    [vm_compute; reflexivity|reflexivity|reflexivity|lia|reflexivity].
Defined.

(** A corridor of 10001 cells in one row: width times height is above
    500, so the iteration cap is 10000. *)
Definition corridor : Grid :=
  {| width := 10001; height := 1; walls := ∅ |}.

Definition bfsOptions : RunOptions :=
  {| algorithm := bfs; heuristic := manhattan; heuristicWeight := 1 |}.

Lemma corridor_reach (n : nat) :
  Z.of_nat n <= 10000 →
  cellHops corridor {| cx := 0; cy := 0 |} n {| cx := Z.of_nat n; cy := 0 |}.
Proof.
  induction n as [|n IH]; intros Hn; [constructor|].
  eapply cellHops_S; [apply IH; lia| |].
  - left. cbn [cx cy]. f_equal. lia.
  - split; [|set_solver]. cbn [cx cy width height corridor]. lia.
Qed.

Lemma corridor_far n b :
  cellHops corridor {| cx := 0; cy := 0 |} n b → cx b <= Z.of_nat n.
Proof.
  induction 1 as [|n b c _ IH Hadj _]; [done|].
  destruct Hadj as [-> | [-> | [-> | ->]]]; cbn [cx]; lia.
Qed.

(** C3, as stated, fails on a large grid.  In the corridor the cell
    (10000, 0) is 10000 moves away from (0, 0), yet the run of [bfs] ends
    with [found = false]: its 10001st iteration, which would select the
    goal, exceeds the iteration cap. *)
Lemma bfs_long_corridor_not_found :
  cellHops corridor {| cx := 0; cy := 0 |} (Z.to_nat 10000)
           {| cx := 10000; cy := 0 |} ∧
  ∃ tr,
    buildTrace (GridEnv corridor) (keyOf {| cx := 0; cy := 0 |})
               (keyOf {| cx := 10000; cy := 0 |}) bfsOptions = Some tr ∧
    found tr = false.
Proof.
  split.
  - pose proof (corridor_reach (Z.to_nat 10000)) as H.
    rewrite Z2Nat.id in H by lia. apply H. lia.
  - destruct (bfs_grid_run corridor {| cx := 0; cy := 0 |}
                (keyOf {| cx := 10000; cy := 0 |}) bfsOptions eq_refl)
      as (tr & Htr & Hcase).
    exists tr. split; [done|].
    destruct Hcase as [(_ & d & _ & Hh & _ & Hcap)|[Hnf _]]; [|done].
    exfalso.
    apply hops_cellHops in Hh as (t' & <-%keyOf_inj & Hh).
    apply corridor_far in Hh. cbn [cx] in Hh.
    assert (maxIterations (GridEnv corridor) = 10000) as E by reflexivity.
    lia.
Qed.

Lemma bfs_grid_shortest_path_witness :
  ∃ tr,
    buildTrace twoCells (keyOf {| cx := 0; cy := 0 |})
               (keyOf {| cx := 1; cy := 0 |}) bfsOptions = Some tr ∧
    found tr = true ∧ length (tr_path tr) = 2%nat.
Proof.
  apply (bfs_grid_shortest_path {| width := 2; height := 1; walls := ∅ |}
           {| cx := 0; cy := 0 |} {| cx := 1; cy := 0 |} bfsOptions 1).
  - reflexivity.
  - reflexivity.
  - eapply cellHops_S; [apply cellHops_O|left; reflexivity|].
    split; [cbn; lia|set_solver].
  - intros m H. destruct m; [inversion H|lia].
Defined.

(* ===================================================================== *)
(** * [core/grid.ts]: the remaining helpers *)
(* ===================================================================== *)

Definition inBounds (grid : Grid) (c : Coord) : bool :=
  bool_decide (cx c >= 0) && bool_decide (cy c >= 0)
  && bool_decide (cx c < width grid) && bool_decide (cy c < height grid).

Definition isWall (grid : Grid) (c : Coord) : bool :=
  bool_decide (keyOf c ∈ walls grid).

(** [setWall]: a copy of the wall set with the key added or deleted. *)
Definition setWall (grid : Grid) (c : Coord) (on : bool) : Grid :=
  let next := walls grid in
  let k := keyOf c in
  let next := if on then {[ k ]} ∪ next else next ∖ {[ k ]} in
  {| width := width grid; height := height grid; walls := next |}.

Definition emptyGrid (width_ height_ : Z) : Grid :=
  {| width := width_; height := height_; walls := ∅ |}.

Definition neighbors4 (c : Coord) : list Coord :=
  [ {| cx := cx c + 1; cy := cy c |};
    {| cx := cx c - 1; cy := cy c |};
    {| cx := cx c; cy := cy c + 1 |};
    {| cx := cx c; cy := cy c - 1 |} ].

Definition costBetween (_a _b : Coord) : Z := 1.

(** [reconstructPath] of [grid.ts]: the walk of [reconstructPathCoords]
    with [coordOf] for the coordinates; [fuel] bounds the turns of its
    [while (cur !== startKey)] loop, [None] is a walk not over by then. *)
Definition reconstructPath (cameFromMap : gmap string string)
    (startKey goalKey : string) (fuel : nat) : option (list Coord) :=
  if bool_decide (startKey = goalKey) then Some [coordOf startKey]
  else
    match cameFromMap !! goalKey with
    | None => Some []
    | Some _ =>
        match walkBack cameFromMap startKey fuel goalKey [goalKey] with
        | Some out => Some (coordOf <$> out)
        | None => None
        end
    end.

(** ** Keys and coordinates *)

(** X1.  [coordOf] reads back what [keyOf] prints, for every pair of
    integers (negative ones included), so [keyOf] sends different cells to
    different keys; a key is never the empty string. *)
Theorem keyOf_coordOf_round_trip :
  (∀ c, coordOf (keyOf c) = c) ∧
  (∀ a b, keyOf a = keyOf b → a = b) ∧
  (∀ c, keyOf c ≠ EmptyString).
Proof.
  split_and!.
  - apply coordOf_keyOf.
  - apply keyOf_inj.
  - apply keyOf_nonempty.
Qed.

(** ** Walls *)

Lemma isWall_setWall_ne g c c' on :
  c' ≠ c → isWall (setWall g c on) c' = isWall g c'.
Proof.
  intros Hne. unfold isWall, setWall. cbn [walls].
  assert (keyOf c' ≠ keyOf c) as Hk by (intros E; by apply keyOf_inj in E).
  destruct on; apply bool_decide_ext; set_solver.
Qed.

(** X2.  [setWall] sets exactly one cell: afterwards [isWall] answers [on]
    for that cell and what it answered before for every other cell; the
    size of the grid and [inBounds] are unchanged; setting twice is
    setting once, and the last of two settings of a cell wins.  A grid
    made by [emptyGrid] has no wall. *)
Theorem setWall_sets_one_cell (g : Grid) (c : Coord) (on : bool) :
  isWall (setWall g c on) c = on ∧
  (∀ c', c' ≠ c → isWall (setWall g c on) c' = isWall g c') ∧
  width (setWall g c on) = width g ∧ height (setWall g c on) = height g ∧
  (∀ c', inBounds (setWall g c on) c' = inBounds g c') ∧
  setWall (setWall g c on) c on = setWall g c on ∧
  (∀ on', setWall (setWall g c on') c on = setWall g c on) ∧
  (∀ w h c', isWall (emptyGrid w h) c' = false).
Proof.
  split_and!; try done.
  - unfold isWall, setWall. cbn [walls]. destruct on.
    + apply bool_decide_eq_true_2. set_solver.
    + apply bool_decide_eq_false_2. set_solver.
  - intros c' Hne. by apply isWall_setWall_ne.
  - unfold setWall. cbn [walls width height]. f_equal.
    generalize (keyOf c) (walls g). intros k X. apply set_eq. intros x.
    destruct (decide (x = k)); destruct on; set_solver.
  - intros on'. unfold setWall. cbn [walls width height]. f_equal.
    generalize (keyOf c) (walls g). intros k X. apply set_eq. intros x.
    destruct (decide (x = k)); destruct on, on'; set_solver.
Qed.

(** ** The neighbours of the grid adapter *)

Lemma passable_inBounds g c :
  passable g c ↔ inBounds g c && negb (isWall g c).
Proof.
  unfold passable, inBounds, isWall.
  rewrite !andb_True, negb_True, !bool_decide_spec. intuition lia.
Qed.

(** X3.  For the key of an integer cell, the neighbour list that the
    grid adapter of [buildTrace] builds inline is [neighbors4] of
    [grid.ts] at that cell, restricted to the cells that are [inBounds]
    and not [isWall], in the same order (right, left, down, up), each
    with its key and the cost [costBetween]. *)
Theorem gridNeighbors_neighbors4 (g : Grid) (c : Coord) :
  neighbors (adapterOf (GridEnv g)) (keyOf c) =
    (λ c', {| nb_key := keyOf c'; nb_cost := costBetween c c' |}) <$>
    filter (λ c', inBounds g c' && negb (isWall g c')) (neighbors4 c).
Proof.
  cbn [neighbors adapterOf]. unfold gridNeighbors. cbv zeta.
  rewrite gridNeighbors_fold, app_nil_l, coordOf_keyOf.
  unfold costBetween, neighbors4.
  f_equal. apply list_filter_iff. intros c'. apply passable_inBounds.
Qed.

(** ** The Manhattan heuristic *)

Lemma manhattan_adjacent a b t :
  adjacent a b →
  Z.abs (heuristicFn manhattan a t - heuristicFn manhattan b t) <= 1.
Proof.
  intros [-> | [-> | [-> | ->]]]; unfold heuristicFn; cbn [cx cy]; lia.
Qed.

Lemma manhattan_cellHops g s n t :
  cellHops g s n t → heuristicFn manhattan s t <= Z.of_nat n.
Proof.
  induction 1 as [|n b c _ IH Hadj _].
  - unfold heuristicFn. lia.
  - destruct Hadj as [-> | [-> | [-> | ->]]]; unfold heuristicFn in *;
      cbn [cx cy] in *; lia.
Qed.


(* ===================================================================== *)
(** * [MinHeap]: what a client sees *)
(* ===================================================================== *)

Section HeapClient.
Context {T : Type}.
Import MinHeap HeapFacts.
Local Abbreviation node := (HeapNode T).
Implicit Types arr : list node.

Local Open Scope nat_scope.

(** A client that empties a heap,
    [while ((nd = heap.pop()) !== null) out.push(nd)]; every turn removes
    one node, so [heap.size()] turns are enough. *)
Fixpoint drain (fuel : nat) (arr : list node) : list node :=
  match fuel with
  | O => []
  | S fuel' =>
      match pop arr with
      | (Some top, arr') => top :: drain fuel' arr'
      | (None, _) => []
      end
  end.

(** [for (const nd of nodes) heap.push(nd)] on a new heap. *)
Definition pushAll (nodes : list node) : list node :=
  foldl (λ arr nd, push nd arr) [] nodes.

(** A client's calls on one heap, and the heap after them. *)
Inductive HeapOp := OpPush (nd : node) | OpPop.

Definition runOps (ops : list HeapOp) : list node :=
  foldl (λ arr op, match op with
                   | OpPush nd => push nd arr
                   | OpPop => (pop arr).2
                   end) [] ops.

Lemma pushAll_spec nodes :
  heapOrdered (pushAll nodes) ∧ pushAll nodes ≡ₚ nodes.
Proof.
  unfold pushAll.
  induction nodes as [|nd nodes [IH1 IH2]] using rev_ind.
  - split; [apply heapOrdered_nil|done].
  - rewrite foldl_app. cbn [foldl]. split; [by apply push_heapOrdered|].
    rewrite push_Permutation, IH2. by rewrite Permutation_app_comm.
Qed.

Lemma drain_spec n : ∀ arr,
  heapOrdered arr → length arr <= n →
  drain n arr ≡ₚ arr ∧
  StronglySorted (λ a b, (hn_priority a <= hn_priority b)%Z) (drain n arr).
Proof.
  induction n as [|n IH]; intros arr Hh Hlen.
  - destruct arr; [|simpl in Hlen; lia]. split; [done|constructor].
  - cbn [drain]. pose proof (pop_spec arr Hh) as Hp.
    pose proof (pop_length arr) as Hl.
    destruct (pop arr) as [[top|] arr'].
    + destruct Hp as (_ & Hperm & Hh' & Hmin). cbn [snd] in Hl.
      destruct (IH arr' Hh') as [IHp IHs]; [lia|].
      split; [by rewrite IHp|]. constructor; [done|].
      apply Forall_forall. intros x Hx. apply Hmin.
      rewrite Hperm. right. by rewrite <-IHp.
    + destruct Hp as [-> _]. split; [done|constructor].
Qed.

Lemma drain_more n : ∀ arr extra,
  length arr <= n → drain (n + extra) arr = drain n arr.
Proof.
  induction n as [|n IH]; intros arr extra Hlen.
  - destruct arr; [|simpl in Hlen; lia]. by destruct extra.
  - cbn [drain Nat.add]. pose proof (pop_length arr) as Hl.
    destruct (pop arr) as [[top|] arr']; [|done]. cbn [snd] in Hl.
    rewrite IH by lia. done.
Qed.


Lemma runOps_heapOrdered ops : heapOrdered (runOps ops).
Proof.
  unfold runOps. induction ops as [|op ops IH] using rev_ind.
  - apply heapOrdered_nil.
  - rewrite foldl_app. cbn [foldl]. destruct op as [nd|].
    + by apply push_heapOrdered.
    + pose proof (pop_spec _ IH) as Hp.
      destruct (pop _) as [[top|] arr']; cbn [snd].
      * by destruct Hp as (_ & _ & ? & _).
      * destruct Hp as [_ ->]. apply heapOrdered_nil.
Qed.

End HeapClient.

(* ===================================================================== *)
(** * The walk over the parent links *)
(* ===================================================================== *)

(** [stops cf startK k n]: from [k] the loop
    [while (cur !== startK) { prev = cf.get(cur); if (!prev) break; ... }]
    takes [n] more turns and then leaves, at [startK], at a key without a
    parent or at a key whose parent is the empty string. *)
Inductive stops (cf : gmap string string) (startK : string)
    : string → nat → Prop :=
| stops_here k :
    k = startK ∨ cf !! k = None ∨ cf !! k = Some EmptyString →
    stops cf startK k 0
| stops_next k p n :
    k ≠ startK → cf !! k = Some p → p ≠ EmptyString →
    stops cf startK p n → stops cf startK k (S n).

(** Every key of [keys] but the first is linked to the key before it. *)
Definition parentChain (cf : gmap string string) (keys : list string) : Prop :=
  ∀ i a b, keys !! i = Some a → keys !! S i = Some b → cf !! b = Some a.

Section PathWalk.
Local Open Scope nat_scope.

Lemma stops_fun cf s k n m : stops cf s k n → stops cf s k m → n = m.
Proof.
  intros H. revert m. induction H as [k Hk|k p n Hne Hp Hpe _ IH]; intros m Hm.
  - inversion Hm as [|? p' ? Hne' Hp' Hpe']; [done|]. subst.
    destruct Hk as [?|[Hk|Hk]]; [done|congruence|]. congruence.
  - inversion Hm as [? Hk|? p' ? Hne' Hp' Hpe' Hst]; subst.
    + destruct Hk as [?|[Hk|Hk]]; [done|congruence|]. congruence.
    + f_equal. apply IH. congruence.
Qed.

Lemma stops_delete cf s k q m :
  stops cf s q m → (∀ j, stops cf s k j → m < j) →
  stops (delete k cf) s q m.
Proof.
  intros H. induction H as [q Hq|q p m Hne Hp Hpe Hst IH]; intros Hk.
  - apply stops_here. destruct Hq as [?|[Hq|Hq]]; [by left|..].
    + right; left. by rewrite lookup_delete_None; right.
    + destruct (decide (q = k)) as [->|Hqk].
      * right; left. by rewrite lookup_delete_eq.
      * right; right. by rewrite lookup_delete_ne.
  - assert (q ≠ k) as Hqk.
    { intros ->. specialize (Hk (S m) (stops_next _ _ _ _ _ Hne Hp Hpe Hst)). lia. }
    eapply stops_next; [done|by rewrite lookup_delete_ne|done|].
    apply IH. intros j Hj. specialize (Hk j Hj). lia.
Qed.

(** A walk that stops visits no key twice, so it takes at most as many
    turns as the map has entries. *)
Lemma stops_bound n : ∀ cf s k, stops cf s k n → n <= size cf.
Proof.
  induction n as [|n IH]; intros cf s k H; [lia|].
  inversion H as [|? p ? Hne Hp Hpe Hst]; subst.
  assert (stops (delete k cf) s p n) as Hd.
  { apply stops_delete; [done|]. intros j Hj.
    rewrite (stops_fun _ _ _ _ _ Hj H). lia. }
  apply IH in Hd. rewrite map_size_delete_Some in Hd by eauto.
  pose proof (map_size_empty_iff cf) as He.
  destruct (decide (size cf = 0)) as [E|]; [|lia].
  apply He in E. subst. by rewrite lookup_empty in Hp.
Qed.

Lemma walkBack_stops cf s n : ∀ k out fuel,
  stops cf s k n → n < fuel →
  walkBack cf s fuel k out = walkBack cf s (S n) k out ∧
  is_Some (walkBack cf s (S n) k out).
Proof.
  induction n as [|n IH]; intros k out fuel H Hle.
  - inversion H as [? Hk|]; subst.
    destruct fuel as [|fuel]; [lia|]. simpl. case_bool_decide; [eauto|].
    destruct Hk as [?|[Hk|Hk]]; [done|rewrite Hk; eauto|rewrite Hk].
    rewrite bool_decide_eq_true_2 by done. eauto.
  - inversion H as [|? p ? Hne Hp Hpe Hst]; subst.
    destruct fuel as [|fuel]; [lia|].
    cbn [walkBack]. rewrite bool_decide_eq_false_2 by done. rewrite Hp.
    rewrite bool_decide_eq_false_2 by done. apply IH; [done|lia].
Qed.

Lemma walkBack_Some_stops cf s fuel : ∀ k out r,
  walkBack cf s fuel k out = Some r → ∃ n, n <= fuel ∧ stops cf s k n.
Proof.
  induction fuel as [|fuel IH]; intros k out r H; simpl in H.
  - case_bool_decide; [|done]. exists 0. split; [done|]. constructor. by left.
  - case_bool_decide as Hs.
    { exists 0. split; [lia|]. constructor. by left. }
    destruct (cf !! k) as [p|] eqn:Hp.
    2:{ exists 0. split; [lia|]. constructor. auto. }
    case_bool_decide as Hpe.
    { exists 0. split; [lia|]. constructor. subst. auto. }
    destruct (IH _ _ _ H) as (n & Hn & Hst).
    exists (S n). split; [lia|]. by eapply stops_next.
Qed.

Lemma walkBack_fuel cf s k out extra :
  walkBack cf s (S (size cf) + extra) k out =
  walkBack cf s (S (size cf)) k out.
Proof.
  destruct (walkBack cf s (S (size cf) + extra) k out) as [r|] eqn:E.
  - destruct (walkBack_Some_stops _ _ _ _ _ _ E) as (n & _ & Hst).
    pose proof (stops_bound _ _ _ _ Hst) as Hb.
    destruct (walkBack_stops cf s n k out (S (size cf) + extra) Hst) as [E1 _];
      [lia|].
    destruct (walkBack_stops cf s n k out (S (size cf)) Hst) as [E2 _]; [lia|].
    congruence.
  - destruct (walkBack cf s (S (size cf)) k out) as [r|] eqn:E'; [|done].
    destruct (walkBack_Some_stops _ _ _ _ _ _ E') as (n & Hn & Hst).
    pose proof (stops_bound _ _ _ _ Hst) as Hb.
    destruct (walkBack_stops cf s n k out (S (size cf) + extra) Hst) as [E1 _];
      [lia|].
    destruct (walkBack_stops cf s n k out (S (size cf)) Hst) as [E2 _]; [lia|].
    congruence.
Qed.

(** What the walk returns: the keys walked, the last walked first, ahead
    of the keys it was given. *)
Lemma walkBack_chain cf s fuel : ∀ k out r,
  walkBack cf s fuel k out = Some r →
  head out = Some k → parentChain cf out →
  ∃ pre e, r = pre ++ out ∧ head r = Some e ∧ parentChain cf r ∧
           (e = s ∨ cf !! e = None ∨ cf !! e = Some EmptyString).
Proof.
  induction fuel as [|fuel IH]; intros k out r H Hhd Hch; simpl in H.
  - case_bool_decide; [|done]. injection H as <-.
    exists [], k. split_and!; auto.
  - case_bool_decide as Hs.
    { injection H as <-. exists [], k. split_and!; auto. }
    destruct (cf !! k) as [p|] eqn:Hp.
    2:{ injection H as <-. exists [], k. split_and!; auto. }
    case_bool_decide as Hpe.
    { injection H as <-. exists [], k. subst. split_and!; auto. }
    destruct (IH _ _ _ H) as (pre & e & -> & Hh & Hc & He); [done| |].
    { intros [|i] a b Ha Hb; simpl in Ha, Hb.
      - injection Ha as <-. destruct out as [|k' out']; [done|].
        simpl in Hhd, Hb. congruence.
      - by eapply Hch. }
    exists (pre ++ [p]), e. rewrite <-app_assoc. done.
Qed.
End PathWalk.

(** X7.  [reconstructPath] of [grid.ts]: with equal start and goal it
    returns the one coordinate of the start; for a goal without an entry
    in the parent map it returns the empty path; otherwise, when it
    returns, the path is the coordinates of a chain of keys that ends
    at the goal, in which every key is the recorded parent of the next,
    and whose first key is the start, or a key without a parent, or a key
    whose parent is the empty string (which the test [!prev] takes for a
    missing one). *)
Theorem reconstructPath_follows_parents
    (cf : gmap string string) (startKey goalKey : string) (fuel : nat) :
  (startKey = goalKey →
     reconstructPath cf startKey goalKey fuel = Some [coordOf startKey]) ∧
  (startKey ≠ goalKey → cf !! goalKey = None →
     reconstructPath cf startKey goalKey fuel = Some []) ∧
  (∀ p, startKey ≠ goalKey → is_Some (cf !! goalKey) →
     reconstructPath cf startKey goalKey fuel = Some p →
     ∃ keys e,
       p = coordOf <$> keys ∧ head keys = Some e ∧
       last keys = Some goalKey ∧ parentChain cf keys ∧
       (e = startKey ∨ cf !! e = None ∨ cf !! e = Some EmptyString)).
Proof.
  unfold reconstructPath. split_and!.
  - intros E. by rewrite bool_decide_eq_true_2.
  - intros Hne E. by rewrite bool_decide_eq_false_2, E.
  - intros p Hne [p0 E]. rewrite bool_decide_eq_false_2, E by done.
    destruct (walkBack cf startKey fuel goalKey [goalKey]) as [out|] eqn:Hw;
      [|done].
    intros [= <-].
    destruct (walkBack_chain _ _ _ _ _ _ Hw) as (pre & e & -> & Hh & Hc & He);
      [done| |].
    { intros i a b Ha Hb. destruct i; simpl in *; done. }
    exists (pre ++ [goalKey]), e. split_and!; try done.
    by rewrite last_snoc.
Qed.

(** X8.  The walk of [reconstructPathCoords] and of [reconstructPath]
    either leaves its loop within as many turns as the parent map has
    entries, or never leaves it: more than [size + 1] turns change
    nothing.  So [None] in the model stands for a loop that does not end
    (a cycle of parent links that misses the start), and on the grid
    adapter the two functions return the same. *)
Theorem parent_walk_ends_or_cycles
    (cf : gmap string string) (startKey goalKey : string) (extra : nat) :
  reconstructPath cf startKey goalKey (S (size cf) + extra) =
    reconstructPath cf startKey goalKey (S (size cf)) ∧
  (∀ grid, reconstructPathCoords (adapterOf (GridEnv grid)) cf startKey goalKey =
           reconstructPath cf startKey goalKey (S (size cf))) ∧
  (reconstructPath cf startKey goalKey (S (size cf)) = None →
   ∀ n, ¬ stops cf startKey goalKey n).
Proof.
  split_and!.
  - unfold reconstructPath. by rewrite walkBack_fuel.
  - done.
  - unfold reconstructPath. case_bool_decide; [done|].
    destruct (cf !! goalKey); [|done].
    destruct (walkBack _ _ _ _ _) eqn:E; [done|]. intros _ n Hst.
    pose proof (stops_bound _ _ _ _ Hst) as Hb.
    destruct (walkBack_stops cf startKey n goalKey [goalKey] (S (size cf)) Hst)
      as [E1 [r E2]]; [lia|]. congruence.
Qed.

(* ===================================================================== *)
(** * The snapshots of a run, one emission at a time *)
(* ===================================================================== *)

Section Audit.
Variable env : Environment.
Variables startKey goalKey : string.
Variable options : RunOptions.

Local Abbreviation adapter := (adapterOf env).
Local Abbreviation fk := (frontierKindFor (algorithm options)).
Local Abbreviation frontierOf := (frontierToArray options).
Local Abbreviation push_step := (pushStep options).
Local Abbreviation body_ := (body env startKey goalKey options).
Local Abbreviation expand_ := (expand env options).
Local Abbreviation relaxAll_ := (relaxAll env goalKey options).
Local Abbreviation relaxNeighbor_ := (relaxNeighbor env goalKey options).
Local Abbreviation select_ := (select options).
Local Abbreviation initState_ := (initState env startKey goalKey options).
Local Abbreviation WF_ := (WF startKey).

Local Open Scope nat_scope.

Ltac proj :=
  cbn [st_visited st_closed st_cameFrom st_gScore st_steps st_relaxations
       st_queue st_stack st_heap st_peakFrontier st_peakClosed
       pushStep set_frontier set_books fst snd] in *.

(** The states that the driver goes through: after the "init" snapshot
    it emits snapshots with [pushStep] (after [relaxations++] for a
    "relax" snapshot), lets [visited], [closed] and the keys of
    [cameFrom] grow, and changes the frontier.  [Ph] holds of the phase of
    every snapshot emitted. *)
Inductive Reach (Ph : Phase → Prop) : State → Prop :=
| reach_seed : Ph PInit → Reach Ph initState_
| reach_push p st :
    Reach Ph st → WF_ st → Ph (phase p) → phase p ≠ PRelax →
    Reach Ph (push_step p st)
| reach_relax p st v cf gs :
    Reach Ph st → Ph PRelax → phase p = PRelax →
    st_visited st ⊆ v → dom (st_cameFrom st) ⊆ dom cf →
    WF_ (set_books v (st_closed st) cf gs (S (st_relaxations st)) st) →
    Reach Ph (push_step p
                (set_books v (st_closed st) cf gs (S (st_relaxations st)) st))
| reach_books v c cf gs st :
    Reach Ph st →
    st_visited st ⊆ v → st_closed st ⊆ c →
    dom (st_cameFrom st) ⊆ dom cf →
    Reach Ph (set_books v c cf gs (st_relaxations st) st)
| reach_frontier q s h st :
    Reach Ph st → Reach Ph (set_frontier q s h st).

Lemma Reach_weaken (Ph Ph' : Phase → Prop) st :
  (∀ ph, Ph ph → Ph' ph) → Reach Ph st → Reach Ph' st.
Proof.
  intros Himp H. induction H.
  - apply reach_seed. auto.
  - apply reach_push; auto.
  - apply reach_relax; auto.
  - by apply reach_books.
  - by apply reach_frontier.
Qed.

(** The "init" snapshot. *)
Definition initStep : StepSnapshot :=
  {| index := 0;
     frontierKind := fk;
     frontier := [startItemOf options adapter startKey goalKey];
     visited := {[ startKey ]};
     closed := ∅;
     cameFrom := ∅;
     gScore := {[ startKey := 0%Z ]};
     partial := partialOf PInit None None |}.

Lemma initState_steps : st_steps initState_ = [initStep].
Proof.
  unfold initState, initStep, frontierToArray. proj. repeat f_equal.
  unfold frontierToArray. proj.
  destruct (algorithm options); simpl; done.
Qed.

(** A snapshot that is consistent in itself. *)
Definition snapOK (s : StepSnapshot) : Prop :=
  closed s ⊆ visited s ∧ startKey ∈ visited s ∧
  (∀ it, it ∈ frontier s → it_key it ∈ visited s) ∧
  (∀ k, k ∈ visited s → k = startKey ∨ is_Some (cameFrom s !! k)) ∧
  (∀ k p, cameFrom s !! k = Some p → p ∈ closed s).

(** From an older snapshot to a newer one the books only grow. *)
Definition grows (older newer : StepSnapshot) : Prop :=
  visited older ⊆ visited newer ∧ closed older ⊆ closed newer ∧
  dom (cameFrom older) ⊆ dom (cameFrom newer).

Record Audit (Ph : Phase → Prop) (st : State) : Prop := mkAudit
  { a_start : startKey ∈ st_visited st;
    a_first : last (st_steps st) = Some initStep;
    a_index : ∀ i s, st_steps st !! i = Some s →
                     index s + S i = length (st_steps st);
    a_kind : Forall (λ s, frontierKind s = fk) (st_steps st);
    a_phase : Forall (λ s, Ph (phase (partial s))) (st_steps st);
    a_snap : Forall snapOK (st_steps st);
    a_below : Forall (λ s, visited s ⊆ st_visited st ∧
                           closed s ⊆ st_closed st ∧
                           dom (cameFrom s) ⊆ dom (st_cameFrom st))
                     (st_steps st);
    a_mono : StronglySorted (λ newer older, grows older newer) (st_steps st);
    a_peakF : (∀ s, s ∈ st_steps st →
                    length (frontier s) <= st_peakFrontier st) ∧
              (∃ s, s ∈ st_steps st ∧
                    length (frontier s) = st_peakFrontier st);
    a_peakC : ∃ s l, st_steps st = s :: l ∧
                     st_peakClosed st = size (closed s) }.

Lemma frontierOf_frontierItems st it :
  it ∈ frontierOf st → it ∈ frontierItems st.
Proof.
  unfold frontierToArray, frontierItems. rewrite !elem_of_app.
  destruct fk; auto.
Qed.

Lemma WF_snapOK p st :
  WF_ st → startKey ∈ st_visited st → snapOK (stepOf options p st).
Proof.
  intros [Hc Hf Hp (ord & _ & Hord & Hch & _)] Hs.
  unfold snapOK, stepOf. cbn [closed visited frontier cameFrom].
  split_and!; try done.
  - intros it Hit. by apply Hf, frontierOf_frontierItems.
  - intros k p' Hk. apply Hord. by eapply Hch.
Qed.

Lemma Audit_push Ph p st :
  Audit Ph st → WF_ st → Ph (phase p) → Audit Ph (push_step p st).
Proof.
  intros [Hs Hf Hi Hk Hph Hsn Hb Hm [HpF1 HpF2] HpC] Hwf Hp.
  split; proj.
  - done.
  - destruct (st_steps st); [done|]. done.
  - intros [|i] s Hl; simpl in Hl.
    + injection Hl as <-. simpl. lia.
    + specialize (Hi i s Hl). simpl. lia.
  - by constructor.
  - by constructor.
  - constructor; [|done]. by apply WF_snapOK.
  - constructor; [done|]. done.
  - constructor; [done|]. eapply Forall_impl; [exact Hb|].
    intros s (? & ? & ?). done.
  - split.
    + intros s [->|Hs']%elem_of_cons; [simpl; lia|].
      specialize (HpF1 s Hs'). lia.
    + destruct (Nat.max_spec (st_peakFrontier st) (length (frontierOf st)))
        as [[Hlt ->]|[Hle ->]].
      * eexists. split; [left|]. done.
      * destruct HpF2 as (s & Hs' & E).
        exists s. split; [by right|done].
  - eexists _, _. split; [done|]. simpl.
    destruct HpC as (s & l & E & ->). rewrite E in Hb.
    apply Forall_cons in Hb as [(_ & Hcl & _) _].
    apply subseteq_size in Hcl. lia.
Qed.

Lemma Audit_books Ph v c cf gs r st :
  Audit Ph st →
  st_visited st ⊆ v → st_closed st ⊆ c → dom (st_cameFrom st) ⊆ dom cf →
  Audit Ph (set_books v c cf gs r st).
Proof.
  intros [Hs Hf Hi Hk Hph Hsn Hb Hm HpF HpC] Hv Hc Hd.
  split; proj; try done.
  - by apply Hv.
  - eapply Forall_impl; [exact Hb|]. intros s (? & ? & ?).
    split_and!; by etrans.
Qed.

Lemma Audit_init Ph : Ph PInit → Audit Ph initState_.
Proof.
  intros Hp.
  assert (snapOK initStep) as Hok.
  { unfold snapOK. split_and!; simpl; try set_solver.
    intros it ->%list_elem_of_singleton. unfold startItemOf.
    rewrite makeItem_key. set_solver. }
  pose proof initState_steps as E.
  split; rewrite ?E.
  - unfold initState. proj. set_solver.
  - done.
  - intros [|i] s Hl; simpl in Hl; [by injection Hl as <-|].
    by rewrite lookup_nil in Hl.
  - constructor; [done|constructor].
  - constructor; [done|constructor].
  - constructor; [done|constructor].
  - unfold initState. proj. constructor; [done|constructor].
  - repeat constructor.
  - assert (st_peakFrontier initState_ = 1) as ->.
    { change (st_peakFrontier initState_) with (length (frontierOf initState_)).
      by rewrite frontierOf_init. }
    split.
    + intros s ->%list_elem_of_singleton. done.
    + exists initStep. split; [left|done].
  - eexists _, _. split; [done|]. unfold initState. proj. simpl.
    by rewrite ?size_empty.
Qed.

Lemma Reach_Audit Ph st : Reach Ph st → Audit Ph st.
Proof.
  induction 1 as [Hp|p st _ IH Hwf Hp _
                  |p st v cf gs _ IH Hp Hph Hv Hd Hwf
                  |v c cf gs st _ IH Hv Hc Hd|q s h st _ IH].
  - by apply Audit_init.
  - by apply Audit_push.
  - apply Audit_push; [|done|by rewrite Hph].
    by apply Audit_books.
  - by apply Audit_books.
  - destruct IH. by split.
Qed.

Lemma Reach_relaxations Ph st :
  Reach Ph st →
  st_relaxations st =
    length (filter (λ s, phase (partial s) = PRelax) (st_steps st)).
Proof.
  induction 1 as [Hp|p st _ IH Hwf Hp Hne
                  |p st v cf gs _ IH Hp Hph Hv Hd Hwf
                  |v c cf gs st _ IH Hv Hc Hd|q s h st _ IH]; proj.
  - rewrite initState_steps. unfold initState. proj.
    by rewrite filter_cons_False.
  - by rewrite filter_cons_False.
  - rewrite filter_cons_True by done. simpl. by rewrite IH.
  - done.
  - done.
Qed.

(** ** The operations of the driver *)

Lemma Reach_select Ph st : Reach Ph st → Reach Ph (select_ st).2.
Proof.
  intros H. destruct (select_frame options st) as (q & s & h & ->).
  by apply reach_frontier.
Qed.

Lemma Reach_expand Ph sel st :
  Reach Ph st → WF_ st →
  it_key sel ∈ st_visited st → it_key sel ∉ st_closed st →
  Ph PExpand →
  Reach Ph (expand_ sel st).
Proof.
  intros H Hwf Hv Hc Hp. unfold expand. cbv zeta.
  set (st1 := set_books (st_visited st) ({[it_key sel]} ∪ st_closed st)
                (st_cameFrom st) (st_gScore st) (st_relaxations st) st).
  assert (Reach Ph st1) as H1 by (apply reach_books; [done|done|set_solver|done]).
  assert (WF_ st1) as Hwf1 by (by apply WFc_close).
  assert (Reach Ph (push_step
            (partialOf PExpand (Some sel) (Some (selectionReasonOf options sel)))
            st1)) as H2 by (by apply reach_push).
  case_bool_decide; [|done]. by apply reach_push.
Qed.

Lemma Reach_relaxNeighbor Ph sel curG curDepth st nb :
  Reach Ph st → WF_ st → it_key sel ∈ st_closed st →
  Ph PEnqueue → (is_unweighted options = false → Ph PRelax) →
  Reach Ph (relaxNeighbor_ sel curG curDepth st nb).
Proof.
  intros H Hwf Hsel Hpe Hpr. unfold relaxNeighbor.
  case_bool_decide as Hcl; [done|].
  destruct (is_unweighted options) eqn:Hu.
  - case_bool_decide as Hv; [done|]. cbv zeta.
    set (st1 := set_books ({[nb_key nb]} ∪ st_visited st) (st_closed st)
                  (<[nb_key nb:=it_key sel]> (st_cameFrom st)) (st_gScore st)
                  (st_relaxations st) st).
    assert (Reach Ph st1) as H1.
    { apply reach_books; [done|set_solver|done|].
      rewrite dom_insert. set_solver. }
    assert (WF_ st1) as Hwf1.
    { unfold WF, st1, frontierItems. proj.
      eapply WFc_link; [exact Hwf|done|done|]. intros it Hit. by left. }
    apply reach_push; [|..|done|done].
    + case_bool_decide; apply reach_frontier; by apply reach_push.
    + unfold WF, frontierItems, discoveredItem.
      case_bool_decide; proj.
      * eapply WFc_link; [exact Hwf|done|done|].
        intros it. unfold frontierItems. rewrite !elem_of_app, list_elem_of_singleton.
        intros [[?| ->]|?]; rewrite ?makeItem_key; tauto.
      * eapply WFc_link; [exact Hwf|done|done|].
        intros it. unfold frontierItems. rewrite !elem_of_app, list_elem_of_singleton.
        intros [?|[[?| ->]|?]]; rewrite ?makeItem_key; tauto.
  - destruct (negb _); [done|]. cbv zeta.
    apply reach_push; [|..|done|done].
    + apply reach_frontier. apply reach_relax; [done|by apply Hpr|done|..].
      * set_solver.
      * rewrite dom_insert. set_solver.
      * unfold WF, frontierItems. proj.
        eapply WFc_link; [exact Hwf|done|done|]. intros it Hit. by left.
    + unfold WF, frontierItems, relaxedItem, heapNodeOf. proj.
      eapply WFc_link; [exact Hwf|done|done|].
      intros it. unfold frontierItems. rewrite !elem_of_app.
      intros [?|[?|(nd & -> & Hnd)%list_elem_of_fmap]]; [tauto|tauto|].
      rewrite HeapFacts.push_Permutation in Hnd.
      apply elem_of_cons in Hnd as [->|Hnd].
      * right. simpl. by rewrite makeItem_key.
      * left. right; right. apply list_elem_of_fmap. eauto.
Qed.

Lemma Reach_relaxAll Ph sel st :
  Reach Ph st → WF_ st → it_key sel ∈ st_closed st →
  Ph PEnqueue → (is_unweighted options = false → Ph PRelax) →
  Reach Ph (relaxAll_ sel st).
Proof.
  intros H Hwf Hsel Hpe Hpr. unfold relaxAll.
  generalize (default 0%Z (st_gScore st !! it_key sel)).
  generalize (default 0%Z (it_depth sel)).
  intros d g. revert st H Hwf Hsel.
  induction (neighbors adapter (it_key sel)) as [|nb l IH];
    intros st H Hwf Hsel; [done|].
  simpl.
  destruct (WF_relaxNeighbor env startKey goalKey options sel g d st nb Hwf Hsel)
    as [Hwf' E].
  apply IH; [by apply Reach_relaxNeighbor|done|by rewrite E].
Qed.

(** The newest snapshot shows the books as they are now. *)
Definition Synced (st : State) : Prop :=
  ∃ s l, st_steps st = s :: l ∧
         visited s = st_visited st ∧ closed s = st_closed st ∧
         cameFrom s = st_cameFrom st ∧ gScore s = st_gScore st.

(** Every parent link runs along an edge of the environment. *)
Definition Links (st : State) : Prop :=
  ∀ k p, st_cameFrom st !! k = Some p → edge env p k.

Lemma Synced_push p st : Synced (push_step p st).
Proof. eexists _, _. proj. done. Qed.

Lemma Synced_select st : Synced st → Synced (select_ st).2.
Proof. destruct (select_frame options st) as (q & s & h & ->). done. Qed.

Lemma Synced_expand sel st : Synced (expand_ sel st).
Proof. unfold expand. cbv zeta. case_bool_decide; apply Synced_push. Qed.

Lemma Synced_relaxNeighbor sel curG curDepth st nb :
  Synced st → Synced (relaxNeighbor_ sel curG curDepth st nb).
Proof.
  intros H. unfold relaxNeighbor. case_bool_decide; [done|].
  destruct (is_unweighted options).
  - case_bool_decide; [done|]. apply Synced_push.
  - destruct (negb _); [done|]. apply Synced_push.
Qed.

Lemma relaxNeighbor_cameFrom sel curG curDepth st nb :
  st_cameFrom (relaxNeighbor_ sel curG curDepth st nb) = st_cameFrom st ∨
  st_cameFrom (relaxNeighbor_ sel curG curDepth st nb) =
    <[nb_key nb := it_key sel]> (st_cameFrom st).
Proof.
  unfold relaxNeighbor. case_bool_decide; [by left|].
  destruct (is_unweighted options).
  - case_bool_decide; [by left|]. right. by case_bool_decide.
  - destruct (negb _); [by left|]. by right.
Qed.

Lemma Links_relaxNeighbor sel curG curDepth st nb :
  Links st → nb ∈ neighbors adapter (it_key sel) →
  Links (relaxNeighbor_ sel curG curDepth st nb).
Proof.
  intros H Hnb k p.
  destruct (relaxNeighbor_cameFrom sel curG curDepth st nb) as [-> | ->];
    [apply H|].
  destruct (decide (k = nb_key nb)) as [->|Hne].
  - rewrite lookup_insert_eq. intros [= <-]. by exists nb.
  - rewrite lookup_insert_ne by done. apply H.
Qed.

Lemma relaxAll_keeps sel st :
  Synced st → Links st →
  Synced (relaxAll_ sel st) ∧ Links (relaxAll_ sel st).
Proof.
  unfold relaxAll.
  generalize (default 0%Z (st_gScore st !! it_key sel)).
  generalize (default 0%Z (it_depth sel)).
  intros d g.
  assert (∀ nb, nb ∈ neighbors adapter (it_key sel) →
                nb ∈ neighbors adapter (it_key sel)) as Hall by done.
  revert Hall. generalize (neighbors adapter (it_key sel)) at 1 3 4.
  intros l. revert st. induction l as [|nb l IH]; intros st Hall Hs Hl;
    [done|].
  simpl. apply IH.
  - intros nb' ?. apply Hall. by right.
  - by apply Synced_relaxNeighbor.
  - apply Links_relaxNeighbor; [done|]. apply Hall. left.
Qed.

Lemma expand_cameFrom sel st :
  st_cameFrom (expand_ sel st) = st_cameFrom st.
Proof. unfold expand. cbv zeta. by case_bool_decide. Qed.

(** ** The main loop *)

(** The phases of the snapshots emitted while the loop runs: no "found",
    no "exhausted", and "relax" only for the cost-aware strategies. *)
Definition PhLoop (ph : Phase) : Prop :=
  ph ≠ PFound ∧ ph ≠ PExhausted ∧
  (ph = PRelax → is_unweighted options = false).

Definition Inv (st : State) : Prop :=
  Reach PhLoop st ∧ WF_ st ∧ Synced st ∧ Links st.

(** How a run ends: by an empty frontier, by a "found" snapshot, or by
    the "exhausted" snapshot of the iteration cap. *)
Inductive Ended : State → Prop :=
| ended_plain st : Inv st → Ended st
| ended_found sel path st :
    Inv st → it_key sel = goalKey → goalKey ∈ st_visited st →
    reconstructPathCoords adapter (st_cameFrom st) startKey goalKey
      = Some path →
    Ended (push_step (foundPartial options sel path) st)
| ended_cap st : Inv st → Ended (push_step exhaustedPartial st).

Lemma PhLoop_plain ph :
  ph ≠ PFound → ph ≠ PExhausted → ph ≠ PRelax → PhLoop ph.
Proof. by intros ? ? ?. Qed.

Lemma Inv_init : Inv initState_.
Proof.
  split_and!.
  - apply reach_seed. by apply PhLoop_plain.
  - apply WF_init.
  - unfold initState. apply Synced_push.
  - intros k p. unfold initState. proj. by rewrite lookup_empty.
Qed.

Lemma Inv_select st : Inv st → Inv (select_ st).2.
Proof.
  intros (H & Hwf & Hs & Hl). split_and!.
  - by apply Reach_select.
  - by apply WF_select.
  - by apply Synced_select.
  - unfold Links. by rewrite select_cameFrom.
Qed.

Lemma Inv_push p st :
  Inv st → phase p ≠ PFound → phase p ≠ PExhausted → phase p ≠ PRelax →
  Inv (push_step p st).
Proof.
  intros (H & Hwf & Hs & Hl) ? ? ?. split_and!.
  - apply reach_push; [done|done|by apply PhLoop_plain|done].
  - done.
  - apply Synced_push.
  - done.
Qed.

Lemma Inv_body st fl st' :
  Inv st → body_ st = Some (fl, st') →
  match fl with
  | Continue => Inv st'
  | Break => Ended st'
  end.
Proof.
  intros HI Hb. pose proof (Inv_select st HI) as HIs.
  pose proof (body_case env startKey goalKey options st) as Hc.
  rewrite Hb in Hc.
  inversion Hc as [Hn|sel Hs Hcl|sel p Hs Hcl Hg Hp|
                   |sel Hs Hcl Hg]; subst.
  - by apply ended_plain.
  - done.
  - assert (it_key sel ∈ st_visited st) as Hv.
    { destruct HI as (_ & Hwf & _). by eapply WF_selected. }
    apply ended_found; [by apply Inv_push|done| |done].
    proj. rewrite select_visited. by rewrite <-Hg.
  - assert (it_key sel ∈ st_visited st) as Hv.
    { destruct HI as (_ & Hwf & _). by eapply WF_selected. }
    set (st1 := push_step _ (select_ st).2).
    assert (Inv st1) as (H1 & Hwf1 & Hs1 & Hl1) by (by apply Inv_push).
    assert (it_key sel ∈ st_visited st1) as Hv1.
    { unfold st1. proj. by rewrite select_visited. }
    assert (it_key sel ∉ st_closed st1) as Hc1 by done.
    destruct (WF_expand env startKey options st1 sel Hwf1 Hv1 Hc1) as [Hwf2 Hcl2].
    assert (Reach PhLoop (expand_ sel st1)) as H2.
    { by apply Reach_expand. }
    destruct (relaxAll_keeps sel (expand_ sel st1)) as [Hs3 Hl3].
    { apply Synced_expand. }
    { unfold Links. by rewrite expand_cameFrom. }
    split_and!; try done.
    + by apply Reach_relaxAll.
    + by apply WF_relaxAll.
Qed.

Lemma runLoop_Ended :
  ∃ it st, runLoop env startKey goalKey options = Some (it, st) ∧ Ended st.
Proof.
  destruct (runLoop_returns env startKey goalKey options) as (it & st & Hrun & _).
  exists it, st. split; [done|].
  apply (mainLoop_rule env startKey goalKey options
           (λ _ st, Inv st) (λ _ st, Ended st)) with (r := (it, st))
    (fuel := S (Z.to_nat (maxIterations env))) (it := 0%Z)
    (st := initState_); try done.
  - intros _ st0 H _. by apply ended_plain.
  - intros _ st0 H _ _. by apply ended_cap.
  - intros _ st0 st1 H _ _ Hb. by apply (Inv_body _ _ _ H Hb).
  - intros _ st0 st1 H _ _ Hb. by apply (Inv_body _ _ _ H Hb).
  - apply Inv_init.
Qed.

Lemma Ended_Reach (Ph : Phase → Prop) st :
  Ended st → (∀ ph, PhLoop ph → Ph ph) → Ph PFound → Ph PExhausted →
  Reach Ph st.
Proof.
  intros [st0 (H & _)|sel path st0 (H & Hwf & _) _ _ _|st0 (H & Hwf & _)]
    Himp Hf He.
  - by eapply Reach_weaken.
  - apply reach_push; [by eapply Reach_weaken|done..].
  - apply reach_push; [by eapply Reach_weaken|done..].
Qed.

Lemma Ended_Audit st : Ended st → Audit (λ _, True) st.
Proof. intros H. by apply Reach_Audit, Ended_Reach. Qed.

Lemma Ended_Synced st : Ended st → Synced st.
Proof. intros [st0 (_ & _ & H & _)| |]; [done|apply Synced_push..]. Qed.

Lemma buildTrace_Ended :
  ∃ st, buildTrace env startKey goalKey options = Some (traceOf options st) ∧
        Ended st.
Proof.
  destruct runLoop_Ended as (it & st & Hrun & He).
  exists st. split; [|done]. unfold buildTrace. by rewrite Hrun.
Qed.

Lemma StronglySorted_lookup {A} (R : A → A → Prop) l i j a b :
  StronglySorted R l → i < j → l !! i = Some a → l !! j = Some b → R a b.
Proof.
  intros Hs. revert i j. induction Hs as [|x l Hs IH Hx]; intros i j Hij Hi Hj.
  - by rewrite lookup_nil in Hi.
  - destruct j as [|j]; [lia|]. destruct i as [|i]; simpl in *.
    + injection Hi as <-. rewrite Forall_forall in Hx. apply Hx.
      by eapply list_elem_of_lookup_2.
    + eapply IH; [|done..]. lia.
Qed.

Lemma reverse_lookup_Some_1 {A} (l : list A) i x :
  reverse l !! i = Some x → i < length l ∧ l !! (length l - S i) = Some x.
Proof.
  intros H. pose proof (lookup_lt_Some _ _ _ H) as Hlt.
  rewrite length_reverse in Hlt. split; [done|].
  by rewrite reverse_lookup in H.
Qed.

Lemma filter_none {A} (P : A → Prop) `{!∀ x, Decision (P x)} (l : list A) :
  Forall (λ x, ¬ P x) l → filter P l = [].
Proof. induction 1 as [|x l Hx _ IH]; [done|]. by rewrite filter_cons_False. Qed.

(** X9.  A trace replays by index: its first snapshot is the "init"
    snapshot (start visited at cost 0, nothing closed, the start item
    alone in the frontier), the snapshot at position [i] carries
    [index = i], every snapshot names the frontier kind of the
    algorithm, and [runtimeSteps] is the number of snapshots. *)
Theorem trace_replays_by_index :
  ∃ t, buildTrace env startKey goalKey options = Some t ∧
       steps t !! 0 = Some initStep ∧
       (∀ i s, steps t !! i = Some s →
               index s = i ∧ frontierKind s = fk) ∧
       runtimeSteps (metrics t) = length (steps t).
Proof.
  destruct buildTrace_Ended as (st & Ht & He).
  destruct (Ended_Audit st He) as [_ Hf Hi Hk _ _ _ _ _ _].
  eexists. split; [exact Ht|]. cbn [steps traceOf metrics runtimeSteps].
  split_and!; [|intros i s Hl; split|done].
  - by rewrite <-head_lookup, head_reverse.
  - apply reverse_lookup_Some_1 in Hl as [Hlt Hl].
    specialize (Hi _ _ Hl). lia.
  - rewrite Forall_forall in Hk. apply Hk. rewrite <-elem_of_reverse.
    by eapply list_elem_of_lookup_2.
Qed.

(** X10.  Every snapshot of a trace is consistent in itself: closed keys
    are visited, the start is visited, every frontier item is visited,
    every visited key other than the start has a parent link, and every
    parent is a closed key. *)
Theorem snapshots_are_consistent :
  ∃ t, buildTrace env startKey goalKey options = Some t ∧
       ∀ s, s ∈ steps t →
         closed s ⊆ visited s ∧ startKey ∈ visited s ∧
         (∀ it, it ∈ frontier s → it_key it ∈ visited s) ∧
         (∀ k, k ∈ visited s → k = startKey ∨ is_Some (cameFrom s !! k)) ∧
         (∀ k p, cameFrom s !! k = Some p → p ∈ closed s).
Proof.
  destruct buildTrace_Ended as (st & Ht & He).
  destruct (Ended_Audit st He) as [_ _ _ _ _ Hs _ _ _ _].
  eexists. split; [exact Ht|]. cbn [steps traceOf].
  intros s Hin. rewrite elem_of_reverse in Hin.
  rewrite Forall_forall in Hs. by apply Hs.
Qed.

(** X11.  Along a trace the books only grow: from a snapshot to any later
    one the visited set, the closed set and the set of keys that have a
    parent link get no smaller. *)
Theorem books_only_grow :
  ∃ t, buildTrace env startKey goalKey options = Some t ∧
       ∀ i j si sj, i <= j →
         steps t !! i = Some si → steps t !! j = Some sj →
         visited si ⊆ visited sj ∧ closed si ⊆ closed sj ∧
         dom (cameFrom si) ⊆ dom (cameFrom sj).
Proof.
  destruct buildTrace_Ended as (st & Ht & He).
  destruct (Ended_Audit st He) as [_ _ _ _ _ _ _ Hm _ _].
  eexists. split; [exact Ht|]. cbn [steps traceOf].
  intros i j si sj Hij Hi Hj.
  destruct (decide (i = j)) as [->|Hne].
  { rewrite Hi in Hj. by injection Hj as <-. }
  apply reverse_lookup_Some_1 in Hi as [Hli Hi].
  apply reverse_lookup_Some_1 in Hj as [Hlj Hj].
  eapply (StronglySorted_lookup _ _ _ _ _ _ Hm); [|exact Hj|exact Hi]. lia.
Qed.

(** X12.  The metrics summarise the snapshots: [explored] and
    [peakClosed] are the size of the closed set of the last snapshot,
    which no snapshot exceeds; [peakFrontier] is the largest frontier
    length of a snapshot; [relaxations] is the number of "relax"
    snapshots, which is 0 for bfs and dfs. *)
Theorem metrics_summarise_the_snapshots :
  ∃ t slast,
    buildTrace env startKey goalKey options = Some t ∧
    last (steps t) = Some slast ∧
    explored (metrics t) = size (closed slast) ∧
    peakClosed (metrics t) = size (closed slast) ∧
    (∀ s, s ∈ steps t →
          size (closed s) <= peakClosed (metrics t) ∧
          length (frontier s) <= peakFrontier (metrics t)) ∧
    (∃ s, s ∈ steps t ∧ length (frontier s) = peakFrontier (metrics t)) ∧
    relaxations (metrics t) =
      length (filter (λ s, phase (partial s) = PRelax) (steps t)) ∧
    (is_unweighted options = true → relaxations (metrics t) = 0).
Proof.
  destruct buildTrace_Ended as (st & Ht & He).
  destruct (Ended_Audit st He) as [_ _ _ _ _ _ Hb _ [HpF1 HpF2] HpC].
  destruct (Ended_Synced st He) as (s0 & l & E & _ & Hc & _).
  destruct HpC as (s0' & l' & E' & HpC). rewrite E in E'.
  injection E' as <- <-.
  pose proof (Reach_relaxations _ _
    (Ended_Reach (λ _, True) st He (λ _ _, I) I I)) as Hr.
  exists (traceOf options st), s0. split; [exact Ht|].
  cbn [steps traceOf metrics explored peakClosed peakFrontier relaxations].
  split_and!.
  - by rewrite last_reverse, E.
  - by rewrite Hc.
  - done.
  - intros s Hin. rewrite elem_of_reverse in Hin. split; [|by apply HpF1].
    rewrite Forall_forall in Hb. destruct (Hb s Hin) as (_ & Hcl & _).
    rewrite HpC, Hc. by apply subseteq_size.
  - destruct HpF2 as (s & Hin & Hs). exists s. by rewrite elem_of_reverse.
  - by rewrite Hr, filter_reverse, length_reverse.
  - intros Hu. rewrite Hr.
    assert (Reach (λ ph, ph ≠ PRelax) st) as H'.
    { apply Ended_Reach; [done| |done..].
      intros ph (_ & _ & Hph) ->. specialize (Hph eq_refl). congruence. }
    destruct (Reach_Audit _ _ H') as [_ _ _ _ Hph _ _ _ _ _].
    by rewrite filter_none.
Qed.

(** The snapshots of a finished run: the newest one, and before it only
    snapshots that are neither "found" nor "exhausted". *)
Lemma Ended_shape st :
  Ended st →
  ∃ s l, st_steps st = s :: l ∧
    Forall (λ s, phase (partial s) ≠ PFound ∧
                 phase (partial s) ≠ PExhausted) l ∧
    ((phase (partial s) ≠ PFound ∧ phase (partial s) ≠ PExhausted) ∨
     (∃ sel path st0,
        partial s = foundPartial options sel path ∧ it_key sel = goalKey ∧
        Inv st0 ∧ goalKey ∈ st_visited st0 ∧
        reconstructPathCoords adapter (st_cameFrom st0) startKey goalKey
          = Some path) ∨
     partial s = exhaustedPartial).
Proof.
  assert (∀ st0, Inv st0 →
            Forall (λ s, phase (partial s) ≠ PFound ∧
                         phase (partial s) ≠ PExhausted) (st_steps st0) ∧
            ∃ s l, st_steps st0 = s :: l) as Hloop.
  { intros st0 (H & _). destruct (Reach_Audit _ _ H) as [_ _ _ _ Hph _ _ _ _ HpC].
    split; [|destruct HpC as (s & l & E & _); eauto].
    eapply Forall_impl; [exact Hph|]. by intros s (? & ? & _). }
  intros [st0 HI|sel path st0 HI Hk Hv Hp|st0 HI];
    destruct (Hloop st0 HI) as [Hall (s & l & E)].
  - exists s, l. split; [done|]. rewrite E in Hall.
    apply Forall_cons in Hall as [Hs Hl]. split; [done|by left].
  - eexists _, _. split; [done|]. split; [done|]. right; left.
    by exists sel, path, st0.
  - eexists _, _. split; [done|]. split; [done|]. by right; right.
Qed.

(** X13.  A "found" or "exhausted" snapshot can only be the last snapshot
    of a trace.  [found] is true exactly when the last snapshot is a
    "found" one; then that snapshot selects an item with the goal key
    and carries the path that the trace returns.  Otherwise the returned
    path is empty. *)
Theorem found_step_is_the_last :
  ∃ t, buildTrace env startKey goalKey options = Some t ∧
    (∀ i s, steps t !! i = Some s →
       phase (partial s) = PFound ∨ phase (partial s) = PExhausted →
       S i = length (steps t)) ∧
    (found t = true ↔
       ∃ s, last (steps t) = Some s ∧ phase (partial s) = PFound) ∧
    (found t = true →
       ∃ s sel, last (steps t) = Some s ∧
         selected (partial s) = Some sel ∧ it_key sel = goalKey ∧
         path (partial s) = Some (tr_path t)) ∧
    (found t = false → tr_path t = []).
Proof.
  destruct buildTrace_Ended as (st & Ht & He).
  destruct (Ended_shape st He) as (s & l & E & Hl & Hs).
  eexists. split; [exact Ht|].
  rewrite Forall_forall in Hl.
  assert (found (traceOf options st) = true ↔ phase (partial s) = PFound)
    as Hfound.
  { unfold traceOf. cbn [found]. rewrite E. split.
    - intros (x & Hin & Hx)%existsb_exists.
      apply list_elem_of_In in Hin. rewrite elem_of_reverse in Hin.
      apply bool_decide_eq_true_1 in Hx.
      apply elem_of_cons in Hin as [->|Hin]; [done|].
      by destruct (Hl x Hin).
    - intros Hph. apply existsb_exists. exists s. split.
      + apply list_elem_of_In. rewrite elem_of_reverse. left.
      + by apply bool_decide_eq_true_2. }
  assert (last (steps (traceOf options st)) = Some s) as Hlast.
  { cbn [steps traceOf]. by rewrite last_reverse, E. }
  split_and!.
  - intros i s' Hi Hph. cbn [steps traceOf] in *.
    apply reverse_lookup_Some_1 in Hi as [Hlt Hi].
    rewrite length_reverse. rewrite E in *. simpl in *.
    destruct (length l - i) as [|n] eqn:En; [lia|].
    simpl in Hi. apply list_elem_of_lookup_2 in Hi.
    destruct (Hl s' Hi). tauto.
  - rewrite Hfound, Hlast. split; [eauto|]. by intros (s' & [= <-] & ?).
  - intros Hf. pose proof (proj1 Hfound Hf) as Hph.
    destruct Hs as [[? _]|[(sel & path0 & st0 & Ep & Hk & _)|Ep]];
      [done| |by rewrite Ep in Hph].
    exists s, sel. split; [done|]. rewrite Ep. split; [done|].
    split; [done|]. unfold traceOf in *. cbn [found tr_path] in *.
    rewrite Hf, E. simpl. by rewrite Ep.
  - intros Hf. unfold traceOf in *. cbn [found tr_path] in *. by rewrite Hf.
Qed.

Lemma chain_hops (keys : list string) : ∀ a b,
  head keys = Some a → last keys = Some b →
  (∀ i x y, keys !! i = Some x → keys !! S i = Some y → edge env x y) →
  hops env a (length keys - 1) b.
Proof.
  induction keys as [|c keys IH] using rev_ind; intros a b Hh Hl Hch; [done|].
  rewrite last_snoc in Hl. injection Hl as <-.
  rewrite length_app. simpl.
  destruct keys as [|k0 keys'] using rev_ind.
  - simpl in Hh. injection Hh as <-. constructor.
  - clear IHkeys'. rewrite length_app in *. simpl in *.
    replace (length keys' + 1 + 1 - 1) with (S (length keys' + 1 - 1)) by lia.
    eapply hops_S.
    + apply IH.
      * destruct keys'; done.
      * by rewrite last_snoc.
      * intros i x y Hx Hy. apply (Hch i x y).
        -- rewrite lookup_app_l; [done|]. by eapply lookup_lt_Some.
        -- rewrite lookup_app_l; [done|]. by eapply lookup_lt_Some.
    + apply (Hch (length keys')).
      * rewrite lookup_app_l by (rewrite length_app; simpl; lia).
        by rewrite lookup_app_r, Nat.sub_diag.
      * rewrite lookup_app_r by (rewrite length_app; simpl; lia).
        rewrite length_app. simpl.
        by replace (S (length keys') - (length keys' + 1)) with 0 by lia.
Qed.

Lemma found_path st path :
  startKey ≠ EmptyString →
  (∀ k nb, nb ∈ neighbors adapter k → nb_key nb ≠ EmptyString) →
  Inv st → goalKey ∈ st_visited st →
  reconstructPathCoords adapter (st_cameFrom st) startKey goalKey = Some path →
  ∃ keys, path = coordOfKey adapter <$> keys ∧
          head keys = Some startKey ∧ last keys = Some goalKey ∧
          (∀ i a b, keys !! i = Some a → keys !! S i = Some b →
                    edge env a b) ∧
          hops env startKey (length keys - 1) goalKey.
Proof.
  intros Hs Hne (_ & Hwf & _ & Hlinks) Hg.
  destruct Hwf as [Hc Hf Hp (ord & _ & Hord & Hch & _)].
  assert (∀ k p, st_cameFrom st !! k = Some p → p ∈ st_visited st) as Hpv.
  { intros k p Hk. apply Hc, Hord. by eapply Hch. }
  unfold reconstructPathCoords. case_bool_decide as E.
  { intros [= <-]. exists [startKey].
    split_and!; [done|done|simpl; by rewrite E| |rewrite <-E; constructor].
    intros i a b Ha Hb. by destruct i. }
  destruct (st_cameFrom st !! goalKey) as [p0|] eqn:Hp0.
  2:{ destruct (Hp goalKey Hg) as [?|[? ?]]; congruence. }
  destruct (walkBack _ _ _ _ _) as [out|] eqn:Hw; [|done].
  intros [= <-].
  destruct (walkBack_chain _ _ _ _ _ _ Hw) as (pre & e & -> & Hh & Hpc & He);
    [done| |].
  { intros i a b Ha Hb. destruct i; simpl in *; done. }
  assert (last (pre ++ [goalKey]) = Some goalKey) as Hlast by apply last_snoc.
  assert (∀ k, k ∈ pre ++ [goalKey] → k ∈ st_visited st) as Hall.
  { intros k [i Hi]%list_elem_of_lookup.
    destruct ((pre ++ [goalKey]) !! S i) as [b|] eqn:Hb.
    - eapply Hpv. by eapply Hpc.
    - apply lookup_ge_None in Hb. pose proof (lookup_lt_Some _ _ _ Hi).
      rewrite last_lookup in Hlast.
      replace (pred (length (pre ++ [goalKey]))) with i in Hlast by lia.
      congruence. }
  assert (e ∈ st_visited st) as Hev.
  { apply Hall. destruct pre; simpl in Hh; injection Hh as <-; set_solver. }
  assert (EmptyString ∉ st_visited st) as Hnoempty.
  { intros Hin. destruct (Hp _ Hin) as [?|[p Hpe]]; [done|].
    destruct (Hlinks _ _ Hpe) as (nb & Hnb & Hk). by eapply Hne. }
  assert (e = startKey) as ->.
  { destruct He as [?|[He|He]]; [done|..].
    - destruct (Hp e Hev) as [?|[? ?]]; [done|congruence].
    - destruct Hnoempty. by eapply Hpv. }
  assert (∀ i a b, (pre ++ [goalKey]) !! i = Some a →
                   (pre ++ [goalKey]) !! S i = Some b → edge env a b) as Hedges.
  { intros i a b Ha Hb. apply Hlinks. by eapply Hpc. }
  exists (pre ++ [goalKey]). split_and!; try done.
  by apply chain_hops.
Qed.

(** X14.  The returned path is a walk of the environment.  When no key
    is the empty string (the start is not, and the adapter lists no
    neighbour with that key) and the trace reports [found], its path is
    the coordinates of a list of keys that begins with the start, ends
    with the goal, and in which every key is a neighbour of the one
    before it; so the goal is reachable from the start.  This holds for
    all four algorithms. *)
Theorem found_path_is_a_walk :
  startKey ≠ EmptyString →
  (∀ k nb, nb ∈ neighbors adapter k → nb_key nb ≠ EmptyString) →
  ∃ t, buildTrace env startKey goalKey options = Some t ∧
    (found t = true →
       ∃ keys, tr_path t = coordOfKey adapter <$> keys ∧
         head keys = Some startKey ∧ last keys = Some goalKey ∧
         (∀ i a b, keys !! i = Some a → keys !! S i = Some b →
                   edge env a b) ∧
         hops env startKey (length keys - 1) goalKey).
Proof.
  intros Hs Hne.
  destruct buildTrace_Ended as (st & Ht & He).
  destruct (Ended_shape st He) as (s & l & E & Hl & Hcase).
  eexists. split; [exact Ht|]. intros Hf.
  assert (phase (partial s) = PFound) as Hph.
  { unfold traceOf in Hf. cbn [found] in Hf. rewrite E in Hf.
    apply existsb_exists in Hf as (x & Hin & Hx).
    apply list_elem_of_In in Hin. rewrite elem_of_reverse in Hin.
    apply bool_decide_eq_true_1 in Hx.
    apply elem_of_cons in Hin as [->|Hin]; [done|].
    rewrite Forall_forall in Hl. by destruct (Hl x Hin). }
  destruct Hcase as [[? _]|[(sel & path0 & st0 & Ep & Hk & HI & Hv & Hp)|Ep]];
    [done| |by rewrite Ep in Hph].
  assert (tr_path (traceOf options st) = path0) as ->.
  { unfold traceOf in *. cbn [found tr_path] in *. rewrite Hf, E. simpl.
    by rewrite Ep. }
  by eapply found_path.
Qed.
End Audit.

Lemma found_path_is_a_walk_witness :
  ∃ t, buildTrace twoCells "0,0" "1,0" dijkstraOptions = Some t ∧
    (found t = true →
       ∃ keys, tr_path t = coordOfKey (adapterOf twoCells) <$> keys ∧
         head keys = Some "0,0" ∧ last keys = Some "1,0" ∧
         (∀ i a b, keys !! i = Some a → keys !! S i = Some b →
                   edge twoCells a b) ∧
         hops twoCells "0,0" (length keys - 1) "1,0").
Proof.
  apply (found_path_is_a_walk twoCells "0,0" "1,0" dijkstraOptions); [done|].
  intros k nb (c & -> & _)%gridNeighbors_elem. apply keyOf_nonempty.
Defined.

(* ===================================================================== *)
(** * Exhaustive search: below the cap a run finds what can be reached *)
(* ===================================================================== *)

(** A heap entry is stale when a smaller cost is known for its key
    ([popped.g > bestKnown]); the selection loop drops such entries. *)
Definition stale (gs : gmap string Z) (it : FrontierItem) : Prop :=
  ∃ b g, gs !! it_key it = Some b ∧ it_g it = Some g ∧ g > b.

(** The selection loop of the heap drops only entries of closed keys and
    stale entries, never returns an entry of a closed key, and ends
    without a selection only on an empty heap. *)
Lemma popFresh_live fuel c gs : ∀ h,
  (length h < fuel)%nat →
  (∀ nd, nd ∈ h → it_key (hn_value nd) ∉ c → ¬ stale gs (hn_value nd) →
         nd ∈ (popFresh fuel c gs h).2 ∨
         (popFresh fuel c gs h).1 = Some (hn_value nd)) ∧
  (∀ sel, (popFresh fuel c gs h).1 = Some sel → it_key sel ∉ c) ∧
  ((popFresh fuel c gs h).1 = None → (popFresh fuel c gs h).2 = []).
Proof.
  induction fuel as [|fuel IH]; intros h Hlen; [lia|].
  cbn [popFresh].
  pose proof (HeapFacts.pop_Permutation h) as Hp.
  destruct (MinHeap.pop h) as [[nd0|] h']; last first.
  { destruct Hp as [-> ->]. split_and!; try done. by intros nd ?%elem_of_nil. }
  pose proof (Permutation_length Hp) as Hl. cbn [length] in Hl.
  destruct (IH h') as (IH1 & IH2 & IH3); [lia|].
  assert (∀ nd, nd ∈ h → nd = nd0 ∨ nd ∈ h') as Hin.
  { intros nd Hnd. rewrite Hp in Hnd. by apply elem_of_cons in Hnd. }
  case_bool_decide as Hc.
  { split_and!; try done. intros nd Hnd Hk Hs.
    destruct (Hin nd Hnd) as [->|Hnd']; [done|]. by apply IH1. }
  destruct (gs !! it_key (hn_value nd0)) as [b|] eqn:Eb;
    [destruct (it_g (hn_value nd0)) as [g|] eqn:Eg|];
    [case_bool_decide as Hgt|..].
  - split_and!; try done. intros nd Hnd Hk Hs.
    destruct (Hin nd Hnd) as [->|Hnd']; [|by apply IH1].
    destruct Hs. by exists b, g.
  - cbn [fst snd]. split_and!; [|by intros sel [= <-]|done].
    intros nd Hnd _ _. destruct (Hin nd Hnd) as [->|Hnd']; [by right|by left].
  - cbn [fst snd]. split_and!; [|by intros sel [= <-]|done].
    intros nd Hnd _ _. destruct (Hin nd Hnd) as [->|Hnd']; [by right|by left].
  - cbn [fst snd]. split_and!; [|by intros sel [= <-]|done].
    intros nd Hnd _ _. destruct (Hin nd Hnd) as [->|Hnd']; [by right|by left].
Qed.

Section Exhaustive.
Variable env : Environment.
Variables startKey goalKey : string.
Variable options : RunOptions.

(** A finite set of keys that holds the start and, with a key, the keys
    of its neighbours. *)
Variable U : gset string.
Hypothesis U_start : startKey ∈ U.
Hypothesis U_closed :
  ∀ k nb, k ∈ U → nb ∈ neighbors (adapterOf env) k → nb_key nb ∈ U.

Local Abbreviation adapter := (adapterOf env).
Local Abbreviation fk := (frontierKindFor (algorithm options)).
Local Abbreviation frontierOf := (frontierToArray options).
Local Abbreviation push_step := (pushStep options).
Local Abbreviation body_ := (body env startKey goalKey options).
Local Abbreviation expand_ := (expand env options).
Local Abbreviation relaxAll_ := (relaxAll env goalKey options).
Local Abbreviation relaxNeighbor_ := (relaxNeighbor env goalKey options).
Local Abbreviation select_ := (select options).
Local Abbreviation initState_ := (initState env startKey goalKey options).
Local Abbreviation Inv_ := (Inv env startKey goalKey options).
Local Abbreviation maxIt := (maxIterations env).

Local Open Scope nat_scope.

Ltac proj :=
  cbn [st_visited st_closed st_cameFrom st_gScore st_steps st_relaxations
       st_queue st_stack st_heap st_peakFrontier st_peakClosed
       pushStep set_frontier set_books fst snd] in *.

(** Some number of hops leads from the start to [k]. *)
Definition reachable (k : string) : Prop := ∃ n, hops env startKey n k.

(** The frontier holds an entry for [k] that the selection will not
    drop as stale. *)
Definition live (st : State) (k : string) : Prop :=
  ∃ it, it ∈ frontierOf st ∧ it_key it = k ∧
        (fk = minheap → ¬ stale (st_gScore st) it).

(** The invariant of an exhaustive search.  [k0] is the key whose entry
    has left the frontier and whose neighbour loop is running, [done_]
    the neighbours that loop has handled.  Every visited key that is not
    closed waits in the frontier; every neighbour of a closed key is
    visited. *)
Record Cover (k0 : option string) (done_ : list Neighbor) (st : State)
    : Prop := mkCover
  { c_start : startKey ∈ st_visited st;
    c_sub : st_closed st ⊆ st_visited st;
    c_univ : st_visited st ⊆ U;
    c_reach : ∀ k, k ∈ st_visited st → reachable k;
    c_front : ∀ it, it ∈ frontierOf st → it_key it ∈ st_visited st;
    c_live : ∀ k, k ∈ st_visited st → k ∉ st_closed st → k0 ≠ Some k →
                  live st k;
    c_nbs : ∀ k nb, k ∈ st_closed st → nb ∈ neighbors adapter k →
                    (k0 = Some k → nb ∈ done_) → nb_key nb ∈ st_visited st;
    c_goal : goalKey ∉ st_closed st;
    c_gs : ∀ k, is_Some (st_gScore st !! k) → k ∈ st_visited st;
    c_fresh : fk ≠ minheap →
              NoDup (it_key <$> frontierOf st) ∧
              ∀ it, it ∈ frontierOf st →
                    (it_key it ∉ st_closed st) ∧ k0 ≠ Some (it_key it) }.

Lemma Cover_push k0 done_ p st :
  Cover k0 done_ st → Cover k0 done_ (push_step p st).
Proof.
  intros []. split; unfold live in *;
    rewrite ?(frontierOf_pushStep options); done.
Qed.

Lemma startItem_fresh :
  it_key (startItemOf options adapter startKey goalKey) = startKey ∧
  (fk = minheap →
   it_g (startItemOf options adapter startKey goalKey) = Some 0%Z).
Proof.
  unfold startItemOf. rewrite makeItem_key. split; [done|].
  by destruct (algorithm options).
Qed.

Lemma Cover_init : Cover None [] initState_.
Proof.
  destruct startItem_fresh as [Hk Hg].
  pose proof (frontierOf_init env startKey goalKey options) as Hf.
  assert (st_visited initState_ = {[ startKey ]}) as Hv by done.
  assert (st_closed initState_ = ∅) as Hc by done.
  assert (st_gScore initState_ = {[ startKey := 0%Z ]}) as Hgs by done.
  split; unfold live; rewrite ?Hf, ?Hv, ?Hc, ?Hgs.
  - set_solver.
  - set_solver.
  - set_solver.
  - intros k ->%elem_of_singleton. exists 0. constructor.
  - intros it ->%list_elem_of_singleton. set_solver.
  - intros k ->%elem_of_singleton _ _. eexists.
    split; [by apply list_elem_of_singleton|]. split; [done|].
    intros Hm (b & g & Hb & Hg' & Hlt). rewrite Hg in Hg' by done.
    rewrite Hk, lookup_singleton_eq in Hb. simplify_eq. lia.
  - set_solver.
  - set_solver.
  - intros k [x Hx]. apply lookup_singleton_Some in Hx as [<- _]. set_solver.
  - intros _. split; [simpl; apply NoDup_singleton|].
    intros it ->%list_elem_of_singleton. set_solver.
Qed.

(** ** Selection *)

Lemma fk_cases :
  (fk = queue ∧ is_unweighted options = true ∧
   ∀ st, frontierOf st = st_queue st) ∨
  (fk = stack ∧ is_unweighted options = true ∧
   ∀ st, frontierOf st = st_stack st) ∨
  (fk = minheap ∧ is_unweighted options = false ∧
   ∀ st, frontierOf st = hn_value <$> st_heap st).
Proof.
  unfold frontierToArray, is_unweighted.
  destruct (algorithm options); simpl; auto.
Qed.

(** What [select] takes from the frontier and what it leaves there:
    the selected entry has a key that is not closed; every entry that
    is live stays, except the selected one; and for the queue and the
    stack the rest is the frontier without the selected entry. *)
Lemma select_live st sel :
  (select_ st).1 = Some sel →
  sel ∈ frontierOf st ∧
  (∀ it, it ∈ frontierOf (select_ st).2 → it ∈ frontierOf st) ∧
  (∀ it, it ∈ frontierOf st → it_key it ∉ st_closed st →
         (fk = minheap → ¬ stale (st_gScore st) it) →
         it ∈ frontierOf (select_ st).2 ∨ it = sel) ∧
  (fk = minheap → it_key sel ∉ st_closed st) ∧
  (fk ≠ minheap → frontierOf st ≡ₚ sel :: frontierOf (select_ st).2).
Proof.
  destruct fk_cases as [(Hfk & _ & Hfr)|[(Hfk & _ & Hfr)|(Hfk & _ & Hfr)]];
    rewrite !Hfr; unfold select; rewrite Hfk.
  - destruct (st_queue st) as [|it q] eqn:E; [done|].
    cbn [fst snd]. intros [= <-]. proj.
    split_and!; try done.
    + set_solver.
    + intros x Hx. right. by apply Hx.
    + intros x [-> |Hx]%elem_of_cons _ _; auto.
  - destruct (st_stack st) as [|it q] eqn:E; [done|].
    cbn [fst snd]. proj. rewrite <-E.
    destruct (exists_last (l := st_stack st) ltac:(by rewrite E))
      as (front & lst & E').
    rewrite E', last_last, removelast_last. intros [= <-].
    split_and!; try done.
    + set_solver.
    + set_solver.
    + intros x [Hx| ->%list_elem_of_singleton]%elem_of_app _ _; auto.
    + intros _. by rewrite Permutation_app_comm.
  - cbn [fst snd]. proj. intros Hs.
    destruct (popFresh_live (S (length (st_heap st))) (st_closed st)
                (st_gScore st) (st_heap st)) as (H1 & H2 & _); [lia|].
    destruct (popFresh_sub (S (length (st_heap st))) (st_closed st)
                (st_gScore st) (st_heap st)) as [H3 H4].
    split_and!; try done.
    + by apply H4.
    + intros it (nd & -> & Hnd)%list_elem_of_fmap.
      apply list_elem_of_fmap. exists nd. split; [done|]. by apply H3.
    + intros it (nd & -> & Hnd)%list_elem_of_fmap Hc Hst.
      destruct (H1 nd Hnd Hc) as [Hin|Heq]; [by apply Hst| |].
      * left. apply list_elem_of_fmap. by exists nd.
      * right. rewrite Hs in Heq. by injection Heq.
    + intros _. by apply H2.
Qed.

Lemma select_none st :
  (select_ st).1 = None → ∀ k, ¬ live st k ∨ k ∈ st_closed st.
Proof.
  intros Hs k.
  destruct (decide (k ∈ st_closed st)) as [?|Hc]; [by right|left].
  intros (it & Hit & <- & Hst). revert Hs Hit Hst.
  destruct fk_cases as [(Hfk & _ & Hfr)|[(Hfk & _ & Hfr)|(Hfk & _ & Hfr)]];
    rewrite !Hfr; unfold select; rewrite Hfk.
  - destruct (st_queue st); [|done]. by intros _ ?%elem_of_nil.
  - destruct (st_stack st); [|done]. by intros _ ?%elem_of_nil.
  - cbn [fst]. intros Hs (nd & -> & Hnd)%list_elem_of_fmap Hst.
    destruct (popFresh_live (S (length (st_heap st))) (st_closed st)
                (st_gScore st) (st_heap st)) as (H1 & _ & H3); [lia|].
    destruct (H1 nd Hnd Hc) as [Hin|Heq]; [by apply Hst| |congruence].
    rewrite H3 in Hin by done. by apply elem_of_nil in Hin.
Qed.

Lemma Cover_select st sel :
  Cover None [] st → (select_ st).1 = Some sel →
  it_key sel ∈ st_visited st ∧ (it_key sel ∉ st_closed st) ∧
  Cover (Some (it_key sel)) [] (select_ st).2.
Proof.
  intros [Hs Hsub Hu Hr Hf Hl Hn Hg Hgs Hfresh] Hsel.
  destruct (select_live st sel Hsel) as (Hin & Hrest & Hkeep & Hheap & Hperm).
  assert (it_key sel ∉ st_closed st) as Hncl.
  { destruct (decide (fk = minheap)) as [E|E]; [by apply Hheap|].
    by apply (Hfresh E). }
  split; [by apply Hf|]. split; [done|].
  destruct (select_frame options st) as (q & s & h & E).
  assert (st_visited (select_ st).2 = st_visited st) as Ev
    by (by rewrite E).
  assert (st_closed (select_ st).2 = st_closed st) as Ec by (by rewrite E).
  assert (st_gScore (select_ st).2 = st_gScore st) as Eg by (by rewrite E).
  split; rewrite ?Ev, ?Ec, ?Eg; try done.
  - intros it Hit. by apply Hf, Hrest.
  - intros k Hk Hc Hk0. destruct (Hl k Hk Hc) as (it & Hit & <- & Hst); [done|].
    destruct (Hkeep it Hit Hc Hst) as [Hit'| ->]; [|done].
    exists it. by rewrite Eg.
  - intros k nb Hk Hnb _. by apply (Hn k nb).
  - intros Hq. destruct (Hfresh Hq) as [Hnd Hcl].
    specialize (Hperm Hq).
    assert (it_key <$> frontierOf st ≡ₚ
            it_key sel :: (it_key <$> frontierOf (select_ st).2)) as Hp
      by (by rewrite Hperm).
    rewrite Hp in Hnd. apply NoDup_cons in Hnd as [Hnotin Hnd].
    split; [done|]. intros it Hit. split; [by apply Hcl, Hrest|].
    intros [= Heq]. apply Hnotin. rewrite Heq.
    apply list_elem_of_fmap. by exists it.
Qed.

(** ** Expansion *)

Lemma expand_frame sel st :
  st_visited (expand_ sel st) = st_visited st ∧
  st_closed (expand_ sel st) = {[ it_key sel ]} ∪ st_closed st ∧
  st_gScore (expand_ sel st) = st_gScore st ∧
  frontierOf (expand_ sel st) = frontierOf st.
Proof.
  unfold expand. cbv zeta.
  case_bool_decide; rewrite ?(frontierOf_pushStep options); done.
Qed.

Lemma Cover_expand sel st :
  Cover (Some (it_key sel)) [] st → it_key sel ∈ st_visited st →
  it_key sel ≠ goalKey →
  Cover (Some (it_key sel)) [] (expand_ sel st).
Proof.
  intros [Hs Hsub Hu Hr Hf Hl Hn Hg Hgs Hfresh] Hv Hgoal.
  destruct (expand_frame sel st) as (Ev & Ec & Eg & Ef).
  split; unfold live; rewrite ?Ev, ?Ec, ?Eg, ?Ef; try done.
  - set_solver.
  - intros k Hk Hc Hk0. apply Hl; [done|set_solver|done].
  - intros k nb [->%elem_of_singleton|Hk]%elem_of_union Hnb Hd.
    + by apply elem_of_nil in Hd.
    + by apply (Hn k nb).
  - set_solver.
  - intros Hq. destruct (Hfresh Hq) as [Hnd Hcl]. split; [done|].
    intros it Hit. destruct (Hcl it Hit) as [H1 H2]. split; [|done].
    intros [E%elem_of_singleton|?]%elem_of_union; [|done].
    destruct H2. by rewrite E.
Qed.

(** A neighbour of the key being expanded enters the frontier. *)
Lemma Cover_add ks done_ st st' nb it :
  Cover (Some ks) done_ st → ks ∈ st_closed st →
  nb ∈ neighbors adapter ks → nb_key nb ∉ st_closed st →
  st_visited st' = {[ nb_key nb ]} ∪ st_visited st →
  st_closed st' = st_closed st →
  frontierOf st' ≡ₚ it :: frontierOf st →
  it_key it = nb_key nb →
  (if is_unweighted options
   then (nb_key nb ∉ st_visited st) ∧ st_gScore st' = st_gScore st
   else ∃ g, it_g it = Some g ∧
             st_gScore st' = <[nb_key nb := g]> (st_gScore st)) →
  Cover (Some ks) (done_ ++ [nb]) st'.
Proof.
  intros [Hs Hsub Hu Hr Hf Hl Hn Hg Hgs Hfresh] Hsel Hnb Hcl Ev Ec Ef Hk Hw.
  assert (∀ x, x ∈ frontierOf st' ↔ x = it ∨ x ∈ frontierOf st) as Hin.
  { intros x. by rewrite Ef, elem_of_cons. }
  split; unfold live; rewrite ?Ev, ?Ec.
  - set_solver.
  - set_solver.
  - assert (nb_key nb ∈ U); [|set_solver].
    eapply U_closed; [|done]. by apply Hu, Hsub.
  - intros k [->%elem_of_singleton|?]%elem_of_union; [|by auto].
    destruct (Hr ks) as [n Hn']; [by apply Hsub|].
    exists (S n). eapply hops_S; [done|]. by exists nb.
  - intros x [->|Hx]%Hin; [set_solver|]. apply elem_of_union_r. by apply Hf.
  - intros k Hkv Hc Hk0.
    destruct (decide (k = nb_key nb)) as [->|Hne].
    + exists it. split; [apply Hin; by left|]. split; [done|].
      intros Hm (b & g & Hb & Hg' & Hlt).
      destruct fk_cases as [(Hfk & _)|[(Hfk & _)|(_ & Hun & _)]];
        [congruence..|].
      rewrite Hun in Hw. destruct Hw as (g0 & Hg0 & Egs).
      rewrite Egs, Hk, lookup_insert_eq in Hb. simplify_eq. lia.
    + destruct (Hl k) as (x & Hx & <- & Hst); [set_solver|done..|].
      exists x. split; [apply Hin; by right|]. split; [done|].
      intros Hm (b & g & Hb & Hg' & Hlt). apply (Hst Hm). exists b, g.
      split; [|done].
      destruct fk_cases as [(Hfk & _)|[(Hfk & _)|(_ & Hun & _)]];
        [congruence..|].
      rewrite Hun in Hw. destruct Hw as (g0 & Hg0 & Egs).
      by rewrite Egs, lookup_insert_ne in Hb.
  - intros k nb' Hkc Hnb' Hd.
    destruct (decide (nb' = nb)) as [->|Hne]; [set_solver|].
    apply elem_of_union_r, (Hn k nb' Hkc Hnb'). intros E. specialize (Hd E).
    apply elem_of_app in Hd as [?|?%list_elem_of_singleton]; done.
  - done.
  - intros k Hkg. destruct (is_unweighted options).
    + destruct Hw as [_ Egs]. rewrite Egs in Hkg.
      apply elem_of_union_r. by apply Hgs.
    + destruct Hw as (g0 & _ & Egs). rewrite Egs in Hkg.
      destruct (decide (k = nb_key nb)) as [->|Hne]; [set_solver|].
      rewrite lookup_insert_ne in Hkg by done.
      apply elem_of_union_r. by apply Hgs.
  - intros Hq. destruct (Hfresh Hq) as [Hnd Hfcl].
    destruct fk_cases as [(_ & Hun & _)|[(_ & Hun & _)|(Hfk & _)]];
      [..|congruence]; rewrite Hun in Hw; destruct Hw as [Hvis _].
    all: split;
      [rewrite Ef, fmap_cons; apply NoDup_cons; split; [|done];
       intros (x & Hx1 & Hx2)%list_elem_of_fmap; apply Hvis;
       rewrite <-Hk, Hx1; by apply Hf
      |intros x [->|Hx]%Hin; [|by apply Hfcl];
       rewrite Hk; split; [done|]; intros [= E]; apply Hcl; by rewrite <-E].
Qed.

(** One turn of the neighbour loop. *)
Lemma Cover_relaxNeighbor sel curG curDepth done_ st nb :
  Cover (Some (it_key sel)) done_ st →
  it_key sel ∈ st_closed st →
  nb ∈ neighbors adapter (it_key sel) →
  Cover (Some (it_key sel)) (done_ ++ [nb])
        (relaxNeighbor_ sel curG curDepth st nb) ∧
  st_closed (relaxNeighbor_ sel curG curDepth st nb) = st_closed st.
Proof.
  intros HC Hsel Hnb.
  assert (nb_key nb ∈ st_visited st →
          Cover (Some (it_key sel)) (done_ ++ [nb]) st) as Hsame.
  { destruct HC as [Hs Hsub Hu Hr Hf Hl Hn Hg Hgs Hfresh].
    intros Hv. split; try done.
    intros k nb' Hk Hnb' Hd.
    destruct (decide (nb' = nb)) as [->|Hne]; [done|].
    apply (Hn k nb' Hk Hnb'). intros E. specialize (Hd E).
    apply elem_of_app in Hd as [?|?%list_elem_of_singleton]; done. }
  unfold relaxNeighbor.
  case_bool_decide as Hcl.
  { split; [|done]. apply Hsame. by apply (c_sub _ _ _ HC). }
  destruct fk_cases as [(Hfk & Hun & Hfr)|[(Hfk & Hun & Hfr)|(Hfk & Hun & Hfr)]];
    rewrite Hun.
  - (* the queue *)
    case_bool_decide as Hvis; [split; [|done]; by apply Hsame|].
    rewrite Hfk, bool_decide_eq_true_2 by done. split; [|done].
    apply Cover_push.
    eapply (Cover_add (it_key sel) done_ st); try done.
    + rewrite !Hfr. proj. symmetry. apply Permutation_cons_append.
    + unfold discoveredItem. by rewrite makeItem_key.
    + by rewrite Hun.
  - (* the stack *)
    case_bool_decide as Hvis; [split; [|done]; by apply Hsame|].
    rewrite Hfk, bool_decide_eq_false_2 by done. split; [|done].
    apply Cover_push.
    eapply (Cover_add (it_key sel) done_ st); try done.
    + rewrite !Hfr. proj. symmetry. apply Permutation_cons_append.
    + unfold discoveredItem. by rewrite makeItem_key.
    + by rewrite Hun.
  - (* the heap *)
    cbv zeta.
    assert (∀ g, it_g (relaxedItem options adapter goalKey (nb_key nb) g
                         curDepth) = Some g) as Hitg.
    { intros g. unfold relaxedItem. cbv zeta.
      revert Hfk. by destruct (algorithm options). }
    assert (∀ p p',
      Cover (Some (it_key sel)) (done_ ++ [nb])
        (push_step p
           (set_frontier (st_queue st) (st_stack st)
              (MinHeap.push
                 (heapNodeOf
                    (relaxedItem options adapter goalKey (nb_key nb)
                       (curG + stepCostOf options adapter nb) curDepth)
                    (curG + stepCostOf options adapter nb))
                 (st_heap st))
              (push_step p'
                 (set_books ({[ nb_key nb ]} ∪ st_visited st) (st_closed st)
                    (<[nb_key nb := it_key sel]> (st_cameFrom st))
                    (<[nb_key nb := (curG + stepCostOf options adapter nb)%Z]>
                       (st_gScore st))
                    (S (st_relaxations st)) st))))) as Hnew.
    { intros p p'. apply Cover_push.
      eapply (Cover_add (it_key sel) done_ st _ nb
                (relaxedItem options adapter goalKey (nb_key nb)
                   (curG + stepCostOf options adapter nb) curDepth));
        try done.
      - rewrite !Hfr. proj. by rewrite HeapFacts.push_Permutation, fmap_cons.
      - unfold relaxedItem. by rewrite makeItem_key.
      - rewrite Hun. eexists. split; [apply Hitg|done]. }
    destruct (st_gScore st !! nb_key nb) as [o|] eqn:Eo.
    + case_bool_decide as Hlt; cbn [negb].
      * split; [|done].
        apply Hnew.
      * split; [|done]. apply Hsame, (c_gs _ _ _ HC). by rewrite Eo.
    + cbn [negb]. split; [|done].
      apply Hnew.
Qed.

Lemma Cover_relaxLoop sel curG curDepth : ∀ l done_ st,
  (∀ nb, nb ∈ l → nb ∈ neighbors adapter (it_key sel)) →
  Cover (Some (it_key sel)) done_ st →
  it_key sel ∈ st_closed st →
  Cover (Some (it_key sel)) (done_ ++ l)
        (foldl (relaxNeighbor_ sel curG curDepth) st l) ∧
  st_closed (foldl (relaxNeighbor_ sel curG curDepth) st l) = st_closed st.
Proof.
  induction l as [|nb l IH]; intros done_ st Hl H Hsel.
  - by rewrite app_nil_r.
  - simpl.
    destruct (Cover_relaxNeighbor sel curG curDepth done_ st nb H Hsel)
      as [H1 Hc1]; [apply Hl; left|].
    destruct (IH (done_ ++ [nb]) (relaxNeighbor_ sel curG curDepth st nb))
      as [H2 Hc2]; [|done|by rewrite Hc1|].
    + intros nb' ?. apply Hl. by right.
    + rewrite <-app_assoc in H2. split; [done|congruence].
Qed.

(** The neighbour loop is over. *)
Lemma Cover_finish k st :
  Cover (Some k) (neighbors adapter k) st → k ∈ st_closed st →
  Cover None [] st.
Proof.
  intros [Hs Hsub Hu Hr Hf Hl Hn Hg Hgs Hfresh] Hk.
  split; try done.
  - intros k' Hv Hc _. apply Hl; [done..|]. intros [= ->]. done.
  - intros k' nb Hc Hnb _. by apply (Hn k' nb Hc Hnb); intros [= ->].
  - intros Hq. destruct (Hfresh Hq) as [Hnd Hcl]. split; [done|].
    intros it Hit. by destruct (Hcl it Hit).
Qed.

(** ** The main loop *)

Hypothesis U_size : (Z.of_nat (size U) <= maxIt)%Z.

Lemma reachable_U k : reachable k → k ∈ U.
Proof.
  intros [n H]. induction H as [|n b c _ IH (nb & Hnb & <-)]; [done|].
  by eapply U_closed.
Qed.

(** Once no visited key is left to close, the closed keys are the keys
    that can be reached. *)
Lemma Cover_all st :
  Cover None [] st →
  (∀ k, k ∈ st_visited st → k ∈ st_closed st) →
  ∀ k, reachable k ↔ k ∈ st_closed st.
Proof.
  intros [Hs Hsub Hu Hr Hf Hl Hn Hg Hgs Hfresh] Hall k. split.
  - intros [n H]. induction H as [|n b c _ IH (nb & Hnb & <-)].
    + by apply Hall.
    + apply Hall. by apply (Hn b nb).
  - intros Hk. by apply Hr, Hsub.
Qed.

(** How an exhaustive run ends. *)
Inductive Outcome : State → Prop :=
| out_found sel p st :
    Inv_ st → reachable goalKey → goalKey ∈ st_visited st →
    reconstructPathCoords adapter (st_cameFrom st) startKey goalKey = Some p →
    Outcome (push_step (foundPartial options sel p) st)
| out_all st :
    Inv_ st → goalKey ∉ st_closed st →
    (∀ k, reachable k ↔ k ∈ st_closed st) →
    Outcome st
| out_cap st :
    Inv_ st → goalKey ∉ st_closed st →
    (∀ k, reachable k ↔ k ∈ st_closed st) →
    (maxIt <= Z.of_nat (size U))%Z →
    Outcome (push_step exhaustedPartial st).

Definition Exh (it : Z) (st : State) : Prop :=
  Inv_ st ∧ Cover None [] st ∧ it = Z.of_nat (size (st_closed st)).

Lemma Exh_empty it st : Exh it st → frontierOf st = [] → Outcome st.
Proof.
  intros (HI & HC & _) Hf. apply out_all; [done|by destruct HC|].
  apply Cover_all; [done|]. intros k Hk.
  destruct (decide (k ∈ st_closed st)) as [?|Hc]; [done|].
  destruct (c_live _ _ _ HC k Hk Hc) as (x & Hx & _); [done|].
  rewrite Hf in Hx. by apply elem_of_nil in Hx.
Qed.

Lemma Exh_cap it st :
  Exh it st → (it + 1 > maxIt)%Z → Outcome (push_step exhaustedPartial st).
Proof.
  intros (HI & HC & ->) Hcap.
  pose proof (subseteq_size _ _ (c_sub _ _ _ HC)) as H1.
  pose proof (subseteq_size _ _ (c_univ _ _ _ HC)) as H2.
  assert (st_closed st = U) as HU.
  { apply set_subseteq_size_eq; [|lia].
    etrans; [apply (c_sub _ _ _ HC)|apply (c_univ _ _ _ HC)]. }
  apply out_cap; [done|by destruct HC| |lia].
  apply Cover_all; [done|]. intros k Hk. rewrite HU.
  by apply (c_univ _ _ _ HC).
Qed.

Lemma Exh_body it st fl st' :
  Exh it st → body_ st = Some (fl, st') →
  match fl with
  | Continue => Exh (it + 1) st'
  | Break => Outcome st'
  end.
Proof.
  intros (HI & HC & ->) Hb.
  pose proof (Inv_body env startKey goalKey options st fl st' HI Hb) as HI'.
  pose proof (Inv_select env startKey goalKey options st HI) as HIs.
  pose proof (body_case env startKey goalKey options st) as Hc.
  rewrite Hb in Hc.
  pose proof (select_closed options st) as Ecl.
  inversion Hc as [Hn|sel Hs Hcl|sel p Hs Hcl Hg Hp|
                   |sel Hs Hcl Hg]; subst.
  - apply out_all; [done|rewrite Ecl; by destruct HC|].
    rewrite Ecl. apply Cover_all; [done|]. intros k Hk.
    destruct (select_none st Hn k) as [Hnl|?]; [|done].
    destruct (decide (k ∈ st_closed st)) as [?|Hkc]; [done|].
    destruct Hnl. by apply (c_live _ _ _ HC).
  - destruct (Cover_select st sel HC Hs) as (_ & Hncl & _).
    by rewrite Ecl in Hcl.
  - destruct (Cover_select st sel HC Hs) as (Hv & _ & _).
    apply out_found.
    + by apply Inv_push.
    + rewrite <-Hg. by apply (c_reach _ _ _ HC).
    + proj. rewrite (select_visited options). by rewrite <-Hg.
    + done.
  - destruct (Cover_select st sel HC Hs) as (Hv & Hncl & HC1).
    set (st1 := push_step (selectPartial options sel (frontierOf (select_ st).2))
                          (select_ st).2) in *.
    assert (Cover (Some (it_key sel)) [] st1) as HC1' by (by apply Cover_push).
    assert (st_visited st1 = st_visited st) as Ev1
      by apply (select_visited options).
    assert (st_closed st1 = st_closed st) as Ec1 by done.
    pose proof (Cover_expand sel st1 HC1' ltac:(by rewrite Ev1) Hg) as HC2.
    destruct (expand_frame sel st1) as (_ & Ec2 & _).
    destruct (Cover_relaxLoop sel
                (default 0%Z (st_gScore (expand_ sel st1) !! it_key sel))
                (default 0%Z (it_depth sel))
                (neighbors adapter (it_key sel)) [] (expand_ sel st1))
      as [HC3 Ec3]; [done|done|rewrite Ec2; set_solver|].
    split; [done|]. unfold relaxAll. split.
    + apply (Cover_finish (it_key sel)); [done|].
      rewrite Ec3, Ec2. set_solver.
    + rewrite Ec3, Ec2, Ec1, size_union, size_singleton by set_solver. lia.
Qed.

Lemma runLoop_Outcome :
  ∃ it st, runLoop env startKey goalKey options = Some (it, st) ∧ Outcome st.
Proof.
  destruct (runLoop_returns env startKey goalKey options) as (it & st & Hrun & _).
  exists it, st. split; [done|].
  apply (mainLoop_rule env startKey goalKey options Exh (λ _ st, Outcome st))
    with (r := (it, st)) (fuel := S (Z.to_nat (maxIterations env)))
         (it := 0%Z) (st := initState_); try done.
  - apply Exh_empty.
  - intros it0 st0 H _ Hcap. by eapply Exh_cap.
  - intros it0 st0 st1 H _ _ Hb. by apply (Exh_body _ _ _ _ H Hb).
  - intros it0 st0 st1 H _ _ Hb. by apply (Exh_body _ _ _ _ H Hb).
  - split; [apply Inv_init|]. split; [apply Cover_init|done].
Qed.

Lemma Inv_phases st :
  Inv_ st →
  Forall (λ s, phase (partial s) ≠ PFound ∧ phase (partial s) ≠ PExhausted)
         (st_steps st).
Proof.
  intros (H & _).
  destruct (Reach_Audit _ _ _ _ _ _ H) as [_ _ _ _ Hph _ _ _ _ _].
  eapply Forall_impl; [exact Hph|]. by intros s (? & ? & _).
Qed.

Lemma Inv_last st :
  Inv_ st → ∃ s, last (reverse (st_steps st)) = Some s ∧
                 closed s = st_closed st.
Proof.
  intros (_ & _ & (s & l & E & _ & Hc & _) & _).
  exists s. by rewrite last_reverse, E.
Qed.

Lemma found_true st s :
  s ∈ st_steps st → phase (partial s) = PFound →
  found (traceOf options st) = true.
Proof.
  intros Hin Hph. unfold traceOf. cbn [found]. apply existsb_exists.
  exists s. split; [by apply list_elem_of_In, elem_of_reverse|].
  by apply bool_decide_eq_true_2.
Qed.

(** What the trace of an exhaustive run reports. *)
Lemma Outcome_trace st :
  Outcome st →
  (found (traceOf options st) = true ↔ reachable goalKey) ∧
  (found (traceOf options st) = false →
     ∃ s, last (steps (traceOf options st)) = Some s ∧
          ∀ k, k ∈ closed s ↔ reachable k) ∧
  ((Z.of_nat (size U) < maxIt)%Z →
     ∀ s, s ∈ steps (traceOf options st) → phase (partial s) ≠ PExhausted) ∧
  (found (traceOf options st) = true →
     ∃ st0, Inv_ st0 ∧ goalKey ∈ st_visited st0 ∧
       reconstructPathCoords adapter (st_cameFrom st0) startKey goalKey
         = Some (tr_path (traceOf options st))).
Proof.
  intros [sel p st0 HI Hr Hv Hp|st0 HI Hg Hall|st0 HI Hg Hall Hsz].
  - assert (found (traceOf options (push_step (foundPartial options sel p) st0))
            = true) as Hf.
    { eapply found_true; [by left|done]. }
    split_and!; [by rewrite Hf|by rewrite Hf| |].
    + intros _ s Hs. cbn [steps traceOf] in Hs. rewrite elem_of_reverse in Hs.
      proj. apply elem_of_cons in Hs as [-> | Hs]; [done|].
      pose proof (Inv_phases st0 HI) as Hph. rewrite Forall_forall in Hph.
      by destruct (Hph s Hs).
    + intros _. exists st0. split; [done|]. split; [done|].
      rewrite Hp. f_equal. unfold traceOf in *. cbn [found tr_path] in *.
      by rewrite Hf.
  - pose proof (Inv_phases st0 HI) as Hph.
    assert (found (traceOf options st0) = false) as Hf.
    { apply noFound_trace. eapply Forall_impl; [exact Hph|]. by intros s []. }
    rewrite Hf. split_and!; [| | |done].
    + split; [done|]. intros Hr. by apply Hall in Hr.
    + intros _. destruct (Inv_last st0 HI) as (s & Hs & Ec).
      exists s. split; [done|]. intros k. by rewrite Ec, Hall.
    + intros _ s Hs. cbn [steps traceOf] in Hs. rewrite elem_of_reverse in Hs.
      rewrite Forall_forall in Hph. by destruct (Hph s Hs).
  - pose proof (Inv_phases st0 HI) as Hph.
    assert (found (traceOf options (push_step exhaustedPartial st0)) = false)
      as Hf.
    { apply noFound_trace. unfold noFound. proj. constructor; [done|].
      eapply Forall_impl; [exact Hph|]. by intros s []. }
    rewrite Hf. split_and!; [| |lia|done].
    + split; [done|]. intros Hr. by apply Hall in Hr.
    + intros _. eexists. cbn [steps traceOf]. proj.
      rewrite last_reverse. split; [done|]. intros k.
      cbn [closed]. by rewrite Hall.
Qed.


(** The path of a found goal, for the callers that know [U]. *)
Lemma exhaustive_path :
  ∃ t, buildTrace env startKey goalKey options = Some t ∧
    (found t = true ↔ reachable goalKey) ∧
    (found t = true →
     startKey ≠ EmptyString →
     (∀ k nb, nb ∈ neighbors adapter k → nb_key nb ≠ EmptyString) →
     ∃ keys, tr_path t = coordOfKey adapter <$> keys ∧
       head keys = Some startKey ∧ last keys = Some goalKey ∧
       ∀ i a b, keys !! i = Some a → keys !! S i = Some b → edge env a b).
Proof.
  destruct runLoop_Outcome as (it & st & Hrun & Hout).
  exists (traceOf options st). split; [unfold buildTrace; by rewrite Hrun|].
  destruct (Outcome_trace st Hout) as (H1 & _ & _ & H4). split; [done|].
  intros Hf Hs Hne. destruct (H4 Hf) as (st0 & HI & Hv & Hp).
  destruct (found_path env startKey goalKey options st0 _ Hs Hne HI Hv Hp)
    as (keys & ? & ? & ? & ? & _).
  by exists keys.
Qed.
End Exhaustive.


(** ** Grids *)

(** X16.  On a grid with fewer than 10000 cells every algorithm finds
    the goal exactly when it can be walked to: [found] is true if and
    only if some number of moves between adjacent passable cells leads
    from the start cell to the goal cell.  The path then starts at the
    start cell, ends at the goal cell, and each of its steps goes to an
    adjacent cell that is inside the grid and not a wall. *)
Theorem grid_search_finds_what_can_be_walked
    (g : Grid) (s t : Coord) (options : RunOptions) :
  width g * height g < 10000 →
  ∃ tr, buildTrace (GridEnv g) (keyOf s) (keyOf t) options = Some tr ∧
    (found tr = true ↔ ∃ n, cellHops g s n t) ∧
    (found tr = true →
       head (tr_path tr) = Some s ∧ last (tr_path tr) = Some t ∧
       ∀ i a b, tr_path tr !! i = Some a → tr_path tr !! S i = Some b →
                adjacent a b ∧ passable g b).
Proof.
  intros Hsize.
  destruct (exhaustive_path (GridEnv g) (keyOf s) (keyOf t) options
              (gridKeys g (keyOf s)))
    as (tr & Htr & Hfound & Hpath).
  - unfold gridKeys. set_solver.
  - intros k nb _. apply gridKeys_neighbors.
  - by apply gridKeys_size.
  - exists tr. split; [done|]. split.
    + rewrite Hfound. split.
      * intros [n (b & ->%keyOf_inj & Hh)%hops_cellHops]. by exists n.
      * intros [n Hh]. exists n. by apply cellHops_hops.
    + intros Hf.
      destruct (Hpath Hf) as (keys & -> & Hhd & Hlast & Hedges).
      { apply keyOf_nonempty. }
      { intros k nb (c & -> & _)%gridNeighbors_elem. apply keyOf_nonempty. }
      cbn [coordOfKey adapterOf]. split_and!.
      * destruct keys as [|k keys]; simplify_eq/=. by rewrite coordOf_keyOf.
      * rewrite fmap_last, Hlast. simpl. by rewrite coordOf_keyOf.
      * intros i a b. rewrite !list_lookup_fmap.
        destruct (keys !! i) as [ka|] eqn:Ea; [|done].
        destruct (keys !! S i) as [kb|] eqn:Eb; [|done].
        intros [= <-] [= <-].
        destruct (Hedges i ka kb Ea Eb) as (nb & Hnb & <-).
        apply gridNeighbors_elem in Hnb as (c & -> & Hadj & Hp).
        cbn [nb_key]. by rewrite coordOf_keyOf.
Qed.

Lemma grid_search_finds_what_can_be_walked_witness :
  ∃ tr, buildTrace twoCells (keyOf {| cx := 0; cy := 0 |})
          (keyOf {| cx := 1; cy := 0 |}) dijkstraOptions = Some tr ∧
    (found tr = true ↔
     ∃ n, cellHops {| width := 2; height := 1; walls := ∅ |}
            {| cx := 0; cy := 0 |} n {| cx := 1; cy := 0 |}) ∧
    (found tr = true →
       head (tr_path tr) = Some {| cx := 0; cy := 0 |} ∧
       last (tr_path tr) = Some {| cx := 1; cy := 0 |} ∧
       ∀ i a b, tr_path tr !! i = Some a → tr_path tr !! S i = Some b →
                adjacent a b ∧
                passable {| width := 2; height := 1; walls := ∅ |} b).
Proof.
  apply (grid_search_finds_what_can_be_walked
           {| width := 2; height := 1; walls := ∅ |}
           {| cx := 0; cy := 0 |} {| cx := 1; cy := 0 |} dijkstraOptions).
  reflexivity.
Defined.

(** ** Graphs *)

(** One edge of the graph leads from [a] to [b]: an edge from [a] to
    [b], or, when the graph is undirected, an edge from [b] to [a]. *)
Definition linked (g : Graph) (a b : string) : Prop :=
  ∃ e, e ∈ edges g ∧
       ((e_from e = a ∧ e_to e = b) ∨
        (directed g = false ∧ e_to e = a ∧ e_from e = b)).

Lemma elem_of_concat {A} (x : A) (ls : list (list A)) :
  x ∈ concat ls ↔ ∃ l, x ∈ l ∧ l ∈ ls.
Proof.
  rewrite list_elem_of_In, in_concat. split.
  - intros (l & Hl & Hx). exists l. by rewrite !list_elem_of_In.
  - intros (l & Hx & Hl). exists l. by rewrite <-!list_elem_of_In.
Qed.

Lemma edge_linked g a b : edge (GraphEnv g) a b ↔ linked g a b.
Proof.
  unfold edge, linked. cbn [neighbors adapterOf].
  setoid_rewrite adjacency_lookup. split.
  - intros (nb & (l & Hnb & (e & -> & He)%list_elem_of_fmap)%elem_of_concat
              & <-).
    exists e. split; [done|]. unfold edgeNeighbors in Hnb.
    apply elem_of_app in Hnb as [Hnb|Hnb].
    + case_bool_decide; [|by apply elem_of_nil in Hnb].
      apply list_elem_of_singleton in Hnb as ->. by left.
    + destruct (directed g); [by apply elem_of_nil in Hnb|]. cbn [negb andb] in Hnb.
      case_bool_decide; [|by apply elem_of_nil in Hnb].
      apply list_elem_of_singleton in Hnb as ->. by right.
  - intros (e & He & Hcase).
    destruct Hcase as [[Hf Ht]|(Hd & Ht & Hf)].
    + exists {| nb_key := e_to e; nb_cost := e_cost e |}. split; [|done].
      apply elem_of_concat. exists (edgeNeighbors (directed g) a e).
      split; [|apply list_elem_of_fmap; by exists e].
      unfold edgeNeighbors. rewrite bool_decide_eq_true_2 by done.
      apply elem_of_app. left. by apply list_elem_of_singleton.
    + exists {| nb_key := e_from e; nb_cost := e_cost e |}. split; [|done].
      apply elem_of_concat. exists (edgeNeighbors (directed g) a e).
      split; [|apply list_elem_of_fmap; by exists e].
      unfold edgeNeighbors. rewrite Hd, (bool_decide_eq_true_2 (e_to e = a)) by done.
      apply elem_of_app. right. by apply list_elem_of_singleton.
Qed.

Lemma hops_rtc env a b : (∃ n, hops env a n b) ↔ rtc (edge env) a b.
Proof.
  split.
  - intros [n H]. induction H as [|n b c _ IH He]; [done|].
    by eapply rtc_r.
  - revert b. apply (rtc_ind_r (λ b, ∃ n, hops env a n b)).
    + exists 0%nat. constructor.
    + intros y z _ He [n IH]. exists (S n). by eapply hops_S.
Qed.

(** The node ids of a graph. *)
Definition nodeIds (g : Graph) : gset string := list_to_set (gn_id <$> nodes g).

Lemma nodeIds_size g :
  Z.of_nat (length (nodes g)) <= 10000 →
  Z.of_nat (size (nodeIds g)) <= maxIterations (GraphEnv g).
Proof.
  intros Hn. pose proof (size_list_to_set_le (gn_id <$> nodes g)) as Hs.
  rewrite length_fmap in Hs. unfold nodeIds.
  unfold maxIterations, minIterations, sizeBasis. lia.
Qed.

Lemma nodeIds_neighbors g k nb :
  (∀ e, e ∈ edges g → e_from e ∈ nodeIds g ∧ e_to e ∈ nodeIds g) →
  nb ∈ neighbors (adapterOf (GraphEnv g)) k → nb_key nb ∈ nodeIds g.
Proof.
  intros Hdecl Hnb.
  assert (edge (GraphEnv g) k (nb_key nb)) as He by (by exists nb).
  apply edge_linked in He as (e & He & [[_ <-]|(_ & _ & <-)]);
    by apply Hdecl.
Qed.

Lemma hops_nsteps env a n b : hops env a n b ↔ nsteps (edge env) n a b.
Proof.
  split.
  - induction 1 as [|n b c _ IH He]; [constructor|]. by eapply nsteps_r.
  - revert b. induction n as [|n IH]; intros b H.
    + inversion H; subst. constructor.
    + apply nsteps_inv_r in H as (y & Hy & He). eapply hops_S; [|done].
      by apply IH.
Qed.

Lemma nsteps_ext {A} (R R' : relation A) n x y :
  (∀ a b, R a b → R' a b) → nsteps R n x y → nsteps R' n x y.
Proof.
  intros H. induction 1 as [|n x y z Hxy _ IH]; [constructor|].
  eapply nsteps_l; [by apply H|done].
Qed.

Lemma hops_linked g a n b :
  hops (GraphEnv g) a n b ↔ nsteps (linked g) n a b.
Proof.
  rewrite hops_nsteps.
  split; apply nsteps_ext; intros x y; by rewrite edge_linked.
Qed.

(** X17.  On a graph with at most 10000 nodes whose edges join declared
    nodes, started from a declared node, every algorithm finds the goal
    exactly when a chain of edges leads from the start to the goal
    (edges taken in their direction, or in both directions when the
    graph is undirected).  When moreover no node id is the empty string,
    the path of a found goal is the list of the coordinates of keys that
    begin with the start, end with the goal, and are linked by an edge
    each to the next. *)
Theorem graph_search_finds_what_is_connected
    (g : Graph) (startKey goalKey : string) (options : RunOptions) :
  startKey ∈ gn_id <$> nodes g →
  (∀ e, e ∈ edges g →
        e_from e ∈ gn_id <$> nodes g ∧ e_to e ∈ gn_id <$> nodes g) →
  Z.of_nat (length (nodes g)) <= 10000 →
  ∃ t, buildTrace (GraphEnv g) startKey goalKey options = Some t ∧
    (found t = true ↔ rtc (linked g) startKey goalKey) ∧
    (found t = true → EmptyString ∉ gn_id <$> nodes g →
       ∃ keys,
         tr_path t =
           (λ k, default {| cx := 0; cy := 0 |} (nodeAt g !! k)) <$> keys ∧
         head keys = Some startKey ∧ last keys = Some goalKey ∧
         ∀ i a b, keys !! i = Some a → keys !! S i = Some b → linked g a b).
Proof.
  intros Hstart Hdecl Hsize.
  assert (∀ e, e ∈ edges g → e_from e ∈ nodeIds g ∧ e_to e ∈ nodeIds g)
    as Hdecl'.
  { intros e He. unfold nodeIds. rewrite !elem_of_list_to_set. by apply Hdecl. }
  destruct (exhaustive_path (GraphEnv g) startKey goalKey options (nodeIds g))
    as (t & Ht & Hfound & Hpath).
  - by apply elem_of_list_to_set.
  - intros k nb _. by apply nodeIds_neighbors.
  - by apply nodeIds_size.
  - exists t. split; [done|]. split.
    + rewrite Hfound. unfold reachable. rewrite hops_rtc.
      split; apply rtc_subrel; intros x y; by rewrite edge_linked.
    + intros Hf Hne.
      destruct (Hpath Hf) as (keys & Hp & Hhd & Hlast & Hedges).
      { intros ->. done. }
      { intros k nb Hnb E. apply Hne. rewrite <-E.
        apply (elem_of_list_to_set (C := gset string)).
        by eapply nodeIds_neighbors. }
      exists keys. split_and!; try done.
      intros i a b Ha Hb. apply edge_linked. by eapply Hedges.
Qed.

(** Two nodes joined by one undirected edge. *)
Definition twoNodes : Graph :=
  {| directed := false;
     nodes := [ {| gn_id := "A"; gn_at := {| cx := 0; cy := 0 |} |};
                {| gn_id := "B"; gn_at := {| cx := 3; cy := 4 |} |} ];
     edges := [ {| e_from := "A"; e_to := "B"; e_cost := 5 |} ] |}.

Lemma graph_search_finds_what_is_connected_witness :
  ∃ t, buildTrace (GraphEnv twoNodes) "B" "A" dijkstraOptions = Some t ∧
    (found t = true ↔ rtc (linked twoNodes) "B" "A") ∧
    (found t = true → EmptyString ∉ gn_id <$> nodes twoNodes →
       ∃ keys,
         tr_path t =
           (λ k, default {| cx := 0; cy := 0 |} (nodeAt twoNodes !! k))
             <$> keys ∧
         head keys = Some "B" ∧ last keys = Some "A" ∧
         ∀ i a b, keys !! i = Some a → keys !! S i = Some b →
                  linked twoNodes a b).
Proof.
  apply (graph_search_finds_what_is_connected twoNodes "B" "A"
           dijkstraOptions).
  - simpl. set_solver.
  - intros e ->%list_elem_of_singleton. simpl. set_solver.
  - simpl. lia.
Defined.

(** X18.  Breadth-first search on a graph returns a path with the fewest
    edges.  On a graph with at most 10000 nodes, none of them named by
    the empty string, whose edges join declared nodes: when [d] edges
    lead from the declared start to the goal and no fewer do, the trace
    of [bfs] has [found = true] and a path of [d + 1] coordinates. *)
Theorem bfs_graph_fewest_edges
    (g : Graph) (startKey goalKey : string) (options : RunOptions) (d : nat) :
  algorithm options = bfs →
  startKey ∈ gn_id <$> nodes g →
  EmptyString ∉ gn_id <$> nodes g →
  (∀ e, e ∈ edges g →
        e_from e ∈ gn_id <$> nodes g ∧ e_to e ∈ gn_id <$> nodes g) →
  Z.of_nat (length (nodes g)) <= 10000 →
  nsteps (linked g) d startKey goalKey →
  (∀ m, nsteps (linked g) m startKey goalKey → (d <= m)%nat) →
  ∃ t, buildTrace (GraphEnv g) startKey goalKey options = Some t ∧
       found t = true ∧ length (tr_path t) = S d.
Proof.
  intros Hbfs Hstart Hne Hdecl Hsize Hd Hmin.
  assert (∀ e, e ∈ edges g → e_from e ∈ nodeIds g ∧ e_to e ∈ nodeIds g)
    as Hdecl'.
  { intros e He. unfold nodeIds. rewrite !elem_of_list_to_set. by apply Hdecl. }
  destruct (BFS_runLoop (GraphEnv g) startKey goalKey options Hbfs (nodeIds g))
    as (it & st & Hrun & Hpost).
  - by apply elem_of_list_to_set.
  - intros k nb. by apply nodeIds_neighbors.
  - unfold nodeIds. by rewrite elem_of_list_to_set.
  - exists (traceOf options st). split; [unfold buildTrace; by rewrite Hrun|].
    destruct Hpost as [Hf|[_ [Hno|Hcap]]].
    + apply (FoundCase_trace _ _ _ options) in Hf
        as (Hf & d' & Hlen & Hh & Hmin' & _).
      split; [done|]. rewrite Hlen. f_equal. apply Nat.le_antisymm.
      * apply Hmin'. by apply hops_linked.
      * apply Hmin. by apply hops_linked.
    + destruct (Hno d). by apply hops_linked.
    + pose proof (nodeIds_size g Hsize). lia.
Qed.

Lemma bfs_graph_fewest_edges_witness :
  ∃ t, buildTrace (GraphEnv twoNodes) "B" "A" bfsOptions = Some t ∧
       found t = true ∧ length (tr_path t) = 2%nat.
Proof.
  apply (bfs_graph_fewest_edges twoNodes "B" "A" bfsOptions 1).
  - reflexivity.
  - simpl. set_solver.
  - simpl. set_solver.
  - intros e ->%list_elem_of_singleton. simpl. set_solver.
  - simpl. lia.
  - eapply nsteps_l; [|constructor].
    eexists. split; [by apply list_elem_of_singleton|]. right. done.
  - intros m H. destruct m; [inversion H|lia].
Defined.

(** The keys behind the path of a "found" snapshot, with their parent
    links. *)
Lemma found_chain env startKey goalKey options st path :
  startKey ≠ EmptyString →
  (∀ k nb, nb ∈ neighbors (adapterOf env) k → nb_key nb ≠ EmptyString) →
  Inv env startKey goalKey options st → goalKey ∈ st_visited st →
  reconstructPathCoords (adapterOf env) (st_cameFrom st) startKey goalKey
    = Some path →
  ∃ keys, path = coordOfKey (adapterOf env) <$> keys ∧
          head keys = Some startKey ∧ last keys = Some goalKey ∧
          parentChain (st_cameFrom st) keys.
Proof.
  intros Hs Hne (_ & Hwf & _ & Hlinks) Hg.
  destruct Hwf as [Hc Hf Hp (ord & _ & Hord & Hch & _)].
  assert (∀ k p, st_cameFrom st !! k = Some p → p ∈ st_visited st) as Hpv.
  { intros k p Hk. apply Hc, Hord. by eapply Hch. }
  unfold reconstructPathCoords. case_bool_decide as E.
  { intros [= <-]. exists [startKey].
    split_and!; [done|done|simpl; by rewrite E|].
    intros i a b Ha Hb. by destruct i. }
  destruct (st_cameFrom st !! goalKey) as [p0|] eqn:Hp0.
  2:{ destruct (Hp goalKey Hg) as [?|[? ?]]; congruence. }
  destruct (walkBack _ _ _ _ _) as [out|] eqn:Hw; [|done].
  intros [= <-].
  destruct (walkBack_chain _ _ _ _ _ _ Hw) as (pre & e & -> & Hh & Hpc & He);
    [done| |].
  { intros i a b Ha Hb. destruct i; simpl in *; done. }
  assert (last (pre ++ [goalKey]) = Some goalKey) as Hlast by apply last_snoc.
  assert (∀ k, k ∈ pre ++ [goalKey] → k ∈ st_visited st) as Hall.
  { intros k [i Hi]%list_elem_of_lookup.
    destruct ((pre ++ [goalKey]) !! S i) as [b|] eqn:Hb.
    - eapply Hpv. by eapply Hpc.
    - apply lookup_ge_None in Hb. pose proof (lookup_lt_Some _ _ _ Hi).
      rewrite last_lookup in Hlast.
      replace (pred (length (pre ++ [goalKey]))) with i in Hlast by lia.
      congruence. }
  assert (e ∈ st_visited st) as Hev.
  { apply Hall. destruct pre; simpl in Hh; injection Hh as <-; set_solver. }
  assert (EmptyString ∉ st_visited st) as Hnoempty.
  { intros Hin. destruct (Hp _ Hin) as [?|[p Hpe]]; [done|].
    destruct (Hlinks _ _ Hpe) as (nb & Hnb & Hk). by eapply Hne. }
  assert (e = startKey) as ->.
  { destruct He as [?|[He|He]]; [done|..].
    - destruct (Hp e Hev) as [?|[? ?]]; [done|congruence].
    - destruct Hnoempty. by eapply Hpv. }
  exists (pre ++ [goalKey]). by split_and!.
Qed.

(* ===================================================================== *)
(** * Cheapest paths: Dijkstra, and A* with a consistent heuristic *)
(* ===================================================================== *)

(** The cost that the cost-aware strategies charge for a neighbour: 1 on
    a grid, the cost of the edge on a graph. *)
Definition edgeCost (env : Environment) (nb : Neighbor) : Z :=
  match edgeCostMode (adapterOf env) with
  | weighted => nb_cost nb
  | unit_cost => 1
  end.

(** [walk env a c b]: a walk of total cost [c] leads from [a] to [b]. *)
Inductive walk (env : Environment) (a : string) : Z → string → Prop :=
| walk_O : walk env a 0 a
| walk_S c b nb :
    walk env a c b → nb ∈ neighbors (adapterOf env) b →
    walk env a (c + edgeCost env nb) (nb_key nb).

(** The walk that visits [keys], in this order, costs [c]. *)
Inductive walkAlong (env : Environment) : list string → Z → Prop :=
| along_one k : walkAlong env [k] 0
| along_snoc keys k c nb :
    walkAlong env (keys ++ [k]) c → nb ∈ neighbors (adapterOf env) k →
    walkAlong env (keys ++ [k; nb_key nb]) (c + edgeCost env nb).

(** What the priority of a heap entry adds to its cost [g]: nothing for
    Dijkstra, [heuristicWeight * h] for A*. *)
Definition potential (env : Environment) (goalKey : string)
    (options : RunOptions) (k : string) : Z :=
  if bool_decide (algorithm options = astar)
  then heuristicWeight options *
       heuristicFn (heuristic options) (coordOfKey (adapterOf env) k)
                   (coordOfKey (adapterOf env) goalKey)
  else 0.

Lemma walkAlong_walk env keys c :
  walkAlong env keys c →
  ∃ a b, head keys = Some a ∧ last keys = Some b ∧ walk env a c b.
Proof.
  induction 1 as [k|keys k c nb _ (a & b & Ha & Hb & Hw) Hnb].
  - exists k, k. split_and!; try done. constructor.
  - rewrite last_snoc in Hb. injection Hb as <-.
    exists a, (nb_key nb). split_and!.
    + destruct keys; simpl in *; done.
    + change [k; nb_key nb] with ([k] ++ [nb_key nb]).
      by rewrite app_assoc, last_snoc.
    + by eapply walk_S.
Qed.

(** The selection loop of the heap returns an entry that no entry left
    in the heap precedes. *)
Lemma popFresh_min fuel c gs : ∀ h,
  HeapFacts.heapOrdered h → (length h < fuel)%nat →
  HeapFacts.heapOrdered (popFresh fuel c gs h).2 ∧
  ∀ sel, (popFresh fuel c gs h).1 = Some sel →
    ∃ nd0, nd0 ∈ h ∧ hn_value nd0 = sel ∧ ¬ stale gs sel ∧
           ∀ nd, nd ∈ (popFresh fuel c gs h).2 →
                 hn_priority nd0 <= hn_priority nd.
Proof.
  induction fuel as [|fuel IH]; intros h Hh Hlen; [lia|].
  cbn [popFresh].
  pose proof (HeapFacts.pop_spec h Hh) as Hp.
  destruct (MinHeap.pop h) as [[nd0|] h']; last first.
  { destruct Hp as [-> ->]. done. }
  destruct Hp as (_ & Hperm & Hh' & Hmin).
  pose proof (Permutation_length Hperm) as Hl. cbn [length] in Hl.
  destruct (IH h' Hh') as (IH1 & IH2); [lia|].
  assert (∀ nd, nd ∈ h' → nd ∈ h) as Hsub.
  { intros nd Hnd. rewrite Hperm. by right. }
  assert (∀ sel, (popFresh fuel c gs h').1 = Some sel →
     ∃ nd1, nd1 ∈ h ∧ hn_value nd1 = sel ∧ ¬ stale gs sel ∧
            ∀ nd, nd ∈ (popFresh fuel c gs h').2 →
                  hn_priority nd1 <= hn_priority nd) as Hrec.
  { intros sel Hs. destruct (IH2 sel Hs) as (nd1 & H1 & H2 & H3 & H4).
    exists nd1. split_and!; try done. by apply Hsub. }
  assert (¬ stale gs (hn_value nd0) →
          ∀ sel, Some (hn_value nd0) = Some sel →
     ∃ nd1, nd1 ∈ h ∧ hn_value nd1 = sel ∧ ¬ stale gs sel ∧
            ∀ nd, nd ∈ h' → hn_priority nd1 <= hn_priority nd) as Hhere.
  { intros Hst sel [= <-]. exists nd0. split_and!; try done.
    - rewrite Hperm. by left.
    - intros nd Hnd. by apply Hmin, Hsub. }
  case_bool_decide as Hc; [done|].
  destruct (gs !! it_key (hn_value nd0)) as [b|] eqn:Eb;
    [destruct (it_g (hn_value nd0)) as [g|] eqn:Eg|];
    [case_bool_decide as Hgt|..]; cbn [fst snd]; try done.
  - split; [done|]. apply Hhere. intros (b' & g' & Hb' & Hg' & Hlt).
    simplify_eq. lia.
  - split; [done|]. apply Hhere. intros (b' & g' & Hb' & Hg' & Hlt).
    simplify_eq.
  - split; [done|]. apply Hhere. intros (b' & g' & Hb' & Hg' & Hlt).
    simplify_eq.
Qed.

Section Cheapest.
Variable env : Environment.
Variables startKey goalKey : string.
Variable options : RunOptions.

(** The strategy is Dijkstra or A*. *)
Hypothesis Hweighted : is_unweighted options = false.

Local Abbreviation adapter := (adapterOf env).
Local Abbreviation fk := (frontierKindFor (algorithm options)).
Local Abbreviation frontierOf := (frontierToArray options).
Local Abbreviation push_step := (pushStep options).
Local Abbreviation body_ := (body env startKey goalKey options).
Local Abbreviation expand_ := (expand env options).
Local Abbreviation relaxAll_ := (relaxAll env goalKey options).
Local Abbreviation relaxNeighbor_ := (relaxNeighbor env goalKey options).
Local Abbreviation select_ := (select options).
Local Abbreviation initState_ := (initState env startKey goalKey options).
Local Abbreviation Inv_ := (Inv env startKey goalKey options).
Local Abbreviation pot := (potential env goalKey options).
Local Abbreviation cost := (edgeCost env).

(** The priority is consistent: along an edge it drops by no more than
    the cost of the edge.  For Dijkstra this says that no cost is
    negative. *)
Hypothesis Hconsistent :
  ∀ k nb, nb ∈ neighbors adapter k → pot k <= cost nb + pot (nb_key nb).

Ltac proj :=
  cbn [st_visited st_closed st_cameFrom st_gScore st_steps st_relaxations
       st_queue st_stack st_heap st_peakFrontier st_peakClosed
       pushStep set_frontier set_books fst snd] in *.

Lemma fk_minheap : fk = minheap.
Proof.
  revert Hweighted. unfold is_unweighted. by destruct (algorithm options).
Qed.

Lemma stepCost_cost nb : stepCostOf options adapter nb = cost nb.
Proof. unfold stepCostOf, edgeCost. by rewrite Hweighted. Qed.

Lemma relaxedItem_spec k g d :
  it_key (relaxedItem options adapter goalKey k g d) = k ∧
  it_g (relaxedItem options adapter goalKey k g d) = Some g ∧
  it_priority (relaxedItem options adapter goalKey k g d) = Some (g + pot k).
Proof.
  unfold relaxedItem, potential. cbv zeta. rewrite makeItem_key.
  revert Hweighted. unfold is_unweighted.
  destruct (algorithm options); try done; intros _; simpl.
  by rewrite Z.add_0_r.
Qed.

Lemma startItem_spec :
  it_key (startItemOf options adapter startKey goalKey) = startKey ∧
  it_g (startItemOf options adapter startKey goalKey) = Some 0 ∧
  it_priority (startItemOf options adapter startKey goalKey)
    = Some (0 + pot startKey).
Proof.
  unfold startItemOf, potential. cbv zeta. rewrite makeItem_key.
  revert Hweighted. unfold is_unweighted.
  by destruct (algorithm options).
Qed.

Lemma pot_walk a c b : walk env a c b → pot a <= c + pot b.
Proof.
  induction 1 as [|c b nb _ IH Hnb]; [lia|].
  pose proof (Hconsistent b nb Hnb). lia.
Qed.

(** The invariant.  [k0] is the key whose entry has left the heap and
    whose neighbour loop is running, [done_] the neighbours that loop
    has handled. *)
Record Dij (k0 : option string) (done_ : list Neighbor) (st : State)
    : Prop := mkDij
  { d_heap : HeapFacts.heapOrdered (st_heap st);
    d_sub : st_closed st ⊆ st_visited st;
    d_start : st_gScore st !! startKey = Some 0 ∧
              (startKey ∈ st_closed st ∨ st_visited st = {[ startKey ]});
    d_vis : ∀ k, k ∈ st_visited st →
              ∃ g, st_gScore st !! k = Some g ∧ walk env startKey g k;
    d_dom : ∀ k, is_Some (st_gScore st !! k) → k ∈ st_visited st;
    d_opt : ∀ k g c, k ∈ st_closed st → st_gScore st !! k = Some g →
              walk env startKey c k → g <= c;
    d_entry : ∀ nd, nd ∈ st_heap st →
      ∃ g g', it_g (hn_value nd) = Some g ∧
              hn_priority nd = g + pot (it_key (hn_value nd)) ∧
              st_gScore st !! it_key (hn_value nd) = Some g' ∧ g' <= g;
    d_live : ∀ k g, k ∈ st_visited st → k ∉ st_closed st → k0 ≠ Some k →
      st_gScore st !! k = Some g →
      ∃ nd, nd ∈ st_heap st ∧ it_key (hn_value nd) = k ∧
            it_g (hn_value nd) = Some g;
    d_nbs : ∀ k nb gk, k ∈ st_closed st → nb ∈ neighbors adapter k →
      (k0 = Some k → nb ∈ done_) → st_gScore st !! k = Some gk →
      ∃ gn, st_gScore st !! nb_key nb = Some gn ∧ gn <= gk + cost nb;
    d_cf : ∀ k p, st_cameFrom st !! k = Some p →
             k ∈ st_visited st ∧ k ≠ startKey;
    d_par : ∀ k, k ∈ st_visited st → k ≠ startKey →
      ∃ p nb gp, st_cameFrom st !! k = Some p ∧ p ∈ st_closed st ∧
        nb ∈ neighbors adapter p ∧ nb_key nb = k ∧
        st_gScore st !! p = Some gp ∧
        st_gScore st !! k = Some (gp + cost nb) }.

Lemma Dij_push k0 done_ p st :
  Dij k0 done_ st → Dij k0 done_ (push_step p st).
Proof. by intros []. Qed.

Lemma Dij_init : Dij None [] initState_.
Proof.
  destruct startItem_spec as (Hk & Hg & Hp).
  assert (st_visited initState_ = {[ startKey ]}) as Hv by done.
  assert (st_closed initState_ = ∅) as Hc by done.
  assert (st_gScore initState_ = {[ startKey := 0 ]}) as Hgs by done.
  assert (st_cameFrom initState_ = ∅) as Hcf by done.
  assert (st_heap initState_ =
          [heapNodeOf (startItemOf options adapter startKey goalKey) 0])
    as Hh.
  { unfold initState. proj. rewrite fk_minheap.
    rewrite bool_decide_eq_true_2 by done. apply heap_push_nil. }
  split; rewrite ?Hv, ?Hc, ?Hgs, ?Hcf, ?Hh.
  - intros j Hj. simpl in Hj. lia.
  - set_solver.
  - split; [by rewrite lookup_singleton_eq|by right].
  - intros k ->%elem_of_singleton. exists 0.
    split; [by rewrite lookup_singleton_eq|constructor].
  - intros k [x Hx]. apply lookup_singleton_Some in Hx as [<- _]. set_solver.
  - set_solver.
  - intros nd ->%list_elem_of_singleton. exists 0, 0.
    unfold heapNodeOf. cbn [hn_value hn_priority].
    rewrite Hg, Hp, Hk, lookup_singleton_eq. simpl. by split_and!.
  - intros k g ->%elem_of_singleton _ _ Hgk.
    rewrite lookup_singleton_eq in Hgk. injection Hgk as <-.
    eexists. split; [by apply list_elem_of_singleton|]. done.
  - set_solver.
  - intros k p. by rewrite lookup_empty.
  - intros k ->%elem_of_singleton. done.
Qed.

(** ** Selection *)

(** A walk from the start either stays among closed keys, or passes a
    visited key that is not closed yet, from which the rest of the walk
    costs no more than what remains. *)
Lemma frontier_cut st k c :
  Dij None [] st → walk env startKey c k →
  (k ∈ st_closed st ∧ ∃ g, st_gScore st !! k = Some g ∧ g <= c) ∨
  (∃ y gy r, y ∈ st_visited st ∧ (y ∉ st_closed st) ∧
             st_gScore st !! y = Some gy ∧ walk env y r k ∧ gy + r <= c).
Proof.
  intros [Hh Hsub [Hs0 Hs1] Hvis Hdom Hopt Hent Hlive Hnbs Hcf Hpar] Hw.
  induction Hw as [|c b nb _ IH Hnb].
  - destruct (decide (startKey ∈ st_closed st)) as [Hc|Hc].
    + left. split; [done|]. by exists 0.
    + right. exists startKey, 0, 0. split_and!; try done.
      * apply Hdom. by rewrite Hs0.
      * constructor.
  - destruct IH as [(Hb & gb & Hgb & Hle)|(y & gy & r & Hy & Hyc & Hgy & Hwy & Hle)].
    + destruct (Hnbs b nb gb Hb Hnb ltac:(done) Hgb) as (gn & Hgn & Hle').
      destruct (decide (nb_key nb ∈ st_closed st)) as [Hc|Hc].
      * left. split; [done|]. exists gn. split; [done|lia].
      * right. exists (nb_key nb), gn, 0. split_and!; try done.
        -- apply Hdom. by rewrite Hgn.
        -- constructor.
        -- lia.
    + right. exists y, gy, (r + cost nb). split_and!; try done.
      * by eapply walk_S.
      * lia.
Qed.

Lemma select_heap st :
  select_ st =
    ((popFresh (S (length (st_heap st))) (st_closed st) (st_gScore st)
               (st_heap st)).1,
     set_frontier (st_queue st) (st_stack st)
       (popFresh (S (length (st_heap st))) (st_closed st) (st_gScore st)
                 (st_heap st)).2 st).
Proof. unfold select. by rewrite fk_minheap. Qed.

Lemma Dij_select_none st :
  Dij None [] st → (select_ st).1 = None → Dij None [] (select_ st).2.
Proof.
  intros [Hh Hsub Hs Hvis Hdom Hopt Hent Hlive Hnbs Hcf Hpar] Hsel.
  rewrite select_heap in Hsel |- *. cbn [fst snd] in *.
  destruct (popFresh_min (S (length (st_heap st))) (st_closed st)
              (st_gScore st) (st_heap st) Hh) as [Hh' _]; [lia|].
  destruct (popFresh_live (S (length (st_heap st))) (st_closed st)
              (st_gScore st) (st_heap st)) as (Hkeep & _ & _); [lia|].
  destruct (popFresh_sub (S (length (st_heap st))) (st_closed st)
              (st_gScore st) (st_heap st)) as [Hrest _].
  split; proj; try done.
  - intros nd Hnd. by apply Hent, Hrest.
  - intros k g Hk Hc Hk0 Hg.
    destruct (Hlive k g Hk Hc Hk0 Hg) as (nd & Hnd & Hkey & Hitg).
    destruct (Hkeep nd Hnd) as [Hin|Heq].
    + by rewrite Hkey.
    + intros (b & g' & Hb & Hg' & Hlt). rewrite Hkey in Hb. simplify_eq. lia.
    + by exists nd.
    + congruence.
Qed.

Lemma Dij_select st sel :
  Dij None [] st → (select_ st).1 = Some sel →
  it_key sel ∈ st_visited st ∧ (it_key sel ∉ st_closed st) ∧
  (∃ g, st_gScore st !! it_key sel = Some g ∧
        ∀ c, walk env startKey c (it_key sel) → g <= c) ∧
  Dij (Some (it_key sel)) [] (select_ st).2.
Proof.
  intros HD Hsel.
  pose proof HD as [Hh Hsub Hs Hvis Hdom Hopt Hent Hlive Hnbs Hcf Hpar].
  rewrite select_heap in Hsel |- *. cbn [fst snd] in *.
  destruct (popFresh_min (S (length (st_heap st))) (st_closed st)
              (st_gScore st) (st_heap st) Hh) as [Hh' Hmin]; [lia|].
  destruct (popFresh_live (S (length (st_heap st))) (st_closed st)
              (st_gScore st) (st_heap st)) as (Hkeep & Hncl & _); [lia|].
  destruct (popFresh_sub (S (length (st_heap st))) (st_closed st)
              (st_gScore st) (st_heap st)) as [Hrest _].
  destruct (Hmin sel Hsel) as (nd0 & Hnd0 & Hval & Hfresh & Hle).
  specialize (Hncl sel Hsel).
  destruct (Hent nd0 Hnd0) as (g0 & g' & Hg0 & Hp0 & Hgs0 & Hle0).
  rewrite Hval in Hg0, Hp0, Hgs0.
  assert (g0 = g') as <-.
  { destruct (decide (g0 = g')) as [?|Hne]; [done|].
    destruct Hfresh. exists g', g0. split_and!; try done. lia. }
  assert (it_key sel ∈ st_visited st) as Hv.
  { apply Hdom. by rewrite Hgs0. }
  split; [done|]. split; [done|]. split.
  - exists g0. split; [done|]. intros c Hw.
    destruct (frontier_cut st _ c HD Hw)
      as [[Hc _]|(y & gy & r & Hy & Hyc & Hgy & Hwy & Hlec)]; [done|].
    destruct (Hlive y gy Hy Hyc ltac:(done) Hgy) as (nd & Hnd & Hkey & Hitg).
    destruct (Hent nd Hnd) as (g1 & g1' & Hg1 & Hp1 & _).
    rewrite Hkey in Hp1. rewrite Hitg in Hg1. injection Hg1 as <-.
    pose proof (pot_walk _ _ _ Hwy) as Hpot.
    destruct (Hkeep nd Hnd) as [Hin|Heq].
    + by rewrite Hkey.
    + intros (b & g'' & Hb & Hg'' & Hlt). rewrite Hkey in Hb. simplify_eq. lia.
    + specialize (Hle nd Hin). lia.
    + rewrite Hsel in Heq. injection Heq as Heq. rewrite <-Heq in Hkey, Hitg.
      subst y. simplify_eq. lia.
  - split; proj; try done.
    + intros nd Hnd. by apply Hent, Hrest.
    + intros k g Hk Hc Hk0 Hg.
      destruct (Hlive k g Hk Hc ltac:(done) Hg) as (nd & Hnd & Hkey & Hitg).
      destruct (Hkeep nd Hnd) as [Hin|Heq].
      * by rewrite Hkey.
      * intros (b & g'' & Hb & Hg'' & Hlt). rewrite Hkey in Hb.
        simplify_eq. lia.
      * by exists nd.
      * rewrite Hsel in Heq. injection Heq as Heq. destruct Hk0.
        by rewrite Heq, Hkey.
    + intros k nb gk Hk Hnb _. by apply Hnbs.
Qed.

(** ** Expansion *)

Lemma expand_books_heap sel st :
  st_visited (expand_ sel st) = st_visited st ∧
  st_closed (expand_ sel st) = {[ it_key sel ]} ∪ st_closed st ∧
  st_gScore (expand_ sel st) = st_gScore st ∧
  st_cameFrom (expand_ sel st) = st_cameFrom st ∧
  st_heap (expand_ sel st) = st_heap st.
Proof. unfold expand. cbv zeta. by case_bool_decide. Qed.

Lemma Dij_expand sel g st :
  Dij (Some (it_key sel)) [] st →
  it_key sel ∈ st_visited st →
  st_gScore st !! it_key sel = Some g →
  (∀ c, walk env startKey c (it_key sel) → g <= c) →
  Dij (Some (it_key sel)) [] (expand_ sel st).
Proof.
  intros [Hh Hsub [Hs0 Hs1] Hvis Hdom Hopt Hent Hlive Hnbs Hcf Hpar] Hv Hg Hbest.
  destruct (expand_books_heap sel st) as (Ev & Ec & Eg & Ecf & Eh).
  split; rewrite ?Ev, ?Ec, ?Eg, ?Ecf, ?Eh; try done.
  - set_solver.
  - split; [done|]. destruct Hs1 as [?|E]; [set_solver|].
    left. rewrite E in Hv. set_solver.
  - intros k g' c [->%elem_of_singleton|Hk]%elem_of_union Hg' Hw.
    + rewrite Hg in Hg'. injection Hg' as <-. by apply Hbest.
    + by eapply Hopt.
  - intros k g' Hk Hc Hk0. apply Hlive; [done|set_solver|done].
  - intros k nb gk [->%elem_of_singleton|Hk]%elem_of_union Hnb Hd.
    + by apply elem_of_nil in Hd.
    + by apply (Hnbs k nb gk).
  - intros k Hk Hne. destruct (Hpar k Hk Hne) as (p & nb & gp & ? & ? & ?).
    exists p, nb, gp. split_and!; try done; [set_solver|tauto..].
Qed.

(** One turn of the neighbour loop. *)
Lemma Dij_relaxNeighbor sel curG curDepth done_ st nb :
  Dij (Some (it_key sel)) done_ st →
  it_key sel ∈ st_closed st →
  st_gScore st !! it_key sel = Some curG →
  nb ∈ neighbors adapter (it_key sel) →
  Dij (Some (it_key sel)) (done_ ++ [nb])
      (relaxNeighbor_ sel curG curDepth st nb) ∧
  st_closed (relaxNeighbor_ sel curG curDepth st nb) = st_closed st ∧
  st_gScore (relaxNeighbor_ sel curG curDepth st nb) !! it_key sel
    = Some curG.
Proof.
  intros HD Hsel HcurG Hnb.
  pose proof HD as [Hh Hsub [Hs0 Hs1] Hvis Hdom Hopt Hent Hlive Hnbs Hcf Hpar].
  assert (walk env startKey (curG + cost nb) (nb_key nb)) as Hwnb.
  { destruct (Hvis (it_key sel)) as (g & Hg & Hw); [by apply Hsub|].
    rewrite HcurG in Hg. injection Hg as <-. by eapply walk_S. }
  assert (startKey ∈ st_closed st) as Hsc.
  { destruct Hs1 as [?|E]; [done|].
    assert (it_key sel ∈ st_visited st) as Hv by (by apply Hsub).
    rewrite E in Hv. apply elem_of_singleton in Hv. by rewrite <-Hv. }
  assert (∀ gn, st_gScore st !! nb_key nb = Some gn → gn <= curG + cost nb →
          Dij (Some (it_key sel)) (done_ ++ [nb]) st) as Hsame.
  { intros gn Hgn Hle. split; try done.
    intros k nb' gk Hk Hnb' Hd Hgk.
    destruct (decide (k = it_key sel ∧ nb' = nb)) as [[-> ->]|Hne].
    - rewrite HcurG in Hgk. injection Hgk as <-. by exists gn.
    - apply (Hnbs k nb' gk); try done. intros E. specialize (Hd E).
      apply elem_of_app in Hd as [?|?%list_elem_of_singleton]; [done|].
      destruct Hne. by simplify_eq. }
  unfold relaxNeighbor. rewrite Hweighted, stepCost_cost.
  case_bool_decide as Hcl.
  { split; [|done]. destruct (Hvis (nb_key nb)) as (gn & Hgn & _);
      [by apply Hsub|]. apply (Hsame gn); [done|]. by eapply Hopt. }
  cbv zeta.
  assert (nb_key nb ≠ startKey) as Hns by (by intros E; rewrite E in Hcl).
  assert (nb_key nb ≠ it_key sel) as Hnsel by (by intros E; rewrite E in Hcl).
  assert ((∀ o, st_gScore st !! nb_key nb = Some o → curG + cost nb < o) →
    ∀ p p',
    Dij (Some (it_key sel)) (done_ ++ [nb])
      (push_step p
         (set_frontier (st_queue st) (st_stack st)
            (MinHeap.push
               (heapNodeOf
                  (relaxedItem options adapter goalKey (nb_key nb)
                     (curG + cost nb) curDepth)
                  (curG + cost nb))
               (st_heap st))
            (push_step p'
               (set_books ({[ nb_key nb ]} ∪ st_visited st) (st_closed st)
                  (<[nb_key nb := it_key sel]> (st_cameFrom st))
                  (<[nb_key nb := curG + cost nb]> (st_gScore st))
                  (S (st_relaxations st)) st))))) as Hnew.
  { intros Hlt p p'. apply Dij_push.
    destruct (relaxedItem_spec (nb_key nb) (curG + cost nb) curDepth)
      as (Hik & Hig & Hip).
    assert (∀ nd, nd ∈ MinHeap.push
               (heapNodeOf
                  (relaxedItem options adapter goalKey (nb_key nb)
                     (curG + cost nb) curDepth)
                  (curG + cost nb)) (st_heap st) ↔
            nd = heapNodeOf
                  (relaxedItem options adapter goalKey (nb_key nb)
                     (curG + cost nb) curDepth)
                  (curG + cost nb) ∨ nd ∈ st_heap st) as Hin.
    { intros nd. by rewrite HeapFacts.push_Permutation, elem_of_cons. }
    split; proj.
    - by apply HeapFacts.push_heapOrdered.
    - set_solver.
    - rewrite lookup_insert_ne by done. split; [done|by left].
    - intros k [->%elem_of_singleton|Hk]%elem_of_union.
      + exists (curG + cost nb). by rewrite lookup_insert_eq.
      + destruct (decide (k = nb_key nb)) as [->|Hne].
        * exists (curG + cost nb). by rewrite lookup_insert_eq.
        * rewrite lookup_insert_ne by done. by apply Hvis.
    - intros k Hk. destruct (decide (k = nb_key nb)) as [->|Hne];
        [set_solver|]. rewrite lookup_insert_ne in Hk by done.
      apply elem_of_union_r. by apply Hdom.
    - intros k g c Hk. rewrite lookup_insert_ne by (by intros <-).
      by apply Hopt.
    - intros nd [->|Hnd]%Hin.
      + exists (curG + cost nb), (curG + cost nb).
        unfold heapNodeOf. cbn [hn_value hn_priority].
        rewrite Hig, Hip, Hik, lookup_insert_eq. simpl. by split_and!.
      + destruct (Hent nd Hnd) as (g & g' & Hg & Hp & Hgs & Hle).
        destruct (decide (it_key (hn_value nd) = nb_key nb)) as [E|Hne].
        * exists g, (curG + cost nb). rewrite E, lookup_insert_eq.
          split_and!; [done|by rewrite <-E|done|].
          rewrite E in Hgs. specialize (Hlt _ Hgs). lia.
        * exists g, g'. by rewrite lookup_insert_ne.
    - intros k g Hk Hc Hk0 Hg.
      destruct (decide (k = nb_key nb)) as [->|Hne].
      + rewrite lookup_insert_eq in Hg. injection Hg as <-.
        eexists. split; [apply Hin; by left|].
        unfold heapNodeOf. cbn [hn_value]. by rewrite Hik, Hig.
      + rewrite lookup_insert_ne in Hg by done.
        destruct (Hlive k g) as (nd & Hnd & ? & ?); [set_solver|done..|].
        exists nd. split; [apply Hin; by right|done].
    - intros k nb' gk Hk Hnb' Hd.
      rewrite lookup_insert_ne by (by intros <-). intros Hgk.
      destruct (decide (nb_key nb' = nb_key nb)) as [E|Hne].
      + rewrite E, lookup_insert_eq. eexists. split; [done|].
        destruct (decide (k = it_key sel ∧ nb' = nb)) as [[-> ->]|Hne'].
        * rewrite HcurG in Hgk. injection Hgk as <-. lia.
        * destruct (Hnbs k nb' gk Hk Hnb') as (gn & Hgn & Hle); [|done|].
          { intros E'. specialize (Hd E').
            apply elem_of_app in Hd as [?|?%list_elem_of_singleton]; [done|].
            destruct Hne'. by simplify_eq. }
          rewrite E in Hgn. specialize (Hlt _ Hgn). lia.
      + rewrite lookup_insert_ne by done. apply (Hnbs k nb' gk); try done.
        intros E'. specialize (Hd E').
        apply elem_of_app in Hd as [?|?%list_elem_of_singleton]; [done|].
        by subst nb'.
    - intros k p0. destruct (decide (k = nb_key nb)) as [->|Hne].
      + intros _. split; [set_solver|done].
      + rewrite lookup_insert_ne by done. intros Hk.
        destruct (Hcf k p0 Hk). split; [set_solver|done].
    - intros k Hk Hne. destruct (decide (k = nb_key nb)) as [->|Hne'].
      + exists (it_key sel), nb, curG. rewrite !lookup_insert_eq.
        rewrite lookup_insert_ne by done. by split_and!.
      + destruct (Hpar k) as (p0 & nb0 & gp & H1 & H2 & H3 & H4 & H5 & H6);
          [set_solver|done|].
        exists p0, nb0, gp. rewrite !(lookup_insert_ne _ (nb_key nb) k) by done.
        rewrite lookup_insert_ne by (by intros <-). by split_and!. }
  destruct (st_gScore st !! nb_key nb) as [o|] eqn:Eo.
  - case_bool_decide as Hlt; cbn [negb].
    + split; [|split; [done|proj; by rewrite lookup_insert_ne]].
      apply Hnew. by intros ? [= <-].
    + split; [|done]. apply (Hsame o); [done|lia].
  - cbn [negb]. split; [|split; [done|proj; by rewrite lookup_insert_ne]].
    apply Hnew. by intros ? [=].
Qed.

Lemma Dij_relaxLoop sel curG curDepth : ∀ l done_ st,
  (∀ nb, nb ∈ l → nb ∈ neighbors adapter (it_key sel)) →
  Dij (Some (it_key sel)) done_ st →
  it_key sel ∈ st_closed st →
  st_gScore st !! it_key sel = Some curG →
  Dij (Some (it_key sel)) (done_ ++ l)
      (foldl (relaxNeighbor_ sel curG curDepth) st l) ∧
  st_closed (foldl (relaxNeighbor_ sel curG curDepth) st l) = st_closed st.
Proof.
  induction l as [|nb l IH]; intros done_ st Hl H Hsel Hg.
  - by rewrite app_nil_r.
  - simpl.
    destruct (Dij_relaxNeighbor sel curG curDepth done_ st nb H Hsel Hg)
      as (H1 & Hc1 & Hg1); [apply Hl; left|].
    replace (done_ ++ nb :: l) with ((done_ ++ [nb]) ++ l)
      by (by rewrite <-app_assoc).
    rewrite <-Hc1. apply IH; [|done|by rewrite Hc1|done].
    intros nb' ?. apply Hl. by right.
Qed.

Lemma Dij_finish k st :
  Dij (Some k) (neighbors adapter k) st → k ∈ st_closed st → Dij None [] st.
Proof.
  intros [Hh Hsub Hs Hvis Hdom Hopt Hent Hlive Hnbs Hcf Hpar] Hk.
  split; try done.
  - intros k' g Hv Hc _. apply Hlive; [done..|]. intros [= ->]. done.
  - intros k' nb gk Hc Hnb _. by apply (Hnbs k' nb gk); [..|intros [= ->]].
Qed.

(** ** The path of a found goal *)

(** Along the parent links the recorded costs add up. *)
Lemma Dij_chain k0 done_ st : ∀ keys k,
  Dij k0 done_ st →
  head (keys ++ [k]) = Some startKey →
  parentChain (st_cameFrom st) (keys ++ [k]) →
  ∃ g, st_gScore st !! k = Some g ∧ walkAlong env (keys ++ [k]) g.
Proof.
  intros keys k HD. revert k.
  pose proof HD as [Hh Hsub [Hs0 Hs1] Hvis Hdom Hopt Hent Hlive Hnbs Hcf Hpar].
  induction keys as [|k' keys IH] using rev_ind; intros k Hhd Hpc.
  - simpl in Hhd. injection Hhd as ->. exists 0. split; [done|constructor].
  - destruct (IH k') as (g' & Hg' & Hw').
    + destruct keys; simpl in *; done.
    + intros i a b Ha Hb. apply (Hpc i a b).
      * rewrite lookup_app_l; [done|]. by eapply lookup_lt_Some.
      * rewrite lookup_app_l; [done|]. by eapply lookup_lt_Some.
    + assert (st_cameFrom st !! k = Some k') as Hk.
      { apply (Hpc (length keys)).
        - rewrite <-app_assoc. by rewrite lookup_app_r, Nat.sub_diag.
        - rewrite <-app_assoc. rewrite lookup_app_r by lia.
          by replace (S (length keys) - length keys)%nat with 1%nat by lia. }
      destruct (Hcf k k' Hk) as [Hkv Hkne].
      destruct (Hpar k Hkv Hkne) as (p & nb & gp & Hp & _ & Hnb & <- & Hgp & Hgk).
      rewrite Hk in Hp. injection Hp as <-.
      rewrite Hg' in Hgp. injection Hgp as <-.
      exists (g' + cost nb). split; [done|].
      rewrite <-app_assoc. cbn [app]. by apply along_snoc.
Qed.

(** ** The main loop *)

(** How a run ends: with a "found" snapshot for a goal whose recorded
    cost is the least, or without one. *)
Definition Cheap (st : State) : Prop :=
  (∃ sel p st0 g,
     st = push_step (foundPartial options sel p) st0 ∧
     Inv_ st0 ∧ Dij (Some goalKey) [] st0 ∧ goalKey ∈ st_visited st0 ∧
     reconstructPathCoords adapter (st_cameFrom st0) startKey goalKey
       = Some p ∧
     st_gScore st0 !! goalKey = Some g ∧
     ∀ c, walk env startKey c goalKey → g <= c) ∨
  found (traceOf options st) = false.

Lemma Inv_not_found st : Inv_ st → found (traceOf options st) = false.
Proof.
  intros HI. apply noFound_trace.
  eapply Forall_impl; [apply (Inv_phases _ _ _ _ _ HI)|]. by intros s [].
Qed.

Lemma Dij_body st fl st' :
  Inv_ st → Dij None [] st → body_ st = Some (fl, st') →
  match fl with
  | Continue => Inv_ st' ∧ Dij None [] st'
  | Break => Cheap st'
  end.
Proof.
  intros HI HD Hb.
  pose proof (Inv_body env startKey goalKey options st fl st' HI Hb) as HI'.
  pose proof (Inv_select env startKey goalKey options st HI) as HIs.
  pose proof (body_case env startKey goalKey options st) as Hc.
  rewrite Hb in Hc.
  pose proof (select_closed options st) as Ecl.
  pose proof (select_visited options st) as Evi.
  pose proof (select_gScore options st) as Egs.
  inversion Hc as [Hn|sel Hs Hcl|sel p Hs Hcl Hg Hp|
                   |sel Hs Hcl Hg]; subst.
  - right. by apply Inv_not_found.
  - split; [done|]. destruct (Dij_select st sel HD Hs) as (_ & Hncl & _).
    by rewrite Ecl in Hcl.
  - destruct (Dij_select st sel HD Hs) as (Hv & _ & (g & Hgs & Hbest) & HD1).
    left.
    exists sel, p,
      (push_step (selectPartial options sel (frontierOf (select_ st).2))
                 (select_ st).2), g.
    split; [done|]. split; [by apply Inv_push|].
    rewrite <-Hg. split; [by apply Dij_push|].
    proj. rewrite Evi, Egs, Hg. rewrite Hg in Hv, Hgs, Hbest. done.
  - destruct (Dij_select st sel HD Hs) as (Hv & Hncl & (g & Hgs & Hbest) & HD1).
    set (st1 := push_step (selectPartial options sel (frontierOf (select_ st).2))
                          (select_ st).2) in *.
    assert (Dij (Some (it_key sel)) [] st1) as HD1' by (by apply Dij_push).
    assert (st_visited st1 = st_visited st) as Ev1 by done.
    assert (st_gScore st1 = st_gScore st) as Eg1 by done.
    pose proof (Dij_expand sel g st1 HD1' ltac:(by rewrite Ev1)
                  ltac:(by rewrite Eg1) Hbest) as HD2.
    destruct (expand_books_heap sel st1) as (_ & Ec2 & Eg2 & _).
    split; [done|]. unfold relaxAll.
    destruct (Dij_relaxLoop sel
                (default 0 (st_gScore (expand_ sel st1) !! it_key sel))
                (default 0 (it_depth sel))
                (neighbors adapter (it_key sel)) [] (expand_ sel st1))
      as [HD3 Ec3]; [done|done|rewrite Ec2; set_solver| |].
    { by rewrite Eg2, Eg1, Hgs. }
    apply (Dij_finish (it_key sel)); [done|].
    rewrite Ec3, Ec2. set_solver.
Qed.

Lemma runLoop_Cheap :
  ∃ it st, runLoop env startKey goalKey options = Some (it, st) ∧ Cheap st.
Proof.
  destruct (runLoop_returns env startKey goalKey options) as (it & st & Hrun & _).
  exists it, st. split; [done|].
  apply (mainLoop_rule env startKey goalKey options
           (λ _ st, Inv_ st ∧ Dij None [] st) (λ _ st, Cheap st))
    with (r := (it, st)) (fuel := S (Z.to_nat (maxIterations env)))
         (it := 0) (st := initState_); try done.
  - intros _ st0 [HI _] _. right. by apply Inv_not_found.
  - intros _ st0 [HI _] _ _. right. apply noFound_trace.
    unfold noFound. proj. constructor; [done|].
    eapply Forall_impl; [apply (Inv_phases _ _ _ _ _ HI)|]. by intros s [].
  - intros _ st0 st1 [HI HD] _ _ Hb. by apply (Dij_body _ _ _ HI HD Hb).
  - intros _ st0 st1 [HI HD] _ _ Hb. by apply (Dij_body _ _ _ HI HD Hb).
  - split; [apply Inv_init|apply Dij_init].
Qed.

(** The trace of a cost-aware run: a found goal comes with a cheapest
    walk. *)
Lemma cheapest_run :
  startKey ≠ EmptyString →
  (∀ k nb, nb ∈ neighbors adapter k → nb_key nb ≠ EmptyString) →
  ∃ t, buildTrace env startKey goalKey options = Some t ∧
    (found t = true →
     ∃ keys c s,
       tr_path t = coordOfKey adapter <$> keys ∧
       head keys = Some startKey ∧ last keys = Some goalKey ∧
       walkAlong env keys c ∧
       (∀ c', walk env startKey c' goalKey → c <= c') ∧
       last (steps t) = Some s ∧ gScore s !! goalKey = Some c).
Proof.
  intros Hs Hne.
  destruct runLoop_Cheap as (it & st & Hrun & Hout).
  exists (traceOf options st). split; [unfold buildTrace; by rewrite Hrun|].
  destruct Hout as [(sel & p & st0 & g & -> & HI & HD & Hv & Hp & Hg & Hbest)|Hf];
    [|by rewrite Hf].
  intros Hf.
  destruct (found_chain env startKey goalKey options st0 p Hs Hne HI Hv Hp)
    as (keys & -> & Hhd & Hlast & Hpc).
  apply last_Some in Hlast as [keys' ->].
  destruct (Dij_chain _ _ st0 keys' goalKey HD Hhd Hpc) as (g' & Hg' & Hw).
  rewrite Hg in Hg'. injection Hg' as <-.
  eexists (keys' ++ [goalKey]), g, _. split_and!; try done.
  - unfold traceOf in *. cbn [found tr_path] in *. by rewrite Hf.
  - apply last_snoc.
  - cbn [steps traceOf]. proj. by rewrite last_reverse.
  - done.
Qed.

End Cheapest.

(** The neighbours of the graph adapter, one edge at a time. *)
Lemma graph_neighbor g k nb :
  nb ∈ neighbors (adapterOf (GraphEnv g)) k ↔
  ∃ e, e ∈ edges g ∧
       ((e_from e = k ∧ nb = {| nb_key := e_to e; nb_cost := e_cost e |}) ∨
        (directed g = false ∧ e_to e = k ∧
         nb = {| nb_key := e_from e; nb_cost := e_cost e |})).
Proof.
  cbn [neighbors adapterOf]. rewrite adjacency_lookup, elem_of_concat. split.
  - intros (l & Hnb & (e & -> & He)%list_elem_of_fmap).
    exists e. split; [done|]. unfold edgeNeighbors in Hnb.
    apply elem_of_app in Hnb as [Hnb|Hnb].
    + case_bool_decide; [|by apply elem_of_nil in Hnb].
      apply list_elem_of_singleton in Hnb as ->. by left.
    + destruct (directed g); [by apply elem_of_nil in Hnb|].
      cbn [negb andb] in Hnb.
      case_bool_decide; [|by apply elem_of_nil in Hnb].
      apply list_elem_of_singleton in Hnb as ->. by right.
  - intros (e & He & Hcase).
    exists (edgeNeighbors (directed g) k e).
    split; [|apply list_elem_of_fmap; by exists e].
    unfold edgeNeighbors. destruct Hcase as [[Hf ->]|(Hd & Ht & ->)].
    + rewrite bool_decide_eq_true_2 by done.
      apply elem_of_app. left. by apply list_elem_of_singleton.
    + rewrite Hd, (bool_decide_eq_true_2 (e_to e = k)) by done.
      apply elem_of_app. right. by apply list_elem_of_singleton.
Qed.



(** ** Grids: every move costs 1 *)

Lemma grid_walk_hops g a c b :
  walk (GridEnv g) a c b ↔ ∃ n, c = Z.of_nat n ∧ hops (GridEnv g) a n b.
Proof.
  split.
  - induction 1 as [|c b nb _ (n & -> & IH) Hnb].
    + exists 0%nat. split; [done|constructor].
    + exists (S n). split; [unfold edgeCost; simpl; lia|].
      eapply hops_S; [done|]. by exists nb.
  - intros (n & -> & H). induction H as [|n b k _ IH (nb & Hnb & <-)].
    + constructor.
    + replace (Z.of_nat (S n)) with (Z.of_nat n + edgeCost (GridEnv g) nb)
        by (unfold edgeCost; simpl; lia).
      by eapply walk_S.
Qed.

Lemma grid_walkAlong_length g keys c :
  walkAlong (GridEnv g) keys c → Z.of_nat (length keys) = c + 1.
Proof.
  induction 1 as [k|keys k c nb _ IH Hnb]; [done|].
  rewrite length_app in *. unfold edgeCost. simpl in *. lia.
Qed.

(** On a grid the Manhattan heuristic, with weight 0 or 1, is a
    consistent priority. *)
Lemma grid_consistent g goalKey options :
  algorithm options = dijkstra ∨
  (algorithm options = astar ∧ heuristic options = manhattan ∧
   0 <= heuristicWeight options <= 1) →
  ∀ k nb, nb ∈ neighbors (adapterOf (GridEnv g)) k →
    potential (GridEnv g) goalKey options k <=
    edgeCost (GridEnv g) nb + potential (GridEnv g) goalKey options (nb_key nb).
Proof.
  intros Halg k nb (c & -> & Hadj & _)%gridNeighbors_elem.
  unfold potential, edgeCost. cbn [adapterOf edgeCostMode coordOfKey nb_key].
  destruct Halg as [->|(-> & -> & Hw)]; [simpl; lia|].
  rewrite bool_decide_eq_true_2 by done. rewrite coordOf_keyOf.
  pose proof (manhattan_adjacent _ _ (coordOf goalKey) Hadj) as Hm.
  nia.
Qed.

(** X20.  On a grid with fewer than 10000 cells, Dijkstra, and A* with
    the Manhattan heuristic at weight 0 or 1, return a shortest path:
    when [d] moves between adjacent passable cells lead from the start
    cell to the goal cell and no fewer do, [found] is true and the path
    has [d + 1] coordinates. *)
Theorem grid_weighted_search_is_shortest
    (g : Grid) (s t : Coord) (options : RunOptions) (d : nat) :
  algorithm options = dijkstra ∨
  (algorithm options = astar ∧ heuristic options = manhattan ∧
   0 <= heuristicWeight options <= 1) →
  width g * height g < 10000 →
  cellHops g s d t →
  (∀ m, cellHops g s m t → (d <= m)%nat) →
  ∃ tr, buildTrace (GridEnv g) (keyOf s) (keyOf t) options = Some tr ∧
        found tr = true ∧ length (tr_path tr) = S d.
Proof.
  intros Halg Hsize Hd Hmin.
  assert (is_unweighted options = false) as Hw.
  { unfold is_unweighted. by destruct Halg as [->|(-> & _)]. }
  destruct (exhaustive_path (GridEnv g) (keyOf s) (keyOf t) options
              (gridKeys g (keyOf s)))
    as (tr & Htr & Hfound & _).
  { unfold gridKeys. set_solver. }
  { intros k nb _. apply gridKeys_neighbors. }
  { by apply gridKeys_size. }
  destruct (cheapest_run (GridEnv g) (keyOf s) (keyOf t) options Hw
              (grid_consistent g (keyOf t) options Halg))
    as (tr' & Htr' & Hpath).
  { apply keyOf_nonempty. }
  { intros k nb (c & -> & _)%gridNeighbors_elem. apply keyOf_nonempty. }
  rewrite Htr in Htr'. injection Htr' as <-.
  assert (found tr = true) as Hf.
  { apply Hfound. exists d. by apply cellHops_hops. }
  exists tr. split; [done|]. split; [done|].
  destruct (Hpath Hf) as (keys & c & _ & -> & Hhd & Hlast & Hw' & Hbest & _).
  rewrite length_fmap.
  pose proof (grid_walkAlong_length _ _ _ Hw') as Hlen.
  assert (c <= Z.of_nat d) as Hle.
  { apply Hbest, grid_walk_hops. exists d. split; [done|].
    by apply cellHops_hops. }
  destruct (walkAlong_walk _ _ _ Hw') as (a & b & Ha & Hb & Hwalk).
  rewrite Hhd in Ha. rewrite Hlast in Hb. simplify_eq.
  apply grid_walk_hops in Hwalk as (n & -> & Hh).
  apply hops_cellHops in Hh as (t' & ->%keyOf_inj & Hh).
  specialize (Hmin n Hh). lia.
Qed.

Lemma grid_weighted_search_is_shortest_witness :
  ∃ tr, buildTrace twoCells (keyOf {| cx := 0; cy := 0 |})
          (keyOf {| cx := 1; cy := 0 |})
          {| algorithm := astar; heuristic := manhattan;
             heuristicWeight := 1 |} = Some tr ∧
        found tr = true ∧ length (tr_path tr) = 2%nat.
Proof.
  apply (grid_weighted_search_is_shortest
           {| width := 2; height := 1; walls := ∅ |}
           {| cx := 0; cy := 0 |} {| cx := 1; cy := 0 |}
           {| algorithm := astar; heuristic := manhattan;
              heuristicWeight := 1 |} 1).
  - right. simpl. split_and!; [done|done|lia|lia].
  - reflexivity.
  - eapply cellHops_S; [apply cellHops_O|left; reflexivity|].
    split; [cbn; lia|set_solver].
  - intros m H. destruct m; [inversion H|lia].
Defined.

(* ===================================================================== *)
(** * The path of a found goal visits no key twice *)
(* ===================================================================== *)

(** Along a chain of parent links the keys were closed one after the
    other: in [ord], which lists the closed keys latest first, a key of
    the chain stands behind every later key of the chain. *)
Lemma chain_order (ord : list string) (cf : gmap string string)
    (keys : list string) :
  NoDup ord → chainOK ord cf → parentChain cf keys →
  (∀ k, k ∈ keys → k ∈ ord) →
  ∀ j i a b, (i < j)%nat → keys !! i = Some a → keys !! j = Some b →
    ∃ m n, ord !! m = Some a ∧ ord !! n = Some b ∧ (n < m)%nat.
Proof.
  intros Hnd [_ Hch] Hpc Hin.
  assert (∀ i a b, keys !! i = Some a → keys !! S i = Some b →
            ∃ m n, ord !! m = Some a ∧ ord !! n = Some b ∧ (n < m)%nat)
    as Hstep.
  { intros i a b Ha Hb.
    assert (b ∈ ord) as Hbo by (by eapply Hin, list_elem_of_lookup_2).
    apply list_elem_of_split in Hbo as (pre & post & ->).
    pose proof (Hch pre b post a eq_refl (Hpc i a b Ha Hb)) as Hap.
    apply list_elem_of_lookup in Hap as [m Hm].
    exists (length pre + S m)%nat, (length pre). split_and!.
    - rewrite lookup_app_r by lia.
      replace (length pre + S m - length pre)%nat with (S m) by lia. done.
    - by rewrite list_lookup_middle.
    - lia. }
  induction j as [|j IH]; intros i a b Hij Ha Hb; [lia|].
  destruct (decide (i = j)) as [->|Hne]; [by eapply Hstep|].
  destruct (lookup_lt_is_Some_2 keys j) as [c Hc].
  { apply lookup_lt_Some in Hb. lia. }
  destruct (IH i a c ltac:(lia) Ha Hc) as (m & n & Hm & Hn & Hlt).
  destruct (Hstep j c b Hc Hb) as (m' & n' & Hm' & Hn' & Hlt').
  exists m, n'. split_and!; try done.
  assert (m' = n) as ->; [|lia].
  eapply NoDup_lookup; [exact Hnd|exact Hm'|exact Hn].
Qed.

Lemma chain_NoDup (ord : list string) (cf : gmap string string)
    (keys : list string) :
  NoDup ord → chainOK ord cf → parentChain cf keys →
  (∀ k, k ∈ keys → k ∈ ord) → NoDup keys.
Proof.
  intros Hnd Hch Hpc Hin. apply NoDup_alt. intros i j x Hi Hj.
  destruct (Nat.lt_trichotomy i j) as [Hlt|[?|Hlt]]; [|done|].
  - destruct (chain_order ord cf keys Hnd Hch Hpc Hin j i x x Hlt Hi Hj)
      as (m & n & Hm & Hn & Hmn).
    pose proof (NoDup_lookup _ _ _ _ Hnd Hm Hn). lia.
  - destruct (chain_order ord cf keys Hnd Hch Hpc Hin i j x x Hlt Hj Hi)
      as (m & n & Hm & Hn & Hmn).
    pose proof (NoDup_lookup _ _ _ _ Hnd Hm Hn). lia.
Qed.

(** X21.  The path of a found goal is a simple path.  When no key is the
    empty string and the trace reports [found], its path is the list of
    coordinates of keys among which none occurs twice; every one of them
    but the goal is in the closed set of the last snapshot, so the path
    has at most [explored + 1] coordinates. *)
Theorem found_path_is_simple
    (env : Environment) (startKey goalKey : string) (options : RunOptions) :
  startKey ≠ EmptyString →
  (∀ k nb, nb ∈ neighbors (adapterOf env) k → nb_key nb ≠ EmptyString) →
  ∃ t, buildTrace env startKey goalKey options = Some t ∧
    (found t = true →
     ∃ keys s,
       tr_path t = coordOfKey (adapterOf env) <$> keys ∧
       NoDup keys ∧
       last (steps t) = Some s ∧
       (∀ k, k ∈ keys → k = goalKey ∨ k ∈ closed s) ∧
       (length (tr_path t) <= explored (metrics t) + 1)%nat).
Proof.
  intros Hs Hne.
  destruct (buildTrace_Ended env startKey goalKey options) as (st & Ht & He).
  eexists. split; [exact Ht|]. intros Hf.
  destruct He as [st0 HI|sel path0 st0 HI Hk Hv Hp|st0 HI].
  { by rewrite (Inv_not_found env startKey goalKey options st0 HI) in Hf. }
  2:{ rewrite noFound_trace in Hf; [done|].
      unfold noFound. cbn [st_steps pushStep]. constructor; [done|].
      eapply Forall_impl; [apply (Inv_phases _ _ _ _ _ HI)|]. by intros x []. }
  assert (tr_path (traceOf options (pushStep options
            (foundPartial options sel path0) st0)) = path0) as Epath.
  { unfold traceOf in *. cbn [found tr_path] in *. by rewrite Hf. }
  destruct (found_chain env startKey goalKey options st0 path0 Hs Hne HI Hv Hp)
    as (keys & -> & Hhd & Hlast & Hpc).
  pose proof HI as (_ & [Hc _ _ (ord & Hnd & Hord & Hch)] & _).
  apply last_Some in Hlast as [pre ->].
  assert (∀ k, k ∈ pre → k ∈ ord) as Hpre.
  { intros k [i Hi]%list_elem_of_lookup. destruct Hch as [Hch1 _].
    destruct (lookup_lt_is_Some_2 (pre ++ [goalKey]) (S i)) as [b Hb].
    { rewrite length_app. simpl. apply lookup_lt_Some in Hi. lia. }
    apply (Hch1 b). apply (Hpc i); [|done].
    rewrite lookup_app_l; [done|]. by eapply lookup_lt_Some. }
  assert (NoDup (pre ++ [goalKey])) as Hnodup.
  { destruct (decide (goalKey ∈ ord)) as [Hg|Hg].
    - apply (chain_NoDup ord (st_cameFrom st0)); try done.
      intros k [?| ->%list_elem_of_singleton]%elem_of_app; auto.
    - apply NoDup_app. split_and!.
      + apply (chain_NoDup ord (st_cameFrom st0)); try done.
        intros i a b Ha Hb. apply (Hpc i).
        * rewrite lookup_app_l; [done|]. by eapply lookup_lt_Some.
        * rewrite lookup_app_l; [done|]. by eapply lookup_lt_Some.
      + intros k Hk' ->%list_elem_of_singleton. by apply Hg, Hpre.
      + apply NoDup_singleton. }
  eexists (pre ++ [goalKey]), _. rewrite Epath.
  cbn [steps traceOf metrics explored st_steps st_closed pushStep].
  rewrite last_reverse. cbn [head closed].
  split_and!; try done.
  - intros k [Hk'| ->%list_elem_of_singleton]%elem_of_app; [right|by left].
    by apply Hord, Hpre.
  - rewrite length_fmap, length_app. simpl.
    assert (length pre <= size (st_closed st0))%nat; [|lia].
    assert (NoDup pre) as Hndp by (by apply NoDup_app in Hnodup as [? _]).
    rewrite <-(size_list_to_set (C := gset string) pre) by done.
    apply subseteq_size. intros k Hk'%elem_of_list_to_set.
    by apply Hord, Hpre.
Qed.

Lemma found_path_is_simple_witness :
  ∃ t, buildTrace twoCells "0,0" "1,0" dijkstraOptions = Some t ∧
    (found t = true →
     ∃ keys s,
       tr_path t = coordOfKey (adapterOf twoCells) <$> keys ∧
       NoDup keys ∧
       last (steps t) = Some s ∧
       (∀ k, k ∈ keys → k = "1,0" ∨ k ∈ closed s) ∧
       (length (tr_path t) <= explored (metrics t) + 1)%nat).
Proof.
  apply (found_path_is_simple twoCells "0,0" "1,0" dijkstraOptions); [done|].
  intros k nb (c & -> & _)%gridNeighbors_elem. apply keyOf_nonempty.
Defined.

(* ===================================================================== *)
(** * The order of the snapshots *)
(* ===================================================================== *)

(** [follows a b]: the snapshot [b] may come directly after the snapshot
    [a].  "init" comes first only; "select" is followed by "expand" or
    "found" of the same item; a snapshot that carries a relaxation event
    is followed by the plain "enqueue" of the same item; "found" comes
    after "select", "expand" after "select" or "expand"; "select" and
    "exhausted" come after "init", "expand" or a plain "enqueue"; a
    relaxation event comes after "expand" or a plain "enqueue" of the
    same item. *)
Definition follows (a b : Partial) : Prop :=
  phase b ≠ PInit ∧
  (phase a = PSelect →
     (phase b = PExpand ∨ phase b = PFound) ∧ selected b = selected a) ∧
  (is_Some (relaxation a) →
     phase b = PEnqueue ∧ relaxation b = None ∧ selected b = selected a) ∧
  (phase b = PFound → phase a = PSelect) ∧
  (phase b = PExpand → phase a = PSelect ∨ phase a = PExpand) ∧
  (phase b = PSelect ∨ phase b = PExhausted →
     (phase a = PInit ∨ phase a = PExpand ∨ phase a = PEnqueue) ∧
     relaxation a = None) ∧
  (phase b = PRelax ∨ is_Some (relaxation b) →
     (phase a = PExpand ∨ phase a = PEnqueue) ∧ relaxation a = None ∧
     selected b = selected a).

Section Grammar.
Variable env : Environment.
Variables startKey goalKey : string.
Variable options : RunOptions.

Local Abbreviation adapter := (adapterOf env).
Local Abbreviation frontierOf := (frontierToArray options).
Local Abbreviation push_step := (pushStep options).
Local Abbreviation body_ := (body env startKey goalKey options).
Local Abbreviation expand_ := (expand env options).
Local Abbreviation relaxAll_ := (relaxAll env goalKey options).
Local Abbreviation relaxNeighbor_ := (relaxNeighbor env goalKey options).
Local Abbreviation select_ := (select options).
Local Abbreviation initState_ := (initState env startKey goalKey options).

Local Open Scope nat_scope.

Ltac proj :=
  cbn [st_visited st_closed st_cameFrom st_gScore st_steps st_relaxations
       st_queue st_stack st_heap st_peakFrontier st_peakClosed
       pushStep set_frontier set_books fst snd] in *.

(** The snapshots so far, newest first, are in order, and the newest
    one satisfies [P]. *)
Definition Gram (P : Partial → Prop) (st : State) : Prop :=
  ∃ h l, st_steps st = h :: l ∧ P (partial h) ∧
    ∀ i a b, st_steps st !! S i = Some a → st_steps st !! i = Some b →
             follows (partial a) (partial b).

(** Ready for a selection: "init", "expand" or a plain "enqueue". *)
Definition idle (p : Partial) : Prop :=
  (phase p = PInit ∨ phase p = PExpand ∨ phase p = PEnqueue) ∧
  relaxation p = None.

(** Inside the neighbour loop of [sel]. *)
Definition expanding (sel : FrontierItem) (p : Partial) : Prop :=
  (phase p = PExpand ∨ phase p = PEnqueue) ∧ relaxation p = None ∧
  selected p = Some sel.

Lemma Gram_push (P Q : Partial → Prop) p st :
  Gram P st → (∀ a, P a → follows a p) → Q p → Gram Q (push_step p st).
Proof.
  intros (h & l & E & HP & Hall) Hf HQ.
  exists (stepOf options p st), (st_steps st). split; [done|]. split; [done|].
  intros i a b. proj. destruct i as [|i]; simpl.
  - rewrite E. simpl. intros [= <-] [= <-]. by apply Hf.
  - apply Hall.
Qed.

Lemma Gram_weaken (P Q : Partial → Prop) st :
  Gram P st → (∀ a, P a → Q a) → Gram Q st.
Proof. intros (h & l & E & HP & Hall) H. exists h, l. auto. Qed.

Lemma Gram_steps (P : Partial → Prop) st st' :
  st_steps st' = st_steps st → Gram P st → Gram P st'.
Proof. intros E (h & l & E' & HP & Hall). exists h, l. by rewrite E. Qed.

Lemma Gram_init : Gram idle initState_.
Proof.
  eexists _, []. split; [done|]. split; [by split; [left|]|].
  intros i a b. unfold initState. proj. by destruct i.
Qed.

Ltac shape :=
  unfold follows, idle, expanding in *; simpl in *;
  repeat match goal with
         | H : _ ∧ _ |- _ => destruct H
         end;
  repeat split; intros;
  repeat match goal with
         | H : _ ∧ _ |- _ => destruct H
         | H : _ ∨ _ |- _ => destruct H
         end;
  try congruence;
  try (exfalso;
       match goal with
       | H : ?x = None, H' : is_Some ?x |- _ =>
           rewrite H in H'; by destruct H' as [? ?]
       | H' : is_Some None |- _ => by destruct H' as [? ?]
       end);
  eauto.

Lemma Gram_expand sel st :
  Gram (λ p, phase p = PSelect ∧ relaxation p = None ∧
             selected p = Some sel) st →
  Gram (λ p, phase p = PExpand ∧ relaxation p = None ∧
             selected p = Some sel) (expand_ sel st).
Proof.
  intros H. unfold expand. cbv zeta.
  assert (Gram (λ p, phase p = PExpand ∧ relaxation p = None ∧
                     selected p = Some sel ∧ warnings p = None)
            (push_step
               (partialOf PExpand (Some sel)
                  (Some (selectionReasonOf options sel)))
               (set_books (st_visited st) ({[it_key sel]} ∪ st_closed st)
                  (st_cameFrom st) (st_gScore st) (st_relaxations st) st)))
    as H1.
  { eapply Gram_push; [eapply Gram_steps; [|exact H]; done| |done].
    intros a Ha. shape. }
  case_bool_decide.
  - eapply Gram_push; [exact H1| |done]. intros a Ha. shape.
  - eapply Gram_weaken; [exact H1|]. intros a Ha. shape.
Qed.

Lemma Gram_relaxNeighbor sel curG curDepth st nb :
  Gram (expanding sel) st →
  Gram (expanding sel) (relaxNeighbor_ sel curG curDepth st nb).
Proof.
  intros H. unfold relaxNeighbor. case_bool_decide; [done|].
  destruct (is_unweighted options).
  - case_bool_decide; [done|].
    eapply Gram_push; [|intros a Ha; exact Ha|shape].
    assert (∀ s, Gram (λ a, follows a
        (partialOf PEnqueue (Some sel) (Some (selectionReasonOf options sel))))
                   s →
      Gram (λ a, follows a
        (partialOf PEnqueue (Some sel) (Some (selectionReasonOf options sel))))
        (if bool_decide (frontierKindFor (algorithm options) = queue)
         then set_frontier (st_queue s ++ [discoveredItem options adapter
                (nb_key nb) (curG + stepCostOf options adapter nb) curDepth])
                (st_stack s) (st_heap s) s
         else set_frontier (st_queue s) (st_stack s ++ [discoveredItem options
                adapter (nb_key nb) (curG + stepCostOf options adapter nb)
                curDepth]) (st_heap s) s)) as Hfr.
    { intros s Hs. case_bool_decide; (eapply Gram_steps; [|exact Hs]; done). }
    apply Hfr.
    eapply Gram_push; [eapply Gram_steps; [|exact H]; done| |shape].
    intros a Ha. shape.
  - destruct (negb _); [done|].
    eapply Gram_push; [|intros a Ha; exact Ha|shape].
    eapply Gram_steps; [done|].
    eapply Gram_push; [eapply Gram_steps; [|exact H]; done| |shape].
    intros a Ha. shape.
Qed.

Lemma Gram_relaxAll sel st :
  Gram (expanding sel) st → Gram (expanding sel) (relaxAll_ sel st).
Proof.
  unfold relaxAll.
  generalize (default 0%Z (st_gScore st !! it_key sel)).
  generalize (default 0%Z (it_depth sel)). intros d g.
  generalize (neighbors adapter (it_key sel)). intros l. revert st.
  induction l as [|nb l IH]; intros st H; [done|].
  simpl. by apply IH, Gram_relaxNeighbor.
Qed.

(** The newest snapshot of a finished run. *)
Definition resting (p : Partial) : Prop :=
  phase p ≠ PSelect ∧ relaxation p = None.

Lemma Gram_body st fl st' :
  Gram idle st → body_ st = Some (fl, st') →
  match fl with
  | Continue => Gram idle st'
  | Break => Gram resting st'
  end.
Proof.
  intros H Hb.
  pose proof (body_case env startKey goalKey options st) as Hc.
  rewrite Hb in Hc.
  assert (Gram idle (select_ st).2) as Hs.
  { destruct (select_frame options st) as (q & s & h & ->).
    eapply Gram_steps; [|exact H]. done. }
  inversion Hc as [Hn|sel Hsel Hcl|sel p Hsel Hcl Hg Hp|
                   |sel Hsel Hcl Hg]; subst.
  - eapply Gram_weaken; [exact Hs|]. intros a Ha. unfold resting. shape.
  - done.
  - eapply Gram_push; [eapply Gram_push; [exact Hs| |]| |].
    + intros a Ha. shape.
    + instantiate (1 := λ p, phase p = PSelect ∧ relaxation p = None ∧
                             selected p = Some sel). done.
    + intros a Ha. shape.
    + unfold resting. done.
  - eapply Gram_weaken; [apply Gram_relaxAll|].
    + eapply Gram_weaken; [apply Gram_expand|].
      * eapply Gram_push; [exact Hs| |].
        -- intros a Ha. shape.
        -- done.
      * intros a Ha. shape.
    + intros a Ha. shape.
Qed.

Lemma runLoop_Gram :
  ∃ it st, runLoop env startKey goalKey options = Some (it, st) ∧
           Gram resting st.
Proof.
  destruct (runLoop_returns env startKey goalKey options) as (it & st & Hrun & _).
  exists it, st. split; [done|].
  apply (mainLoop_rule env startKey goalKey options
           (λ _ st, Gram idle st) (λ _ st, Gram resting st))
    with (r := (it, st)) (fuel := S (Z.to_nat (maxIterations env)))
         (it := 0%Z) (st := initState_); try done.
  - intros _ st0 H _. eapply Gram_weaken; [exact H|].
    intros a Ha. unfold resting. shape.
  - intros _ st0 H _ _. eapply Gram_push; [exact H| |].
    + intros a Ha. shape.
    + unfold resting. done.
  - intros _ st0 st1 H _ _ Hb. by apply (Gram_body _ _ _ H Hb).
  - intros _ st0 st1 H _ _ Hb. by apply (Gram_body _ _ _ H Hb).
  - apply Gram_init.
Qed.

(** X22.  The snapshots of a trace come in a fixed order.  For every
    snapshot [a] and the snapshot [b] directly after it:  [b] is not
    "init";  after a "select", [b] is the "expand" or the "found" of the
    same item;  after a snapshot with a relaxation event ("relax", or the
    first "enqueue" of BFS and DFS), [b] is the plain "enqueue" of the
    same item;  "found" only follows "select";  "expand" only follows
    "select" or "expand";  "select" and "exhausted" only follow "init",
    "expand" or a plain "enqueue";  a relaxation event only follows
    "expand" or a plain "enqueue" of the same item.  The last snapshot
    is not a "select" and carries no relaxation event. *)
Theorem snapshots_follow_the_loop :
  ∃ t, buildTrace env startKey goalKey options = Some t ∧
    (∀ i a b, steps t !! i = Some a → steps t !! S i = Some b →
       phase (partial b) ≠ PInit ∧
       (phase (partial a) = PSelect →
          (phase (partial b) = PExpand ∨ phase (partial b) = PFound) ∧
          selected (partial b) = selected (partial a)) ∧
       (is_Some (relaxation (partial a)) →
          phase (partial b) = PEnqueue ∧ relaxation (partial b) = None ∧
          selected (partial b) = selected (partial a)) ∧
       (phase (partial b) = PFound → phase (partial a) = PSelect) ∧
       (phase (partial b) = PExpand →
          phase (partial a) = PSelect ∨ phase (partial a) = PExpand) ∧
       (phase (partial b) = PSelect ∨ phase (partial b) = PExhausted →
          (phase (partial a) = PInit ∨ phase (partial a) = PExpand ∨
           phase (partial a) = PEnqueue) ∧
          relaxation (partial a) = None) ∧
       (phase (partial b) = PRelax ∨ is_Some (relaxation (partial b)) →
          (phase (partial a) = PExpand ∨ phase (partial a) = PEnqueue) ∧
          relaxation (partial a) = None ∧
          selected (partial b) = selected (partial a))) ∧
    (∃ s, last (steps t) = Some s ∧
          phase (partial s) ≠ PSelect ∧ relaxation (partial s) = None).
Proof.
  destruct runLoop_Gram as (it & st & Hrun & (h & l & E & [Hh1 Hh2] & Hall)).
  exists (traceOf options st). split; [unfold buildTrace; by rewrite Hrun|].
  cbn [steps traceOf]. split.
  - intros i a b Ha Hb.
    pose proof (lookup_lt_Some _ _ _ Hb) as Hlt. rewrite length_reverse in Hlt.
    rewrite reverse_lookup in Ha by lia. rewrite reverse_lookup in Hb by lia.
    apply (Hall (length (st_steps st) - S (S i))); [|done].
    by replace (S (length (st_steps st) - S (S i)))
      with (length (st_steps st) - S i) by lia.
  - exists h. by rewrite last_reverse, E.
Qed.
End Grammar.

(* ===================================================================== *)
(** * [ui/state/simulator.ts]: the reducer of the user interface *)
(* ===================================================================== *)

Inductive EnvironmentId :=
| EnvGrid | EnvCity | EnvCampus | EnvDungeon | EnvCustom | EnvRealworld.
Inductive DrawMode := DrawWalls | DrawErase | DrawStart | DrawGoal.
Inductive LearningLevel := Beginner | Intermediate | Advanced.

Global Instance EnvironmentId_eq_dec : EqDecision EnvironmentId.
Proof. solve_decision. Defined.

Record LatLng := mkLatLng { lat : Z; lng : Z }.

(** What the reducer and [runOnce] read of the [Environment] that
    [getEnvironment] returns: its kind, with the grid ([env.grid!]) of
    kind "grid" or the graph ([env.graph!]) of the kinds "graph" and
    "map", and the two default keys. *)
Inductive EnvironmentInfo :=
| InfoGrid (grid : Grid) (defaultStartKey defaultGoalKey : string)
| InfoGraph (graph : Graph) (defaultStartKey defaultGoalKey : string).

Definition defaultStartKey (e : EnvironmentInfo) : string :=
  match e with InfoGrid _ s _ | InfoGraph _ s _ => s end.
Definition defaultGoalKey (e : EnvironmentInfo) : string :=
  match e with InfoGrid _ _ g | InfoGraph _ _ g => g end.

Inductive GridEdit :=
| EditWall (key : string) (on : bool)
| EditStart (key : string)
| EditGoal (key : string).

(** [Math.max(lo, Math.min(hi, n))] *)
Definition clamp (n lo hi : Z) : Z := Z.max lo (Z.min hi n).

Definition emptyGraph : Graph := {| directed := true; nodes := []; edges := [] |}.

Section Simulator.

(** [AlgorithmDNA] and [computeAlgorithmDNA] of [xai/dna], the catalog
    function [getEnvironment] in the form that the reducer calls, and
    the outcome of the draw [Math.random() < density] for the cell
    [(x, y)]: the reducer holds for each of them. *)
Context {DNA : Type}.
Variable computeAlgorithmDNA : Trace → AlgorithmId → DNA.
Variable getEnvironment :
  EnvironmentId → option Graph → option (list (Coord * string)) →
  option LatLng → option LatLng → option Graph → EnvironmentInfo.
Variable draw : Z → Z → bool.

Record SimulatorState := mkSimState
  { sim_environmentId : EnvironmentId;
    sim_grid : Grid;
    sim_customGraph : Graph;
    sim_customExplanationPoints : list (Coord * string);
    sim_realWorldStart : option LatLng;
    sim_realWorldGoal : option LatLng;
    sim_realWorldGraph : Graph;
    sim_startKey : string;
    sim_goalKey : string;
    sim_drawMode : DrawMode;
    sim_algorithm : AlgorithmId;
    sim_compareOn : bool;
    sim_compareAlgorithm : AlgorithmId;
    sim_heuristic : HeuristicId;
    sim_heuristicWeight : Z;
    sim_learningLevel : LearningLevel;
    sim_explainMode : bool;
    sim_speedMs : Z;
    sim_isPlaying : bool;
    sim_trace : option Trace;
    sim_dna : option DNA;
    sim_compareTrace : option Trace;
    sim_compareDna : option DNA;
    sim_stepIndex : Z }.

Inductive SimulatorAction :=
| HydrateAfterRun (next : SimulatorState)
| Run
| ResetTrace
| TogglePlay
| Step (direction : Z)
| SetSpeed (ms : Z)
| SetEnvironment (environmentId : EnvironmentId)
| SetCustomGraph (graph : Graph)
| SetCustomExplanationPoints (points : list (Coord * string))
| SetRealWorldStart (lat lng : Z)
| SetRealWorldGoal (lat lng : Z)
| SetRealWorldGraph (graph : Graph)
| SetAlgorithm (algorithm : AlgorithmId)
| SetCompareOn (on : bool)
| SetCompareAlgorithm (algorithm : AlgorithmId)
| SetHeuristic (heuristic : HeuristicId)
| SetHeuristicWeight (weight : Z)
| SetLearningLevel (level : LearningLevel)
| SetExplainMode (on : bool)
| SetDrawMode (mode : DrawMode)
| ApplyEdit (edit : GridEdit)
| ClearWalls
| RandomWalls.

(** ** The object spreads [{ ...state, field: value }] *)

Definition with_traces (tr : option Trace) (dn : option DNA)
    (ctr : option Trace) (cdn : option DNA) (s : SimulatorState)
    : SimulatorState :=
  let 'mkSimState a1 a2 a3 a4 a5 a6 a7 a8 a9 a10 a11 a12 a13 a14 a15 a16 a17 a18
             a19 _ _ _ _ a24 := s in
  mkSimState a1 a2 a3 a4 a5 a6 a7 a8 a9 a10 a11 a12 a13 a14 a15 a16 a17 a18
        a19 tr dn ctr cdn a24.

Definition with_playback (playing : bool) (index : Z) (s : SimulatorState)
    : SimulatorState :=
  let 'mkSimState a1 a2 a3 a4 a5 a6 a7 a8 a9 a10 a11 a12 a13 a14 a15 a16 a17 a18
             _ a20 a21 a22 a23 _ := s in
  mkSimState a1 a2 a3 a4 a5 a6 a7 a8 a9 a10 a11 a12 a13 a14 a15 a16 a17 a18
        playing a20 a21 a22 a23 index.

Definition with_environment (id : EnvironmentId) (g : Grid)
    (cg rg : Graph) (sk gk : string) (dm : DrawMode) (s : SimulatorState)
    : SimulatorState :=
  let 'mkSimState _ _ _ a4 a5 a6 _ _ _ _ a11 a12 a13 a14 a15 a16 a17 a18
             a19 a20 a21 a22 a23 a24 := s in
  mkSimState id g cg a4 a5 a6 rg sk gk dm a11 a12 a13 a14 a15 a16 a17 a18
        a19 a20 a21 a22 a23 a24.

Definition with_grid (g : Grid) (s : SimulatorState) : SimulatorState :=
  with_environment (sim_environmentId s) g (sim_customGraph s)
    (sim_realWorldGraph s) (sim_startKey s) (sim_goalKey s) (sim_drawMode s) s.

Definition with_keys (sk gk : string) (s : SimulatorState) : SimulatorState :=
  with_environment (sim_environmentId s) (sim_grid s) (sim_customGraph s)
    (sim_realWorldGraph s) sk gk (sim_drawMode s) s.

Definition with_customGraph (cg : Graph) (s : SimulatorState)
    : SimulatorState :=
  with_environment (sim_environmentId s) (sim_grid s) cg
    (sim_realWorldGraph s) (sim_startKey s) (sim_goalKey s) (sim_drawMode s) s.

Definition with_realWorldGraph (rg : Graph) (s : SimulatorState)
    : SimulatorState :=
  with_environment (sim_environmentId s) (sim_grid s) (sim_customGraph s)
    rg (sim_startKey s) (sim_goalKey s) (sim_drawMode s) s.

Definition with_drawMode (dm : DrawMode) (s : SimulatorState)
    : SimulatorState :=
  with_environment (sim_environmentId s) (sim_grid s) (sim_customGraph s)
    (sim_realWorldGraph s) (sim_startKey s) (sim_goalKey s) dm s.

Definition with_points (pts : list (Coord * string))
    (rs rg : option LatLng) (s : SimulatorState) : SimulatorState :=
  let 'mkSimState a1 a2 a3 _ _ _ a7 a8 a9 a10 a11 a12 a13 a14 a15 a16 a17 a18
             a19 a20 a21 a22 a23 a24 := s in
  mkSimState a1 a2 a3 pts rs rg a7 a8 a9 a10 a11 a12 a13 a14 a15 a16 a17 a18
        a19 a20 a21 a22 a23 a24.

Definition with_options (alg : AlgorithmId) (con : bool)
    (calg : AlgorithmId) (h : HeuristicId) (w : Z) (s : SimulatorState)
    : SimulatorState :=
  let 'mkSimState a1 a2 a3 a4 a5 a6 a7 a8 a9 a10 _ _ _ _ _ a16 a17 a18
             a19 a20 a21 a22 a23 a24 := s in
  mkSimState a1 a2 a3 a4 a5 a6 a7 a8 a9 a10 alg con calg h w a16 a17 a18
        a19 a20 a21 a22 a23 a24.

Definition with_display (lv : LearningLevel) (ex : bool) (ms : Z)
    (s : SimulatorState) : SimulatorState :=
  let 'mkSimState a1 a2 a3 a4 a5 a6 a7 a8 a9 a10 a11 a12 a13 a14 a15 _ _ _
             a19 a20 a21 a22 a23 a24 := s in
  mkSimState a1 a2 a3 a4 a5 a6 a7 a8 a9 a10 a11 a12 a13 a14 a15 lv ex ms
        a19 a20 a21 a22 a23 a24.

(** [{ ...state, trace: null, dna: null, compareTrace: null,
    compareDna: null }] *)
Definition invalidate (s : SimulatorState) : SimulatorState :=
  with_traces None None None None s.

(** [resetPlayback] *)
Definition resetPlayback (s : SimulatorState) : SimulatorState :=
  with_playback false 0 s.

(** [nodes[i]!.id] *)
Definition nodeId (g : Graph) (i : nat) : string :=
  default EmptyString (gn_id <$> nodes g !! i).

(** [nodes.some((n) => n.id === key)] *)
Definition hasNode (g : Graph) (key : string) : bool :=
  existsb (λ n, bool_decide (gn_id n = key)) (nodes g).

(** The call of [getEnvironment] in [setEnvironment] and in [runOnce]. *)
Definition environmentOf (id : EnvironmentId) (s : SimulatorState)
    : EnvironmentInfo :=
  getEnvironment id
    (if bool_decide (id = EnvCustom) then Some (sim_customGraph s) else None)
    (if bool_decide (id = EnvCustom)
     then Some (sim_customExplanationPoints s) else None)
    (if bool_decide (id = EnvRealworld) then sim_realWorldStart s else None)
    (if bool_decide (id = EnvRealworld) then sim_realWorldGoal s else None)
    (if bool_decide (id = EnvRealworld)
     then Some (sim_realWorldGraph s) else None).

(** The walls that [randomWalls] draws: the cells in the order of its
    two loops, without the start and the goal, each kept when its draw
    says so. *)
Definition randomWallSet (s : SimulatorState) : gset string :=
  list_to_set
    (omap (λ p : Z * Z,
             let k := keyOf {| cx := p.2; cy := p.1 |} in
             if bool_decide (k = sim_startKey s) then None
             else if bool_decide (k = sim_goalKey s) then None
             else if draw p.2 p.1 then Some k else None)
          (list_prod (seqZ 0 (height (sim_grid s)))
                     (seqZ 0 (width (sim_grid s))))).

Definition applyEdit (state : SimulatorState) (edit : GridEdit)
    : SimulatorState :=
  let base := with_playback false 0 (invalidate state) in
  match edit with
  | EditWall key on =>
      if negb (bool_decide (sim_environmentId state = EnvGrid)) then base
      else if bool_decide (key = sim_startKey state)
              || bool_decide (key = sim_goalKey state) then base
      else with_grid (setWall (sim_grid state) (coordOf key) on) base
  | EditStart key =>
      if bool_decide (key = sim_goalKey state) then base
      else if bool_decide (sim_environmentId state = EnvGrid) then
        with_grid (setWall (sim_grid state) (coordOf key) false)
          (with_keys key (sim_goalKey state) base)
      else with_keys key (sim_goalKey state) base
  | EditGoal key =>
      if bool_decide (key = sim_startKey state) then base
      else if bool_decide (sim_environmentId state = EnvGrid) then
        with_grid (setWall (sim_grid state) (coordOf key) false)
          (with_keys (sim_startKey state) key base)
      else with_keys (sim_startKey state) key base
  end.

Definition simulatorReducer (state : SimulatorState)
    (action : SimulatorAction) : SimulatorState :=
  match action with
  | HydrateAfterRun next => next
  | Run => state
  | ResetTrace => with_playback false 0 (invalidate state)
  | TogglePlay =>
      match sim_trace state with
      | None => state
      | Some _ =>
          with_playback (negb (sim_isPlaying state)) (sim_stepIndex state)
                        state
      end
  | Step direction =>
      match sim_trace state with
      | None => state
      | Some trace =>
          let last := Z.of_nat (length (steps trace)) - 1 in
          let next := clamp (sim_stepIndex state + direction) 0 last in
          let stopAtEnd :=
            bool_decide (direction = 1) && bool_decide (next = last) in
          with_playback (if stopAtEnd then false else sim_isPlaying state)
                        next state
      end
  | SetSpeed ms =>
      with_display (sim_learningLevel state) (sim_explainMode state)
                   (clamp ms 20 1500) state
  | SetEnvironment environmentId =>
      let env := environmentOf environmentId state in
      let nextGrid :=
        match env with
        | InfoGrid g _ _ => g
        | InfoGraph _ _ _ => sim_grid state
        end in
      let customGraph :=
        if bool_decide (environmentId = EnvCustom)
        then sim_customGraph state else emptyGraph in
      let realWorldGraph :=
        if bool_decide (environmentId = EnvRealworld)
        then sim_realWorldGraph state else emptyGraph in
      let startKey :=
        if bool_decide (environmentId = EnvCustom)
           && bool_decide (0 < length (nodes customGraph))%nat
        then nodeId customGraph 0
        else if bool_decide (environmentId = EnvRealworld)
                && bool_decide (0 < length (nodes realWorldGraph))%nat
        then nodeId realWorldGraph 0
        else defaultStartKey env in
      let goalKey :=
        if bool_decide (environmentId = EnvCustom)
           && bool_decide (1 < length (nodes customGraph))%nat
        then nodeId customGraph 1
        else if bool_decide (environmentId = EnvRealworld)
                && bool_decide (1 < length (nodes realWorldGraph))%nat
        then nodeId realWorldGraph (length (nodes realWorldGraph) - 1)
        else defaultGoalKey env in
      let drawMode :=
        match env with
        | InfoGrid _ _ _ => sim_drawMode state
        | InfoGraph _ _ _ => DrawStart
        end in
      resetPlayback
        (invalidate
           (with_environment environmentId nextGrid customGraph
              realWorldGraph startKey goalKey drawMode state))
  | SetRealWorldStart lat_ lng_ =>
      resetPlayback
        (invalidate
           (with_points (sim_customExplanationPoints state)
              (Some {| lat := lat_; lng := lng_ |})
              (sim_realWorldGoal state) state))
  | SetRealWorldGoal lat_ lng_ =>
      resetPlayback
        (invalidate
           (with_points (sim_customExplanationPoints state)
              (sim_realWorldStart state)
              (Some {| lat := lat_; lng := lng_ |}) state))
  | SetRealWorldGraph graph =>
      let n := length (nodes graph) in
      resetPlayback
        (invalidate
           (with_keys
              (if bool_decide (0 < n)%nat then nodeId graph 0
               else sim_startKey state)
              (if bool_decide (0 < n)%nat then nodeId graph (n - 1)
               else sim_goalKey state)
              (with_realWorldGraph graph state)))
  | SetCustomGraph graph =>
      let n := length (nodes graph) in
      resetPlayback
        (invalidate
           (with_keys
              (if bool_decide (0 < n)%nat then
                 if negb (bool_decide (sim_startKey state = EmptyString))
                    && hasNode graph (sim_startKey state)
                 then sim_startKey state else nodeId graph 0
               else sim_startKey state)
              (if bool_decide (1 < n)%nat then
                 if negb (bool_decide (sim_goalKey state = EmptyString))
                    && hasNode graph (sim_goalKey state)
                 then sim_goalKey state else nodeId graph 1
               else sim_goalKey state)
              (with_customGraph graph state)))
  | SetCustomExplanationPoints points =>
      with_points points (sim_realWorldStart state) (sim_realWorldGoal state)
                  state
  | SetAlgorithm a =>
      resetPlayback
        (invalidate
           (with_options a (sim_compareOn state) (sim_compareAlgorithm state)
              (sim_heuristic state) (sim_heuristicWeight state) state))
  | SetCompareOn on =>
      resetPlayback
        (invalidate
           (with_options (sim_algorithm state) on (sim_compareAlgorithm state)
              (sim_heuristic state) (sim_heuristicWeight state) state))
  | SetCompareAlgorithm a =>
      resetPlayback
        (invalidate
           (with_options (sim_algorithm state) (sim_compareOn state) a
              (sim_heuristic state) (sim_heuristicWeight state) state))
  | SetHeuristic h =>
      resetPlayback
        (invalidate
           (with_options (sim_algorithm state) (sim_compareOn state)
              (sim_compareAlgorithm state) h (sim_heuristicWeight state)
              state))
  | SetHeuristicWeight weight =>
      resetPlayback
        (invalidate
           (with_options (sim_algorithm state) (sim_compareOn state)
              (sim_compareAlgorithm state) (sim_heuristic state)
              (clamp weight 0 10) state))
  | SetLearningLevel level =>
      with_display level (sim_explainMode state) (sim_speedMs state) state
  | SetExplainMode on =>
      with_display (sim_learningLevel state) on (sim_speedMs state) state
  | SetDrawMode mode => with_drawMode mode state
  | ApplyEdit edit => applyEdit state edit
  | ClearWalls =>
      resetPlayback
        (invalidate
           (with_grid
              (if bool_decide (sim_environmentId state = EnvGrid)
               then {| width := width (sim_grid state);
                       height := height (sim_grid state); walls := ∅ |}
               else sim_grid state)
              state))
  | RandomWalls =>
      if negb (bool_decide (sim_environmentId state = EnvGrid))
      then resetPlayback (invalidate state)
      else
        resetPlayback
          (invalidate
             (with_grid
                {| width := width (sim_grid state);
                   height := height (sim_grid state);
                   walls := randomWallSet state |}
                state))
  end.

(** ** [runOnce] of the application and the dispatch that wraps the
    reducer *)

(** The environment that [runOnce] hands to [buildTrace]: the grid of
    the state for the kind "grid", the graph of the catalog otherwise. *)
Definition runEnvironment (s : SimulatorState) : Environment :=
  match environmentOf (sim_environmentId s) s with
  | InfoGrid _ _ _ => GridEnv (sim_grid s)
  | InfoGraph g _ _ => GraphEnv g
  end.

Definition runOptions (s : SimulatorState) (a : AlgorithmId) : RunOptions :=
  {| algorithm := a; heuristic := sim_heuristic s;
     heuristicWeight := sim_heuristicWeight s |}.

Definition runOnce (state : SimulatorState) : option SimulatorState :=
  let env := runEnvironment state in
  match buildTrace env (sim_startKey state) (sim_goalKey state)
                   (runOptions state (sim_algorithm state)) with
  | None => None
  | Some trace =>
      let dna := computeAlgorithmDNA trace (sim_algorithm state) in
      let compare :=
        if sim_compareOn state
        then (λ t, Some t) <$>
             buildTrace env (sim_startKey state) (sim_goalKey state)
                        (runOptions state (sim_compareAlgorithm state))
        else Some None in
      match compare with
      | None => None
      | Some compareTrace =>
          let compareDna :=
            (λ t, computeAlgorithmDNA t (sim_compareAlgorithm state))
              <$> compareTrace in
          Some (with_playback false 0
                  (with_traces (Some trace) (Some dna) compareTrace
                               compareDna state))
      end
  end.

(** [enhancedDispatch]: "run" computes the traces and hands the new
    state to the reducer as "hydrateAfterRun". *)
Definition enhancedDispatch (state : SimulatorState)
    (action : SimulatorAction) : option SimulatorState :=
  match action with
  | Run =>
      match runOnce state with
      | Some next => Some (simulatorReducer state (HydrateAfterRun next))
      | None => None
      end
  | _ => Some (simulatorReducer state action)
  end.

Local Arguments buildTrace : simpl never.

(** The trace that [runOnce] computes for the settings of [s] and the
    algorithm [a]. *)
Definition traceOfSettings (s : SimulatorState) (a : AlgorithmId)
    : option Trace :=
  buildTrace (runEnvironment s) (sim_startKey s) (sim_goalKey s)
             (runOptions s a).

Lemma runOnce_spec s :
  ∃ t ct,
    traceOfSettings s (sim_algorithm s) = Some t ∧
    (if sim_compareOn s
     then (λ t, Some t) <$> traceOfSettings s (sim_compareAlgorithm s)
     else Some None) = Some ct ∧
    runOnce s =
      Some (with_playback false 0
              (with_traces (Some t)
                 (Some (computeAlgorithmDNA t (sim_algorithm s))) ct
                 ((λ t, computeAlgorithmDNA t (sim_compareAlgorithm s))
                    <$> ct) s)).
Proof.
  unfold runOnce, traceOfSettings.
  destruct (buildTrace_returns (runEnvironment s) (sim_startKey s)
              (sim_goalKey s) (runOptions s (sim_algorithm s))) as [t Ht].
  destruct (buildTrace_returns (runEnvironment s) (sim_startKey s)
              (sim_goalKey s) (runOptions s (sim_compareAlgorithm s)))
    as [t' Ht'].
  rewrite Ht. exists t. destruct (sim_compareOn s).
  - rewrite Ht'. simpl. by exists (Some t').
  - by exists None.
Qed.

(** ** Walls, start and goal *)

(** A key in the form that [keyOf] prints. *)
Definition canonical (k : string) : Prop := keyOf (coordOf k) = k.

(** On the grid, the start and the goal are keys of cells, and these
    cells are not walls. *)
Definition keysClear (s : SimulatorState) : Prop :=
  sim_environmentId s = EnvGrid →
  canonical (sim_startKey s) ∧ canonical (sim_goalKey s) ∧
  isWall (sim_grid s) (coordOf (sim_startKey s)) = false ∧
  isWall (sim_grid s) (coordOf (sim_goalKey s)) = false.

(** The actions of an editing session: the edits name cells by their
    keys; the actions that replace the environment or take the keys from
    a graph are left out, and so is "hydrateAfterRun". *)
Definition editing (a : SimulatorAction) : Prop :=
  match a with
  | HydrateAfterRun _ | SetEnvironment _ | SetCustomGraph _
  | SetRealWorldGraph _ => False
  | ApplyEdit (EditWall k _) | ApplyEdit (EditStart k)
  | ApplyEdit (EditGoal k) => canonical k
  | _ => True
  end.

Lemma isWall_setWall_other g k k' on :
  canonical k → canonical k' → k' ≠ k →
  isWall (setWall g (coordOf k) on) (coordOf k') = isWall g (coordOf k').
Proof.
  intros Hk Hk' Hne. apply isWall_setWall_ne. intros E.
  apply Hne. by rewrite <-Hk, <-Hk', E.
Qed.

Lemma isWall_setWall_off g c : isWall (setWall g c false) c = false.
Proof.
  unfold isWall, setWall. cbn [walls]. apply bool_decide_eq_false_2.
  set_solver.
Qed.

Lemma randomWallSet_keys s k :
  k ∈ randomWallSet s → k ≠ sim_startKey s ∧ k ≠ sim_goalKey s.
Proof.
  unfold randomWallSet. rewrite elem_of_list_to_set, list_elem_of_omap.
  intros (p & _ & Hp). repeat case_bool_decide; try done.
  destruct (draw _ _); [|done]. by simplify_eq.
Qed.

Lemma keysClear_dispatch s a :
  keysClear s → editing a →
  ∃ s', enhancedDispatch s a = Some s' ∧ keysClear s'.
Proof.
  intros Hk Ha. destruct a; try done; cbn [enhancedDispatch].
  - destruct (runOnce_spec s) as (t & ct & _ & _ & ->).
    eexists. split; [done|]. cbn [simulatorReducer].
    unfold keysClear in *. by destruct s.
  - eexists. split; [done|]. unfold keysClear in *. by destruct s.
  - eexists. split; [done|]. cbn [simulatorReducer].
    case_match; unfold keysClear in *; by destruct s.
  - eexists. split; [done|]. cbn [simulatorReducer].
    case_match; unfold keysClear in *; by destruct s.
  - eexists. split; [done|]. unfold keysClear in *. by destruct s.
  - eexists. split; [done|]. unfold keysClear in *. by destruct s.
  - eexists. split; [done|]. unfold keysClear in *. by destruct s.
  - eexists. split; [done|]. unfold keysClear in *. by destruct s.
  - eexists. split; [done|]. unfold keysClear in *. by destruct s.
  - eexists. split; [done|]. unfold keysClear in *. by destruct s.
  - eexists. split; [done|]. unfold keysClear in *. by destruct s.
  - eexists. split; [done|]. unfold keysClear in *. by destruct s.
  - eexists. split; [done|]. unfold keysClear in *. by destruct s.
  - eexists. split; [done|]. unfold keysClear in *. by destruct s.
  - eexists. split; [done|]. unfold keysClear in *. by destruct s.
  - eexists. split; [done|]. unfold keysClear in *. by destruct s.
  - (* applyEdit *)
    eexists. split; [done|]. cbn [simulatorReducer]. unfold applyEdit.
    unfold keysClear in *. destruct s. cbn in Hk |- *.
    destruct edit as [key on|key|key]; cbn in Ha;
      repeat (case_bool_decide; cbn [negb orb andb]); cbn; try done;
      intros Hg; destruct (Hk Hg) as (Hs & Hgl & Hws & Hwg);
      rewrite ?isWall_setWall_off;
      rewrite ?isWall_setWall_other by (done || congruence); done.
  - (* clearWalls *)
    eexists. split; [done|]. cbn [simulatorReducer].
    unfold keysClear in *. destruct s. cbn in Hk |- *. intros Hg.
    rewrite bool_decide_eq_true_2 by done.
    destruct (Hk Hg) as (Hs & Hgl & _). split_and!; try done;
      unfold isWall; cbn; apply bool_decide_eq_false_2; set_solver.
  - (* randomWalls *)
    eexists. split; [done|]. cbn [simulatorReducer].
    case_bool_decide as He; cbn [negb].
    + unfold keysClear in *. intros Hg.
      replace (sim_environmentId _) with (sim_environmentId s) in Hg
        by (by destruct s).
      destruct (Hk Hg) as (Hs & Hgl & _).
      replace (sim_startKey _) with (sim_startKey s) by (by destruct s).
      replace (sim_goalKey _) with (sim_goalKey s) by (by destruct s).
      replace (sim_grid _) with
        {| width := width (sim_grid s); height := height (sim_grid s);
           walls := randomWallSet s |} by (by destruct s).
      split_and!; try done; unfold isWall; cbn [walls];
        apply bool_decide_eq_false_2; intros Hin%randomWallSet_keys.
      * rewrite Hs in Hin. by destruct Hin.
      * rewrite Hgl in Hin. by destruct Hin.
    + unfold keysClear in *. by destruct s.
Qed.

(** ** What the interface shows *)


(** The catalog chooses the kind of an environment and its graph without
    looking at the explanation points. *)
Hypothesis points_do_not_matter :
  ∀ id g pts pts' a b c,
    match getEnvironment id g pts a b c, getEnvironment id g pts' a b c with
    | InfoGrid _ _ _, InfoGrid _ _ _ => True
    | InfoGraph g1 _ _, InfoGraph g2 _ _ => g1 = g2
    | _, _ => False
    end.

(** The state is coherent: without a trace nothing plays and the index
    is 0; a trace in the state is the trace of the current settings, and
    the index points at one of its snapshots; a comparison trace is the
    trace of the comparison algorithm for the same settings. *)
Definition coherent (s : SimulatorState) : Prop :=
  match sim_trace s with
  | None => sim_stepIndex s = 0 ∧ sim_isPlaying s = false ∧
            sim_compareTrace s = None
  | Some t =>
      traceOfSettings s (sim_algorithm s) = Some t ∧
      0 <= sim_stepIndex s < Z.of_nat (length (steps t)) ∧
      match sim_compareTrace s with
      | None => True
      | Some t' => traceOfSettings s (sim_compareAlgorithm s) = Some t'
      end
  end.

Lemma buildTrace_nonempty env startKey goalKey options t :
  buildTrace env startKey goalKey options = Some t →
  (0 < length (steps t))%nat.
Proof.
  intros Ht.
  destruct (buildTrace_Ended env startKey goalKey options) as (st & Ht' & He).
  rewrite Ht in Ht'. injection Ht' as ->.
  destruct (Ended_Synced _ _ _ _ _ He) as (s & l & E & _).
  cbn [steps traceOf]. rewrite length_reverse, E. simpl. lia.
Qed.

Lemma runEnvironment_points pts s :
  runEnvironment
    (with_points pts (sim_realWorldStart s) (sim_realWorldGoal s) s)
  = runEnvironment s.
Proof.
  unfold runEnvironment, environmentOf. destruct s. simpl.
  match goal with
  | |- match getEnvironment ?id ?g ?p1 ?a ?b ?c with _ => _ end =
       match getEnvironment _ _ ?p2 _ _ _ with _ => _ end =>
      pose proof (points_do_not_matter id g p1 p2 a b c) as H
  end.
  repeat case_match; simplify_eq; done.
Qed.

(** An action that the interface dispatches by itself: every one but
    "hydrateAfterRun", which [enhancedDispatch] sends for "run". *)
Definition dispatched (a : SimulatorAction) : Prop :=
  match a with HydrateAfterRun _ => False | _ => True end.

Lemma coherent_dispatch s a :
  coherent s → dispatched a →
  ∃ s', enhancedDispatch s a = Some s' ∧ coherent s'.
Proof.
  intros Hc Ha. destruct a; try done; cbn [enhancedDispatch].
  - (* run *)
    destruct (runOnce_spec s) as (t & ct & Ht & Hct & ->).
    eexists. split; [done|]. cbn [simulatorReducer].
    pose proof (buildTrace_nonempty _ _ _ _ _ Ht) as Hlen.
    unfold coherent, traceOfSettings in *. destruct s. simpl in *.
    split; [done|]. split; [lia|].
    destruct sim_compareOn0; simpl in *; [|by simplify_eq].
    destruct (buildTrace _ _ _ (runOptions _ sim_compareAlgorithm0)) eqn:E;
      by simplify_eq/=.
  - eexists. split; [done|]. unfold coherent. by destruct s.
  - (* togglePlay *)
    eexists. split; [done|]. cbn [simulatorReducer].
    unfold coherent, traceOfSettings in *. destruct s. simpl in *.
    destruct sim_trace0; simpl; done.
  - (* step *)
    eexists. split; [done|]. cbn [simulatorReducer].
    unfold coherent, traceOfSettings in *. destruct s. simpl in *.
    destruct sim_trace0 as [t|]; simpl; [|done].
    destruct Hc as (Ht & Hi & Hcmp). split; [done|]. split; [|done].
    unfold clamp. lia.
  - eexists. split; [done|]. cbn [simulatorReducer].
    unfold coherent, traceOfSettings in *. by destruct s.
  - eexists. split; [done|]. unfold coherent. by destruct s.
  - eexists. split; [done|]. unfold coherent. by destruct s.
  - (* setCustomExplanationPoints *)
    eexists. split; [done|]. cbn [simulatorReducer].
    unfold coherent, traceOfSettings in *.
    rewrite runEnvironment_points. by destruct s.
  - eexists. split; [done|]. unfold coherent. by destruct s.
  - eexists. split; [done|]. unfold coherent. by destruct s.
  - eexists. split; [done|]. unfold coherent. by destruct s.
  - eexists. split; [done|]. unfold coherent. by destruct s.
  - eexists. split; [done|]. unfold coherent. by destruct s.
  - eexists. split; [done|]. unfold coherent. by destruct s.
  - eexists. split; [done|]. unfold coherent. by destruct s.
  - eexists. split; [done|]. unfold coherent. by destruct s.
  - eexists. split; [done|]. cbn [simulatorReducer].
    unfold coherent, traceOfSettings in *. by destruct s.
  - eexists. split; [done|]. cbn [simulatorReducer].
    unfold coherent, traceOfSettings in *. by destruct s.
  - eexists. split; [done|]. cbn [simulatorReducer].
    unfold coherent, traceOfSettings in *. by destruct s.
  - (* applyEdit *)
    eexists. split; [done|]. cbn [simulatorReducer]. unfold applyEdit.
    unfold coherent. destruct s. simpl.
    destruct edit; repeat case_match; done.
  - eexists. split; [done|]. unfold coherent. by destruct s.
  - eexists. split; [done|]. cbn [simulatorReducer].
    case_match; unfold coherent; by destruct s.
Qed.

Lemma buildTrace_index env startKey goalKey options t i s :
  buildTrace env startKey goalKey options = Some t →
  steps t !! i = Some s → index s = i.
Proof.
  intros Ht Hs.
  destruct (buildTrace_Ended env startKey goalKey options) as (st & Ht' & He).
  rewrite Ht in Ht'. injection Ht' as ->.
  destruct (Ended_Audit _ _ _ _ _ He) as [_ _ Hi _ _ _ _ _ _ _].
  cbn [steps traceOf] in Hs.
  apply reverse_lookup_Some_1 in Hs as [Hlt Hs].
  specialize (Hi _ _ Hs). lia.
Qed.

End Simulator.

(** ** Sessions *)

Section Sessions.
Context {DNA : Type}.
Variable computeAlgorithmDNA : Trace → AlgorithmId → DNA.
Variable getEnvironment :
  EnvironmentId → option Graph → option (list (Coord * string)) →
  option LatLng → option LatLng → option Graph → EnvironmentInfo.

(** A session: the actions that the interface dispatches, in order,
    each with the outcomes of the draws that [Math.random] makes while
    the reducer handles it. *)
Fixpoint session (state : SimulatorState)
    (actions : list ((Z → Z → bool) * SimulatorAction))
    : option (@SimulatorState DNA) :=
  match actions with
  | [] => Some state
  | (draw, a) :: rest =>
      match enhancedDispatch computeAlgorithmDNA getEnvironment draw state a with
      | Some next => session next rest
      | None => None
      end
  end.

(** X24.  Walls never cover the start or the goal.  In a state where, on
    the grid, the start and the goal are keys of cells that are not
    walls, dispatch any sequence of edits ("applyEdit" with keys of
    cells), "clearWalls", "randomWalls", runs, playback and settings
    actions; the environment is not replaced.  Then, on the grid, the
    start and the goal still are keys of cells that are not walls:
    [applyEdit] refuses a wall on them and clears the cell it moves them
    to, and [randomWalls] skips them, whatever [Math.random] draws each
    time. *)
Theorem walls_never_cover_start_or_goal
    (s : SimulatorState)
    (actions : list ((Z → Z → bool) * SimulatorAction)) :
  keysClear s → Forall (λ da, editing da.2) actions →
  ∃ s', session s actions = Some s' ∧
    (sim_environmentId s' = EnvGrid →
     keyOf (coordOf (sim_startKey s')) = sim_startKey s' ∧
     keyOf (coordOf (sim_goalKey s')) = sim_goalKey s' ∧
     isWall (sim_grid s') (coordOf (sim_startKey s')) = false ∧
     isWall (sim_grid s') (coordOf (sim_goalKey s')) = false).
Proof.
  intros Hk Hall. revert s Hk.
  induction Hall as [|[draw a] actions Ha _ IH]; intros s Hk.
  - by exists s.
  - destruct (keysClear_dispatch computeAlgorithmDNA getEnvironment draw
                s a Hk Ha) as (s1 & E1 & Hk1).
    destruct (IH s1 Hk1) as (s' & E' & H').
    exists s'. split; [|done]. cbn [session]. by rewrite E1.
Qed.

(** The catalog chooses the kind of an environment and its graph without
    looking at the explanation points. *)
Hypothesis points_do_not_matter :
  ∀ id g pts pts' a b c,
    match getEnvironment id g pts a b c, getEnvironment id g pts' a b c with
    | InfoGrid _ _ _, InfoGrid _ _ _ => True
    | InfoGraph g1 _ _, InfoGraph g2 _ _ => g1 = g2
    | _, _ => False
    end.

(** X23.  The interface always shows a snapshot of the trace of the
    current settings.  Start from a coherent state (for instance one
    without a trace, index 0, not playing) and dispatch any actions
    through [enhancedDispatch]; let the catalog choose the kind and the
    graph of an environment without looking at the explanation points.
    Then the session returns a coherent state: without a trace nothing
    plays; a trace in the state is the one [buildTrace] returns for the
    environment, keys, algorithm, heuristic and weight now in the state
    (every action that changes one of them drops the trace), and the
    index points at the snapshot of the trace that carries this index. *)
Theorem interface_shows_the_current_trace
    (s : SimulatorState)
    (actions : list ((Z → Z → bool) * SimulatorAction)) :
  coherent getEnvironment s → Forall (λ da, dispatched da.2) actions →
  ∃ s', session s actions = Some s' ∧ coherent getEnvironment s' ∧
    (sim_trace s' = None → sim_isPlaying s' = false) ∧
    (∀ t, sim_trace s' = Some t →
       buildTrace (runEnvironment getEnvironment s') (sim_startKey s')
         (sim_goalKey s')
         {| algorithm := sim_algorithm s'; heuristic := sim_heuristic s';
            heuristicWeight := sim_heuristicWeight s' |} = Some t ∧
       ∃ step, steps t !! Z.to_nat (sim_stepIndex s') = Some step ∧
               Z.of_nat (index step) = sim_stepIndex s').
Proof.
  intros Hc Hall. revert s Hc.
  induction Hall as [|[draw a] actions Ha _ IH]; intros s Hc.
  - exists s. split; [done|]. split; [done|].
    unfold coherent, traceOfSettings in Hc. split.
    + intros E. rewrite E in Hc. tauto.
    + intros t E. rewrite E in Hc. destruct Hc as (Ht & Hi & _).
      split; [done|].
      destruct (lookup_lt_is_Some_2 (steps t) (Z.to_nat (sim_stepIndex s)))
        as [step Hstep]; [lia|].
      exists step. split; [done|].
      rewrite (buildTrace_index _ _ _ _ _ _ _ Ht Hstep). lia.
  - destruct (coherent_dispatch computeAlgorithmDNA getEnvironment draw
                points_do_not_matter s a Hc Ha) as (s1 & E1 & Hc1).
    destruct (IH s1 Hc1) as (s' & E' & H').
    exists s'. split; [|done]. cbn [session]. by rewrite E1.
Qed.

End Sessions.

(** A two-cell grid world for the examples: the catalog knows one
    environment and the analysis of a trace is empty. *)
Definition demoCatalog (id : EnvironmentId) (g : option Graph)
    (pts : option (list (Coord * string))) (a b : option LatLng)
    (c : option Graph) : EnvironmentInfo :=
  InfoGrid (emptyGrid 2 1) "0,0" "1,0".

Definition demoState : @SimulatorState unit :=
  {| sim_environmentId := EnvGrid; sim_grid := emptyGrid 2 1;
     sim_customGraph := emptyGraph; sim_customExplanationPoints := [];
     sim_realWorldStart := None; sim_realWorldGoal := None;
     sim_realWorldGraph := emptyGraph;
     sim_startKey := "0,0"; sim_goalKey := "1,0"; sim_drawMode := DrawWalls;
     sim_algorithm := astar; sim_compareOn := false;
     sim_compareAlgorithm := dijkstra; sim_heuristic := manhattan;
     sim_heuristicWeight := 1; sim_learningLevel := Beginner;
     sim_explainMode := true; sim_speedMs := 120; sim_isPlaying := false;
     sim_trace := None; sim_dna := None; sim_compareTrace := None;
     sim_compareDna := None; sim_stepIndex := 0 |}.

Lemma interface_shows_the_current_trace_witness :
  ∃ s', session (λ _ _, tt) demoCatalog demoState
          [(λ _ _, false, Run); (λ _ _, true, Step 1);
           (λ _ _, false, TogglePlay)] = Some s' ∧
    coherent demoCatalog s' ∧
    (sim_trace s' = None → sim_isPlaying s' = false) ∧
    (∀ t, sim_trace s' = Some t →
       buildTrace (runEnvironment demoCatalog s') (sim_startKey s')
         (sim_goalKey s')
         {| algorithm := sim_algorithm s'; heuristic := sim_heuristic s';
            heuristicWeight := sim_heuristicWeight s' |} = Some t ∧
       ∃ step, steps t !! Z.to_nat (sim_stepIndex s') = Some step ∧
               Z.of_nat (index step) = sim_stepIndex s').
Proof.
  apply (interface_shows_the_current_trace (λ _ _, tt) demoCatalog).
  - intros. exact I.
  - simpl. done.
  - repeat constructor.
Defined.

Lemma walls_never_cover_start_or_goal_witness :
  ∃ s', session (λ _ _, tt) demoCatalog demoState
          [(λ _ _, false, ApplyEdit (EditWall "1,0" true));
           (λ _ _, true, RandomWalls);
           (λ _ _, false, ApplyEdit (EditStart "1,0"))] = Some s' ∧
    (sim_environmentId s' = EnvGrid →
     keyOf (coordOf (sim_startKey s')) = sim_startKey s' ∧
     keyOf (coordOf (sim_goalKey s')) = sim_goalKey s' ∧
     isWall (sim_grid s') (coordOf (sim_startKey s')) = false ∧
     isWall (sim_grid s') (coordOf (sim_goalKey s')) = false).
Proof.
  apply (walls_never_cover_start_or_goal (λ _ _, tt) demoCatalog).
  - unfold keysClear. intros Hgrid.
    split; [reflexivity|]. split; [reflexivity|].
    split; vm_compute; reflexivity.
  - repeat constructor.
Defined.

(* ===================================================================== *)
(** * From one snapshot to the next *)
(* ===================================================================== *)

(** The four books of two snapshots are the same. *)
Definition sameBooks (a b : StepSnapshot) : Prop :=
  visited b = visited a ∧ closed b = closed a ∧
  cameFrom b = cameFrom a ∧ gScore b = gScore a.

Section Deltas.
Variable env : Environment.
Variables startKey goalKey : string.
Variable options : RunOptions.

Local Abbreviation adapter := (adapterOf env).
Local Abbreviation frontierOf := (frontierToArray options).
Local Abbreviation push_step := (pushStep options).
Local Abbreviation body_ := (body env startKey goalKey options).
Local Abbreviation expand_ := (expand env options).
Local Abbreviation relaxAll_ := (relaxAll env goalKey options).
Local Abbreviation relaxNeighbor_ := (relaxNeighbor env goalKey options).
Local Abbreviation select_ := (select options).
Local Abbreviation initState_ := (initState env startKey goalKey options).

Local Open Scope nat_scope.

Ltac head h := let E := fresh in intros h E; cbv beta in E; subst h.

Ltac proj :=
  cbn [st_visited st_closed st_cameFrom st_gScore st_steps st_relaxations
       st_queue st_stack st_heap st_peakFrontier st_peakClosed
       pushStep set_frontier set_books fst snd] in *.

(** What a snapshot [b] with the relaxation event [r] shows, against the
    snapshot [a] before it: a neighbour [rx_to r] of the selected key,
    not closed, has been recorded with its parent and, by the cost-aware
    strategies, with its new cost, which is smaller than the old one;
    the frontier does not hold it yet. *)
Definition eventDelta (a b : StepSnapshot) (r : RelaxationEvent) : Prop :=
  ∃ sel nb,
    selected (partial b) = Some sel ∧
    nb ∈ neighbors adapter (it_key sel) ∧
    rx_from r = it_key sel ∧ rx_to r = nb_key nb ∧ rx_improved r = true ∧
    rx_newG r = (default 0 (gScore a !! it_key sel)
                 + stepCostOf options adapter nb)%Z ∧
    (rx_to r ∉ closed a) ∧
    closed b = closed a ∧ frontier b = frontier a ∧
    visited b = {[ rx_to r ]} ∪ visited a ∧
    cameFrom b = <[rx_to r := rx_from r]> (cameFrom a) ∧
    if is_unweighted options
    then (rx_to r ∉ visited a) ∧ rx_oldG r = None ∧ gScore b = gScore a
    else rx_oldG r = gScore a !! rx_to r ∧
         (∀ o, rx_oldG r = Some o → (rx_newG r < o)%Z) ∧
         gScore b = <[rx_to r := rx_newG r]> (gScore a).

(** [delta a b]: what the snapshot [b] shows against the snapshot [a]
    directly before it. *)
Definition delta (a b : StepSnapshot) : Prop :=
  match phase (partial b) with
  | PInit => False
  | PSelect =>
      sameBooks a b ∧
      ∃ sel, selected (partial b) = Some sel ∧ sel ∈ frontier a ∧
             (it_key sel ∉ closed a) ∧
             ∀ it, it ∈ frontier b → it ∈ frontier a
  | PExpand =>
      ∃ sel, selected (partial b) = Some sel ∧
             visited b = visited a ∧
             closed b = {[ it_key sel ]} ∪ closed a ∧
             cameFrom b = cameFrom a ∧ gScore b = gScore a ∧
             frontier b = frontier a
  | PFound => sameBooks a b ∧ frontier b = frontier a
  | PExhausted => sameBooks a b ∧ ∀ it, it ∈ frontier b → it ∈ frontier a
  | PRelax | PEnqueue =>
      match relaxation (partial b) with
      | Some r => eventDelta a b r
      | None =>
          phase (partial b) = PEnqueue ∧ sameBooks a b ∧
          ∃ r it, relaxation (partial a) = Some r ∧ it_key it = rx_to r ∧
                  frontier b ≡ₚ it :: frontier a
      end
  end.

(** The snapshots so far, newest first, each against the one before it;
    [R] describes the newest one. *)
Definition Trk (R : StepSnapshot → Prop) (st : State) : Prop :=
  ∃ h l, st_steps st = h :: l ∧ R h ∧
    ∀ i a b, st_steps st !! S i = Some a → st_steps st !! i = Some b →
             delta a b.

(** The newest snapshot shows the state as it is. *)
Definition shows (st : State) (h : StepSnapshot) : Prop :=
  visited h = st_visited st ∧ closed h = st_closed st ∧
  cameFrom h = st_cameFrom st ∧ gScore h = st_gScore st ∧
  frontier h = frontierOf st.

(** Between two turns of the loop the frontier may have lost entries
    since the newest snapshot. *)
Definition showsSub (st : State) (h : StepSnapshot) : Prop :=
  visited h = st_visited st ∧ closed h = st_closed st ∧
  cameFrom h = st_cameFrom st ∧ gScore h = st_gScore st ∧
  ∀ it, it ∈ frontierOf st → it ∈ frontier h.

Lemma shows_showsSub st h : shows st h → showsSub st h.
Proof. intros (? & ? & ? & ? & E). unfold showsSub. by rewrite E. Qed.

Lemma Trk_push (R : StepSnapshot → Prop) p st :
  Trk R st → (∀ h, R h → delta h (stepOf options p st)) →
  Trk (λ h, h = stepOf options p st) (push_step p st).
Proof.
  intros (h & l & E & HR & Hall) Hd.
  exists (stepOf options p st), (st_steps st). split; [done|]. split; [done|].
  intros i a b. proj. destruct i as [|i]; simpl.
  - rewrite E. simpl. intros [= <-] [= <-]. by apply Hd.
  - apply Hall.
Qed.

Lemma Trk_weaken (R Q : StepSnapshot → Prop) st st' :
  st_steps st' = st_steps st → Trk R st → (∀ h, R h → Q h) → Trk Q st'.
Proof.
  intros E (h & l & E' & HR & Hall) H. exists h, l. rewrite E. auto.
Qed.

Lemma shows_push p st : shows (push_step p st) (stepOf options p st).
Proof.
  unfold shows. proj. by rewrite (frontierOf_pushStep options).
Qed.

Lemma Trk_shows p st :
  Trk (λ h, h = stepOf options p st) (push_step p st) →
  Trk (shows (push_step p st)) (push_step p st).
Proof.
  intros H. eapply Trk_weaken; [done|exact H|].
  intros h ->. apply shows_push.
Qed.

Lemma Trk_init : Trk (shows initState_) initState_.
Proof.
  eexists _, []. split; [done|]. split; [apply shows_push|].
  intros i a b. unfold initState. proj. by destruct i.
Qed.

Lemma frontierOf_books v c cf gs rel st :
  frontierOf (set_books v c cf gs rel st) = frontierOf st.
Proof. unfold frontierToArray. by destruct (frontierKindFor _). Qed.

Lemma select_keeps st it :
  it ∈ frontierOf (select_ st).2 → it ∈ frontierOf st.
Proof.
  destruct (fk_cases options)
    as [(Hfk & _ & Hfr)|[(Hfk & _ & Hfr)|(Hfk & _ & Hfr)]];
    rewrite !Hfr; unfold select; rewrite Hfk.
  - destruct (st_queue st) as [|x q] eqn:E; cbn [snd]; [by rewrite E|].
    proj. set_solver.
  - destruct (st_stack st) as [|x q] eqn:E; cbn [snd]; [by rewrite E|].
    proj. rewrite <-E.
    destruct (exists_last (l := st_stack st) ltac:(by rewrite E))
      as (front & lst & ->).
    rewrite removelast_last. set_solver.
  - proj. intros (nd & -> & Hnd)%list_elem_of_fmap.
    apply list_elem_of_fmap. exists nd. split; [done|].
    by apply (popFresh_sub (S (length (st_heap st))) (st_closed st)
                (st_gScore st) (st_heap st)).
Qed.

Lemma select_in st sel :
  (select_ st).1 = Some sel → sel ∈ frontierOf st.
Proof.
  destruct (fk_cases options)
    as [(Hfk & _ & Hfr)|[(Hfk & _ & Hfr)|(Hfk & _ & Hfr)]];
    rewrite !Hfr; unfold select; rewrite Hfk.
  - destruct (st_queue st) as [|x q]; [done|]. intros [= <-]. set_solver.
  - destruct (st_stack st) as [|x q] eqn:E; [done|]. cbn [fst]. rewrite <-E.
    destruct (exists_last (l := st_stack st) ltac:(by rewrite E))
      as (front & lst & ->).
    rewrite last_last. intros [= <-]. set_solver.
  - cbn [fst]. intros Hs.
    by apply (popFresh_sub (S (length (st_heap st))) (st_closed st)
                (st_gScore st) (st_heap st)).
Qed.

Lemma showsSub_select st h : showsSub st h → showsSub (select_ st).2 h.
Proof.
  intros (Hv & Hc & Hcf & Hg & Hf). unfold showsSub.
  rewrite (select_visited options), (select_closed options),
    (select_cameFrom options), (select_gScore options).
  split_and!; try done. intros it Hit. by apply Hf, select_keeps.
Qed.

(** The "select" snapshot. *)
Lemma Trk_select st sel :
  Trk (showsSub st) st → (select_ st).1 = Some sel →
  it_key sel ∉ st_closed (select_ st).2 →
  Trk (shows (push_step (selectPartial options sel (frontierOf (select_ st).2))
                        (select_ st).2))
      (push_step (selectPartial options sel (frontierOf (select_ st).2))
                 (select_ st).2).
Proof.
  intros H Hsel Hcl.
  apply Trk_shows.
  apply (Trk_push (showsSub st)).
  - eapply Trk_weaken; [|exact H|done]. apply (select_steps options).
  - intros h (Hv & Hc & Hcf & Hg & Hf). unfold delta, sameBooks. simpl.
    rewrite (select_visited options), (select_closed options),
      (select_cameFrom options), (select_gScore options), Hv, Hc, Hcf, Hg.
    split; [done|]. exists sel. split_and!; try done.
    + by apply Hf, select_in.
    + by rewrite (select_closed options) in Hcl.
    + intros it Hit. by apply Hf, select_keeps.
Qed.

(** The "expand" snapshot and the one with the warnings. *)
Lemma Trk_expand sel st :
  Trk (shows st) st →
  Trk (shows (expand_ sel st)) (expand_ sel st).
Proof.
  intros H. unfold expand. cbv zeta.
  set (st1 := set_books (st_visited st) ({[it_key sel]} ∪ st_closed st)
                (st_cameFrom st) (st_gScore st) (st_relaxations st) st).
  set (p1 := partialOf PExpand (Some sel)
               (Some (selectionReasonOf options sel))).
  assert (Trk (λ h, h = stepOf options p1 st1) (push_step p1 st1)) as H1.
  { apply (Trk_push (shows st)).
    - eapply Trk_weaken; [|exact H|done]. done.
    - intros h (Hv & Hc & Hcf & Hg & Hf). unfold delta. simpl.
      exists sel. rewrite Hv, Hc, Hcf, Hg, Hf. split_and!; try done; try apply frontierOf_books. }
  case_bool_decide as Hw.
  - apply Trk_shows.
    eapply Trk_push; [exact H1|]. head h. unfold delta. simpl.
    exists sel. split_and!; try done; try apply frontierOf_pushStep. set_solver.
  - by apply Trk_shows.
Qed.

(** One turn of the neighbour loop. *)
Lemma Trk_relaxNeighbor sel curG curDepth st nb :
  Trk (shows st) st →
  nb ∈ neighbors adapter (it_key sel) →
  it_key sel ∈ st_closed st →
  default 0%Z (st_gScore st !! it_key sel) = curG →
  Trk (shows (relaxNeighbor_ sel curG curDepth st nb))
      (relaxNeighbor_ sel curG curDepth st nb) ∧
  st_closed (relaxNeighbor_ sel curG curDepth st nb) = st_closed st ∧
  default 0%Z (st_gScore (relaxNeighbor_ sel curG curDepth st nb)
                 !! it_key sel) = curG.
Proof.
  intros H Hnb Hsel Hcur. unfold relaxNeighbor.
  case_bool_decide as Hcl; [done|].
  assert (nb_key nb ≠ it_key sel) as Hne by (by intros E; rewrite E in Hcl).
  destruct (fk_cases options)
    as [(Hfk & Hun & Hfr)|[(Hfk & Hun & Hfr)|(Hfk & Hun & Hfr)]];
    rewrite Hun.
  - (* the queue *)
    case_bool_decide as Hvis; [done|].
    rewrite Hfk, bool_decide_eq_true_2 by done. split; [|done].
    apply Trk_shows.
    eapply Trk_push.
    + eapply (Trk_push (shows st)).
      * eapply Trk_weaken; [|exact H|done]. done.
      * intros h (Hv & Hc & Hcf & Hg & Hf). unfold delta. simpl.
        exists sel, nb. rewrite Hun, Hv, Hc, Hcf, Hg, Hf, Hcur. simpl.
        split_and!; try done; try apply frontierOf_books.
    + head h. unfold delta, sameBooks. simpl. split_and!; try done.
      eexists _, _. split; [done|]. split; [|rewrite !Hfr; proj;
        symmetry; apply Permutation_cons_append].
      unfold discoveredItem. by rewrite makeItem_key.
  - (* the stack *)
    case_bool_decide as Hvis; [done|].
    rewrite Hfk, bool_decide_eq_false_2 by done. split; [|done].
    apply Trk_shows.
    eapply Trk_push.
    + eapply (Trk_push (shows st)).
      * eapply Trk_weaken; [|exact H|done]. done.
      * intros h (Hv & Hc & Hcf & Hg & Hf). unfold delta. simpl.
        exists sel, nb. rewrite Hun, Hv, Hc, Hcf, Hg, Hf, Hcur. simpl.
        split_and!; try done; try apply frontierOf_books.
    + head h. unfold delta, sameBooks. simpl. split_and!; try done.
      eexists _, _. split; [done|]. split; [|rewrite !Hfr; proj;
        symmetry; apply Permutation_cons_append].
      unfold discoveredItem. by rewrite makeItem_key.
  - (* the heap *)
    cbv zeta.
    destruct (negb _) eqn:Himp; [done|].
    split; [|split; [done|proj; by rewrite lookup_insert_ne]].
    apply Trk_shows.
    eapply Trk_push.
    + eapply (Trk_push (shows st)).
      * eapply Trk_weaken; [|exact H|done]. done.
      * intros h (Hv & Hc & Hcf & Hg & Hf). unfold delta. simpl.
        exists sel, nb. rewrite Hun, Hv, Hc, Hcf, Hg, Hf, Hcur. simpl.
        split_and!; try done; try apply frontierOf_books.
        intros o Ho. rewrite Ho in Himp. simpl in Himp.
        apply negb_false_iff, bool_decide_eq_true_1 in Himp. done.
    + head h. unfold delta, sameBooks. simpl. split_and!; try done.
      eexists _, _. split; [done|]. split; [|rewrite !Hfr; proj;
        by rewrite HeapFacts.push_Permutation, fmap_cons].
      unfold heapNodeOf, relaxedItem. cbn [hn_value]. by rewrite makeItem_key.
Qed.

Lemma Trk_foldl sel g d l st :
  Trk (shows st) st →
  (∀ nb, nb ∈ l → nb ∈ neighbors adapter (it_key sel)) →
  it_key sel ∈ st_closed st →
  default 0%Z (st_gScore st !! it_key sel) = g →
  Trk (shows (foldl (relaxNeighbor_ sel g d) st l))
      (foldl (relaxNeighbor_ sel g d) st l).
Proof.
  revert st. induction l as [|nb l IH]; intros st H Hall Hsel Hcur; [done|].
  simpl.
  destruct (Trk_relaxNeighbor sel g d st nb H) as (H1 & Hc1 & Hg1);
    [apply Hall; left|done|done|].
  apply IH; [done| |by rewrite Hc1|done].
  intros nb' ?. apply Hall. by right.
Qed.

Lemma Trk_relaxAll sel st :
  Trk (shows st) st → it_key sel ∈ st_closed st →
  Trk (shows (relaxAll_ sel st)) (relaxAll_ sel st).
Proof. intros H Hsel. by apply Trk_foldl. Qed.

Lemma Trk_body st fl st' :
  Trk (showsSub st) st → body_ st = Some (fl, st') → Trk (showsSub st') st'.
Proof.
  intros H Hb.
  pose proof (body_case env startKey goalKey options st) as Hc.
  rewrite Hb in Hc.
  inversion Hc as [Hn|sel Hsel Hcl|sel p Hsel Hcl Hg Hp|
                   |sel Hsel Hcl Hg]; subst.
  - eapply Trk_weaken; [apply (select_steps options)|exact H|].
    apply showsSub_select.
  - eapply Trk_weaken; [apply (select_steps options)|exact H|].
    apply showsSub_select.
  - eapply Trk_weaken; [done| |apply shows_showsSub]. apply Trk_shows.
    eapply Trk_push; [by apply Trk_select|].
    intros h (Hv & Hc' & Hcf & Hgs & Hf). unfold delta, sameBooks. simpl.
    by rewrite Hv, Hc', Hcf, Hgs, Hf.
  - eapply Trk_weaken; [done| |apply shows_showsSub].
    apply Trk_relaxAll.
    + apply Trk_expand. by apply Trk_select.
    + destruct (expand_frame env options sel
        (push_step (selectPartial options sel (frontierOf (select_ st).2))
                   (select_ st).2)) as (_ & -> & _). set_solver.
Qed.

Lemma runLoop_Trk :
  ∃ it st, runLoop env startKey goalKey options = Some (it, st) ∧
           Trk (λ _, True) st.
Proof.
  destruct (runLoop_returns env startKey goalKey options)
    as (it & st & Hrun & _).
  exists it, st. split; [done|].
  apply (mainLoop_rule env startKey goalKey options
           (λ _ st, Trk (showsSub st) st) (λ _ st, Trk (λ _, True) st))
    with (fuel := S (Z.to_nat (maxIterations env))) (it := 0%Z)
         (st := initState_) (r := (it, st)).
  - intros _ s H _. by eapply Trk_weaken.
  - intros _ s H _ _. eapply Trk_weaken; [done| |done].
    eapply Trk_push; [exact H|].
    intros h (Hv & Hc' & Hcf & Hgs & Hf). unfold delta, sameBooks. simpl.
    by rewrite Hv, Hc', Hcf, Hgs.
  - intros _ s s' H _ _ Hb. eapply Trk_weaken; [done| |done].
    by eapply Trk_body.
  - intros _ s s' H _ _ Hb. by eapply Trk_body.
  - eapply Trk_weaken; [done|apply Trk_init|apply shows_showsSub].
  - exact Hrun.
Qed.

(** X25.  Every snapshot of a trace after the first is explained by the
    one before it ([delta]): a "select" snapshot shows the same four
    books and an entry of the earlier frontier, not closed, as selected,
    with nothing new on the frontier; an "expand" snapshot adds the
    selected key to the closed set and nothing else; a snapshot with a
    relaxation event records one neighbour of the selected key, not
    closed, as visited with the selected key as its parent (and, by the
    cost-aware strategies, with a cost smaller than the one it had) and
    leaves the frontier alone; the "enqueue" snapshot after it adds one
    entry for that neighbour to the frontier and leaves the books alone;
    "found" changes nothing, and "exhausted" adds nothing. *)
Theorem snapshot_explained_by_the_one_before :
  ∃ t, buildTrace env startKey goalKey options = Some t ∧
       ∀ i a b, steps t !! i = Some a → steps t !! S i = Some b → delta a b.
Proof.
  destruct runLoop_Trk as (it & st & Hrun & (h & l & E & _ & Hall)).
  unfold buildTrace. rewrite Hrun. eexists. split; [done|].
  intros i a b Ha Hb. cbn [steps traceOf] in Ha, Hb.
  assert (S i < length (st_steps st)) as Hlen.
  { apply lookup_lt_Some in Hb. by rewrite length_reverse in Hb. }
  rewrite reverse_lookup in Ha by lia. rewrite reverse_lookup in Hb by lia.
  apply (Hall (length (st_steps st) - S (S i))); [|done].
  by replace (S (length (st_steps st) - S (S i)))
    with (length (st_steps st) - S i) by lia.
Qed.

End Deltas.

(* ===================================================================== *)
(** * The rejection lists of a run *)
(* ===================================================================== *)

(** The stable insertion sort keeps the items that share a property in
    their order, when no item jumps over another one with the property
    while having it itself. *)
Lemma insert_sorted_filter {A} (le : A → A → bool) (P : A → Prop)
    `{!∀ x, Decision (P x)} a l :
  (∀ b, b ∈ l → le a b = false → ¬ (P a ∧ P b)) →
  filter P (insert_sorted le a l) = filter P (a :: l).
Proof.
  induction l as [|b l IH]; intros Hj; [done|]. simpl.
  destruct (le a b) eqn:E; [done|].
  assert (¬ (P a ∧ P b)) as Hab by (apply Hj; [by left|done]).
  rewrite (filter_cons _ b), IH by (intros c Hc; apply Hj; by right).
  rewrite !filter_cons. repeat case_decide; tauto || done.
Qed.

Lemma stable_sort_filter {A} (le : A → A → bool) (P : A → Prop)
    `{!∀ x, Decision (P x)} l :
  (∀ a b, a ∈ l → b ∈ l → le a b = false → ¬ (P a ∧ P b)) →
  filter P (stable_sort le l) = filter P l.
Proof.
  induction l as [|a l IH]; intros Hj; [done|].
  unfold stable_sort in *. simpl.
  rewrite insert_sorted_filter.
  - rewrite !filter_cons, IH; [done|].
    intros x y Hx Hy. apply Hj; by right.
  - intros b Hb. apply Hj; [by left|].
    right. fold (stable_sort le l) in Hb.
    assert (stable_sort le l ≡ₚ l) as Hp.
    { clear. induction l as [|x l IH]; [done|]. unfold stable_sort in *.
      simpl. by rewrite insert_sorted_Permutation, IH. }
    by rewrite <-Hp.
Qed.

Lemma insert_sorted_fmap {A B} (f : A → B) (le : B → B → bool) a l :
  insert_sorted le (f a) (f <$> l) =
  f <$> insert_sorted (λ x y, le (f x) (f y)) a l.
Proof.
  induction l as [|b l IH]; [done|]. simpl.
  destruct (le (f a) (f b)); [done|]. simpl. f_equal. exact IH.
Qed.

Lemma stable_sort_fmap {A B} (f : A → B) (le : B → B → bool) l :
  stable_sort le (f <$> l) = f <$> stable_sort (λ x y, le (f x) (f y)) l.
Proof.
  induction l as [|a l IH]; [done|]. unfold stable_sort in *.
  rewrite fmap_cons. cbn [foldr]. by rewrite IH, insert_sorted_fmap.
Qed.

(** [compareWhyNot] when every item has a number as its metric value
    [val]: the items with another key than the chosen one are sorted by
    [val] in ascending order, items of equal value staying in their
    order; the first four are kept; of these, the items whose value is
    the chosen value are dropped. *)
Lemma compareWhyNot_numeric metric (val : FrontierItem → Z) frontier chosen :
  (∀ it, it ∈ chosen :: frontier → metricValue metric it = Fin (val it)) →
  ∃ cands,
    cands ≡ₚ filter (λ x, it_key x ≠ it_key chosen) frontier ∧
    StronglySorted (λ a b, val a <= val b) cands ∧
    (∀ v, filter (λ x, val x = v) cands =
          filter (λ x, val x = v)
                 (filter (λ x, it_key x ≠ it_key chosen) frontier)) ∧
    compareWhyNot frontier chosen metric =
      (λ c, {| rj_candidate := c; rj_chosen := chosen; rj_metric := metric;
               rj_candidateValue := Fin (val c);
               rj_chosenValue := Fin (val chosen) |})
      <$> filter (λ c, val c ≠ val chosen) (take 4 cands).
Proof.
  intros Hval.
  set (others := filter (λ x, it_key x ≠ it_key chosen) frontier).
  set (le := λ a b : FrontierItem,
               ext_le (metricValue metric a) (metricValue metric b)).
  assert (∀ it, it ∈ others → metricValue metric it = Fin (val it)) as Ho.
  { intros it [_ Hit]%list_elem_of_filter. apply Hval. by right. }
  assert (stable_sort le others ≡ₚ others) as Hperm.
  { apply stable_sort_Permutation. }
  assert (∀ it, it ∈ stable_sort le others →
                metricValue metric it = Fin (val it)) as Hs.
  { intros it Hit. apply Ho. by rewrite <-Hperm. }
  exists (stable_sort le others). split_and!.
  - done.
  - eapply StronglySorted_ext; [|apply (stable_sort_StronglySorted le)].
    + intros a b Ha Hb. unfold le. rewrite (Hs a Ha), (Hs b Hb). simpl.
      by intros ?%bool_decide_eq_true.
    + intros a b. unfold le. apply ext_le_total.
    + intros a b c. unfold le. apply ext_le_trans.
  - intros v. apply stable_sort_filter.
    intros a b Ha Hb. unfold le. rewrite (Ho a Ha), (Ho b Hb). simpl.
    intros Hf%bool_decide_eq_false [Ea Eb]. lia.
  - unfold compareWhyNot. fold others.
    rewrite (Hval chosen) by (by left).
    rewrite (stable_sort_fmap (λ c, (c, metricValue metric c))
               (λ a b, ext_le a.2 b.2) others).
    change (λ x y : FrontierItem,
              ext_le (x, metricValue metric x).2 (y, metricValue metric y).2)
      with le.
    rewrite <-fmap_take.
    assert (∀ it, it ∈ take 4 (stable_sort le others) →
                  metricValue metric it = Fin (val it)) as Ht.
    { intros it Hit. apply Hs.
      rewrite <-(take_drop 4 (stable_sort le others)).
      apply elem_of_app. by left. }
    induction (take 4 (stable_sort le others)) as [|c l IH]; [done|].
    rewrite fmap_cons, !filter_cons. cbn [snd].
    rewrite (Ht c) by (by left).
    specialize (IH ltac:(intros x Hx; apply Ht; by right)).
    destruct (decide (val c = val chosen)) as [E|E].
    + rewrite decide_False by (rewrite E; naive_solver).
      rewrite decide_False by naive_solver. exact IH.
    + rewrite decide_True by (intros [= ?]; done).
      rewrite decide_True by done.
      rewrite !fmap_cons, IH. done.
Qed.

Section WhyNot.
Variable env : Environment.
Variables startKey goalKey : string.
Variable options : RunOptions.

Local Abbreviation adapter := (adapterOf env).
Local Abbreviation fk := (frontierKindFor (algorithm options)).
Local Abbreviation frontierOf := (frontierToArray options).
Local Abbreviation push_step := (pushStep options).
Local Abbreviation body_ := (body env startKey goalKey options).
Local Abbreviation expand_ := (expand env options).
Local Abbreviation relaxAll_ := (relaxAll env goalKey options).
Local Abbreviation relaxNeighbor_ := (relaxNeighbor env goalKey options).
Local Abbreviation select_ := (select options).
Local Abbreviation initState_ := (initState env startKey goalKey options).

Local Open Scope nat_scope.

Ltac proj :=
  cbn [st_visited st_closed st_cameFrom st_gScore st_steps st_relaxations
       st_queue st_stack st_heap st_peakFrontier st_peakClosed
       pushStep set_frontier set_books fst snd] in *.

(** What [makeItem] writes into an item of the cost-aware strategies:
    a [g] for Dijkstra, an [f] for A*. *)
Definition priced (it : FrontierItem) : Prop :=
  match algorithm options with
  | dijkstra => is_Some (it_g it)
  | astar => is_Some (it_f it)
  | bfs | dfs => True
  end.

(** Every item of the frontier is priced, and so are the selected item
    and the frontier of every "select" snapshot. *)
Definition Priced (st : State) : Prop :=
  Forall priced (frontierOf st) ∧
  Forall (λ s, ∀ sel, selected (partial s) = Some sel →
               phase (partial s) = PSelect →
               Forall priced (sel :: frontier s))
         (st_steps st).

Lemma priced_makeItem at_ key g h d :
  priced (makeItem at_ key (algorithm options) g h d (heuristicWeight options)).
Proof. unfold priced, makeItem. destruct (algorithm options); eauto. Qed.

Lemma Priced_unweighted st : is_unweighted options = true → Priced st.
Proof.
  intros Hu.
  assert (∀ it, priced it) as Hall.
  { intros it. unfold priced. unfold is_unweighted in Hu.
    by destruct (algorithm options). }
  split; apply Forall_forall; [done|].
  intros s _ sel _ _. by apply Forall_forall.
Qed.

Lemma Priced_push p st :
  Priced st → phase p ≠ PSelect → Priced (push_step p st).
Proof.
  intros [Hf Hs] Hp. split.
  - by rewrite (frontierOf_pushStep options).
  - proj. constructor; [|done]. intros sel _ E. done.
Qed.

Lemma Priced_frontier st st' :
  st_steps st' = st_steps st →
  (∀ it, it ∈ frontierOf st' → it ∈ frontierOf st ∨ priced it) →
  Priced st → Priced st'.
Proof.
  intros E Hfr [Hf Hs]. split; [|by rewrite E].
  apply Forall_forall. intros it Hit. rewrite Forall_forall in Hf.
  destruct (Hfr it Hit); auto.
Qed.

Lemma Priced_init : Priced initState_.
Proof.
  unfold initState. apply Priced_push; [|done]. split; [|constructor].
  apply Forall_forall. intros it Hit.
  assert (it = startItemOf options adapter startKey goalKey) as ->.
  { revert Hit. unfold frontierToArray. cbn [st_queue st_stack st_heap].
    destruct fk; cbn [bool_decide decide_rel]; simpl;
      rewrite ?heap_push_nil; simpl; by intros ->%list_elem_of_singleton. }
  apply priced_makeItem.
Qed.

Lemma Priced_select st : Priced st → Priced (select_ st).2.
Proof.
  apply Priced_frontier; [apply (select_steps options)|].
  intros it Hit. left. by apply (select_keeps options).
Qed.

Lemma Priced_selected st sel :
  Priced st → (select_ st).1 = Some sel →
  Priced (push_step (selectPartial options sel (frontierOf (select_ st).2))
                    (select_ st).2).
Proof.
  intros H Hsel. pose proof (Priced_select st H) as [Hf Hs]. split.
  - by rewrite (frontierOf_pushStep options).
  - proj. constructor; [|done]. cbn [selected partial selectPartial frontier].
    intros ? [= <-] _. constructor; [|done].
    destruct H as [H _]. rewrite Forall_forall in H.
    by apply H, (select_in options).
Qed.

Lemma Priced_expand sel st : Priced st → Priced (expand_ sel st).
Proof.
  intros H. unfold expand. cbv zeta.
  assert (Priced (push_step
            (partialOf PExpand (Some sel) (Some (selectionReasonOf options sel)))
            (set_books (st_visited st) ({[it_key sel]} ∪ st_closed st)
               (st_cameFrom st) (st_gScore st) (st_relaxations st) st))) as H1.
  { apply Priced_push; [|done].
    eapply Priced_frontier; [| |exact H]; [done|].
    intros it Hit. left. by rewrite (frontierOf_books options) in Hit. }
  case_bool_decide as Hw; [|done]. by apply Priced_push.
Qed.

Lemma Priced_relaxNeighbor sel curG curDepth st nb :
  Priced st → Priced (relaxNeighbor_ sel curG curDepth st nb).
Proof.
  intros H.
  destruct (is_unweighted options) eqn:Hun; [by apply Priced_unweighted|].
  unfold relaxNeighbor. rewrite Hun. cbv zeta.
  case_bool_decide as Hcl; [done|].
  destruct (negb _); [done|].
  match goal with
  | |- Priced (push_step _ (set_frontier _ _ _ (push_step ?p1 ?st1))) =>
      apply Priced_push; [|done];
      apply (Priced_frontier (push_step p1 st1));
        [done| |apply Priced_push; [|done]]
  end.
  - intros it. unfold frontierToArray at 1.
    assert (fk = minheap) as ->.
    { unfold is_unweighted in Hun. by destruct (algorithm options). }
    proj. rewrite HeapFacts.push_Permutation, fmap_cons.
    intros [-> | Hit]%elem_of_cons.
    + right. cbn [hn_value heapNodeOf]. apply priced_makeItem.
    + left. unfold frontierToArray.
      assert (fk = minheap) as ->.
      { unfold is_unweighted in Hun. by destruct (algorithm options). }
      exact Hit.
  - eapply Priced_frontier; [| |exact H]; [done|].
    intros it Hit. left. by rewrite (frontierOf_books options) in Hit.
Qed.

Lemma Priced_relaxAll sel st : Priced st → Priced (relaxAll_ sel st).
Proof.
  unfold relaxAll. generalize (neighbors adapter (it_key sel)).
  generalize (default 0%Z (st_gScore st !! it_key sel)).
  generalize (default 0%Z (it_depth sel)).
  intros d g l. revert st. induction l as [|nb l IH]; intros st H; [done|].
  simpl. by apply IH, Priced_relaxNeighbor.
Qed.

Lemma Priced_body st fl st' :
  Priced st → body_ st = Some (fl, st') → Priced st'.
Proof.
  intros H Hb.
  pose proof (body_case env startKey goalKey options st) as Hc.
  rewrite Hb in Hc.
  inversion Hc as [Hn|sel Hsel Hcl|sel p Hsel Hcl Hg Hp|
                   |sel Hsel Hcl Hg]; subst.
  - by apply Priced_select.
  - by apply Priced_select.
  - apply Priced_push; [|done]. by apply Priced_selected.
  - apply Priced_relaxAll, Priced_expand. by apply Priced_selected.
Qed.

Lemma runLoop_Priced it st :
  runLoop env startKey goalKey options = Some (it, st) → Priced st.
Proof.
  unfold runLoop. intros Hrun.
  apply (mainLoop_rule env startKey goalKey options
           (λ _ st, Priced st) (λ _ st, Priced st)) in Hrun; [done|..].
  - by intros.
  - intros _ s H _ _. by apply Priced_push.
  - intros _ s s' H _ _ Hb. by eapply Priced_body.
  - intros _ s s' H _ _ Hb. by eapply Priced_body.
  - apply Priced_init.
Qed.

End WhyNot.

(** A star: the centre S with five edges of cost 1 and one of cost 2. *)
Definition starGraph : Graph :=
  {| directed := true;
     nodes :=
       (λ k, {| gn_id := k; gn_at := {| cx := 0; cy := 0 |} |})
       <$> ["S"; "A"; "B"; "C"; "D"; "E"; "F"];
     edges :=
       [ {| e_from := "S"; e_to := "A"; e_cost := 1 |};
         {| e_from := "S"; e_to := "B"; e_cost := 1 |};
         {| e_from := "S"; e_to := "C"; e_cost := 1 |};
         {| e_from := "S"; e_to := "D"; e_cost := 1 |};
         {| e_from := "S"; e_to := "E"; e_cost := 1 |};
         {| e_from := "S"; e_to := "F"; e_cost := 2 |} ] |}.

(** C1 in its own words: the list holds, in ascending order of the
    metric, the up to four smallest of the frontier items that are not
    the chosen one and do not tie with it. *)
Definition whyNotAsClaimed (val : FrontierItem → Z) (chosen : FrontierItem)
    (frontier : list FrontierItem) (reasons : list RejectionReason) : Prop :=
  ∃ ranked,
    ranked ≡ₚ filter (λ x, it_key x ≠ it_key chosen ∧ val x ≠ val chosen)
                     frontier ∧
    StronglySorted (λ a b, val a <= val b) ranked ∧
    rj_candidate <$> reasons = take 4 ranked.

(** The snapshot at position [i] of the trace of Dijkstra on the star
    from S to F. *)
Definition starStep (i : nat) : option StepSnapshot :=
  buildTrace (GraphEnv starGraph) "S" "F" dijkstraOptions
  ≫= λ t, steps t !! i.


